(** * The multilingual language toolchain: lexer, parser, bytecode compiler, VM

    A shallow embedding of [src/compiler/lexer.ts], [src/compiler/parser.ts],
    [src/compiler/ast.ts], [src/compiler/bytecode.ts] and the keyword tables
    of [src/language/definitions.ts], followed by the properties of the
    toolchain that were checked against it.

    JavaScript values are modelled by the type [JS.Value]; numbers are the
    kernel's binary64 floats, which is the number type of the language the
    toolchain is written in. A source text is a [string] of one-byte
    characters; the toolchain reads a text one UTF-16 code unit at a time,
    and the two readings agree on ASCII sources. *)

From Stdlib Require Import ZArith NArith List Bool Ascii String Lia.
From Stdlib Require Import PrimFloat FloatOps SpecFloat.
From Stdlib Require Import DecimalString.
From stdpp Require Import base option list gmap strings.

Local Open Scope string_scope.
Local Open Scope Z_scope.

(** ** The host language: values and the operators the VM applies to them *)

Module JS.

(** The values that reach the VM: the literals of the language, array holes
    ([undefined]) and the results of the operators. *)
Inductive Value : Type :=
  | VUndefined
  | VNull
  | VBool (b : bool)
  | VNum (f : float)
  | VStr (s : string).

Definition code (c : ascii) : N := N_of_ascii c.

Definition is_digit (c : ascii) : bool :=
  ((48 <=? code c) && (code c <=? 57))%N.

Definition digit_val (c : ascii) : Z := Z.of_N (code c) - 48.

(** White space of the string grammar, for sources made of one-byte
    characters: TAB, LF, VT, FF, CR and SPACE. *)
Definition is_space (c : ascii) : bool :=
  ((9 <=? code c) && (code c <=? 13) || (code c =? 32))%N.

Fixpoint trimStart (s : string) : string :=
  match s with
  | String c r => if is_space c then trimStart r else s
  | EmptyString => s
  end.

Definition rev_string (s : string) : string :=
  string_of_list_ascii (List.rev (list_ascii_of_string s)).

Definition trim (s : string) : string :=
  rev_string (trimStart (rev_string (trimStart s))).

(** *** Decimal text to binary64 *)

(** [m * 10^e10], correctly rounded to nearest, ties to even. *)
Definition decimal_to_float (neg : bool) (m : Z) (e10 : Z) : float :=
  match m with
  | Zpos p =>
      if 0 <=? e10
      then SF2Prim (binary_normalize prec emax
                      (cond_Zopp neg (Zpos p * 10 ^ e10)) 0 neg)
      else match 10 ^ (- e10) with
           | Zpos d => SF2Prim (SFdiv prec emax (S754_finite neg p 0)
                                                (S754_finite false d 0))
           | _ => nan
           end
  | _ => if neg then neg_zero else zero
  end.

(** A run of decimal digits: its value on top of [acc], how many digits
    were read, and the rest of the text. *)
Fixpoint read_digits (s : string) (acc : Z) (n : Z) : Z * Z * string :=
  match s with
  | String c r =>
      if is_digit c then read_digits r (acc * 10 + digit_val c) (n + 1)
      else (acc, n, s)
  | EmptyString => (acc, n, s)
  end.

(** The exponent part [e[+-]ddd]; it is part of the literal only when at
    least one digit follows. *)
Definition read_exponent (s : string) : Z * string :=
  match s with
  | String c r =>
      if (code c =? 101)%N || (code c =? 69)%N then
        let '(sgn, r') :=
          match r with
          | String "+" r' => (1, r')
          | String "-" r' => (-1, r')
          | _ => (1, r)
          end in
        let '(e, n, rest) := read_digits r' 0 0 in
        if 0 <? n then (sgn * e, rest) else (0, s)
      else (0, s)
  | EmptyString => (0, s)
  end.

(** The longest prefix of [s] that is an unsigned decimal literal
    ([ddd], [ddd.], [ddd.ddd], [.ddd], each with an optional exponent):
    its mantissa and decimal exponent, and the rest of the text. *)
Definition read_decimal (s : string) : option (Z * Z * string) :=
  let '(ip, ni, r1) := read_digits s 0 0 in
  let '(m, nf, r2) :=
    match r1 with
    | String "." r =>
        let '(m, nf, r') := read_digits r ip 0 in
        if (0 <? ni) || (0 <? nf) then (m, nf, r') else (ip, 0, r1)
    | _ => (ip, 0, r1)
    end in
  if (0 <? ni) || (0 <? nf) then
    let '(e, r3) := read_exponent r2 in Some (m, e - nf, r3)
  else None.

Definition read_sign (s : string) : bool * string :=
  match s with
  | String "+" r => (false, r)
  | String "-" r => (true, r)
  | _ => (false, s)
  end.

Definition starts_with (p s : string) : bool := String.prefix p s.

(** The longest prefix of [s] that is a signed decimal literal or
    [Infinity], with the rest of the text. *)
Definition read_number (s : string) : option (float * string) :=
  let '(neg, r) := read_sign s in
  if starts_with "Infinity" r
  then Some (if neg then neg_infinity else infinity,
             String.substring 8 (String.length r - 8) r)
  else match read_decimal r with
       | Some (m, e, rest) => Some (decimal_to_float neg m e, rest)
       | None => None
       end.

(** The global [parseFloat]: leading white space is skipped, the longest
    prefix that is a decimal literal is converted and whatever follows it is
    ignored; [NaN] when there is no such prefix. *)
Definition parseFloat (s : string) : float :=
  match read_number (trimStart s) with
  | Some (f, _) => f
  | None => nan
  end.

Definition radix_digit (radix : Z) (c : ascii) : option Z :=
  let n := Z.of_N (code c) in
  let d := if (48 <=? n) && (n <=? 57) then n - 48
           else if (97 <=? n) && (n <=? 122) then n - 87
           else if (65 <=? n) && (n <=? 90) then n - 55
           else radix in
  if d <? radix then Some d else None.

Fixpoint read_radix (radix : Z) (s : string) (acc : Z) : option Z :=
  match s with
  | EmptyString => Some acc
  | String c r =>
      match radix_digit radix c with
      | Some d => read_radix radix r (acc * radix + d)
      | None => None
      end
  end.

Definition integer_to_float (z : Z) : float :=
  SF2Prim (binary_normalize prec emax z 0 false).

(** [0x], [0o] and [0b] literals of the string-to-number conversion. *)
Definition read_prefixed (s : string) : option float :=
  match s with
  | String "0" (String c (String d r)) =>
      let digits := String d r in
      let radix :=
        if (code c =? 120)%N || (code c =? 88)%N then Some 16
        else if (code c =? 111)%N || (code c =? 79)%N then Some 8
        else if (code c =? 98)%N || (code c =? 66)%N then Some 2
        else None in
      match radix with
      | Some rd =>
          match read_radix rd digits 0 with
          | Some z => Some (integer_to_float z)
          | None => Some nan
          end
      | None => None
      end
  | _ => None
  end.

(** The conversion of a string to a number (the unary [+] of the language):
    the trimmed text must be a numeric literal as a whole; the empty text
    is [0]. *)
Definition StringToNumber (s : string) : float :=
  let t := trim s in
  match t with
  | EmptyString => zero
  | _ =>
      match read_prefixed t with
      | Some f => f
      | None =>
          match read_number t with
          | Some (f, EmptyString) => f
          | _ => nan
          end
      end
  end.

End JS.

Module JSNum.
Import JS.

(** *** binary64 to decimal text *)

Definition pos_part (z : Z) : Z := Z.max z 0.
Definition neg_part (z : Z) : Z := Z.max (- z) 0.

(** The order of the decimal [s * 10^p] and the dyadic [x * 2^q]. *)
Definition cmp_dec_bin (s p x q : Z) : comparison :=
  Z.compare (s * 10 ^ pos_part p * 2 ^ neg_part q)
            (x * 2 ^ pos_part q * 10 ^ neg_part p).

Section Shortest.
(** A positive finite number [m * 2^e] in canonical form. *)
Variables (m : positive) (e : Z).

(** In units of [2^(e-2)]: the number and the two ends of the interval
    of the reals that round to it. *)
Definition quad : Z := 4 * Zpos m.
Definition unit_exp : Z := e - 2.
Definition low_end : Z :=
  if (Zpos m =? 2 ^ 52) && (SpecFloat.emin prec emax <? e) then quad - 1 else quad - 2.
Definition high_end : Z := quad + 2.
Definition ends_included : bool := Z.even (Zpos m).

Definition in_interval (s p : Z) : bool :=
  match cmp_dec_bin s p low_end unit_exp with
  | Lt => false
  | Eq => ends_included
  | Gt =>
      match cmp_dec_bin s p high_end unit_exp with
      | Lt => true
      | Eq => ends_included
      | Gt => false
      end
  end.

(** The [n] with [10^(n-1) <= m * 2^e < 10^n], from an estimate that is
    off by a few units at most. *)
Fixpoint adjust_magnitude (fuel : nat) (n : Z) : Z :=
  match fuel with
  | O => n
  | S fuel' =>
      match cmp_dec_bin 1 (n - 1) quad unit_exp with
      | Gt => adjust_magnitude fuel' (n - 1)
      | _ =>
          match cmp_dec_bin 1 n quad unit_exp with
          | Gt => n
          | _ => adjust_magnitude fuel' (n + 1)
          end
      end
  end.

Definition magnitude : Z :=
  adjust_magnitude 8 (((Zpos (digits2_pos m) + e) * 1233) / 4096).

(** The shortest digit string: the least [k] for which some [k]-digit
    [s] has [s * 10^(n-k)] in the interval, and of these the [s] nearest
    to the number (the even one on a tie). Returns [(s, k, n)]. *)
Fixpoint shortest_from (fuel : nat) (k : Z) : Z * Z * Z :=
  let n := magnitude in
  let p := n - k in
  let num := quad * 2 ^ pos_part unit_exp * 10 ^ neg_part p in
  let den := 10 ^ pos_part p * 2 ^ neg_part unit_exp in
  let lo := num / den in
  let hi := lo + 1 in
  let pick (s : Z) := if s =? 10 ^ k then (10 ^ (k - 1), k, n + 1) else (s, k, n) in
  match fuel with
  | O => pick lo
  | S fuel' =>
      match in_interval lo p, in_interval hi p with
      | true, false => pick lo
      | false, true => pick hi
      | true, true =>
          match Z.compare (2 * (num mod den)) den with
          | Lt => pick lo
          | Gt => pick hi
          | Eq => if Z.even lo then pick lo else pick hi
          end
      | false, false => shortest_from fuel' (k + 1)
      end
  end.

Definition shortest : Z * Z * Z := shortest_from 17 1.
End Shortest.

Definition digits_of (z : Z) : string :=
  NilZero.string_of_uint (N.to_uint (Z.to_N z)).

Fixpoint zeros (n : nat) : string :=
  match n with
  | O => EmptyString
  | S n' => String "0" (zeros n')
  end.

(** The layout of the digits [s] ([k] of them) of a number of magnitude
    [n]: plain, with a decimal point, or in exponent notation. *)
Definition layout (s k n : Z) : string :=
  let d := digits_of s in
  if (k <=? n) && (n <=? 21) then d +:+ zeros (Z.to_nat (n - k))
  else if (0 <? n) && (n <=? 21) then
    String.substring 0 (Z.to_nat n) d +:+ "." +:+
    String.substring (Z.to_nat n) (Z.to_nat (k - n)) d
  else if (-6 <? n) && (n <=? 0) then
    "0." +:+ zeros (Z.to_nat (- n)) +:+ d
  else
    let ex := n - 1 in
    let tail := (if 0 <=? ex then "e+" else "e-") +:+ digits_of (Z.abs ex) in
    if k =? 1 then d +:+ tail
    else String.substring 0 1 d +:+ "." +:+
         String.substring 1 (Z.to_nat (k - 1)) d +:+ tail.

(** The text of a number, as string conversion and [String(x)] give it. *)
Definition NumberToString (f : float) : string :=
  match Prim2SF f with
  | S754_nan => "NaN"
  | S754_zero _ => "0"
  | S754_infinity s => if s then "-Infinity" else "Infinity"
  | S754_finite s m e =>
      let '(d, k, n) := shortest m e in
      (if s then "-" +:+ layout d k n else layout d k n)
  end.

(** The remainder [a % b]: the sign of the dividend, [NaN] for an infinite
    dividend or a zero divisor, the dividend itself for an infinite divisor. *)
Definition remainder (a b : float) : float :=
  match Prim2SF a, Prim2SF b with
  | S754_nan, _ | _, S754_nan => nan
  | S754_infinity _, _ => nan
  | _, S754_zero _ => nan
  | _, S754_infinity _ => a
  | S754_zero _, _ => a
  | S754_finite sa ma ea, S754_finite _ mb eb =>
      let ex := Z.min ea eb in
      let r := (Zpos ma * 2 ^ (ea - ex)) mod (Zpos mb * 2 ^ (eb - ex)) in
      SF2Prim (binary_normalize prec emax (cond_Zopp sa r) ex sa)
  end.

Definition of_nat (n : nat) : float := integer_to_float (Z.of_nat n).

End JSNum.

Module JSOps.
Import JS JSNum.

(** Conversions between the primitive types. *)
Definition ToNumber (v : Value) : float :=
  match v with
  | VUndefined => nan
  | VNull => zero
  | VBool true => one
  | VBool false => zero
  | VNum f => f
  | VStr s => StringToNumber s
  end.

Definition ToString (v : Value) : string :=
  match v with
  | VUndefined => "undefined"
  | VNull => "null"
  | VBool true => "true"
  | VBool false => "false"
  | VNum f => NumberToString f
  | VStr s => s
  end.

(** Truthiness: [undefined], [null], [false], [0], [-0], [NaN] and the
    empty string are falsy. *)
Definition ToBoolean (v : Value) : bool :=
  match v with
  | VUndefined | VNull => false
  | VBool b => b
  | VNum f => negb (is_nan f || is_zero f)
  | VStr EmptyString => false
  | VStr _ => true
  end.

Definition is_string (v : Value) : bool :=
  match v with VStr _ => true | _ => false end.

(** [a + b]: concatenation of the texts when either side is a string,
    the sum of the numbers otherwise. *)
Definition add (a b : Value) : Value :=
  if is_string a || is_string b
  then VStr (ToString a +:+ ToString b)
  else VNum (PrimFloat.add (ToNumber a) (ToNumber b)).

Definition sub (a b : Value) : Value :=
  VNum (PrimFloat.sub (ToNumber a) (ToNumber b)).
Definition mul (a b : Value) : Value :=
  VNum (PrimFloat.mul (ToNumber a) (ToNumber b)).
Definition div (a b : Value) : Value :=
  VNum (PrimFloat.div (ToNumber a) (ToNumber b)).
Definition rem (a b : Value) : Value :=
  VNum (remainder (ToNumber a) (ToNumber b)).
Definition neg (a : Value) : Value :=
  VNum (PrimFloat.opp (ToNumber a)).

(** [a === b]: same type and same value; [NaN] equals nothing, [0] equals
    [-0]. *)
Definition strict_equal (a b : Value) : bool :=
  match a, b with
  | VUndefined, VUndefined => true
  | VNull, VNull => true
  | VBool x, VBool y => Bool.eqb x y
  | VNum x, VNum y => PrimFloat.eqb x y
  | VStr x, VStr y => String.eqb x y
  | _, _ => false
  end.

(** The abstract comparison [a < b] of the language: [None] stands for
    its [undefined] outcome, when a side converts to [NaN]. Two strings
    are compared as sequences of characters. *)
Definition less_than (a b : Value) : option bool :=
  match a, b with
  | VStr x, VStr y => Some (String.ltb x y)
  | _, _ =>
      let x := ToNumber a in
      let y := ToNumber b in
      if is_nan x || is_nan y then None else Some (PrimFloat.ltb x y)
  end.

Definition lt (a b : Value) : bool :=
  match less_than a b with Some r => r | None => false end.
Definition gt (a b : Value) : bool :=
  match less_than b a with Some r => r | None => false end.
Definition le (a b : Value) : bool :=
  match less_than b a with Some r => negb r | None => false end.
Definition ge (a b : Value) : bool :=
  match less_than a b with Some r => negb r | None => false end.

(** [a && b] and [a || b] on values that are both already computed. *)
Definition and_ (a b : Value) : Value := if ToBoolean a then b else a.
Definition or_ (a b : Value) : Value := if ToBoolean a then a else b.
Definition not_ (a : Value) : Value := VBool (negb (ToBoolean a)).

(** [xs.indexOf(v)]: the first index holding a value strictly equal
    to [v]. *)
Fixpoint indexOf (xs : list Value) (v : Value) : option nat :=
  match xs with
  | [] => None
  | x :: r => if strict_equal x v then Some O
              else match indexOf r v with
                   | Some i => Some (S i)
                   | None => None
                   end
  end.

(** [xs.join(sep)] on texts. *)
Fixpoint join (sep : string) (xs : list string) : string :=
  match xs with
  | [] => EmptyString
  | [x] => x
  | x :: r => x +:+ sep +:+ join sep r
  end.

End JSOps.

(** ** Language definitions ([src/language/definitions.ts]) *)

Module Language.

(** [keywords] and [builtins] are JavaScript objects read with
    [Object.entries]: their entries in insertion order. The [name],
    [operators] and [messages] fields are read by the editor only and are
    left out. *)
Record LanguageDefinition : Type := {
  code : string;
  keywords : list (string * string);
  builtins : list (string * string)
}.

Definition english : LanguageDefinition := {|
  code := "en";
  keywords := [("if", "if"); ("else", "else"); ("while", "while");
    ("for", "for"); ("function", "function"); ("return", "return");
    ("var", "var"); ("true", "true"); ("false", "false"); ("null", "null");
    ("print", "print"); ("input", "input")];
  builtins := [("print", "print"); ("input", "input"); ("length", "length");
    ("type", "type")]
|}.

Definition tamil : LanguageDefinition := {|
  code := "ta";
  keywords := [("if", "yenil"); ("else", "illai"); ("while", "varai");
    ("for", "ulla"); ("function", "seyal"); ("return", "thirumbu");
    ("var", "maari"); ("true", "unmai"); ("false", "poi");
    ("null", "ondrum_illai"); ("print", "achchidu"); ("input", "ulle")];
  builtins := [("print", "achchidu"); ("input", "ulle"); ("length", "neelam");
    ("type", "vaghai")]
|}.

Definition malayalam : LanguageDefinition := {|
  code := "ml";
  keywords := [("if", "engil"); ("else", "allengil"); ("while", "vare");
    ("for", "ulla"); ("function", "pani"); ("return", "thirike");
    ("var", "maatti"); ("true", "sathyam"); ("false", "asathyam");
    ("null", "onnum_illa"); ("print", "print"); ("input", "input")];
  builtins := [("print", "print"); ("input", "input"); ("length", "neelam");
    ("type", "prakaram")]
|}.

Definition telugu : LanguageDefinition := {|
  code := "te";
  keywords := [("if", "ayite"); ("else", "lekapothe"); ("while", "varaku");
    ("for", "kosam"); ("function", "pani"); ("return", "thirigi");
    ("var", "maaru"); ("true", "nijam"); ("false", "abaddham");
    ("null", "emiledu"); ("print", "print"); ("input", "input")];
  builtins := [("print", "print"); ("input", "input"); ("length", "neelam");
    ("type", "rakam")]
|}.

Definition hindi : LanguageDefinition := {|
  code := "hi";
  keywords := [("if", "agar"); ("else", "nahi_to"); ("while", "jab_tak");
    ("for", "ke_liye"); ("function", "kaam"); ("return", "wapas");
    ("var", "badal"); ("true", "sach"); ("false", "jhooth");
    ("null", "kuch_nahi"); ("print", "print"); ("input", "input")];
  builtins := [("print", "print"); ("input", "input"); ("length", "lambai");
    ("type", "prakar")]
|}.

Definition sanskrit : LanguageDefinition := {|
  code := "sa";
  keywords := [("if", "yadi"); ("else", "anya"); ("while", "yavat");
    ("for", "artham"); ("function", "karma"); ("return", "nivartate");
    ("var", "parivartan"); ("true", "satyam"); ("false", "asatyam");
    ("null", "shunya"); ("print", "print"); ("input", "input")];
  builtins := [("print", "print"); ("input", "input"); ("length", "dirgha");
    ("type", "prakara")]
|}.

(** The table [LANGUAGES], keyed by language name. *)
Definition LANGUAGES : list (string * LanguageDefinition) :=
  [("english", english); ("tamil", tamil); ("malayalam", malayalam);
   ("telugu", telugu); ("hindi", hindi); ("sanskrit", sanskrit)].

Fixpoint entry {A : Type} (key : string) (table : list (string * A)) : option A :=
  match table with
  | [] => None
  | (k, v) :: r => if String.eqb k key then Some v else entry key r
  end.

(** The names every object written as a literal inherits from
    [Object.prototype]. *)
Definition object_prototype_keys : list string :=
  ["constructor"; "__defineGetter__"; "__defineSetter__"; "hasOwnProperty";
   "__lookupGetter__"; "__lookupSetter__"; "isPrototypeOf";
   "propertyIsEnumerable"; "toString"; "valueOf"; "__proto__";
   "toLocaleString"].

(** What [object[key]] gives on such an object: the value of its own
    property, a function or an object of the host when the key is
    inherited, [undefined] otherwise. *)
Inductive Property (A : Type) : Type :=
  | Own (a : A)
  | Inherited
  | Undefined.
Arguments Own {A}.
Arguments Inherited {A}.
Arguments Undefined {A}.

Definition property {A : Type} (table : list (string * A)) (key : string)
  : Property A :=
  match entry key table with
  | Some a => Own a
  | None =>
      if existsb (String.eqb key) object_prototype_keys then Inherited
      else Undefined
  end.

(** [LANGUAGES[code]] *)
Definition getLanguageByCode (code : string) : Property LanguageDefinition :=
  property LANGUAGES code.

Definition getAllLanguages : list LanguageDefinition := List.map snd LANGUAGES.

(** The loop of [getKeywordTranslation]: the key of the first entry
    spelled [keyword], and [keyword] itself when there is none. *)
Fixpoint englishKeyword (entries : list (string * string)) (keyword : string)
  : string :=
  match entries with
  | [] => keyword
  | (eng, translated) :: more =>
      if String.eqb translated keyword then eng
      else englishKeyword more keyword
  end.

(** What [getKeywordTranslation] returns: a string; the function or
    object of the host that an inherited key gives; or it raises a
    [TypeError], reading the keywords of what stands under an inherited
    language name. *)
Inductive Translation : Type :=
  | Text (s : string)
  | HostValue
  | TypeError.

Definition getKeywordTranslation (keyword fromLang toLang : string)
  : Translation :=
  match property LANGUAGES fromLang, property LANGUAGES toLang with
  | Undefined, _ => Text keyword
  | _, Undefined => Text keyword
  | Inherited, _ => TypeError
  | Own _, Inherited => TypeError
  | Own fromLanguage, Own toLanguage =>
      match property (keywords toLanguage)
                     (englishKeyword (keywords fromLanguage) keyword) with
      | Own EmptyString => Text keyword
      | Own translated => Text translated
      | Inherited => HostValue
      | Undefined => Text keyword
      end
  end.

End Language.

(** ** Lexer ([src/compiler/lexer.ts]) *)

Module Lexer.
Import Language.

Inductive TokenType : Type :=
  | NUMBER | STRING | IDENTIFIER
  | IF | ELSE | WHILE | FOR | FUNCTION | RETURN | VAR | TRUE | FALSE | NULL
  | ASSIGN | EQUAL | NOT_EQUAL | LESS_THAN | GREATER_THAN | LESS_EQUAL
  | GREATER_EQUAL | PLUS | MINUS | MULTIPLY | DIVIDE | MODULO | AND | OR | NOT
  | LPAREN | RPAREN | LBRACE | RBRACE | SEMICOLON | COMMA
  | NEWLINE | EOF | UNKNOWN.

Definition TokenType_eqb (a b : TokenType) : bool :=
  match a, b with
  | NUMBER, NUMBER | STRING, STRING | IDENTIFIER, IDENTIFIER
  | IF, IF | ELSE, ELSE | WHILE, WHILE | FOR, FOR | FUNCTION, FUNCTION
  | RETURN, RETURN | VAR, VAR | TRUE, TRUE | FALSE, FALSE | NULL, NULL
  | ASSIGN, ASSIGN | EQUAL, EQUAL | NOT_EQUAL, NOT_EQUAL
  | LESS_THAN, LESS_THAN | GREATER_THAN, GREATER_THAN
  | LESS_EQUAL, LESS_EQUAL | GREATER_EQUAL, GREATER_EQUAL
  | PLUS, PLUS | MINUS, MINUS | MULTIPLY, MULTIPLY | DIVIDE, DIVIDE
  | MODULO, MODULO | AND, AND | OR, OR | NOT, NOT
  | LPAREN, LPAREN | RPAREN, RPAREN | LBRACE, LBRACE | RBRACE, RBRACE
  | SEMICOLON, SEMICOLON | COMMA, COMMA
  | NEWLINE, NEWLINE | EOF, EOF | UNKNOWN, UNKNOWN => true
  | _, _ => false
  end.

Record Token : Type := {
  type : TokenType;
  value : string;
  line : nat;
  column : nat
}.

(** The scanner's state. [rest] is the unread part of the source, that is
    [source.slice(position)]; [position < source.length] reads as
    [rest] not being empty. *)
Record State : Type := {
  rest : string;
  cur_line : nat;
  cur_column : nat
}.

Definition start (source : string) : State :=
  {| rest := source; cur_line := 1; cur_column := 1 |}.

Definition newline : ascii := "010"%char.
Definition double_quote : ascii := "034"%char.
Definition backslash : ascii := "092"%char.

(** [peek(offset)]: the character at that distance, if any. *)
Definition peek (offset : nat) (st : State) : option ascii :=
  String.get offset (rest st).

(** [advance()]: consumes one character and moves the line and column
    counters; at the end of the source it returns nothing and changes
    nothing. *)
Definition advance (st : State) : option ascii * State :=
  match rest st with
  | String c r =>
      (Some c,
       if Ascii.eqb c newline
       then {| rest := r; cur_line := S (cur_line st); cur_column := 1 |}
       else {| rest := r; cur_line := cur_line st;
               cur_column := S (cur_column st) |})
  | EmptyString => (None, st)
  end.

Definition is_blank (c : ascii) : bool :=
  Ascii.eqb c " " || Ascii.eqb c "009" || Ascii.eqb c "013".

(** The character classes of the regular expressions [/[0-9]/],
    [/[0-9.]/], [/[a-zA-Z_]/] and [/[a-zA-Z0-9_]/]. *)
Definition is_digit (c : ascii) : bool := JS.is_digit c.
Definition is_number_char (c : ascii) : bool := is_digit c || Ascii.eqb c ".".
Definition is_letter (c : ascii) : bool :=
  let n := N_of_ascii c in
  ((97 <=? n) && (n <=? 122) || (65 <=? n) && (n <=? 90) || (n =? 95))%N.
Definition is_identifier_char (c : ascii) : bool := is_letter c || is_digit c.

(** The loop shared by [skipWhitespace], [readNumber] and
    [readIdentifier]: advance while the next character is in the class,
    collecting what was consumed. *)
Fixpoint advance_while (class : ascii -> bool) (s : string) (ln col : nat)
  : string * State :=
  match s with
  | String c r =>
      if class c then
        let st := snd (advance {| rest := s; cur_line := ln; cur_column := col |}) in
        let '(v, st') := advance_while class r (cur_line st) (cur_column st) in
        (String c v, st')
      else (EmptyString, {| rest := s; cur_line := ln; cur_column := col |})
  | EmptyString =>
      (EmptyString, {| rest := s; cur_line := ln; cur_column := col |})
  end.

Definition skipWhitespace (st : State) : State :=
  snd (advance_while is_blank (rest st) (cur_line st) (cur_column st)).

Definition readNumber (st : State) : Token * State :=
  let startColumn := cur_column st in
  let '(v, st') :=
    advance_while is_number_char (rest st) (cur_line st) (cur_column st) in
  ({| type := NUMBER; value := v; line := cur_line st';
      column := startColumn |}, st').

(** The text an escape sequence stands for; [advance()] gives nothing at
    the end of the source, and nothing is appended then. *)
Definition unescape (escaped : option ascii) : string :=
  match escaped with
  | Some c =>
      if Ascii.eqb c "n" then String "010" EmptyString
      else if Ascii.eqb c "t" then String "009" EmptyString
      else if Ascii.eqb c "r" then String "013" EmptyString
      else String c EmptyString
  | None => EmptyString
  end.

Fixpoint readString_loop (quote : ascii) (s : string) (ln col : nat)
  : string * State :=
  let here := {| rest := s; cur_line := ln; cur_column := col |} in
  match s with
  | EmptyString => (EmptyString, here)
  | String c r =>
      if Ascii.eqb c quote then (EmptyString, snd (advance here))
      else if Ascii.eqb c backslash then
        let st1 := snd (advance here) in
        match r with
        | String e r' =>
            let st2 := snd (advance st1) in
            let '(v, st') := readString_loop quote r' (cur_line st2) (cur_column st2) in
            (unescape (Some e) +:+ v, st')
        | EmptyString => (unescape None, st1)
        end
      else
        let st1 := snd (advance here) in
        let '(v, st') := readString_loop quote r (cur_line st1) (cur_column st1) in
        (String c v, st')
  end.

Definition readString (st : State) : Token * State :=
  let startColumn := cur_column st in
  let '(quote, st0) := advance st in
  match quote with
  | Some q =>
      let '(v, st') := readString_loop q (rest st0) (cur_line st0) (cur_column st0) in
      ({| type := STRING; value := v; line := cur_line st';
          column := startColumn |}, st')
  | None =>
      ({| type := STRING; value := EmptyString; line := cur_line st0;
          column := startColumn |}, st0)
  end.

Definition keywordTokenType (englishKeyword : string) : option TokenType :=
  if String.eqb englishKeyword "if" then Some IF
  else if String.eqb englishKeyword "else" then Some ELSE
  else if String.eqb englishKeyword "while" then Some WHILE
  else if String.eqb englishKeyword "for" then Some FOR
  else if String.eqb englishKeyword "function" then Some FUNCTION
  else if String.eqb englishKeyword "return" then Some RETURN
  else if String.eqb englishKeyword "var" then Some VAR
  else if String.eqb englishKeyword "true" then Some TRUE
  else if String.eqb englishKeyword "false" then Some FALSE
  else if String.eqb englishKeyword "null" then Some NULL
  else None.

(** The first entry whose spelling is [value] and whose key is one of the
    ten keywords decides; entries with another key ([print], [input]) are
    passed over. *)
Fixpoint getKeywordTokenType (entries : list (string * string)) (value : string)
  : TokenType :=
  match entries with
  | [] => IDENTIFIER
  | (englishKeyword, translatedKeyword) :: more =>
      if String.eqb value translatedKeyword then
        match keywordTokenType englishKeyword with
        | Some t => t
        | None => getKeywordTokenType more value
        end
      else getKeywordTokenType more value
  end.

Definition readIdentifier (language : LanguageDefinition) (st : State)
  : Token * State :=
  let startColumn := cur_column st in
  let '(v, st') :=
    advance_while is_identifier_char (rest st) (cur_line st) (cur_column st) in
  ({| type := getKeywordTokenType (keywords language) v; value := v;
      line := cur_line st'; column := startColumn |}, st').

Definition twoCharOperator (a b : ascii) : option TokenType :=
  if Ascii.eqb a "=" && Ascii.eqb b "=" then Some EQUAL
  else if Ascii.eqb a "!" && Ascii.eqb b "=" then Some NOT_EQUAL
  else if Ascii.eqb a "<" && Ascii.eqb b "=" then Some LESS_EQUAL
  else if Ascii.eqb a ">" && Ascii.eqb b "=" then Some GREATER_EQUAL
  else if Ascii.eqb a "&" && Ascii.eqb b "&" then Some AND
  else if Ascii.eqb a "|" && Ascii.eqb b "|" then Some OR
  else None.

Definition singleCharToken (c : ascii) : option TokenType :=
  if Ascii.eqb c "=" then Some ASSIGN
  else if Ascii.eqb c "<" then Some LESS_THAN
  else if Ascii.eqb c ">" then Some GREATER_THAN
  else if Ascii.eqb c "+" then Some PLUS
  else if Ascii.eqb c "-" then Some MINUS
  else if Ascii.eqb c "*" then Some MULTIPLY
  else if Ascii.eqb c "/" then Some DIVIDE
  else if Ascii.eqb c "%" then Some MODULO
  else if Ascii.eqb c "!" then Some NOT
  else if Ascii.eqb c "(" then Some LPAREN
  else if Ascii.eqb c ")" then Some RPAREN
  else if Ascii.eqb c "{" then Some LBRACE
  else if Ascii.eqb c "}" then Some RBRACE
  else if Ascii.eqb c ";" then Some SEMICOLON
  else if Ascii.eqb c "," then Some COMMA
  else if Ascii.eqb c newline then Some NEWLINE
  else None.

(** One turn of the loop of [tokenize], after white space was skipped and
    with [c] the next character: the token and the state after it. *)
Definition scanToken (language : LanguageDefinition) (c : ascii) (st : State)
  : Token * State :=
  let startColumn := cur_column st in
  if is_digit c then readNumber st
  else if Ascii.eqb c double_quote || Ascii.eqb c "'" then readString st
  else if is_letter c then readIdentifier language st
  else
    let two :=
      match peek 1 st with
      | Some d =>
          match twoCharOperator c d with
          | Some t => Some (t, String c (String d EmptyString))
          | None => None
          end
      | None => None
      end in
    match two with
    | Some (t, twoChar) =>
        ({| type := t; value := twoChar; line := cur_line st;
            column := startColumn |}, snd (advance (snd (advance st))))
    | None =>
        let t := match singleCharToken c with Some t => t | None => UNKNOWN end in
        ({| type := t; value := String c EmptyString; line := cur_line st;
            column := startColumn |}, snd (advance st))
    end.

(** The loop of [tokenize]. Every turn consumes at least one character,
    so as many turns as the source has characters, and one more, are
    enough; [None] only if [fuel] is less than that. *)
Fixpoint tokenize_loop (fuel : nat) (language : LanguageDefinition) (st : State)
  : option (list Token) :=
  let st := skipWhitespace st in
  match peek 0 st with
  | None =>
      Some [{| type := EOF; value := EmptyString; line := cur_line st;
               column := cur_column st |}]
  | Some c =>
      match fuel with
      | O => None
      | S fuel' =>
          let '(tok, st') := scanToken language c st in
          match tokenize_loop fuel' language st' with
          | Some toks => Some (tok :: toks)
          | None => None
          end
      end
  end.

Definition tokenize (language : LanguageDefinition) (source : string)
  : option (list Token) :=
  tokenize_loop (String.length source) language (start source).

End Lexer.

(** ** Abstract syntax ([src/compiler/ast.ts]) *)

Module AST.

Inductive LiteralType : Type := number | string_ | boolean | null.

#[local] Unset Elimination Schemes.
Inductive ASTNode : Type :=
  | VarDeclaration (identifier : string) (initializer : option ASTNode)
  | FunctionDeclaration (name : string) (parameters : list string)
      (body : list ASTNode)
  | IfStatement (condition thenStatement : ASTNode)
      (elseStatement : option ASTNode)
  | WhileStatement (condition body : ASTNode)
  | ForStatement (initializer condition increment : option ASTNode)
      (body : ASTNode)
  | ReturnStatement (value : option ASTNode)
  | ExpressionStatement (expression : ASTNode)
  | BinaryExpression (left : ASTNode) (operator : string) (right : ASTNode)
  | UnaryExpression (operator : string) (operand : ASTNode)
  | CallExpression (callee : ASTNode) (args : list ASTNode)
  | Identifier (name : string)
  | Literal (value : JS.Value) (type : LiteralType)
  | AssignmentExpression (identifier : string) (value : ASTNode)
  | BlockStatement (statements : list ASTNode).
#[local] Set Elimination Schemes.

(** The root node. Nothing builds a [Program] below the root:
    [BlockStatement.accept] wraps its statements in one only to hand them
    to [visitProgram]. *)
Record Program : Type := { statements : list ASTNode }.

End AST.

(** Induction on syntax trees, with the property carried to the trees
    held in the options and lists of a node. *)
Section ASTNode_induction.
Import AST.
Variable P : ASTNode -> Prop.

Definition P_option (o : option ASTNode) : Prop :=
  match o with Some n => P n | None => True end.

Hypothesis H_var : forall identifier initializer,
  P_option initializer -> P (VarDeclaration identifier initializer).
Hypothesis H_function : forall name parameters body,
  Forall P body -> P (FunctionDeclaration name parameters body).
Hypothesis H_if : forall condition thenStatement elseStatement,
  P condition -> P thenStatement -> P_option elseStatement ->
  P (IfStatement condition thenStatement elseStatement).
Hypothesis H_while : forall condition body,
  P condition -> P body -> P (WhileStatement condition body).
Hypothesis H_for : forall initializer condition increment body,
  P_option initializer -> P_option condition -> P_option increment ->
  P body -> P (ForStatement initializer condition increment body).
Hypothesis H_return : forall value,
  P_option value -> P (ReturnStatement value).
Hypothesis H_expression : forall expression,
  P expression -> P (ExpressionStatement expression).
Hypothesis H_binary : forall lhs operator rhs,
  P lhs -> P rhs -> P (BinaryExpression lhs operator rhs).
Hypothesis H_unary : forall operator operand,
  P operand -> P (UnaryExpression operator operand).
Hypothesis H_call : forall callee args,
  P callee -> Forall P args -> P (CallExpression callee args).
Hypothesis H_identifier : forall name, P (Identifier name).
Hypothesis H_literal : forall value type, P (Literal value type).
Hypothesis H_assignment : forall identifier value,
  P value -> P (AssignmentExpression identifier value).
Hypothesis H_block : forall statements,
  Forall P statements -> P (BlockStatement statements).

Fixpoint ASTNode_nested_ind (node : ASTNode) : P node :=
  let all :=
    fix all (nodes : list ASTNode) : Forall P nodes :=
      match nodes with
      | [] => List.Forall_nil P
      | n :: more =>
          @List.Forall_cons _ P n more (ASTNode_nested_ind n) (all more)
      end in
  let opt (o : option ASTNode) : P_option o :=
    match o with
    | Some n => ASTNode_nested_ind n
    | None => I
    end in
  match node with
  | VarDeclaration identifier initializer =>
      H_var identifier initializer (opt initializer)
  | FunctionDeclaration name parameters body =>
      H_function name parameters body (all body)
  | IfStatement condition thenStatement elseStatement =>
      H_if condition thenStatement elseStatement
        (ASTNode_nested_ind condition) (ASTNode_nested_ind thenStatement)
        (opt elseStatement)
  | WhileStatement condition body =>
      H_while condition body
        (ASTNode_nested_ind condition) (ASTNode_nested_ind body)
  | ForStatement initializer condition increment body =>
      H_for initializer condition increment body
        (opt initializer) (opt condition) (opt increment)
        (ASTNode_nested_ind body)
  | ReturnStatement value => H_return value (opt value)
  | ExpressionStatement expression =>
      H_expression expression (ASTNode_nested_ind expression)
  | BinaryExpression lhs operator rhs =>
      H_binary lhs operator rhs
        (ASTNode_nested_ind lhs) (ASTNode_nested_ind rhs)
  | UnaryExpression operator operand =>
      H_unary operator operand (ASTNode_nested_ind operand)
  | CallExpression callee args =>
      H_call callee args (ASTNode_nested_ind callee) (all args)
  | Identifier name => H_identifier name
  | Literal value type => H_literal value type
  | AssignmentExpression identifier value =>
      H_assignment identifier value (ASTNode_nested_ind value)
  | BlockStatement statements => H_block statements (all statements)
  end.
End ASTNode_induction.

(** ** Parser ([src/compiler/parser.ts]) *)

(** The parser as it runs on the arrays the lexer returns, which end with
    [EOF]: there [current] stays inside the array, so that [peek] and
    [previous] read a token, and the calls nest as deep as the source
    makes them. What the host does with a read outside the array and with
    an exhausted call stack is modelled in [Host.Parser]. *)

Module Parser.
Import Lexer AST.

(** What a parsing function can end with: a value and the new [current],
    a thrown [ParseError] (with [current] at the throw), the [TypeError]
    that reading a token of an empty array raises, or an exhausted
    recursion budget of this model. *)
Inductive Result (A : Type) : Type :=
  | Ok (a : A) (current : nat)
  | ParseError (message : string) (token : Token) (current : nat)
  | TypeError
  | OutOfFuel.
Arguments Ok {A}.
Arguments ParseError {A}.
Arguments TypeError {A}.
Arguments OutOfFuel {A}.

Definition M (A : Type) : Type := nat -> Result A.

Definition ret {A} (a : A) : M A := fun current => Ok a current.

Definition bind {A B} (m : M A) (k : A -> M B) : M B :=
  fun current =>
    match m current with
    | Ok a current' => k a current'
    | ParseError msg tok at_ => ParseError msg tok at_
    | TypeError => TypeError
    | OutOfFuel => OutOfFuel
    end.

Notation "x <- m ;; k" := (bind m (fun x => k))
  (at level 100, m at next level, right associativity).
Notation "m ;;; k" := (bind m (fun _ => k))
  (at level 100, right associativity).

Definition out_of_fuel {A} : M A := fun _ => OutOfFuel.

Section WithTokens.
(** [this.tokens]: the tokens without the [NEWLINE] ones, and the token
    that [tokens[tokens.length - 1]] gives. *)
Variable tokens : list Token.
Variable last_token : Token.

Definition peek : M Token :=
  fun current => Ok (nth current tokens last_token) current.

Definition previous : M Token :=
  fun current => Ok (nth (current - 1) tokens last_token) current.

Definition isAtEnd : M bool :=
  t <- peek ;; ret (TokenType_eqb (type t) EOF).

Definition advance : M Token :=
  e <- isAtEnd ;;
  (if e then ret tt else fun current => Ok tt (S current)) ;;;
  previous.

Definition check (ty : TokenType) : M bool :=
  e <- isAtEnd ;;
  if e then ret false
  else t <- peek ;; ret (TokenType_eqb (type t) ty).

Fixpoint match_ (types : list TokenType) : M bool :=
  match types with
  | [] => ret false
  | ty :: more =>
      c <- check ty ;;
      if c then advance ;;; ret true else match_ more
  end.

Definition throw {A} (message : string) (token : Token) : M A :=
  fun current => ParseError message token current.

Definition consume (ty : TokenType) (message : string) : M Token :=
  c <- check ty ;;
  if c then advance else t <- peek ;; throw message t.

Definition is_statement_start (ty : TokenType) : bool :=
  match ty with
  | VAR | FUNCTION | IF | WHILE | FOR | RETURN => true
  | _ => false
  end.

Fixpoint synchronize_loop (fuel : nat) : M unit :=
  match fuel with
  | O => out_of_fuel
  | S fuel' =>
      e <- isAtEnd ;;
      if e then ret tt
      else
        p <- previous ;;
        if TokenType_eqb (type p) SEMICOLON then ret tt
        else
          t <- peek ;;
          if is_statement_start (type t) then ret tt
          else advance ;;; synchronize_loop fuel'
  end.

Definition synchronize : M unit :=
  advance ;;; synchronize_loop (S (length tokens)).

(** The loops of the grammar functions. Each takes the function it
    calls for an operand or an element, already given its budget. *)

(** [while (this.match(...types)) { operator = previous().value;
    right = operand(); expr = new BinaryExpression(expr, operator, right) }] *)
Fixpoint binary_loop (types : list TokenType) (operand : M ASTNode)
    (fuel : nat) (expr : ASTNode) : M ASTNode :=
  match fuel with
  | O => out_of_fuel
  | S fuel' =>
      m <- match_ types ;;
      if m then
        op <- previous ;;
        right <- operand ;;
        binary_loop types operand fuel' (BinaryExpression expr (value op) right)
      else ret expr
  end.

Definition binary (types : list TokenType) (operand : M ASTNode) (fuel : nat)
  : M ASTNode :=
  expr <- operand ;; binary_loop types operand fuel expr.

(** [while (!check(RBRACE) && !isAtEnd()) { stmt = declaration();
    if (stmt) statements.push(stmt) }] *)
Fixpoint block_loop (declaration : M ASTNode) (fuel : nat) : M (list ASTNode) :=
  match fuel with
  | O => out_of_fuel
  | S fuel' =>
      c <- check RBRACE ;;
      e <- isAtEnd ;;
      if negb c && negb e then
        stmt <- declaration ;;
        more <- block_loop declaration fuel' ;;
        ret (stmt :: more)
      else ret []
  end.

(** [do { xs.push(element()) } while (this.match(COMMA))] *)
Fixpoint comma_loop {A} (element : M A) (fuel : nat) : M (list A) :=
  match fuel with
  | O => out_of_fuel
  | S fuel' =>
      x <- element ;;
      m <- match_ [COMMA] ;;
      if m then more <- comma_loop element fuel' ;; ret (x :: more)
      else ret [x]
  end.

Definition finishCall (expression : M ASTNode) (fuel : nat) (callee : ASTNode)
  : M ASTNode :=
  c <- check RPAREN ;;
  args <- (if negb c then comma_loop expression fuel else ret []) ;;
  consume RPAREN "Expected ')' after arguments" ;;;
  ret (CallExpression callee args).

(** [while (true) { if (match(LPAREN)) expr = finishCall(expr) else break }] *)
Fixpoint call_loop (expression : M ASTNode) (fuel : nat) (expr : ASTNode)
  : M ASTNode :=
  match fuel with
  | O => out_of_fuel
  | S fuel' =>
      m <- match_ [LPAREN] ;;
      if m then
        expr' <- finishCall expression fuel' expr ;;
        call_loop expression fuel' expr'
      else ret expr
  end.

Definition varDeclaration (expression : M ASTNode) : M ASTNode :=
  name <- consume IDENTIFIER "Expected variable name" ;;
  m <- match_ [ASSIGN] ;;
  initializer <- (if m then e <- expression ;; ret (Some e) else ret None) ;;
  consume SEMICOLON "Expected ';' after variable declaration" ;;;
  ret (VarDeclaration (value name) initializer).

Definition functionDeclaration (declaration : M ASTNode) (fuel : nat)
  : M ASTNode :=
  name <- consume IDENTIFIER "Expected function name" ;;
  consume LPAREN "Expected '(' after function name" ;;;
  c <- check RPAREN ;;
  parameters <-
    (if negb c
     then comma_loop
            (p <- consume IDENTIFIER "Expected parameter name" ;; ret (value p))
            fuel
     else ret []) ;;
  consume RPAREN "Expected ')' after parameters" ;;;
  consume LBRACE "Expected '{' before function body" ;;;
  body <- block_loop declaration fuel ;;
  consume RBRACE "Expected '}' after function body" ;;;
  ret (FunctionDeclaration (value name) parameters body).

Definition expressionStatement (expression : M ASTNode) : M ASTNode :=
  expr <- expression ;;
  consume SEMICOLON "Expected ';' after expression" ;;;
  ret (ExpressionStatement expr).

Definition ifStatement (expression statement : M ASTNode) : M ASTNode :=
  consume LPAREN "Expected '(' after 'if'" ;;;
  condition <- expression ;;
  consume RPAREN "Expected ')' after if condition" ;;;
  thenStatement <- statement ;;
  m <- match_ [ELSE] ;;
  elseStatement <- (if m then s <- statement ;; ret (Some s) else ret None) ;;
  ret (IfStatement condition thenStatement elseStatement).

Definition whileStatement (expression statement : M ASTNode) : M ASTNode :=
  consume LPAREN "Expected '(' after 'while'" ;;;
  condition <- expression ;;
  consume RPAREN "Expected ')' after while condition" ;;;
  body <- statement ;;
  ret (WhileStatement condition body).

Definition forStatement (expression statement : M ASTNode) : M ASTNode :=
  consume LPAREN "Expected '(' after 'for'" ;;;
  semi <- match_ [SEMICOLON] ;;
  initializer <-
    (if semi then ret None
     else
       v <- match_ [VAR] ;;
       if v then d <- varDeclaration expression ;; ret (Some d)
       else s <- expressionStatement expression ;; ret (Some s)) ;;
  c1 <- check SEMICOLON ;;
  condition <- (if negb c1 then e <- expression ;; ret (Some e) else ret None) ;;
  consume SEMICOLON "Expected ';' after for loop condition" ;;;
  c2 <- check RPAREN ;;
  increment <- (if negb c2 then e <- expression ;; ret (Some e) else ret None) ;;
  consume RPAREN "Expected ')' after for clauses" ;;;
  body <- statement ;;
  ret (ForStatement initializer condition increment body).

Definition returnStatement (expression : M ASTNode) : M ASTNode :=
  c <- check SEMICOLON ;;
  value <- (if negb c then e <- expression ;; ret (Some e) else ret None) ;;
  consume SEMICOLON "Expected ';' after return value" ;;;
  ret (ReturnStatement value).

Definition blockStatement (declaration : M ASTNode) (fuel : nat) : M ASTNode :=
  statements <- block_loop declaration fuel ;;
  consume RBRACE "Expected '}' after block" ;;;
  ret (BlockStatement statements).

(** The grammar functions. They call each other without bound; [fuel]
    bounds the depth of the calls, and running out of it is the outcome
    [OutOfFuel]. *)
Fixpoint declaration (fuel : nat) : M ASTNode :=
  match fuel with
  | O => out_of_fuel
  | S f =>
      v <- match_ [VAR] ;;
      if v then varDeclaration (expression f)
      else
        fn <- match_ [FUNCTION] ;;
        if fn then functionDeclaration (declaration f) f
        else statement f
  end
with statement (fuel : nat) : M ASTNode :=
  match fuel with
  | O => out_of_fuel
  | S f =>
      i <- match_ [IF] ;;
      if i then ifStatement (expression f) (statement f)
      else
        w <- match_ [WHILE] ;;
        if w then whileStatement (expression f) (statement f)
        else
          fo <- match_ [FOR] ;;
          if fo then forStatement (expression f) (statement f)
          else
            r <- match_ [RETURN] ;;
            if r then returnStatement (expression f)
            else
              b <- match_ [LBRACE] ;;
              if b then blockStatement (declaration f) f
              else expressionStatement (expression f)
  end
with expression (fuel : nat) : M ASTNode :=
  match fuel with
  | O => out_of_fuel
  | S f => assignment f
  end
with assignment (fuel : nat) : M ASTNode :=
  match fuel with
  | O => out_of_fuel
  | S f =>
      expr <- or_ f ;;
      m <- match_ [ASSIGN] ;;
      if m then
        value <- assignment f ;;
        match expr with
        | Identifier name => ret (AssignmentExpression name value)
        | _ => p <- previous ;; throw "Invalid assignment target" p
        end
      else ret expr
  end
with or_ (fuel : nat) : M ASTNode :=
  match fuel with
  | O => out_of_fuel
  | S f => binary [OR] (and_ f) f
  end
with and_ (fuel : nat) : M ASTNode :=
  match fuel with
  | O => out_of_fuel
  | S f => binary [AND] (equality f) f
  end
with equality (fuel : nat) : M ASTNode :=
  match fuel with
  | O => out_of_fuel
  | S f => binary [NOT_EQUAL; EQUAL] (comparison f) f
  end
with comparison (fuel : nat) : M ASTNode :=
  match fuel with
  | O => out_of_fuel
  | S f =>
      binary [GREATER_THAN; GREATER_EQUAL; LESS_THAN; LESS_EQUAL] (term f) f
  end
with term (fuel : nat) : M ASTNode :=
  match fuel with
  | O => out_of_fuel
  | S f => binary [MINUS; PLUS] (factor f) f
  end
with factor (fuel : nat) : M ASTNode :=
  match fuel with
  | O => out_of_fuel
  | S f => binary [DIVIDE; MULTIPLY; MODULO] (unary f) f
  end
with unary (fuel : nat) : M ASTNode :=
  match fuel with
  | O => out_of_fuel
  | S f =>
      m <- match_ [NOT; MINUS] ;;
      if m then
        op <- previous ;;
        right <- unary f ;;
        ret (UnaryExpression (value op) right)
      else call f
  end
with call (fuel : nat) : M ASTNode :=
  match fuel with
  | O => out_of_fuel
  | S f => expr <- primary f ;; call_loop (expression f) f expr
  end
with primary (fuel : nat) : M ASTNode :=
  match fuel with
  | O => out_of_fuel
  | S f =>
      t <- match_ [TRUE] ;;
      if t then ret (Literal (JS.VBool true) boolean)
      else
        fa <- match_ [FALSE] ;;
        if fa then ret (Literal (JS.VBool false) boolean)
        else
          n <- match_ [NULL] ;;
          if n then ret (Literal JS.VNull null)
          else
            nu <- match_ [NUMBER] ;;
            if nu then
              p <- previous ;;
              ret (Literal (JS.VNum (JS.parseFloat (value p))) number)
            else
              st <- match_ [STRING] ;;
              if st then
                p <- previous ;; ret (Literal (JS.VStr (value p)) string_)
              else
                i <- match_ [IDENTIFIER] ;;
                if i then p <- previous ;; ret (Identifier (value p))
                else
                  l <- match_ [LPAREN] ;;
                  if l then
                    expr <- expression f ;;
                    consume RPAREN "Expected ')' after expression" ;;;
                    ret expr
                  else tk <- peek ;; throw "Expected expression" tk
  end.

(** The budget given to each top-level declaration: the calls nest at
    most a fixed number of levels for each token. *)
Definition depth : nat := 20 * S (length tokens).

(** The loop of [parse]. A [ParseError] is caught, [synchronize] is run
    and the same error is thrown again. *)
Fixpoint parse_loop (fuel : nat) : M (list ASTNode) :=
  match fuel with
  | O => out_of_fuel
  | S fuel' =>
      e <- isAtEnd ;;
      if e then ret []
      else
        fun current =>
          match declaration depth current with
          | Ok stmt current' =>
              (more <- parse_loop fuel' ;; ret (stmt :: more)) current'
          | ParseError msg tok at_ =>
              match synchronize at_ with
              | Ok _ _ => ParseError msg tok at_
              | ParseError msg' tok' at' => ParseError msg' tok' at'
              | TypeError => TypeError
              | OutOfFuel => OutOfFuel
              end
          | TypeError => TypeError
          | OutOfFuel => OutOfFuel
          end
  end.

End WithTokens.

(** [new Parser(tokens).parse()]. The constructor drops the [NEWLINE]
    tokens; on an empty array the first [peek().type] raises. *)
Definition parse (tokens : list Token) : Result Program :=
  let tokens := List.filter (fun t => negb (TokenType_eqb (type t) NEWLINE)) tokens in
  match List.last (List.map Some tokens) None with
  | None => TypeError
  | Some last_token =>
      match parse_loop tokens last_token (S (length tokens)) 0%nat with
      | Ok statements current => Ok {| statements := statements |} current
      | ParseError msg tok at_ => ParseError msg tok at_
      | TypeError => TypeError
      | OutOfFuel => OutOfFuel
      end
  end.

End Parser.

(** ** Bytecode generation ([src/compiler/bytecode.ts], [BytecodeGenerator]) *)

Module Bytecode.
Import JS AST.

Inductive OpCode : Type :=
  | LOAD_CONST | LOAD_VAR | STORE_VAR
  | ADD | SUBTRACT | MULTIPLY | DIVIDE | MODULO | NEGATE
  | EQUAL | NOT_EQUAL | LESS_THAN | GREATER_THAN | LESS_EQUAL | GREATER_EQUAL
  | AND | OR | NOT
  | JUMP | JUMP_IF_FALSE | JUMP_IF_TRUE
  | CALL | RETURN
  | PRINT | INPUT
  | POP | HALT.

(** The string value of each member of the enumeration. *)
Definition OpCode_name (op : OpCode) : string :=
  match op with
  | LOAD_CONST => "LOAD_CONST" | LOAD_VAR => "LOAD_VAR"
  | STORE_VAR => "STORE_VAR"
  | ADD => "ADD" | SUBTRACT => "SUBTRACT" | MULTIPLY => "MULTIPLY"
  | DIVIDE => "DIVIDE" | MODULO => "MODULO" | NEGATE => "NEGATE"
  | EQUAL => "EQUAL" | NOT_EQUAL => "NOT_EQUAL" | LESS_THAN => "LESS_THAN"
  | GREATER_THAN => "GREATER_THAN" | LESS_EQUAL => "LESS_EQUAL"
  | GREATER_EQUAL => "GREATER_EQUAL"
  | AND => "AND" | OR => "OR" | NOT => "NOT"
  | JUMP => "JUMP" | JUMP_IF_FALSE => "JUMP_IF_FALSE"
  | JUMP_IF_TRUE => "JUMP_IF_TRUE"
  | CALL => "CALL" | RETURN => "RETURN"
  | PRINT => "PRINT" | INPUT => "INPUT"
  | POP => "POP" | HALT => "HALT"
  end.

(** An instruction. The generator only ever gives an index, an address or
    a count as operand, or none. *)
Record Instruction : Type := {
  opcode : OpCode;
  operand : option nat;
  line : nat
}.

Record FunctionInfo : Type := { address : nat; arity : nat }.

Record BytecodeGenerator : Type := {
  instructions : list Instruction;
  constants : list Value;
  variables : gmap string nat;
  functions : gmap string FunctionInfo;
  currentLine : nat
}.

Definition new_generator : BytecodeGenerator := {|
  instructions := [];
  constants := [];
  variables := ∅;
  functions := ∅;
  currentLine := 1
|}.

Record Program : Type := {
  program_instructions : list Instruction;
  program_constants : list Value
}.

(** A visit ends with a value and the generator's new state, or with a
    thrown error and its message. *)
Inductive Outcome (A : Type) : Type :=
  | Done (a : A) (g : BytecodeGenerator)
  | Thrown (message : string).
Arguments Done {A}.
Arguments Thrown {A}.

Definition M (A : Type) : Type := BytecodeGenerator -> Outcome A.

Definition ret {A} (a : A) : M A := fun g => Done a g.

Definition bind {A B} (m : M A) (k : A -> M B) : M B :=
  fun g =>
    match m g with
    | Done a g' => k a g'
    | Thrown msg => Thrown msg
    end.

Notation "x <- m ;; k" := (bind m (fun x => k))
  (at level 100, m at next level, right associativity).
Notation "m ;;; k" := (bind m (fun _ => k))
  (at level 100, right associativity).

Definition throw {A} (message : string) : M A := fun _ => Thrown message.

Definition set_instructions (code : list Instruction) (g : BytecodeGenerator) :=
  {| instructions := code; constants := constants g; variables := variables g;
     functions := functions g; currentLine := currentLine g |}.

Definition emit (op : OpCode) (operand : option nat) : M unit :=
  fun g =>
    Done tt (set_instructions
      (instructions g ++
        [{| opcode := op; operand := operand; line := currentLine g |}]) g).

Definition addConstant (value : Value) : M nat :=
  fun g =>
    match JSOps.indexOf (constants g) value with
    | Some index => Done index g
    | None =>
        Done (length (constants g))
          {| instructions := instructions g;
             constants := constants g ++ [value];
             variables := variables g; functions := functions g;
             currentLine := currentLine g |}
    end.

(** [this.instructions.length] *)
Definition here : M nat := fun g => Done (length (instructions g)) g.

(** [this.instructions[index].operand = target]; assigning to a property
    of a missing element raises a [TypeError]. *)
Definition patch (index target : nat) : M unit :=
  fun g =>
    match instructions g !! index with
    | Some i =>
        Done tt (set_instructions
          (<[index := {| opcode := opcode i; operand := Some target;
                         line := line i |}]> (instructions g)) g)
    | None => Thrown "Cannot set properties of undefined (setting 'operand')"
    end.

Definition getVariable (name : string) : M (option nat) :=
  fun g => Done (variables g !! name) g.

Definition getFunction (name : string) : M (option FunctionInfo) :=
  fun g => Done (functions g !! name) g.

(** [index = this.variables.size; this.variables.set(name, index)] *)
Definition bindVariable (name : string) : M nat :=
  fun g =>
    let index := size (variables g) in
    Done index
      {| instructions := instructions g; constants := constants g;
         variables := <[name := index]> (variables g);
         functions := functions g; currentLine := currentLine g |}.

Definition setFunction (name : string) (info : FunctionInfo) : M unit :=
  fun g =>
    Done tt
      {| instructions := instructions g; constants := constants g;
         variables := variables g;
         functions := <[name := info]> (functions g);
         currentLine := currentLine g |}.

(** [for (const x of xs) visit(x)] *)
Fixpoint forEach {A} (visit : A -> M unit) (xs : list A) : M unit :=
  match xs with
  | [] => ret tt
  | x :: more => visit x ;;; forEach visit more
  end.

(** The [switch] of [visitBinaryExpression]; an operator outside it emits
    nothing. *)
Definition binaryOpcode (operator : string) : option OpCode :=
  if String.eqb operator "+" then Some ADD
  else if String.eqb operator "-" then Some SUBTRACT
  else if String.eqb operator "*" then Some MULTIPLY
  else if String.eqb operator "/" then Some DIVIDE
  else if String.eqb operator "%" then Some MODULO
  else if String.eqb operator "==" then Some EQUAL
  else if String.eqb operator "!=" then Some NOT_EQUAL
  else if String.eqb operator "<" then Some LESS_THAN
  else if String.eqb operator ">" then Some GREATER_THAN
  else if String.eqb operator "<=" then Some LESS_EQUAL
  else if String.eqb operator ">=" then Some GREATER_EQUAL
  else if String.eqb operator "&&" then Some AND
  else if String.eqb operator "||" then Some OR
  else None.

Definition unaryOpcode (operator : string) : option OpCode :=
  if String.eqb operator "-" then Some NEGATE
  else if String.eqb operator "!" then Some NOT
  else None.

Definition emit_if_some (op : option OpCode) : M unit :=
  match op with
  | Some o => emit o None
  | None => ret tt
  end.

(** The callee names compiled to [PRINT] and to [INPUT]. *)
Definition is_print_name (name : string) : bool :=
  String.eqb name "print" || String.eqb name "achchidu".
Definition is_input_name (name : string) : bool :=
  String.eqb name "input" || String.eqb name "ulle".

Definition is_ExpressionStatement (node : ASTNode) : bool :=
  match node with ExpressionStatement _ => true | _ => false end.

(** [node.accept(this)]: the visitor method of the node's class. The
    visits nest as deep as the tree; [Host.Generator.accept] is the same
    visit on the bounded call stack of the host. *)
Fixpoint accept (node : ASTNode) : M unit :=
  match node with
  | VarDeclaration identifier initializer =>
      match initializer with
      | Some init => accept init
      | None => c <- addConstant VNull ;; emit LOAD_CONST (Some c)
      end ;;;
      varIndex <- bindVariable identifier ;;
      emit STORE_VAR (Some varIndex)
  | FunctionDeclaration name parameters body =>
      functionAddress <- here ;;
      setFunction name {| address := functionAddress;
                          arity := length parameters |} ;;;
      forEach (fun p => paramIndex <- bindVariable p ;;
                        emit STORE_VAR (Some paramIndex))
              (List.rev parameters) ;;;
      forEach accept body ;;;
      c <- addConstant VNull ;;
      emit LOAD_CONST (Some c) ;;;
      emit RETURN None
  | IfStatement condition thenStatement elseStatement =>
      accept condition ;;;
      jumpIfFalse <- here ;;
      emit JUMP_IF_FALSE (Some 0%nat) ;;;
      accept thenStatement ;;;
      match elseStatement with
      | Some els =>
          jump <- here ;;
          emit JUMP (Some 0%nat) ;;;
          target <- here ;;
          patch jumpIfFalse target ;;;
          accept els ;;;
          target' <- here ;;
          patch jump target'
      | None =>
          target <- here ;;
          patch jumpIfFalse target
      end
  | WhileStatement condition body =>
      loopStart <- here ;;
      accept condition ;;;
      jumpIfFalse <- here ;;
      emit JUMP_IF_FALSE (Some 0%nat) ;;;
      accept body ;;;
      emit JUMP (Some loopStart) ;;;
      target <- here ;;
      patch jumpIfFalse target
  | ForStatement initializer condition increment body =>
      match initializer with
      | Some init =>
          accept init ;;;
          if is_ExpressionStatement init then emit POP None else ret tt
      | None => ret tt
      end ;;;
      loopStart <- here ;;
      match condition with
      | Some cond => accept cond
      | None => c <- addConstant (VBool true) ;; emit LOAD_CONST (Some c)
      end ;;;
      jumpIfFalse <- here ;;
      emit JUMP_IF_FALSE (Some 0%nat) ;;;
      accept body ;;;
      match increment with
      | Some inc => accept inc ;;; emit POP None
      | None => ret tt
      end ;;;
      emit JUMP (Some loopStart) ;;;
      target <- here ;;
      patch jumpIfFalse target
  | ReturnStatement value =>
      match value with
      | Some v => accept v
      | None => c <- addConstant VNull ;; emit LOAD_CONST (Some c)
      end ;;;
      emit RETURN None
  | ExpressionStatement expression =>
      accept expression ;;;
      emit POP None
  | BinaryExpression lhs operator rhs =>
      accept lhs ;;;
      accept rhs ;;;
      emit_if_some (binaryOpcode operator)
  | UnaryExpression operator operand =>
      accept operand ;;;
      emit_if_some (unaryOpcode operator)
  | CallExpression callee args =>
      let regular :=
        forEach accept args ;;;
        accept callee ;;;
        emit CALL (Some (length args)) in
      match callee with
      | Identifier name =>
          if is_print_name name then
            forEach accept args ;;;
            emit PRINT (Some (length args))
          else if is_input_name name then emit INPUT None
          else regular
      | _ => regular
      end
  | Identifier name =>
      varIndex <- getVariable name ;;
      match varIndex with
      | Some index => emit LOAD_VAR (Some index)
      | None =>
          func <- getFunction name ;;
          match func with
          | Some f =>
              c <- addConstant (VNum (JSNum.of_nat (address f))) ;;
              emit LOAD_CONST (Some c)
          | None => throw ("Undefined variable: " +:+ name)
          end
      end
  | Literal value _ =>
      constIndex <- addConstant value ;;
      emit LOAD_CONST (Some constIndex)
  | AssignmentExpression identifier value =>
      accept value ;;;
      known <- getVariable identifier ;;
      varIndex <- match known with
                  | Some index => ret index
                  | None => bindVariable identifier
                  end ;;
      emit STORE_VAR (Some varIndex)
  | BlockStatement statements => forEach accept statements
  end.

Definition visitProgram (node : AST.Program) : M unit :=
  forEach accept (AST.statements node).

(** [generate], on the generator [g] it is called on. *)
Definition generate_from (g : BytecodeGenerator) (program : AST.Program)
  : Outcome Program :=
  (visitProgram program ;;;
   emit HALT None ;;;
   fun g' => Done {| program_instructions := instructions g';
                     program_constants := constants g' |} g') g.

(** [new BytecodeGenerator().generate(program)] *)
Definition generate (program : AST.Program) : Outcome Program :=
  generate_from new_generator program.

End Bytecode.

(** ** The virtual machine ([src/compiler/bytecode.ts], [VirtualMachine]) *)

Module VM.
Import JS Bytecode.

(** The machine's state. The head of [stack] is the last element of the
    array, the one [pop()] removes. [pc] is [None] once it is [NaN].
    [variables_undefined] is the property of the [variables] array that an
    operand-less [STORE_VAR] writes ([variables[undefined] = value]) and an
    operand-less [LOAD_VAR] reads. [prompts] lists what the host's
    [prompt] dialog will answer, in order ([None] when it is dismissed, and
    after the last one). *)
Record VirtualMachine : Type := {
  stack : list Value;
  variables : list Value;
  variables_undefined : Value;
  callStack : list (nat * nat);
  pc : option Z;
  instructions : list Instruction;
  constants : list Value;
  output : list string;
  prompts : list (option string)
}.

Definition with_stack (s : list Value) (vm : VirtualMachine) : VirtualMachine :=
  {| stack := s; variables := variables vm;
     variables_undefined := variables_undefined vm;
     callStack := callStack vm; pc := pc vm;
     instructions := instructions vm; constants := constants vm;
     output := output vm; prompts := prompts vm |}.

Definition with_pc (p : option Z) (vm : VirtualMachine) : VirtualMachine :=
  {| stack := stack vm; variables := variables vm;
     variables_undefined := variables_undefined vm;
     callStack := callStack vm; pc := p;
     instructions := instructions vm; constants := constants vm;
     output := output vm; prompts := prompts vm |}.

Definition push (v : Value) (vm : VirtualMachine) : VirtualMachine :=
  with_stack (v :: stack vm) vm.

(** [this.stack.pop()]; on an empty array it gives [undefined] and leaves
    the array empty. *)
Definition pop (vm : VirtualMachine) : Value * VirtualMachine :=
  match stack vm with
  | v :: s => (v, with_stack s vm)
  | [] => (VUndefined, vm)
  end.

(** An executed instruction leaves a state and, if it threw, the message
    of the error. *)
Definition Step : Type := VirtualMachine * option string.

Definition continue (vm : VirtualMachine) : Step := (vm, None).
Definition throw (message : string) (vm : VirtualMachine) : Step :=
  (vm, Some message).

(** [b = pop(); a = pop(); push(f(a, b))] *)
Definition binary (f : Value -> Value -> Value) (vm : VirtualMachine) : Step :=
  let '(b, vm1) := pop vm in
  let '(a, vm2) := pop vm1 in
  continue (push (f a b) vm2).

Definition unary (f : Value -> Value) (vm : VirtualMachine) : Step :=
  let '(a, vm1) := pop vm in
  continue (push (f a) vm1).

(** [while (this.variables.length <= operand) this.variables.push(null);
    this.variables[operand] = value] *)
Definition store (index : nat) (value : Value) (vars : list Value) : list Value :=
  <[index := value]> (vars ++ List.repeat VNull (S index - length vars)%nat)%list.

(** The target [operand - 1] of a jump. *)
Definition jump_target (operand : option nat) : option Z :=
  match operand with
  | Some n => Some (Z.of_nat n - 1)
  | None => None
  end.

(** [for (i = 0; i < argCount; i++) args.unshift(this.stack.pop())] *)
Fixpoint pop_args (argCount : nat) (args : list Value) (vm : VirtualMachine)
  : list Value * VirtualMachine :=
  match argCount with
  | O => (args, vm)
  | S n => let '(v, vm') := pop vm in pop_args n (v :: args) vm'
  end.

(** [instruction.operand || 1] *)
Definition argCount (operand : option nat) : nat :=
  match operand with
  | Some (S n) => S n
  | _ => 1%nat
  end.

Definition executeInstruction (instruction : Instruction) (vm : VirtualMachine)
  : Step :=
  match opcode instruction with
  | LOAD_CONST =>
      continue (push (match operand instruction with
                      | Some n => nth n (constants vm) VUndefined
                      | None => VUndefined
                      end) vm)
  | LOAD_VAR =>
      match operand instruction with
      | Some n =>
          if (length (variables vm) <=? n)%nat
          then throw ("Undefined variable at index " +:+
                      JSOps.ToString (VNum (JSNum.of_nat n))) vm
          else continue (push (nth n (variables vm) VUndefined) vm)
      | None => continue (push (variables_undefined vm) vm)
      end
  | STORE_VAR =>
      let '(value, vm1) := pop vm in
      let vm2 :=
        match operand instruction with
        | Some n =>
            {| stack := stack vm1; variables := store n value (variables vm1);
               variables_undefined := variables_undefined vm1;
               callStack := callStack vm1; pc := pc vm1;
               instructions := instructions vm1; constants := constants vm1;
               output := output vm1; prompts := prompts vm1 |}
        | None =>
            {| stack := stack vm1; variables := variables vm1;
               variables_undefined := value;
               callStack := callStack vm1; pc := pc vm1;
               instructions := instructions vm1; constants := constants vm1;
               output := output vm1; prompts := prompts vm1 |}
        end in
      continue (push value vm2)
  | ADD => binary JSOps.add vm
  | SUBTRACT => binary JSOps.sub vm
  | MULTIPLY => binary JSOps.mul vm
  | DIVIDE =>
      let '(div_b, vm1) := pop vm in
      let '(div_a, vm2) := pop vm1 in
      if JSOps.strict_equal div_b (VNum PrimFloat.zero)
      then throw "Division by zero" vm2
      else continue (push (JSOps.div div_a div_b) vm2)
  | MODULO => binary JSOps.rem vm
  | NEGATE => unary JSOps.neg vm
  | EQUAL => binary (fun a b => VBool (JSOps.strict_equal a b)) vm
  | NOT_EQUAL => binary (fun a b => VBool (negb (JSOps.strict_equal a b))) vm
  | LESS_THAN => binary (fun a b => VBool (JSOps.lt a b)) vm
  | GREATER_THAN => binary (fun a b => VBool (JSOps.gt a b)) vm
  | LESS_EQUAL => binary (fun a b => VBool (JSOps.le a b)) vm
  | GREATER_EQUAL => binary (fun a b => VBool (JSOps.ge a b)) vm
  | AND => binary JSOps.and_ vm
  | OR => binary JSOps.or_ vm
  | NOT => unary JSOps.not_ vm
  | JUMP => continue (with_pc (jump_target (operand instruction)) vm)
  | JUMP_IF_FALSE =>
      let '(v, vm1) := pop vm in
      if negb (JSOps.ToBoolean v)
      then continue (with_pc (jump_target (operand instruction)) vm1)
      else continue vm1
  | JUMP_IF_TRUE =>
      let '(v, vm1) := pop vm in
      if JSOps.ToBoolean v
      then continue (with_pc (jump_target (operand instruction)) vm1)
      else continue vm1
  | PRINT =>
      let '(args, vm1) := pop_args (argCount (operand instruction)) [] vm in
      continue
        {| stack := stack vm1; variables := variables vm1;
           variables_undefined := variables_undefined vm1;
           callStack := callStack vm1; pc := pc vm1;
           instructions := instructions vm1; constants := constants vm1;
           output := output vm1 ++
                     [JSOps.join " " (List.map JSOps.ToString args)];
           prompts := prompts vm1 |}
  | INPUT =>
      let answer :=
        match prompts vm with
        | Some text :: _ => text
        | _ => EmptyString
        end in
      continue (push (VStr answer)
        {| stack := stack vm; variables := variables vm;
           variables_undefined := variables_undefined vm;
           callStack := callStack vm; pc := pc vm;
           instructions := instructions vm; constants := constants vm;
           output := output vm; prompts := List.tl (prompts vm) |})
  | POP => continue (snd (pop vm))
  | HALT => continue vm
  | CALL | RETURN =>
      throw ("Unknown opcode: " +:+ OpCode_name (opcode instruction)) vm
  end.

(** The state [execute] starts from. *)
Definition boot (bytecode : Program) (answers : list (option string))
  : VirtualMachine :=
  {| stack := []; variables := []; variables_undefined := VUndefined;
     callStack := []; pc := Some 0;
     instructions := program_instructions bytecode;
     constants := program_constants bytecode;
     output := []; prompts := answers |}.

(** The loop of [execute]: while [pc] is less than the number of
    instructions, execute the one at [pc] and increment [pc]. It ends with
    the last state and the message of the error caught, if any; [None] when
    [fuel] instructions were executed and the loop has not ended. *)
Fixpoint run (fuel : nat) (vm : VirtualMachine)
  : option (VirtualMachine * option string) :=
  match pc vm with
  | None => Some (vm, None)
  | Some p =>
      if p <? Z.of_nat (length (instructions vm)) then
        match fuel with
        | O => None
        | S fuel' =>
            match (if p <? 0 then None else instructions vm !! Z.to_nat p) with
            | None =>
                Some (vm, Some "Cannot read properties of undefined (reading 'opcode')")
            | Some instruction =>
                match executeInstruction instruction vm with
                | (vm', Some message) => Some (vm', Some message)
                | (vm', None) =>
                    run fuel' (with_pc (option_map Z.succ (pc vm')) vm')
                end
            end
        end
      else Some (vm, None)
  end.

(** What [execute] returns. *)
Record Result : Type := {
  result_output : list string;
  error : option string
}.

Definition execute (fuel : nat) (bytecode : Program)
    (answers : list (option string)) : option Result :=
  match run fuel (boot bytecode answers) with
  | Some (vm, err) => Some {| result_output := output vm; error := err |}
  | None => None
  end.

End VM.

(** ** The pipeline: lexer, parser, generator, machine *)

(** How compiling and running a source ends. *)
Inductive Outcome : Type :=
  | SyntaxError (message : string) (token : Lexer.Token)
  | CompileError (message : string)
  | Executed (result : VM.Result)
  | Stuck.

(** The four stages chained as [compileAndRun] chains them: tokenize with
    the language's table, parse, generate with a new generator, execute on
    a new machine. [Stuck] is the outcome of this model when a budget ran
    out, and of a [TypeError] of the host language in the parser. *)
Definition compile (language : Language.LanguageDefinition) (source : string)
  : Outcome + Bytecode.Program :=
  match Lexer.tokenize language source with
  | None => inl Stuck
  | Some tokens =>
      match Parser.parse tokens with
      | Parser.ParseError message token _ => inl (SyntaxError message token)
      | Parser.TypeError | Parser.OutOfFuel => inl Stuck
      | Parser.Ok ast _ =>
          match Bytecode.generate ast with
          | Bytecode.Thrown message => inl (CompileError message)
          | Bytecode.Done bytecode _ => inr bytecode
          end
      end
  end.

Definition runSource (fuel : nat) (language : Language.LanguageDefinition)
    (source : string) : Outcome :=
  match compile language source with
  | inl failure => failure
  | inr bytecode =>
      match VM.execute fuel bytecode [] with
      | Some result => Executed result
      | None => Stuck
      end
  end.

(** ** The programs and predicates the properties are stated on *)

Module Sources.

(** A double quote, to write the string literals of a source. *)
Definition q : string := String Lexer.double_quote EmptyString.

Definition factorial : string :=
  "function fact(n) { if (n <= 1) { return 1; } else { return n * fact(n - 1); } } print(fact(5));".

Definition lone_function : string :=
  "function f() { print(" +:+ q +:+ "x" +:+ q +:+ "); }".

Definition var_statement : string := "var x = 10;".

Definition modulo_by_zero : string := "print(5 % 0);".
Definition division_by_zero : string := "print(5 / 0);".

Definition hindi_dikhaao : string :=
  "agar (1 < 2) { dikhaao(" +:+ q +:+ "ok" +:+ q +:+ "); }".
Definition hindi_print : string :=
  "agar (1 < 2) { print(" +:+ q +:+ "ok" +:+ q +:+ "); }".

Definition concatenation : string :=
  "var s = " +:+ q +:+ "hi" +:+ q +:+ "; print(s + " +:+ q +:+ " " +:+ q +:+ " + 3);".

Definition multi_dot : string := "print(1.2.3);".

Definition empty_print : string := "print();".

Definition sum : string := "var x = 10; var y = 20; print(x + y);".

Definition factorial_loop : string :=
  "var n = 5; var f = 1; while (n > 1) { f = f * n; n = n - 1; } print(f);".

Definition branches : string :=
  "if (1 < 2) { print(" +:+ q +:+ "a" +:+ q +:+ "); } else { print("
  +:+ q +:+ "b" +:+ q +:+ "); } print(" +:+ q +:+ "c" +:+ q +:+ ");".

Definition redeclaration : string := "var x = 1; var x = x + 1; print(x);".

End Sources.

(** The opcodes and operands of a compiled source, without the line
    numbers. *)
Definition listing (language : Language.LanguageDefinition) (source : string)
  : option (list (Bytecode.OpCode * option nat)) :=
  match compile language source with
  | inr bytecode =>
      Some (List.map (fun i => (Bytecode.opcode i, Bytecode.operand i))
                     (Bytecode.program_instructions bytecode))
  | inl _ => None
  end.

(** The operand stack (top first) that running a compiled source leaves. *)
Definition final_stack (fuel : nat) (language : Language.LanguageDefinition)
    (source : string) : option (list JS.Value) :=
  match compile language source with
  | inr bytecode =>
      match VM.run fuel (VM.boot bytecode []) with
      | Some (vm, _) => Some (VM.stack vm)
      | None => None
      end
  | inl _ => None
  end.

Definition instruction (op : Bytecode.OpCode) (operand : option nat) (line : nat)
  : Bytecode.Instruction :=
  {| Bytecode.opcode := op; Bytecode.operand := operand; Bytecode.line := line |}.

(** The opcodes whose case in [executeInstruction] calls
    [this.stack.pop()]. *)
Definition pops (op : Bytecode.OpCode) : bool :=
  match op with
  | Bytecode.STORE_VAR
  | Bytecode.ADD | Bytecode.SUBTRACT | Bytecode.MULTIPLY | Bytecode.DIVIDE
  | Bytecode.MODULO | Bytecode.NEGATE
  | Bytecode.EQUAL | Bytecode.NOT_EQUAL | Bytecode.LESS_THAN
  | Bytecode.GREATER_THAN | Bytecode.LESS_EQUAL | Bytecode.GREATER_EQUAL
  | Bytecode.AND | Bytecode.OR | Bytecode.NOT
  | Bytecode.JUMP_IF_FALSE | Bytecode.JUMP_IF_TRUE
  | Bytecode.PRINT | Bytecode.POP => true
  | _ => false
  end.

Definition is_jump (op : Bytecode.OpCode) : bool :=
  match op with
  | Bytecode.JUMP | Bytecode.JUMP_IF_FALSE | Bytecode.JUMP_IF_TRUE => true
  | _ => false
  end.

(** A jump whose target is at most [bound]; any other instruction. *)
Definition target_within (bound : nat) (i : Bytecode.Instruction) : Prop :=
  is_jump (Bytecode.opcode i) = true ->
  exists t, Bytecode.operand i = Some t /\ (t <= bound)%nat.

(** Every jump of the generator's instructions aims at an instruction
    emitted so far, or right after them. *)
Definition jumps_settled (g : Bytecode.BytecodeGenerator) : Prop :=
  Forall (target_within (length (Bytecode.instructions g)))
         (Bytecode.instructions g).

(** The bytecode a program compiles to, when no error is thrown. *)
Definition compiled (program : AST.Program) : option Bytecode.Program :=
  match Bytecode.generate program with
  | Bytecode.Done bytecode _ => Some bytecode
  | Bytecode.Thrown _ => None
  end.

(** A program with a loop, a conditional with both branches and a call
    of [print]: the tree of
    [var n = 3; while (n > 0) { if (n == 2) print(n); else {} n = n - 1; }]. *)
Definition countdown : AST.Program := {|
  AST.statements :=
    [AST.VarDeclaration "n" (Some (AST.Literal (JS.VNum 3) AST.number));
     AST.WhileStatement
       (AST.BinaryExpression (AST.Identifier "n") ">"
          (AST.Literal (JS.VNum 0) AST.number))
       (AST.BlockStatement
          [AST.IfStatement
             (AST.BinaryExpression (AST.Identifier "n") "=="
                (AST.Literal (JS.VNum 2) AST.number))
             (AST.ExpressionStatement
                (AST.CallExpression (AST.Identifier "print")
                   [AST.Identifier "n"]))
             (Some (AST.BlockStatement []));
           AST.ExpressionStatement
             (AST.AssignmentExpression "n"
                (AST.BinaryExpression (AST.Identifier "n") "-"
                   (AST.Literal (JS.VNum 1) AST.number)))])]
|}.

Definition countdown_bytecode : Bytecode.Program := {|
  Bytecode.program_instructions :=
    [instruction Bytecode.LOAD_CONST (Some 0%nat) 1;
     instruction Bytecode.STORE_VAR (Some 0%nat) 1;
     instruction Bytecode.LOAD_VAR (Some 0%nat) 1;
     instruction Bytecode.LOAD_CONST (Some 1%nat) 1;
     instruction Bytecode.GREATER_THAN None 1;
     instruction Bytecode.JUMP_IF_FALSE (Some 20%nat) 1;
     instruction Bytecode.LOAD_VAR (Some 0%nat) 1;
     instruction Bytecode.LOAD_CONST (Some 2%nat) 1;
     instruction Bytecode.EQUAL None 1;
     instruction Bytecode.JUMP_IF_FALSE (Some 14%nat) 1;
     instruction Bytecode.LOAD_VAR (Some 0%nat) 1;
     instruction Bytecode.PRINT (Some 1%nat) 1;
     instruction Bytecode.POP None 1;
     instruction Bytecode.JUMP (Some 14%nat) 1;
     instruction Bytecode.LOAD_VAR (Some 0%nat) 1;
     instruction Bytecode.LOAD_CONST (Some 3%nat) 1;
     instruction Bytecode.SUBTRACT None 1;
     instruction Bytecode.STORE_VAR (Some 0%nat) 1;
     instruction Bytecode.POP None 1;
     instruction Bytecode.JUMP (Some 2%nat) 1;
     instruction Bytecode.HALT None 1];
  Bytecode.program_constants := [JS.VNum 3; JS.VNum 0; JS.VNum 2; JS.VNum 1]
|}.

(** A machine with nothing on its stack, about to run [code]. *)
Definition idle (code : list Bytecode.Instruction) : VM.VirtualMachine :=
  VM.boot {| Bytecode.program_instructions := code;
             Bytecode.program_constants := [] |} [].

(** The state a visit leaves, when it does not throw. *)
Definition state_after {A : Type} (o : Bytecode.Outcome A)
  : Bytecode.BytecodeGenerator :=
  match o with
  | Bytecode.Done _ g => g
  | Bytecode.Thrown _ => Bytecode.new_generator
  end.

(** The weakest precondition of a visit of the generator: [Q] holds of
    what it returns and of the state it leaves, if it does not throw. *)
Definition wp {A : Type} (m : Bytecode.M A)
    (Q : A -> Bytecode.BytecodeGenerator -> Prop)
    (g : Bytecode.BytecodeGenerator) : Prop :=
  match m g with
  | Bytecode.Done a g' => Q a g'
  | Bytecode.Thrown _ => True
  end.

Definition size_of (g : Bytecode.BytecodeGenerator) : nat :=
  length (Bytecode.instructions g).

(** The state after a visit started in [g]: its jumps are settled and no
    instruction was removed. *)
Definition extends {A : Type} (g : Bytecode.BytecodeGenerator)
  : A -> Bytecode.BytecodeGenerator -> Prop :=
  fun _ g' => jumps_settled g' /\ (size_of g <= size_of g')%nat.

(** A visit that keeps the jumps settled. *)
Definition careful (m : Bytecode.M unit) : Prop :=
  forall g, jumps_settled g -> wp m (extends g) g.

(** A visit that always returns and leaves the instructions as they
    are. *)
Definition quiet {A : Type} (m : Bytecode.M A) : Prop :=
  forall g, exists a g',
    m g = Bytecode.Done a g' /\
    Bytecode.instructions g' = Bytecode.instructions g.

(** The messages of the errors an instruction can throw. *)
Definition runtime_error (message : string) : Prop :=
  message = "Division by zero" \/
  (exists n : nat,
     message = "Undefined variable at index " +:+
               JSOps.ToString (JS.VNum (JSNum.of_nat n))) \/
  message = "Unknown opcode: CALL" \/
  message = "Unknown opcode: RETURN".

(** The counter is a number that is not negative, or [NaN]. *)
Definition pc_in_order (vm : VM.VirtualMachine) : Prop :=
  match VM.pc vm with
  | Some p => 0 <= p
  | None => True
  end.

(** [5 / 0] in bytecode. *)
Definition division_program : Bytecode.Program := {|
  Bytecode.program_instructions :=
    [instruction Bytecode.LOAD_CONST (Some 0%nat) 1;
     instruction Bytecode.LOAD_CONST (Some 1%nat) 1;
     instruction Bytecode.DIVIDE None 1];
  Bytecode.program_constants := [JS.VNum 5; JS.VNum 0]
|}.

(** No two constants of a pool are equal in the sense of [===]. *)
Definition pool_distinct (pool : list JS.Value) : Prop :=
  forall (i j : nat) x y,
    (i < j)%nat -> pool !! i = Some x -> pool !! j = Some y ->
    JSOps.strict_equal x y = false.

(** The opcodes that are emitted with an operand. *)
Definition has_operand (op : Bytecode.OpCode) : bool :=
  match op with
  | Bytecode.LOAD_CONST | Bytecode.LOAD_VAR | Bytecode.STORE_VAR
  | Bytecode.JUMP | Bytecode.JUMP_IF_FALSE | Bytecode.JUMP_IF_TRUE
  | Bytecode.CALL | Bytecode.PRINT => true
  | _ => false
  end.

(** An instruction as the generator makes them: on line [1], with an
    operand exactly when its opcode takes one, and when it loads a
    constant, with the index of a constant of a pool of [n] constants. *)
Definition instruction_ok (n : nat) (i : Bytecode.Instruction) : Prop :=
  Bytecode.line i = 1%nat /\
  has_operand (Bytecode.opcode i)
  = match Bytecode.operand i with Some _ => true | None => false end /\
  (Bytecode.opcode i = Bytecode.LOAD_CONST ->
   exists c, Bytecode.operand i = Some c /\ (c < n)%nat).

Definition well_formed (g : Bytecode.BytecodeGenerator) : Prop :=
  Bytecode.currentLine g = 1%nat /\
  Forall (instruction_ok (length (Bytecode.constants g))) (Bytecode.instructions g) /\
  pool_distinct (Bytecode.constants g).

Definition opcodes (g : Bytecode.BytecodeGenerator) : list Bytecode.OpCode :=
  List.map Bytecode.opcode (Bytecode.instructions g).

(** The instructions of [g] are still in [g'], with the opcode they had. *)
Definition keeps_opcodes (g g' : Bytecode.BytecodeGenerator) : Prop :=
  forall (i : nat) op, opcodes g !! i = Some op -> opcodes g' !! i = Some op.

Definition undefined_name (message : string) : Prop :=
  exists name, message = "Undefined variable: " +:+ name.

(** As [wp], for a visit that throws nothing but the error of an
    undefined name. *)
Definition wpe {A : Type} (m : Bytecode.M A)
    (Q : A -> Bytecode.BytecodeGenerator -> Prop)
    (g : Bytecode.BytecodeGenerator) : Prop :=
  match m g with
  | Bytecode.Done a g' => Q a g'
  | Bytecode.Thrown message => undefined_name message
  end.

Definition grown {A : Type} (g : Bytecode.BytecodeGenerator)
  : A -> Bytecode.BytecodeGenerator -> Prop :=
  fun _ g' =>
    well_formed g' /\ (size_of g <= size_of g')%nat /\ keeps_opcodes g g'.

Definition thorough (m : Bytecode.M unit) : Prop :=
  forall g, well_formed g -> wpe m (grown g) g.

(** A visit that always returns and changes neither the instructions, nor
    the constants, nor the current line. *)
Definition silent {A : Type} (m : Bytecode.M A) : Prop :=
  forall g, exists a g',
    m g = Bytecode.Done a g' /\
    Bytecode.instructions g' = Bytecode.instructions g /\
    Bytecode.constants g' = Bytecode.constants g /\
    Bytecode.currentLine g' = Bytecode.currentLine g.

(** A program that names a variable never declared: [y;]. *)
Definition undeclared : AST.Program :=
  {| AST.statements := [AST.ExpressionStatement (AST.Identifier "y")] |}.

(** ** What the tokens of a source look like *)

(** Every character of [s] is in the class. *)
Fixpoint every (class : ascii -> bool) (s : string) : bool :=
  match s with
  | String c r => class c && every class r
  | EmptyString => true
  end.

(** The texts [/^[a-zA-Z_][a-zA-Z0-9_]*$/]. *)
Definition is_word (s : string) : bool :=
  match s with
  | String c r => Lexer.is_letter c && every Lexer.is_identifier_char r
  | EmptyString => false
  end.

(** The texts [/^[0-9][0-9.]*$/]. *)
Definition is_numeral (s : string) : bool :=
  match s with
  | String c r => Lexer.is_digit c && every Lexer.is_number_char r
  | EmptyString => false
  end.

(** The text of the kinds of token that are always spelled the same. *)
Definition fixed_text (t : Lexer.TokenType) : option string :=
  match t with
  | Lexer.ASSIGN => Some "="
  | Lexer.EQUAL => Some "=="
  | Lexer.NOT_EQUAL => Some "!="
  | Lexer.LESS_THAN => Some "<"
  | Lexer.GREATER_THAN => Some ">"
  | Lexer.LESS_EQUAL => Some "<="
  | Lexer.GREATER_EQUAL => Some ">="
  | Lexer.PLUS => Some "+"
  | Lexer.MINUS => Some "-"
  | Lexer.MULTIPLY => Some "*"
  | Lexer.DIVIDE => Some "/"
  | Lexer.MODULO => Some "%"
  | Lexer.AND => Some "&&"
  | Lexer.OR => Some "||"
  | Lexer.NOT => Some "!"
  | Lexer.LPAREN => Some "("
  | Lexer.RPAREN => Some ")"
  | Lexer.LBRACE => Some "{"
  | Lexer.RBRACE => Some "}"
  | Lexer.SEMICOLON => Some ";"
  | Lexer.COMMA => Some ","
  | Lexer.NEWLINE => Some (String Lexer.newline EmptyString)
  | Lexer.EOF => Some EmptyString
  | _ => None
  end.

(** The value of a token agrees with its type: a numeral for [NUMBER], a
    word classified by the language's table for an identifier or a
    keyword, one character that starts no other token for [UNKNOWN], the
    fixed text for the others. A [STRING] holds any text. *)
Definition lexeme_ok (language : Language.LanguageDefinition) (t : Lexer.Token)
  : bool :=
  match Lexer.type t with
  | Lexer.NUMBER => is_numeral (Lexer.value t)
  | Lexer.STRING => true
  | Lexer.UNKNOWN =>
      match Lexer.value t with
      | String c EmptyString =>
          match Lexer.singleCharToken c with
          | Some _ => false
          | None =>
              negb (Lexer.is_digit c || Lexer.is_letter c ||
                    Ascii.eqb c Lexer.double_quote || Ascii.eqb c "'" ||
                    Lexer.is_blank c)
          end
      | _ => false
      end
  | other =>
      match fixed_text other with
      | Some text => String.eqb (Lexer.value t) text
      | None =>
          is_word (Lexer.value t) &&
          Lexer.TokenType_eqb other
            (Lexer.getKeywordTokenType (Language.keywords language)
                                       (Lexer.value t))
      end
  end.

(** The values of the tokens, one after the other. *)
Definition text_of (tokens : list Lexer.Token) : string :=
  List.fold_right (fun t text => Lexer.value t +:+ text) EmptyString tokens.

(** The source without the characters [skipWhitespace] passes over. *)
Fixpoint without_blanks (s : string) : string :=
  match s with
  | String c r =>
      if Lexer.is_blank c then without_blanks r else String c (without_blanks r)
  | EmptyString => EmptyString
  end.

Definition is_quote (c : ascii) : bool :=
  Ascii.eqb c Lexer.double_quote || Ascii.eqb c "'".

(** The number of line feeds of a text. *)
Fixpoint newlines (s : string) : nat :=
  match s with
  | String c r => (if Ascii.eqb c Lexer.newline then 1 else 0) + newlines r
  | EmptyString => 0
  end.

(** The line of a token is one of the lines of a source with [last]
    lines. *)
Definition on_a_line (last : nat) (t : Lexer.Token) : Prop :=
  (1 <= Lexer.line t <= last)%nat.

(** A character a string literal opened by [quote] holds as it is. *)
Definition plain (quote c : ascii) : bool :=
  negb (Ascii.eqb c quote) && negb (Ascii.eqb c Lexer.backslash).

(** The token of a string literal that starts a source. *)
Definition string_token (text : string) : Lexer.Token :=
  {| Lexer.type := Lexer.STRING; Lexer.value := text;
     Lexer.line := 1 + newlines text; Lexer.column := 1 |}.

(** The token type a key of the keyword table stands for; the keys that
    are none of the ten keywords give identifiers. *)
Definition kind_of (englishKeyword : string) : Lexer.TokenType :=
  match Lexer.keywordTokenType englishKeyword with
  | Some t => t
  | None => Lexer.IDENTIFIER
  end.

(** The tokens of a source that is one word. *)
Definition word_tokens (t : Lexer.TokenType) (word : string) : list Lexer.Token :=
  [ {| Lexer.type := t; Lexer.value := word; Lexer.line := 1; Lexer.column := 1 |};
    {| Lexer.type := Lexer.EOF; Lexer.value := EmptyString; Lexer.line := 1;
       Lexer.column := 1 + String.length word |} ].

(** No two strings of the list are equal. *)
Fixpoint distinct (l : list string) : bool :=
  match l with
  | [] => true
  | x :: more => negb (existsb (String.eqb x) more) && distinct more
  end.

(** The spellings of a table are words, and no two entries share one. *)
Definition spelled_apart (language : Language.LanguageDefinition) : bool :=
  distinct (List.map snd (Language.keywords language)) &&
  forallb (fun entry => is_word (snd entry)) (Language.keywords language).

(** ** What the parser answers *)

(** The messages of the [ParseError]s the parser throws. *)
Definition parse_messages : list string :=
  [ "Expected variable name";
    "Expected ';' after variable declaration";
    "Expected function name";
    "Expected '(' after function name";
    "Expected parameter name";
    "Expected ')' after parameters";
    "Expected '{' before function body";
    "Expected '}' after function body";
    "Expected '(' after 'if'";
    "Expected ')' after if condition";
    "Expected '(' after 'while'";
    "Expected ')' after while condition";
    "Expected '(' after 'for'";
    "Expected ';' after for loop condition";
    "Expected ')' after for clauses";
    "Expected ';' after return value";
    "Expected '}' after block";
    "Expected ';' after expression";
    "Invalid assignment target";
    "Expected ')' after arguments";
    "Expected ')' after expression";
    "Expected expression" ].

(** [match(...types)] takes the token: it is not [EOF] and its type is
    one of [types]. *)
Definition accepts (types : list Lexer.TokenType) (t : Lexer.Token) : bool :=
  negb (Lexer.TokenType_eqb (Lexer.type t) Lexer.EOF) &&
  existsb (Lexer.TokenType_eqb (Lexer.type t)) types.

(** A token of a type with one spelling has that spelling as its value. *)
Definition spelled (t : Lexer.Token) : Prop :=
  match fixed_text (Lexer.type t) with
  | Some text => Lexer.value t = text
  | None => True
  end.

Definition known (o : option Bytecode.OpCode) : bool :=
  match o with Some _ => true | None => false end.

Definition option_all {A : Type} (p : A -> bool) (o : option A) : bool :=
  match o with Some a => p a | None => true end.

(** Every binary operator of the tree satisfies [binary_ok] and every
    unary operator [unary_ok]. *)
Fixpoint operators_satisfy (binary_ok unary_ok : string -> bool)
    (node : AST.ASTNode) : bool :=
  let ok := operators_satisfy binary_ok unary_ok in
  match node with
  | AST.VarDeclaration _ initializer => option_all ok initializer
  | AST.FunctionDeclaration _ _ body => forallb ok body
  | AST.IfStatement condition thenStatement elseStatement =>
      ok condition && ok thenStatement && option_all ok elseStatement
  | AST.WhileStatement condition body => ok condition && ok body
  | AST.ForStatement initializer condition increment body =>
      option_all ok initializer && option_all ok condition &&
      option_all ok increment && ok body
  | AST.ReturnStatement value => option_all ok value
  | AST.ExpressionStatement expression => ok expression
  | AST.BinaryExpression lhs operator rhs =>
      binary_ok operator && ok lhs && ok rhs
  | AST.UnaryExpression operator operand => unary_ok operator && ok operand
  | AST.CallExpression callee args => ok callee && forallb ok args
  | AST.Identifier _ => true
  | AST.Literal _ _ => true
  | AST.AssignmentExpression _ value => ok value
  | AST.BlockStatement statements => forallb ok statements
  end.

(** Every operator of the tree is one the generator has an opcode for. *)
Definition operators_known : AST.ASTNode -> bool :=
  operators_satisfy (fun operator => known (Bytecode.binaryOpcode operator))
                    (fun operator => known (Bytecode.unaryOpcode operator)).

(** A parsing function run at [current]: it returns with [Q], or throws
    a [ParseError] with one of the parser's messages and a token of the
    array; it neither raises a [TypeError] nor exhausts its budget. *)
Definition wpp {A : Type} (tokens : list Lexer.Token) (m : Parser.M A)
    (Q : A -> nat -> Prop) (current : nat) : Prop :=
  match m current with
  | Parser.Ok a current' => Q a current'
  | Parser.ParseError message token _ =>
      In message parse_messages /\ In token tokens
  | Parser.TypeError => False
  | Parser.OutOfFuel => False
  end.

(** The function returned a value that satisfies [R], further in the
    array. *)
Definition advanced {A : Type} (tokens : list Lexer.Token) (R : A -> bool)
    (current : nat) (a : A) (current' : nat) : Prop :=
  (current < current' < length tokens)%nat /\ R a = true.

(** The same, when it may have consumed nothing. *)
Definition reached {A : Type} (tokens : list Lexer.Token) (R : A -> bool)
    (current : nat) (a : A) (current' : nat) : Prop :=
  (current <= current' < length tokens)%nat /\ R a = true.

(** From [from] on, the function consumes at least one token when it
    returns. *)
Definition steady {A : Type} (tokens : list Lexer.Token) (R : A -> bool)
    (from : nat) (m : Parser.M A) : Prop :=
  forall current,
    (from <= current)%nat -> (current < length tokens)%nat ->
    wpp tokens m (advanced tokens R current) current.

(** The grammar functions given a budget, each with the number of calls
    it can make before a token is consumed. *)
Definition grammar (tokens : list Lexer.Token) (last_token : Lexer.Token)
    (fuel : nat) : list (nat * Parser.M AST.ASTNode) :=
  [ (13%nat, Parser.declaration tokens last_token fuel);
    (12%nat, Parser.statement tokens last_token fuel);
    (11%nat, Parser.expression tokens last_token fuel);
    (10%nat, Parser.assignment tokens last_token fuel);
    (9%nat, Parser.or_ tokens last_token fuel);
    (8%nat, Parser.and_ tokens last_token fuel);
    (7%nat, Parser.equality tokens last_token fuel);
    (6%nat, Parser.comparison tokens last_token fuel);
    (5%nat, Parser.term tokens last_token fuel);
    (4%nat, Parser.factor tokens last_token fuel);
    (3%nat, Parser.unary tokens last_token fuel);
    (2%nat, Parser.call tokens last_token fuel);
    (1%nat, Parser.primary tokens last_token fuel) ].

(** The token types of the binary and of the unary operators. *)
Definition binary_types : list Lexer.TokenType :=
  [ Lexer.OR; Lexer.AND; Lexer.NOT_EQUAL; Lexer.EQUAL; Lexer.GREATER_THAN;
    Lexer.GREATER_EQUAL; Lexer.LESS_THAN; Lexer.LESS_EQUAL; Lexer.MINUS;
    Lexer.PLUS; Lexer.DIVIDE; Lexer.MULTIPLY; Lexer.MODULO ].

Definition within (types all : list Lexer.TokenType) : bool :=
  forallb (fun t => existsb (Lexer.TokenType_eqb t) all) types.

(** The array ends with [EOF]. *)
Definition ends_with_EOF (tokens : list Lexer.Token) : Prop :=
  exists t, last tokens = Some t /\ Lexer.type t = Lexer.EOF.

(** The program [parse] returns for the tokens of a source, if it returns
    one. *)
Definition parsed (language : Language.LanguageDefinition) (source : string)
  : option AST.Program :=
  match Lexer.tokenize language source with
  | Some tokens =>
      match Parser.parse tokens with
      | Parser.Ok program _ => Some program
      | _ => None
      end
  | None => None
  end.

(** ** Programs without branches *)

(** The tree holds no [if], no [while] and no [for]. *)
Fixpoint branch_free (node : AST.ASTNode) : bool :=
  match node with
  | AST.VarDeclaration _ initializer => option_all branch_free initializer
  | AST.FunctionDeclaration _ _ body => forallb branch_free body
  | AST.IfStatement _ _ _ => false
  | AST.WhileStatement _ _ => false
  | AST.ForStatement _ _ _ _ => false
  | AST.ReturnStatement value => option_all branch_free value
  | AST.ExpressionStatement expression => branch_free expression
  | AST.BinaryExpression lhs _ rhs => branch_free lhs && branch_free rhs
  | AST.UnaryExpression _ operand => branch_free operand
  | AST.CallExpression callee args =>
      branch_free callee && forallb branch_free args
  | AST.Identifier _ => true
  | AST.Literal _ _ => true
  | AST.AssignmentExpression _ value => branch_free value
  | AST.BlockStatement statements => forallb branch_free statements
  end.

(** No instruction is a jump. *)
Definition jump_free (code : list Bytecode.Instruction) : Prop :=
  Forall (fun i => is_jump (Bytecode.opcode i) = false) code.

(** A visit that emits no jump. *)
Definition straight (m : Bytecode.M unit) : Prop :=
  forall g,
    jump_free (Bytecode.instructions g) ->
    wp m (fun _ g' => jump_free (Bytecode.instructions g')) g.

(** [print(1 + 2);] as a tree. *)
Definition print_sum : AST.Program := {|
  AST.statements :=
    [AST.ExpressionStatement
       (AST.CallExpression (AST.Identifier "print")
          [AST.BinaryExpression (AST.Literal (JS.VNum 1) AST.number) "+"
             (AST.Literal (JS.VNum 2) AST.number)])]
|}.

Definition print_sum_bytecode : Bytecode.Program := {|
  Bytecode.program_instructions :=
    [instruction Bytecode.LOAD_CONST (Some 0%nat) 1;
     instruction Bytecode.LOAD_CONST (Some 1%nat) 1;
     instruction Bytecode.ADD None 1;
     instruction Bytecode.PRINT (Some 1%nat) 1;
     instruction Bytecode.POP None 1;
     instruction Bytecode.HALT None 1];
  Bytecode.program_constants := [JS.VNum 1; JS.VNum 2]
|}.

(** ** The editor ([src/App.tsx]) *)

Module App.
Import Language.

(** [${keywords.key}] in a template: the text of the property, and
    [undefined] spelled out when the object has none. *)
Definition keyword (language : LanguageDefinition) (key : string) : string :=
  match entry key (keywords language) with
  | Some text => text
  | None => "undefined"
  end.

Definition nl : string := String Lexer.newline EmptyString.

(** [getExampleCode(language)] *)
Definition getExampleCode (language : LanguageDefinition) : string :=
  keyword language "var" +:+ " x = 10;" +:+ nl +:+
  keyword language "var" +:+ " y = 20;" +:+ nl +:+
  keyword language "var" +:+ " sum = x + y;" +:+ nl +:+
  keyword language "print" +:+ "(sum);" +:+ nl +:+ nl +:+
  keyword language "if" +:+ " (sum > 25) {" +:+ nl +:+
  "    " +:+ keyword language "print" +:+ "(" +:+ Sources.q +:+
  "Sum is greater than 25" +:+ Sources.q +:+ ");" +:+ nl +:+
  "} " +:+ keyword language "else" +:+ " {" +:+ nl +:+
  "    " +:+ keyword language "print" +:+ "(" +:+ Sources.q +:+
  "Sum is 25 or less" +:+ Sources.q +:+ ");" +:+ nl +:+
  "}".

(** [currentLanguage]: the language of the table whose [code] is
    [selectedLanguage], English when there is none. *)
Definition currentLanguage (selectedLanguage : string) : LanguageDefinition :=
  match List.find (fun lang => String.eqb (code lang) selectedLanguage)
                  getAllLanguages with
  | Some lang => lang
  | None => english
  end.

(** The state [handleLanguageChange] sets. *)
Record State : Type := {
  selectedLanguage : string;
  showLanguageDropdown : bool;
  error : string;
  output : list string;
  described : bool;
  editor : string
}.

(** [handleLanguageChange(langCode)]. The example put in the editor is
    that of [LANGUAGES[langCode] || LANGUAGES['english']]; under an
    inherited key stands a value without keywords, and reading its
    [keywords.var] raises a [TypeError] ([None]). *)
Definition handleLanguageChange (langCode : string) : option State :=
  let newLanguage :=
    match property LANGUAGES langCode with
    | Own language => Some language
    | Inherited => None
    | Undefined => Some english
    end in
  match newLanguage with
  | Some language =>
      Some {| selectedLanguage := langCode;
              showLanguageDropdown := false;
              error := EmptyString;
              output := [];
              described := false;
              editor := getExampleCode language |}
  | None => None
  end.

End App.

(** The check that an entry of a keyword table is translated to the
    target's entry of the same key, and back to itself. *)
Definition entry_eqb (a b : string * string) : bool :=
  String.eqb (fst a) (fst b) && String.eqb (snd a) (snd b).

Definition translates_back (sourceName targetName : string)
    (target : Language.LanguageDefinition) (e : string * string) : bool :=
  match Language.getKeywordTranslation (snd e) sourceName targetName with
  | Language.Text translated =>
      existsb (entry_eqb (fst e, translated)) (Language.keywords target) &&
      match Language.getKeywordTranslation translated targetName sourceName with
      | Language.Text back => String.eqb back (snd e)
      | _ => false
      end
  | _ => false
  end.

(** A token on line [1]. *)
Definition on_first_line (t : Lexer.TokenType) (text : string) (col : nat)
  : Lexer.Token :=
  {| Lexer.type := t; Lexer.value := text; Lexer.line := 1;
     Lexer.column := col |}.

(** ** Programs of declarations, assignments, operators and [print] *)










(** ** The shape of what is parsed *)

(** How tightly a binary operator binds: the rank of the grammar
    function that reads it, [or] first. *)
Definition binding (t : Lexer.TokenType) : option nat :=
  match t with
  | Lexer.OR => Some 1%nat
  | Lexer.AND => Some 2%nat
  | Lexer.NOT_EQUAL | Lexer.EQUAL => Some 3%nat
  | Lexer.GREATER_THAN | Lexer.GREATER_EQUAL
  | Lexer.LESS_THAN | Lexer.LESS_EQUAL => Some 4%nat
  | Lexer.MINUS | Lexer.PLUS => Some 5%nat
  | Lexer.DIVIDE | Lexer.MULTIPLY | Lexer.MODULO => Some 6%nat
  | _ => None
  end.

Definition no_token : Lexer.Token :=
  {| Lexer.type := Lexer.EOF; Lexer.value := EmptyString;
     Lexer.line := 0; Lexer.column := 0 |}.

(** The token at an index of an array, and its value. *)
Definition token (i : nat) (tokens : list Lexer.Token) : Lexer.Token :=
  nth i tokens no_token.

Definition text (i : nat) (tokens : list Lexer.Token) : string :=
  Lexer.value (token i tokens).

(** The identifier written at an index. *)
Definition named (i : nat) (tokens : list Lexer.Token) : AST.ASTNode :=
  AST.Identifier (text i tokens).

(** A program of one expression statement. *)
Definition one_expression (e : AST.ASTNode) : AST.Program :=
  {| AST.statements := [AST.ExpressionStatement e] |}.

Definition word (v : string) : Lexer.Token :=
  {| Lexer.type := Lexer.IDENTIFIER; Lexer.value := v;
     Lexer.line := 1; Lexer.column := 1 |}.

Definition sign (t : Lexer.TokenType) (v : string) : Lexer.Token :=
  {| Lexer.type := t; Lexer.value := v; Lexer.line := 1; Lexer.column := 1 |}.

(** ** The parser and the generator on the host

    The parser and the generator recur on the source and on the tree, and
    the host runs them on a call stack of bounded depth: a call for which
    no frame is left throws a [RangeError]. Reading a property of
    [undefined], which [tokens[i]] is outside the array, throws a
    [TypeError]. Both are modelled here: a token read from the array is an
    [option], and the recursive functions take the number of nested calls
    the stack still holds. *)

Module Host.

(** The message of the [RangeError] of an exhausted call stack, in the
    words of V8. *)
Definition stack_exhausted : string := "Maximum call stack size exceeded".

(** *** [Parser] *)

Module Parser.
Import Lexer AST.

(** What a parsing function ends with: a value and the new [current]; a
    thrown [ParseError], whose token is what [peek()] or [previous()] gave;
    a [TypeError]; a [RangeError]; or an exhausted budget of a loop of this
    model. *)
Inductive Result (A : Type) : Type :=
  | Ok (a : A) (current : nat)
  | ParseError (message : string) (token : option Token) (current : nat)
  | TypeError
  | RangeError
  | OutOfFuel.
Arguments Ok {A}.
Arguments ParseError {A}.
Arguments TypeError {A}.
Arguments RangeError {A}.
Arguments OutOfFuel {A}.

Definition M (A : Type) : Type := nat -> Result A.

Definition ret {A} (a : A) : M A := fun current => Ok a current.

Definition bind {A B} (m : M A) (k : A -> M B) : M B :=
  fun current =>
    match m current with
    | Ok a current' => k a current'
    | ParseError msg tok at_ => ParseError msg tok at_
    | TypeError => TypeError
    | RangeError => RangeError
    | OutOfFuel => OutOfFuel
    end.

Notation "x <- m ;; k" := (bind m (fun x => k))
  (at level 100, m at next level, right associativity).
Notation "m ;;; k" := (bind m (fun _ => k))
  (at level 100, right associativity).

Definition out_of_fuel {A} : M A := fun _ => OutOfFuel.
Definition range_error {A} : M A := fun _ => RangeError.

(** [x.type], [x.value]: a property of a token that may be [undefined]. *)
Definition property {A} (field : Token -> A) (x : option Token) : M A :=
  fun current =>
    match x with
    | Some t => Ok (field t) current
    | None => TypeError
    end.

Section WithTokens.
(** [this.tokens]: the tokens without the [NEWLINE] ones. *)
Variable tokens : list Token.

(** [this.tokens[this.current] || this.tokens[this.tokens.length - 1]] *)
Definition peek : M (option Token) :=
  fun current =>
    Ok (match tokens !! current with
        | Some t => Some t
        | None => last tokens
        end) current.

(** [this.tokens[this.current - 1]] *)
Definition previous : M (option Token) :=
  fun current =>
    Ok (match current with
        | O => None
        | S before => tokens !! before
        end) current.

Definition isAtEnd : M bool :=
  t <- peek ;; ty <- property type t ;; ret (TokenType_eqb ty EOF).

Definition advance : M (option Token) :=
  e <- isAtEnd ;;
  (if e then ret tt else fun current => Ok tt (S current)) ;;;
  previous.

Definition check (ty : TokenType) : M bool :=
  e <- isAtEnd ;;
  if e then ret false
  else t <- peek ;; ty' <- property type t ;; ret (TokenType_eqb ty' ty).

Fixpoint match_ (types : list TokenType) : M bool :=
  match types with
  | [] => ret false
  | ty :: more =>
      c <- check ty ;;
      if c then advance ;;; ret true else match_ more
  end.

Definition throw {A} (message : string) (token : option Token) : M A :=
  fun current => ParseError message token current.

Definition consume (ty : TokenType) (message : string) : M (option Token) :=
  c <- check ty ;;
  if c then advance else t <- peek ;; throw message t.

Definition is_statement_start (ty : TokenType) : bool :=
  match ty with
  | VAR | FUNCTION | IF | WHILE | FOR | RETURN => true
  | _ => false
  end.

(** The loops take the number of turns they may make; [length tokens]
    turns are enough for each on an array that ends with [EOF], where
    every turn but the last consumes a token. *)

Fixpoint synchronize_loop (turns : nat) : M unit :=
  match turns with
  | O => out_of_fuel
  | S turns' =>
      e <- isAtEnd ;;
      if e then ret tt
      else
        p <- previous ;;
        ty <- property type p ;;
        if TokenType_eqb ty SEMICOLON then ret tt
        else
          t <- peek ;;
          ty' <- property type t ;;
          if is_statement_start ty' then ret tt
          else advance ;;; synchronize_loop turns'
  end.

Definition synchronize : M unit :=
  advance ;;; synchronize_loop (S (length tokens)).

(** [while (this.match(...types)) { operator = previous().value;
    right = operand(); expr = new BinaryExpression(expr, operator, right) }] *)
Fixpoint binary_loop (types : list TokenType) (operand : M ASTNode)
    (turns : nat) (expr : ASTNode) : M ASTNode :=
  match turns with
  | O => out_of_fuel
  | S turns' =>
      m <- match_ types ;;
      if m then
        p <- previous ;;
        operator <- property value p ;;
        right <- operand ;;
        binary_loop types operand turns' (BinaryExpression expr operator right)
      else ret expr
  end.

Definition binary (types : list TokenType) (operand : M ASTNode) : M ASTNode :=
  expr <- operand ;; binary_loop types operand (length tokens) expr.

(** [while (!check(RBRACE) && !isAtEnd()) { stmt = declaration();
    if (stmt) statements.push(stmt) }] *)
Fixpoint block_loop (declaration : M ASTNode) (turns : nat) : M (list ASTNode) :=
  match turns with
  | O => out_of_fuel
  | S turns' =>
      c <- check RBRACE ;;
      e <- (if negb c then isAtEnd else ret true) ;;
      if negb c && negb e then
        stmt <- declaration ;;
        more <- block_loop declaration turns' ;;
        ret (stmt :: more)
      else ret []
  end.

(** [do { xs.push(element()) } while (this.match(COMMA))] *)
Fixpoint comma_loop {A} (element : M A) (turns : nat) : M (list A) :=
  match turns with
  | O => out_of_fuel
  | S turns' =>
      x <- element ;;
      m <- match_ [COMMA] ;;
      if m then more <- comma_loop element turns' ;; ret (x :: more)
      else ret [x]
  end.

Definition finishCall (expression : M ASTNode) (callee : ASTNode) : M ASTNode :=
  c <- check RPAREN ;;
  args <- (if negb c then comma_loop expression (length tokens) else ret []) ;;
  consume RPAREN "Expected ')' after arguments" ;;;
  ret (CallExpression callee args).

(** [while (true) { if (match(LPAREN)) expr = finishCall(expr) else break }] *)
Fixpoint call_loop (expression : M ASTNode) (turns : nat) (expr : ASTNode)
  : M ASTNode :=
  match turns with
  | O => out_of_fuel
  | S turns' =>
      m <- match_ [LPAREN] ;;
      if m then
        expr' <- finishCall expression expr ;;
        call_loop expression turns' expr'
      else ret expr
  end.

Definition varDeclaration (expression : M ASTNode) : M ASTNode :=
  t <- consume IDENTIFIER "Expected variable name" ;;
  name <- property value t ;;
  m <- match_ [ASSIGN] ;;
  initializer <- (if m then e <- expression ;; ret (Some e) else ret None) ;;
  consume SEMICOLON "Expected ';' after variable declaration" ;;;
  ret (VarDeclaration name initializer).

Definition functionDeclaration (declaration : M ASTNode) : M ASTNode :=
  t <- consume IDENTIFIER "Expected function name" ;;
  name <- property value t ;;
  consume LPAREN "Expected '(' after function name" ;;;
  c <- check RPAREN ;;
  parameters <-
    (if negb c
     then comma_loop
            (p <- consume IDENTIFIER "Expected parameter name" ;;
             property value p)
            (length tokens)
     else ret []) ;;
  consume RPAREN "Expected ')' after parameters" ;;;
  consume LBRACE "Expected '{' before function body" ;;;
  body <- block_loop declaration (length tokens) ;;
  consume RBRACE "Expected '}' after function body" ;;;
  ret (FunctionDeclaration name parameters body).

Definition expressionStatement (expression : M ASTNode) : M ASTNode :=
  expr <- expression ;;
  consume SEMICOLON "Expected ';' after expression" ;;;
  ret (ExpressionStatement expr).

Definition ifStatement (expression statement : M ASTNode) : M ASTNode :=
  consume LPAREN "Expected '(' after 'if'" ;;;
  condition <- expression ;;
  consume RPAREN "Expected ')' after if condition" ;;;
  thenStatement <- statement ;;
  m <- match_ [ELSE] ;;
  elseStatement <- (if m then s <- statement ;; ret (Some s) else ret None) ;;
  ret (IfStatement condition thenStatement elseStatement).

Definition whileStatement (expression statement : M ASTNode) : M ASTNode :=
  consume LPAREN "Expected '(' after 'while'" ;;;
  condition <- expression ;;
  consume RPAREN "Expected ')' after while condition" ;;;
  body <- statement ;;
  ret (WhileStatement condition body).

Definition forStatement (expression statement : M ASTNode) : M ASTNode :=
  consume LPAREN "Expected '(' after 'for'" ;;;
  semi <- match_ [SEMICOLON] ;;
  initializer <-
    (if semi then ret None
     else
       v <- match_ [VAR] ;;
       if v then d <- varDeclaration expression ;; ret (Some d)
       else s <- expressionStatement expression ;; ret (Some s)) ;;
  c1 <- check SEMICOLON ;;
  condition <- (if negb c1 then e <- expression ;; ret (Some e) else ret None) ;;
  consume SEMICOLON "Expected ';' after for loop condition" ;;;
  c2 <- check RPAREN ;;
  increment <- (if negb c2 then e <- expression ;; ret (Some e) else ret None) ;;
  consume RPAREN "Expected ')' after for clauses" ;;;
  body <- statement ;;
  ret (ForStatement initializer condition increment body).

Definition returnStatement (expression : M ASTNode) : M ASTNode :=
  c <- check SEMICOLON ;;
  value <- (if negb c then e <- expression ;; ret (Some e) else ret None) ;;
  consume SEMICOLON "Expected ';' after return value" ;;;
  ret (ReturnStatement value).

Definition blockStatement (declaration : M ASTNode) : M ASTNode :=
  statements <- block_loop declaration (length tokens) ;;
  consume RBRACE "Expected '}' after block" ;;;
  ret (BlockStatement statements).

(** The thirteen functions of the grammar, which call each other.
    [stack] is the number of nested calls of them that the call stack
    still holds: a call made with none left throws the [RangeError]. The
    other methods do not recur; the frames they take are not counted. *)
Fixpoint declaration (stack : nat) : M ASTNode :=
  match stack with
  | O => range_error
  | S s =>
      v <- match_ [VAR] ;;
      if v then varDeclaration (expression s)
      else
        fn <- match_ [FUNCTION] ;;
        if fn then functionDeclaration (declaration s)
        else statement s
  end
with statement (stack : nat) : M ASTNode :=
  match stack with
  | O => range_error
  | S s =>
      i <- match_ [IF] ;;
      if i then ifStatement (expression s) (statement s)
      else
        w <- match_ [WHILE] ;;
        if w then whileStatement (expression s) (statement s)
        else
          fo <- match_ [FOR] ;;
          if fo then forStatement (expression s) (statement s)
          else
            r <- match_ [RETURN] ;;
            if r then returnStatement (expression s)
            else
              b <- match_ [LBRACE] ;;
              if b then blockStatement (declaration s)
              else expressionStatement (expression s)
  end
with expression (stack : nat) : M ASTNode :=
  match stack with
  | O => range_error
  | S s => assignment s
  end
with assignment (stack : nat) : M ASTNode :=
  match stack with
  | O => range_error
  | S s =>
      expr <- or_ s ;;
      m <- match_ [ASSIGN] ;;
      if m then
        value <- assignment s ;;
        match expr with
        | Identifier name => ret (AssignmentExpression name value)
        | _ => p <- previous ;; throw "Invalid assignment target" p
        end
      else ret expr
  end
with or_ (stack : nat) : M ASTNode :=
  match stack with
  | O => range_error
  | S s => binary [OR] (and_ s)
  end
with and_ (stack : nat) : M ASTNode :=
  match stack with
  | O => range_error
  | S s => binary [AND] (equality s)
  end
with equality (stack : nat) : M ASTNode :=
  match stack with
  | O => range_error
  | S s => binary [NOT_EQUAL; EQUAL] (comparison s)
  end
with comparison (stack : nat) : M ASTNode :=
  match stack with
  | O => range_error
  | S s =>
      binary [GREATER_THAN; GREATER_EQUAL; LESS_THAN; LESS_EQUAL] (term s)
  end
with term (stack : nat) : M ASTNode :=
  match stack with
  | O => range_error
  | S s => binary [MINUS; PLUS] (factor s)
  end
with factor (stack : nat) : M ASTNode :=
  match stack with
  | O => range_error
  | S s => binary [DIVIDE; MULTIPLY; MODULO] (unary s)
  end
with unary (stack : nat) : M ASTNode :=
  match stack with
  | O => range_error
  | S s =>
      m <- match_ [NOT; MINUS] ;;
      if m then
        p <- previous ;;
        operator <- property value p ;;
        right <- unary s ;;
        ret (UnaryExpression operator right)
      else call s
  end
with call (stack : nat) : M ASTNode :=
  match stack with
  | O => range_error
  | S s =>
      expr <- primary s ;; call_loop (expression s) (length tokens) expr
  end
with primary (stack : nat) : M ASTNode :=
  match stack with
  | O => range_error
  | S s =>
      t <- match_ [TRUE] ;;
      if t then ret (Literal (JS.VBool true) boolean)
      else
        fa <- match_ [FALSE] ;;
        if fa then ret (Literal (JS.VBool false) boolean)
        else
          n <- match_ [NULL] ;;
          if n then ret (Literal JS.VNull null)
          else
            nu <- match_ [NUMBER] ;;
            if nu then
              p <- previous ;;
              lexeme <- property value p ;;
              ret (Literal (JS.VNum (JS.parseFloat lexeme)) number)
            else
              st <- match_ [STRING] ;;
              if st then
                p <- previous ;;
                text <- property value p ;;
                ret (Literal (JS.VStr text) string_)
              else
                i <- match_ [IDENTIFIER] ;;
                if i then
                  p <- previous ;;
                  name <- property value p ;;
                  ret (Identifier name)
                else
                  l <- match_ [LPAREN] ;;
                  if l then
                    expr <- expression s ;;
                    consume RPAREN "Expected ')' after expression" ;;;
                    ret expr
                  else tk <- peek ;; throw "Expected expression" tk
  end.

(** The loop of [parse]. A [ParseError] is caught, [synchronize] is run
    and the same error is thrown again; any other error passes. *)
Fixpoint parse_loop (stack : nat) (turns : nat) : M (list ASTNode) :=
  match turns with
  | O => out_of_fuel
  | S turns' =>
      e <- isAtEnd ;;
      if e then ret []
      else
        fun current =>
          match declaration stack current with
          | Ok stmt current' =>
              (more <- parse_loop stack turns' ;; ret (stmt :: more)) current'
          | ParseError msg tok at_ =>
              match synchronize at_ with
              | Ok _ _ => ParseError msg tok at_
              | ParseError msg' tok' at' => ParseError msg' tok' at'
              | TypeError => TypeError
              | RangeError => RangeError
              | OutOfFuel => OutOfFuel
              end
          | TypeError => TypeError
          | RangeError => RangeError
          | OutOfFuel => OutOfFuel
          end
  end.

End WithTokens.

(** [new Parser(tokens).parse()] on a stack that holds [stack] nested
    calls of the functions of the grammar. The constructor drops the
    [NEWLINE] tokens. *)
Definition parse (stack : nat) (tokens : list Token) : Result Program :=
  let tokens :=
    List.filter (fun t => negb (TokenType_eqb (type t) NEWLINE)) tokens in
  match parse_loop tokens stack (S (length tokens)) 0%nat with
  | Ok statements current => Ok {| statements := statements |} current
  | ParseError msg tok at_ => ParseError msg tok at_
  | TypeError => TypeError
  | RangeError => RangeError
  | OutOfFuel => OutOfFuel
  end.

End Parser.

(** *** [BytecodeGenerator] *)

Module Generator.
Import JS AST Bytecode.

(** The visitor method of the node's class, [accept] being the call it
    makes on the nodes below. *)
Definition visit (accept : ASTNode -> M unit) (node : ASTNode) : M unit :=
  match node with
  | VarDeclaration identifier initializer =>
      match initializer with
      | Some init => accept init
      | None => c <- addConstant VNull ;; emit LOAD_CONST (Some c)
      end ;;;
      varIndex <- bindVariable identifier ;;
      emit STORE_VAR (Some varIndex)
  | FunctionDeclaration name parameters body =>
      functionAddress <- here ;;
      setFunction name {| address := functionAddress;
                          arity := length parameters |} ;;;
      forEach (fun p => paramIndex <- bindVariable p ;;
                        emit STORE_VAR (Some paramIndex))
              (List.rev parameters) ;;;
      forEach accept body ;;;
      c <- addConstant VNull ;;
      emit LOAD_CONST (Some c) ;;;
      emit RETURN None
  | IfStatement condition thenStatement elseStatement =>
      accept condition ;;;
      jumpIfFalse <- here ;;
      emit JUMP_IF_FALSE (Some 0%nat) ;;;
      accept thenStatement ;;;
      match elseStatement with
      | Some els =>
          jump <- here ;;
          emit JUMP (Some 0%nat) ;;;
          target <- here ;;
          patch jumpIfFalse target ;;;
          accept els ;;;
          target' <- here ;;
          patch jump target'
      | None =>
          target <- here ;;
          patch jumpIfFalse target
      end
  | WhileStatement condition body =>
      loopStart <- here ;;
      accept condition ;;;
      jumpIfFalse <- here ;;
      emit JUMP_IF_FALSE (Some 0%nat) ;;;
      accept body ;;;
      emit JUMP (Some loopStart) ;;;
      target <- here ;;
      patch jumpIfFalse target
  | ForStatement initializer condition increment body =>
      match initializer with
      | Some init =>
          accept init ;;;
          if is_ExpressionStatement init then emit POP None else ret tt
      | None => ret tt
      end ;;;
      loopStart <- here ;;
      match condition with
      | Some cond => accept cond
      | None => c <- addConstant (VBool true) ;; emit LOAD_CONST (Some c)
      end ;;;
      jumpIfFalse <- here ;;
      emit JUMP_IF_FALSE (Some 0%nat) ;;;
      accept body ;;;
      match increment with
      | Some inc => accept inc ;;; emit POP None
      | None => ret tt
      end ;;;
      emit JUMP (Some loopStart) ;;;
      target <- here ;;
      patch jumpIfFalse target
  | ReturnStatement value =>
      match value with
      | Some v => accept v
      | None => c <- addConstant VNull ;; emit LOAD_CONST (Some c)
      end ;;;
      emit RETURN None
  | ExpressionStatement expression =>
      accept expression ;;;
      emit POP None
  | BinaryExpression lhs operator rhs =>
      accept lhs ;;;
      accept rhs ;;;
      emit_if_some (binaryOpcode operator)
  | UnaryExpression operator operand =>
      accept operand ;;;
      emit_if_some (unaryOpcode operator)
  | CallExpression callee args =>
      let regular :=
        forEach accept args ;;;
        accept callee ;;;
        emit CALL (Some (length args)) in
      match callee with
      | Identifier name =>
          if is_print_name name then
            forEach accept args ;;;
            emit PRINT (Some (length args))
          else if is_input_name name then emit INPUT None
          else regular
      | _ => regular
      end
  | Identifier name =>
      varIndex <- getVariable name ;;
      match varIndex with
      | Some index => emit LOAD_VAR (Some index)
      | None =>
          func <- getFunction name ;;
          match func with
          | Some f =>
              c <- addConstant (VNum (JSNum.of_nat (address f))) ;;
              emit LOAD_CONST (Some c)
          | None => throw ("Undefined variable: " +:+ name)
          end
      end
  | Literal value _ =>
      constIndex <- addConstant value ;;
      emit LOAD_CONST (Some constIndex)
  | AssignmentExpression identifier value =>
      accept value ;;;
      known <- getVariable identifier ;;
      varIndex <- match known with
                  | Some index => ret index
                  | None => bindVariable identifier
                  end ;;
      emit STORE_VAR (Some varIndex)
  | BlockStatement statements => forEach accept statements
  end.

(** [node.accept(this)] on a stack that still holds [stack] nested
    visits: with none left the call throws the [RangeError]. *)
Fixpoint accept (stack : nat) (node : ASTNode) : M unit :=
  match stack with
  | O => throw stack_exhausted
  | S s => visit (accept s) node
  end.

(** [new BytecodeGenerator().generate(program)] on such a stack. *)
Definition generate (stack : nat) (program : AST.Program) : Outcome Program :=
  (forEach (accept stack) (AST.statements program) ;;;
   emit HALT None ;;;
   fun g' => Done {| program_instructions := instructions g';
                     program_constants := constants g' |} g') new_generator.

End Generator.

(** The front half of [compileAndRun] on a stack of that depth: tokenize,
    parse and generate. The [RangeError] of either stage is shown by its
    message, like the error of the generator. On a [ParseError] without
    a token the handler of [compileAndRun] reads [error.token.line] of
    [undefined]; this and a [TypeError] of the parser are [Stuck], as in
    [compile]. *)
Definition compile (stack : nat) (language : Language.LanguageDefinition)
    (source : string) : Outcome + Bytecode.Program :=
  match Lexer.tokenize language source with
  | None => inl Stuck
  | Some tokens =>
      match Parser.parse stack tokens with
      | Parser.ParseError message (Some token) _ =>
          inl (SyntaxError message token)
      | Parser.RangeError => inl (CompileError stack_exhausted)
      | Parser.ParseError _ None _ | Parser.TypeError | Parser.OutOfFuel =>
          inl Stuck
      | Parser.Ok ast _ =>
          match Generator.generate stack ast with
          | Bytecode.Thrown message => inl (CompileError message)
          | Bytecode.Done bytecode _ => inr bytecode
          end
      end
  end.

End Host.

(** The number of visits nested in the visit of a node. *)
Fixpoint height (node : AST.ASTNode) : nat :=
  let below (nodes : list AST.ASTNode) := list_max (List.map height nodes) in
  let under (o : option AST.ASTNode) :=
    match o with Some n => height n | None => 0%nat end in
  S (match node with
     | AST.VarDeclaration _ initializer => under initializer
     | AST.FunctionDeclaration _ _ body => below body
     | AST.IfStatement condition thenStatement elseStatement =>
         Nat.max (height condition)
           (Nat.max (height thenStatement) (under elseStatement))
     | AST.WhileStatement condition body =>
         Nat.max (height condition) (height body)
     | AST.ForStatement initializer condition increment body =>
         Nat.max (under initializer)
           (Nat.max (under condition)
              (Nat.max (under increment) (height body)))
     | AST.ReturnStatement value => under value
     | AST.ExpressionStatement expression => height expression
     | AST.BinaryExpression lhs _ rhs => Nat.max (height lhs) (height rhs)
     | AST.UnaryExpression _ operand => height operand
     | AST.CallExpression callee args =>
         Nat.max (height callee) (list_max (List.map height args))
     | AST.Identifier _ => 0%nat
     | AST.Literal _ _ => 0%nat
     | AST.AssignmentExpression _ value => height value
     | AST.BlockStatement statements => below statements
     end).

(** The deepest nesting of the statements of a program. *)
Definition nesting (program : AST.Program) : nat :=
  list_max (List.map height (AST.statements program)).

(** The grammar functions on a stack, each with the number of calls it
    can make before a token is consumed. *)
Definition grammar_on (tokens : list Lexer.Token) (stack : nat)
  : list (nat * Host.Parser.M AST.ASTNode) :=
  [ (13%nat, Host.Parser.declaration tokens stack);
    (12%nat, Host.Parser.statement tokens stack);
    (11%nat, Host.Parser.expression tokens stack);
    (10%nat, Host.Parser.assignment tokens stack);
    (9%nat, Host.Parser.or_ tokens stack);
    (8%nat, Host.Parser.and_ tokens stack);
    (7%nat, Host.Parser.equality tokens stack);
    (6%nat, Host.Parser.comparison tokens stack);
    (5%nat, Host.Parser.term tokens stack);
    (4%nat, Host.Parser.factor tokens stack);
    (3%nat, Host.Parser.unary tokens stack);
    (2%nat, Host.Parser.call tokens stack);
    (1%nat, Host.Parser.primary tokens stack) ].

(** The tokens of [1;]. *)
Definition one_tokens : list Lexer.Token :=
  [ {| Lexer.type := Lexer.NUMBER; Lexer.value := "1";
       Lexer.line := 1; Lexer.column := 1 |};
    {| Lexer.type := Lexer.SEMICOLON; Lexer.value := ";";
       Lexer.line := 1; Lexer.column := 2 |};
    {| Lexer.type := Lexer.EOF; Lexer.value := EmptyString;
       Lexer.line := 1; Lexer.column := 3 |} ].

(** The parsing function [m'] does what [m] does, unless it throws the
    [RangeError]. *)
Definition or_range {A : Type} (m' m : Host.Parser.M A) : Prop :=
  forall current,
    m' current = Host.Parser.RangeError \/ m' current = m current.

(** The visit [m'] does what [m] does, unless it throws the
    [RangeError]. *)
Definition or_exhausted {A : Type} (m' m : Bytecode.M A) : Prop :=
  forall g, m' g = Bytecode.Thrown Host.stack_exhausted \/ m' g = m g.

(** The tree of [print(1 + 2);]. *)
Definition print_one_plus_two : AST.Program :=
  {| AST.statements :=
       [AST.ExpressionStatement
          (AST.CallExpression (AST.Identifier "print")
             [AST.BinaryExpression (AST.Literal (JS.VNum 1) AST.number) "+"
                (AST.Literal (JS.VNum 2) AST.number)])] |}.

(** ** The two readings of the parser

    [Parser] reads the parser on the arrays the lexer returns;
    [Host.Parser] reads it with what the host does outside the array and
    on an exhausted call stack. On an array that ends with [EOF] and a
    stack that holds the calls, the two give the same answer. *)

(** An answer of [Parser], as an answer of [Host.Parser]. *)
Definition on_host {A : Type} (r : Parser.Result A) : Host.Parser.Result A :=
  match r with
  | Parser.Ok a current => Host.Parser.Ok a current
  | Parser.ParseError message token current =>
      Host.Parser.ParseError message (Some token) current
  | Parser.TypeError => Host.Parser.TypeError
  | Parser.OutOfFuel => Host.Parser.OutOfFuel
  end.

(** Run at [current], the two functions return at the same place values
    that [Q] relates, or throw the same [ParseError] inside the array. *)
Definition agree {A B : Type} (tokens : list Lexer.Token)
    (m' : Host.Parser.M A) (m : Parser.M B)
    (Q : A -> B -> nat -> Prop) (current : nat) : Prop :=
  match m' current, m current with
  | Host.Parser.Ok a current', Parser.Ok b current'' =>
      current' = current'' /\ Q a b current'
  | Host.Parser.ParseError message' token' at', Parser.ParseError message token at_ =>
      message' = message /\ token' = Some token /\ at' = at_ /\
      (at_ < length tokens)%nat
  | _, _ => False
  end.

(** The same value, further in the array. *)
Definition onward (tokens : list Lexer.Token) {A : Type}
    (current : nat) (a b : A) (current' : nat) : Prop :=
  a = b /\ (current < current' < length tokens)%nat.

(** The same value, no earlier in the array. *)
Definition onward_or_here (tokens : list Lexer.Token) {A : Type}
    (current : nat) (a b : A) (current' : nat) : Prop :=
  a = b /\ (current <= current' < length tokens)%nat.

(** From [from] on, the two functions agree and consume a token. *)
Definition agreeing {A : Type} (tokens : list Lexer.Token) (from : nat)
    (m' : Host.Parser.M A) (m : Parser.M A) : Prop :=
  forall current,
    (from <= current)%nat -> (current < length tokens)%nat ->
    agree tokens m' m (onward tokens current) current.

(** The functions of the grammar in the two readings, with their
    ranks. *)
Definition grammar_pairs (tokens : list Lexer.Token) (last_token : Lexer.Token)
    (stack fuel : nat)
  : list (nat * (Host.Parser.M AST.ASTNode * Parser.M AST.ASTNode)) :=
  [ (13%nat, (Host.Parser.declaration tokens stack,
              Parser.declaration tokens last_token fuel));
    (12%nat, (Host.Parser.statement tokens stack,
              Parser.statement tokens last_token fuel));
    (11%nat, (Host.Parser.expression tokens stack,
              Parser.expression tokens last_token fuel));
    (10%nat, (Host.Parser.assignment tokens stack,
              Parser.assignment tokens last_token fuel));
    (9%nat, (Host.Parser.or_ tokens stack,
             Parser.or_ tokens last_token fuel));
    (8%nat, (Host.Parser.and_ tokens stack,
             Parser.and_ tokens last_token fuel));
    (7%nat, (Host.Parser.equality tokens stack,
             Parser.equality tokens last_token fuel));
    (6%nat, (Host.Parser.comparison tokens stack,
             Parser.comparison tokens last_token fuel));
    (5%nat, (Host.Parser.term tokens stack,
             Parser.term tokens last_token fuel));
    (4%nat, (Host.Parser.factor tokens stack,
             Parser.factor tokens last_token fuel));
    (3%nat, (Host.Parser.unary tokens stack,
             Parser.unary tokens last_token fuel));
    (2%nat, (Host.Parser.call tokens stack,
             Parser.call tokens last_token fuel));
    (1%nat, (Host.Parser.primary tokens stack,
             Parser.primary tokens last_token fuel)) ].

(** * Properties *)

(** ** The host language, on known values *)

Example number_texts :
  List.map (fun s => JSNum.NumberToString (JS.parseFloat s))
    ["120"; "3"; "0.5"; "1e21"; "123456789012345680000"; "0.000001"; "1e-7";
     "5e-324"; "1.7976931348623157e308"; "9007199254740993"; "1e400"; "-0"]
  = ["120"; "3"; "0.5"; "1e+21"; "123456789012345680000"; "0.000001"; "1e-7";
     "5e-324"; "1.7976931348623157e+308"; "9007199254740992"; "Infinity"; "0"].
Proof. vm_compute. reflexivity. Qed.

Example sum_of_tenths :
  JSOps.ToString (JSOps.add (JS.VNum (JS.parseFloat "0.1"))
                            (JS.VNum (JS.parseFloat "0.2")))
  = "0.30000000000000004".
Proof. vm_compute. reflexivity. Qed.

Example parseFloat_reads_a_prefix :
  List.map (fun s => JSNum.NumberToString (JS.parseFloat s))
    ["1.2.3"; "1..2"; "12px"; "  -12.50abc"; ".5"; "abc"; "1e"; "2e3"]
  = ["1.2"; "1"; "12"; "-12.5"; "0.5"; "NaN"; "1"; "2000"].
Proof. vm_compute. reflexivity. Qed.

Example string_to_number :
  List.map (fun s => JSNum.NumberToString (JS.StringToNumber s))
    [EmptyString; " 12 "; "0x1F"; "0b101"; "12px"; "1.2.3"; "Infinity"; "."]
  = ["0"; "12"; "31"; "5"; "NaN"; "NaN"; "Infinity"; "NaN"].
Proof. vm_compute. reflexivity. Qed.

Example remainders :
  List.map (fun p => JSOps.ToString
                       (JSOps.rem (JS.VNum (JS.parseFloat (fst p)))
                                  (JS.VNum (JS.parseFloat (snd p)))))
    [("5", "0"); ("5.5", "2"); ("-7", "3"); ("7", "-3"); ("0.3", "0.1")]
  = ["NaN"; "1.5"; "-1"; "1"; "0.09999999999999998"].
Proof. vm_compute. reflexivity. Qed.

Example operators_on_mixed_values :
  List.map JSOps.ToString
    [JSOps.add JS.VNull (JS.VNum 1);
     JSOps.add (JS.VBool true) (JS.VBool true);
     JSOps.mul (JS.VStr "3") (JS.VStr "4");
     JSOps.sub (JS.VStr "x") (JS.VNum 1);
     JSOps.add JS.VUndefined JS.VUndefined;
     JS.VBool (JSOps.le JS.VUndefined (JS.VNum 1));
     JS.VBool (JSOps.lt (JS.VStr "a") (JS.VStr "b"));
     JS.VBool (JSOps.strict_equal (JS.VNum PrimFloat.nan) (JS.VNum PrimFloat.nan));
     JSOps.and_ (JS.VNum 1) (JS.VStr "k");
     JSOps.or_ (JS.VNum 0) (JS.VStr "z")]
  = ["1"; "2"; "12"; "NaN"; "NaN"; "false"; "true"; "false"; "k"; "z"].
Proof. vm_compute. reflexivity. Qed.

(** ** The budget of the machine's loop *)

(** The loop of [execute], unfolded once. *)
Lemma run_unfold (fuel : nat) (vm : VM.VirtualMachine) :
  VM.run fuel vm =
  match VM.pc vm with
  | None => Some (vm, None)
  | Some p =>
      if p <? Z.of_nat (length (VM.instructions vm)) then
        match fuel with
        | O => None
        | S fuel' =>
            match (if p <? 0 then None else VM.instructions vm !! Z.to_nat p) with
            | None =>
                Some (vm, Some "Cannot read properties of undefined (reading 'opcode')")
            | Some instruction =>
                match VM.executeInstruction instruction vm with
                | (vm', Some message) => Some (vm', Some message)
                | (vm', None) =>
                    VM.run fuel' (VM.with_pc (option_map Z.succ (VM.pc vm')) vm')
                end
            end
        end
      else Some (vm, None)
  end.
Proof. destruct fuel; reflexivity. Qed.

(** A run that ends within a budget ends the same way within any larger
    one. *)
Lemma run_fuel_mono (n : nat) :
  forall vm r, VM.run n vm = Some r ->
  forall m, (n <= m)%nat -> VM.run m vm = Some r.
Proof.
  induction n as [|n IH]; intros vm r Hrun m Hle;
    rewrite run_unfold in Hrun; rewrite run_unfold.
  - destruct (VM.pc vm) as [p|]; [|exact Hrun].
    destruct (p <? _); [discriminate|exact Hrun].
  - destruct (VM.pc vm) as [p|]; [|exact Hrun].
    destruct (p <? Z.of_nat _); [|exact Hrun].
    destruct m as [|m]; [lia|].
    destruct (if p <? 0 then None else VM.instructions vm !! Z.to_nat p)
      as [i|]; [|exact Hrun].
    destruct (VM.executeInstruction i vm) as [vm' [msg|]]; [exact Hrun|].
    apply IH with (m := m) in Hrun; [exact Hrun|lia].
Qed.

Lemma execute_fuel_mono (n m : nat) bytecode answers r :
  VM.execute n bytecode answers = Some r -> (n <= m)%nat ->
  VM.execute m bytecode answers = Some r.
Proof.
  unfold VM.execute. intros H Hle.
  destruct (VM.run n _) as [[vm err]|] eqn:E; [|discriminate].
  rewrite (run_fuel_mono n _ _ E m Hle). exact H.
Qed.

(** What a source is found to do within a budget, it does within any
    larger one. *)
Lemma runSource_fuel_mono (n k : nat) language source r :
  runSource n language source = Executed r ->
  runSource (n + k) language source = Executed r.
Proof.
  unfold runSource. destruct (compile language source) as [o|bytecode].
  - trivial.
  - destruct (VM.execute n bytecode []) as [r'|] eqn:E; [|discriminate].
    intros H. rewrite (execute_fuel_mono n (n + k) _ _ _ E); [exact H|lia].
Qed.

Lemma final_stack_fuel_mono (n k : nat) language source s :
  final_stack n language source = Some s ->
  final_stack (n + k) language source = Some s.
Proof.
  unfold final_stack. destruct (compile language source) as [o|bytecode].
  - trivial.
  - destruct (VM.run n _) as [[vm err]|] eqn:E; [|discriminate].
    intros H. rewrite (run_fuel_mono n _ _ E (n + k)%nat); [exact H|lia].
Qed.

(** ** Functions *)

(** C1. The factorial program does not print [120]: the machine has no
    case for [CALL] (nor for [RETURN]), so either opcode throws
    [Unknown opcode]; the program, whose first instructions are the body of
    [fact], runs into the [CALL] of the recursive call and stops there with
    no output, whatever the budget. *)
Theorem factorial_stops_at_unknown_opcode_CALL :
  (forall operand line vm,
     VM.executeInstruction (instruction Bytecode.CALL operand line) vm
     = (vm, Some "Unknown opcode: CALL")) /\
  (forall operand line vm,
     VM.executeInstruction (instruction Bytecode.RETURN operand line) vm
     = (vm, Some "Unknown opcode: RETURN")) /\
  (forall k,
     runSource (20 + k) Language.english Sources.factorial
     = Executed {| VM.result_output := [];
                   VM.error := Some "Unknown opcode: CALL" |}).
Proof.
  split; [reflexivity|]. split; [reflexivity|].
  intros k. apply runSource_fuel_mono. vm_compute. reflexivity.
Qed.

(** C2. Nothing keeps the top-level code out of a function's body: a
    declaration compiles to the body alone, at the place of the
    declaration, with no jump over it and no [HALT] before it, and running
    a program made of one declaration executes the body (it prints) until
    the [RETURN] at its end throws. *)
Theorem function_body_runs_without_call :
  listing Language.english Sources.lone_function
  = Some [(Bytecode.LOAD_CONST, Some 0%nat); (Bytecode.PRINT, Some 1%nat);
          (Bytecode.POP, None); (Bytecode.LOAD_CONST, Some 1%nat);
          (Bytecode.RETURN, None); (Bytecode.HALT, None)] /\
  (forall k,
     runSource (10 + k) Language.english Sources.lone_function
     = Executed {| VM.result_output := ["x"];
                   VM.error := Some "Unknown opcode: RETURN" |}).
Proof.
  split; [vm_compute; reflexivity|].
  intros k. apply runSource_fuel_mono. vm_compute. reflexivity.
Qed.

(** ** The operand stack *)

(** C3. A [var] statement leaves its value on the stack: it compiles to
    the initializer and a [STORE_VAR], which pushes the value back, and no
    [POP] follows. After [var x = 10;] the stack holds [10]. *)
Theorem var_statement_leaves_value_on_stack :
  (forall identifier initializer g g',
     Bytecode.accept (AST.VarDeclaration identifier initializer) g
     = Bytecode.Done tt g' ->
     exists index line,
       last (Bytecode.instructions g')
       = Some (instruction Bytecode.STORE_VAR (Some index) line)) /\
  listing Language.english Sources.var_statement
  = Some [(Bytecode.LOAD_CONST, Some 0%nat); (Bytecode.STORE_VAR, Some 0%nat);
          (Bytecode.HALT, None)] /\
  (forall k,
     final_stack (10 + k) Language.english Sources.var_statement
     = Some [JS.VNum 10]).
Proof.
  split.
  - intros identifier initializer g g' H.
    cbn [Bytecode.accept] in H. unfold Bytecode.bind at 1 in H.
    match type of H with
    | match ?m with _ => _ end = _ => destruct m as [[] g1|]; [|discriminate H]
    end.
    cbn in H. injection H as <-. eexists _, _. cbn. apply last_snoc.
  - split; [vm_compute; reflexivity|].
    intros k. apply final_stack_fuel_mono. vm_compute. reflexivity.
Qed.

(** C3 on the declaration [var x = 10] compiled by a new generator. *)
Lemma var_statement_witness :
  Bytecode.accept
    (AST.VarDeclaration "x" (Some (AST.Literal (JS.VNum 10) AST.number)))
    Bytecode.new_generator
  = Bytecode.Done tt
      (state_after
         (Bytecode.accept
            (AST.VarDeclaration "x"
               (Some (AST.Literal (JS.VNum 10) AST.number)))
            Bytecode.new_generator)) /\
  exists index line,
    last (Bytecode.instructions
            (state_after
               (Bytecode.accept
                  (AST.VarDeclaration "x"
                     (Some (AST.Literal (JS.VNum 10) AST.number)))
                  Bytecode.new_generator)))
    = Some (instruction Bytecode.STORE_VAR (Some index) line).
Proof.
  split; [vm_compute; reflexivity|].
  apply (proj1 var_statement_leaves_value_on_stack "x"
           (Some (AST.Literal (JS.VNum 10) AST.number))
           Bytecode.new_generator).
  vm_compute. reflexivity.
Defined.

(** ** Runtime errors *)

(** C5. [MODULO] never throws: it pushes the remainder, which is [NaN]
    when the divisor is zero, and [print(5 % 0);] prints [NaN]; [DIVIDE]
    with the same operands throws [Division by zero]. *)
Theorem modulo_by_zero_pushes_NaN :
  (forall operand line vm,
     snd (VM.executeInstruction (instruction Bytecode.MODULO operand line) vm)
     = None) /\
  (forall k,
     runSource (10 + k) Language.english Sources.modulo_by_zero
     = Executed {| VM.result_output := ["NaN"]; VM.error := None |}) /\
  (forall k,
     runSource (10 + k) Language.english Sources.division_by_zero
     = Executed {| VM.result_output := [];
                   VM.error := Some "Division by zero" |}).
Proof.
  split.
  - intros operand line vm. unfold VM.executeInstruction, VM.binary. simpl.
    destruct (VM.pop vm) as [b vm1]. destruct (VM.pop vm1) as [a vm2].
    reflexivity.
  - split; intros k; apply runSource_fuel_mono; vm_compute; reflexivity.
Qed.

Lemma pop_empty (vm : VM.VirtualMachine) :
  VM.stack vm = [] -> VM.pop vm = (JS.VUndefined, vm).
Proof. unfold VM.pop. intros ->. reflexivity. Qed.

Lemma pop_args_empty (n : nat) :
  forall args vm, VM.stack vm = [] ->
  VM.pop_args n args vm = (List.repeat JS.VUndefined n ++ args, vm)%list.
Proof.
  induction n as [|n IH]; intros args vm Hempty; simpl.
  - reflexivity.
  - rewrite (pop_empty vm Hempty), (IH _ vm Hempty). f_equal.
    change (JS.VUndefined :: List.repeat JS.VUndefined n ++ args)%list
      with ((JS.VUndefined :: List.repeat JS.VUndefined n) ++ args)%list.
    rewrite List.repeat_cons, <- List.app_assoc. reflexivity.
Qed.

(** C6, as the machine behaves. An instruction that pops does not fail on
    an empty stack: [pop()] gives [undefined] and the machine goes on.
    [POP] changes nothing, [ADD] pushes [NaN], [JUMP_IF_FALSE] takes the
    jump, and [PRINT] prints [undefined] once for each value it was to
    pop. *)
Theorem pop_on_empty_stack_continues :
  forall (i : Bytecode.Instruction) (vm : VM.VirtualMachine),
    pops (Bytecode.opcode i) = true ->
    VM.stack vm = [] ->
    exists vm',
      VM.executeInstruction i vm = (vm', None) /\
      match Bytecode.opcode i with
      | Bytecode.POP => vm' = vm
      | Bytecode.ADD => VM.stack vm' = [JS.VNum PrimFloat.nan]
      | Bytecode.JUMP_IF_FALSE =>
          VM.pc vm' = VM.jump_target (Bytecode.operand i)
      | Bytecode.PRINT =>
          VM.stack vm' = [] /\
          VM.output vm' =
            (VM.output vm ++
              [JSOps.join " "
                 (List.repeat "undefined"
                    (VM.argCount (Bytecode.operand i)))])%list
      | _ => True
      end.
Proof.
  intros [op operand line] vm Hpops Hempty. simpl in Hpops.
  destruct op; try discriminate Hpops;
    unfold VM.executeInstruction, VM.binary, VM.unary; cbn [Bytecode.opcode Bytecode.operand];
    try rewrite (pop_empty vm Hempty); try rewrite (pop_empty vm Hempty);
    try (eexists; split; [reflexivity|]; exact I).
  - (* ADD *)
    eexists; split; [reflexivity|].
    cbn [VM.stack VM.push VM.with_stack]. rewrite Hempty. reflexivity.
  - (* JUMP_IF_FALSE *) eexists; split; [reflexivity|]. reflexivity.
  - (* PRINT *)
    rewrite (pop_args_empty _ [] vm Hempty). eexists; split; [reflexivity|].
    cbn [VM.stack VM.output]. split; [exact Hempty|].
    rewrite List.app_nil_r, List.map_repeat. reflexivity.
  - (* POP *) eexists; split; [reflexivity|]. reflexivity.
Qed.

(** C6 on [POP] and the machine at its start. *)
Lemma pop_on_empty_stack_continues_witness :
  pops Bytecode.POP = true /\
  VM.stack (idle [instruction Bytecode.POP None 1]) = [] /\
  exists vm',
    VM.executeInstruction (instruction Bytecode.POP None 1)
      (idle [instruction Bytecode.POP None 1]) = (vm', None) /\
    vm' = idle [instruction Bytecode.POP None 1].
Proof.
  split; [reflexivity|]. split; [reflexivity|].
  exact (pop_on_empty_stack_continues
           (instruction Bytecode.POP None 1)
           (idle [instruction Bytecode.POP None 1]) eq_refl eq_refl).
Defined.

(** C6 as stated does not hold: [POP] on an empty stack is not an error,
    and a program that does nothing else ends normally. *)
Lemma pop_on_empty_stack_is_no_error :
  VM.stack (idle [instruction Bytecode.POP None 1;
                  instruction Bytecode.HALT None 1]) = [] /\
  snd (VM.executeInstruction (instruction Bytecode.POP None 1)
         (idle [instruction Bytecode.POP None 1;
                instruction Bytecode.HALT None 1])) = None /\
  VM.execute 10
    {| Bytecode.program_instructions :=
         [instruction Bytecode.POP None 1; instruction Bytecode.HALT None 1];
       Bytecode.program_constants := [] |} []
  = Some {| VM.result_output := []; VM.error := None |}.
Proof. repeat split. Qed.

(** ** The built-in [print] *)

(** C7, as the toolchain behaves. In Hindi mode
    [agar (1 < 2) { print("ok"); }] prints [ok]. The callee name under
    which the table of the selected language has the canonical [print] is
    compiled as the built-in, in every language: the arguments, then
    [PRINT] with their number. The generator tests the callee for two
    names, [print] and [achchidu], and every table spells [print] as one
    of them; the Hindi table spells it [print]. [dikhaao] is neither: a
    call of it is compiled as the call of a function of the program. *)
Theorem hindi_print_is_spelled_print :
  (forall k,
     runSource (10 + k) Language.hindi Sources.hindi_print
     = Executed {| VM.result_output := ["ok"]; VM.error := None |}) /\
  listing Language.hindi Sources.hindi_print
  = Some [(Bytecode.LOAD_CONST, Some 0%nat); (Bytecode.LOAD_CONST, Some 1%nat);
          (Bytecode.LESS_THAN, None); (Bytecode.JUMP_IF_FALSE, Some 7%nat);
          (Bytecode.LOAD_CONST, Some 2%nat); (Bytecode.PRINT, Some 1%nat);
          (Bytecode.POP, None); (Bytecode.HALT, None)] /\
  Language.entry "print" (Language.keywords Language.hindi) = Some "print" /\
  List.forallb
    (fun l => match Language.entry "print" (Language.keywords (snd l)) with
              | Some spelling => Bytecode.is_print_name spelling
              | None => false
              end) Language.LANGUAGES = true /\
  Bytecode.is_print_name "dikhaao" = false /\
  (forall name,
     Bytecode.is_print_name name = true <-> name = "print" \/ name = "achchidu") /\
  (forall name language,
     In (name, language) Language.LANGUAGES ->
     exists spelling,
       Language.entry "print" (Language.keywords language) = Some spelling /\
       forall args g,
         Bytecode.accept (AST.CallExpression (AST.Identifier spelling) args) g
         = Bytecode.bind (Bytecode.forEach Bytecode.accept args)
             (fun _ => Bytecode.emit Bytecode.PRINT (Some (length args))) g) /\
  (forall args g,
     Bytecode.accept (AST.CallExpression (AST.Identifier "dikhaao") args) g
     = Bytecode.bind (Bytecode.forEach Bytecode.accept args)
         (fun _ =>
          Bytecode.bind (Bytecode.accept (AST.Identifier "dikhaao"))
            (fun _ => Bytecode.emit Bytecode.CALL (Some (length args)))) g).
Proof.
  split.
  { intros k. apply runSource_fuel_mono. vm_compute. reflexivity. }
  do 4 (split; [vm_compute; reflexivity|]).
  split.
  { intros name. unfold Bytecode.is_print_name.
    rewrite orb_true_iff, !String.eqb_eq. reflexivity. }
  split; [|reflexivity].
  intros name language Hin. cbn in Hin.
  repeat (destruct Hin as [Hin|Hin];
          [injection Hin as <- <-; eexists; split; [reflexivity|reflexivity]|]).
  destruct Hin.
Qed.

(** C7 on the Tamil table, which spells [print] as [achchidu]. *)
Lemma hindi_print_witness :
  In ("tamil", Language.tamil) Language.LANGUAGES /\
  Language.entry "print" (Language.keywords Language.tamil) = Some "achchidu" /\
  Bytecode.accept
    (AST.CallExpression (AST.Identifier "achchidu")
       [AST.Literal (JS.VStr "ok") AST.string_])
    Bytecode.new_generator
  = Bytecode.bind
      (Bytecode.forEach Bytecode.accept [AST.Literal (JS.VStr "ok") AST.string_])
      (fun _ => Bytecode.emit Bytecode.PRINT (Some 1%nat))
      Bytecode.new_generator.
Proof.
  assert (Hin : In ("tamil", Language.tamil) Language.LANGUAGES)
    by (cbn; tauto).
  split; [exact Hin|]. split; [reflexivity|].
  destruct (proj1 (proj2 (proj2 (proj2 (proj2 (proj2 (proj2
              hindi_print_is_spelled_print))))))
              "tamil" Language.tamil Hin) as (spelling & Hentry & Hcall).
  injection Hentry as <-. exact (Hcall _ _).
Defined.

(** C7 as stated does not hold: in Hindi mode the source with [dikhaao]
    does not compile: [dikhaao] is taken for a function of the program, and
    there is none of that name. *)
Lemma hindi_dikhaao_is_undefined :
  compile Language.hindi Sources.hindi_dikhaao
  = inl (CompileError "Undefined variable: dikhaao") /\
  runSource 10 Language.hindi Sources.hindi_dikhaao
  = CompileError "Undefined variable: dikhaao".
Proof. split; vm_compute; reflexivity. Qed.

(** ** Addition *)

(** C8. [var s = "hi"; print(s + " " + 3);] prints [hi 3]. The two
    additions are compiled left to right, and [ADD] with a string on
    either side concatenates the texts of its operands. *)
Theorem string_concatenation_prints_hi_3 :
  (forall k,
     runSource (10 + k) Language.english Sources.concatenation
     = Executed {| VM.result_output := ["hi 3"]; VM.error := None |}) /\
  listing Language.english Sources.concatenation
  = Some [(Bytecode.LOAD_CONST, Some 0%nat); (Bytecode.STORE_VAR, Some 0%nat);
          (Bytecode.LOAD_VAR, Some 0%nat); (Bytecode.LOAD_CONST, Some 1%nat);
          (Bytecode.ADD, None); (Bytecode.LOAD_CONST, Some 2%nat);
          (Bytecode.ADD, None); (Bytecode.PRINT, Some 1%nat);
          (Bytecode.POP, None); (Bytecode.HALT, None)] /\
  (forall s b, JSOps.add (JS.VStr s) b = JS.VStr (s +:+ JSOps.ToString b)) /\
  (forall a s, JSOps.add a (JS.VStr s) = JS.VStr (JSOps.ToString a +:+ s)) /\
  (forall operand line vm a b rest,
     VM.stack vm = b :: a :: rest ->
     JSOps.is_string a || JSOps.is_string b = true ->
     VM.stack (fst (VM.executeInstruction
                      (instruction Bytecode.ADD operand line) vm))
     = JS.VStr (JSOps.ToString a +:+ JSOps.ToString b) :: rest).
Proof.
  split; [intros k; apply runSource_fuel_mono; vm_compute; reflexivity|].
  split; [vm_compute; reflexivity|].
  split; [reflexivity|].
  split.
  - intros a s. unfold JSOps.add. cbn [JSOps.is_string].
    rewrite orb_true_r. reflexivity.
  - intros operand line vm a b rest Hstack Hstr.
    unfold VM.executeInstruction, VM.binary, VM.pop; cbn [Bytecode.opcode].
    rewrite Hstack. cbn. unfold JSOps.add. rewrite Hstr. reflexivity.
Qed.

(** C8 on the second addition of the program: ["hi " + 3]. *)
Lemma string_concatenation_witness :
  JSOps.is_string (JS.VStr "hi ") || JSOps.is_string (JS.VNum 3) = true /\
  VM.stack (fst (VM.executeInstruction (instruction Bytecode.ADD None 1)
                   (VM.push (JS.VNum 3) (VM.push (JS.VStr "hi ") (idle [])))))
  = [JS.VStr "hi 3"].
Proof.
  split; [reflexivity|].
  exact (proj2 (proj2 (proj2 (proj2 string_concatenation_prints_hi_3)))
           None 1%nat
           (VM.push (JS.VNum 3) (VM.push (JS.VStr "hi ") (idle [])))
           (JS.VStr "hi ") (JS.VNum 3) [] eq_refl eq_refl).
Defined.

(** ** Number lexemes *)

(** What [advance_while] consumes is the longest prefix made of
    characters of the class: the source is that prefix and the rest, and
    the rest does not start with a character of the class. *)
Lemma advance_while_maximal (class : ascii -> bool) (s : string) :
  forall ln col,
    s = fst (Lexer.advance_while class s ln col)
        +:+ Lexer.rest (snd (Lexer.advance_while class s ln col)) /\
    List.forallb class
      (list_ascii_of_string (fst (Lexer.advance_while class s ln col))) = true /\
    match Lexer.rest (snd (Lexer.advance_while class s ln col)) with
    | String c _ => class c = false
    | EmptyString => True
    end.
Proof.
  induction s as [|c s IH]; intros ln col; cbn [Lexer.advance_while].
  - repeat split.
  - destruct (class c) eqn:Hc.
    + match goal with
      | |- context [Lexer.advance_while class s ?l ?k] =>
          specialize (IH l k);
          destruct (Lexer.advance_while class s l k) as [v st']
      end.
      cbn [fst snd] in *. destruct IH as (Hsplit & Hall & Hnext).
      repeat split.
      * change (String c s = String c (v +:+ Lexer.rest st')).
        f_equal. exact Hsplit.
      * cbn. rewrite Hc. exact Hall.
      * exact Hnext.
    + cbn. repeat split. exact Hc.
Qed.

(** [primary] on a [NUMBER] token: the literal whose value is
    [parseFloat] of the lexeme; no error is thrown. *)
Lemma primary_of_number tokens last_token fuel current :
  Lexer.type (nth current tokens last_token) = Lexer.NUMBER ->
  Parser.primary tokens last_token (S fuel) current
  = Parser.Ok
      (AST.Literal
         (JS.VNum (JS.parseFloat (Lexer.value (nth current tokens last_token))))
         AST.number)
      (S current).
Proof.
  intros Htype.
  cbn [Parser.primary]. unfold Parser.bind at 1.
  unfold Parser.match_, Parser.check, Parser.isAtEnd, Parser.peek,
    Parser.advance, Parser.previous, Parser.bind, Parser.ret.
  repeat (rewrite Htype; cbn). rewrite Nat.sub_0_r. reflexivity.
Qed.

(** C9, as the toolchain behaves. [readNumber] takes the longest run of
    digits and dots as one [NUMBER] token, so [1.2.3] is one token. The
    parser turns the lexeme into a number with [parseFloat], which reads
    the longest prefix that is a numeral and ignores the rest: [1.2.3]
    becomes [1.2] (the binary64 number nearest to it, written in
    hexadecimal below), and [print(1.2.3);] prints [1.2] with no error from
    any stage. *)
Theorem multi_dot_number_is_read_by_prefix :
  (forall st : Lexer.State,
     Lexer.type (fst (Lexer.readNumber st)) = Lexer.NUMBER /\
     Lexer.rest st = Lexer.value (fst (Lexer.readNumber st))
                     +:+ Lexer.rest (snd (Lexer.readNumber st)) /\
     List.forallb Lexer.is_number_char
       (list_ascii_of_string (Lexer.value (fst (Lexer.readNumber st)))) = true /\
     match Lexer.rest (snd (Lexer.readNumber st)) with
     | String c _ => Lexer.is_number_char c = false
     | EmptyString => True
     end) /\
  Lexer.tokenize Language.english "1.2.3"
  = Some [{| Lexer.type := Lexer.NUMBER; Lexer.value := "1.2.3";
             Lexer.line := 1; Lexer.column := 1 |};
          {| Lexer.type := Lexer.EOF; Lexer.value := EmptyString;
             Lexer.line := 1; Lexer.column := 6 |}] /\
  (forall tokens last_token fuel current,
     Lexer.type (nth current tokens last_token) = Lexer.NUMBER ->
     Parser.primary tokens last_token (S fuel) current
     = Parser.Ok
         (AST.Literal
            (JS.VNum (JS.parseFloat
                        (Lexer.value (nth current tokens last_token))))
            AST.number)
         (S current)) /\
  JS.parseFloat "1.2.3" = 0x1.3333333333333p+0%float /\
  (forall k,
     runSource (10 + k) Language.english Sources.multi_dot
     = Executed {| VM.result_output := ["1.2"]; VM.error := None |}).
Proof.
  split.
  - intros st. unfold Lexer.readNumber.
    pose proof (advance_while_maximal Lexer.is_number_char (Lexer.rest st)
                  (Lexer.cur_line st) (Lexer.cur_column st)) as H.
    destruct (Lexer.advance_while _ _ _ _) as [v st'].
    cbn [fst snd Lexer.type Lexer.value] in *.
    destruct H as (H1 & H2 & H3). repeat split; assumption.
  - split; [vm_compute; reflexivity|].
    split; [exact primary_of_number|].
    split; [vm_compute; reflexivity|].
    intros k. apply runSource_fuel_mono. vm_compute. reflexivity.
Qed.

(** C9 on the token of the lexeme [1.2.3]. *)
Lemma multi_dot_number_witness :
  Lexer.type (nth 0%nat [{| Lexer.type := Lexer.NUMBER; Lexer.value := "1.2.3";
                        Lexer.line := 1; Lexer.column := 1 |}]
                {| Lexer.type := Lexer.EOF; Lexer.value := EmptyString;
                   Lexer.line := 1; Lexer.column := 6 |}) = Lexer.NUMBER /\
  Parser.primary
    [{| Lexer.type := Lexer.NUMBER; Lexer.value := "1.2.3";
        Lexer.line := 1; Lexer.column := 1 |}]
    {| Lexer.type := Lexer.EOF; Lexer.value := EmptyString;
       Lexer.line := 1; Lexer.column := 6 |} 1%nat 0%nat
  = Parser.Ok (AST.Literal (JS.VNum (JS.parseFloat "1.2.3")) AST.number) 1%nat.
Proof.
  split; [reflexivity|].
  exact (proj1 (proj2 (proj2 multi_dot_number_is_read_by_prefix))
           [{| Lexer.type := Lexer.NUMBER; Lexer.value := "1.2.3";
               Lexer.line := 1; Lexer.column := 1 |}]
           {| Lexer.type := Lexer.EOF; Lexer.value := EmptyString;
              Lexer.line := 1; Lexer.column := 6 |} 0%nat 0%nat eq_refl).
Defined.

(** C9 as stated does not hold: running [print(1.2.3);] reports no error,
    the machine prints [1.2] and ends normally. *)
Lemma multi_dot_number_raises_nothing :
  runSource 10 Language.english Sources.multi_dot
  = Executed {| VM.result_output := ["1.2"]; VM.error := None |}.
Proof. vm_compute. reflexivity. Qed.

(** ** [print] without arguments *)

(** C10. [PRINT] with operand [0] does what [PRINT] with operand [1]
    does: it pops one value and prints its text. [print();] compiles to
    [PRINT 0] and prints [undefined], the value that popping the empty
    stack gives. *)
Theorem print_without_arguments_prints_undefined :
  (forall line vm,
     VM.executeInstruction (instruction Bytecode.PRINT (Some 0%nat) line) vm
     = VM.executeInstruction (instruction Bytecode.PRINT (Some 1%nat) line) vm) /\
  (forall line vm,
     let vm' := fst (VM.executeInstruction
                       (instruction Bytecode.PRINT (Some 0%nat) line) vm) in
     VM.stack vm' = List.tl (VM.stack vm) /\
     VM.output vm' =
       (VM.output vm ++ [JSOps.ToString (List.hd JS.VUndefined (VM.stack vm))])%list /\
     snd (VM.executeInstruction
            (instruction Bytecode.PRINT (Some 0%nat) line) vm) = None) /\
  listing Language.english Sources.empty_print
  = Some [(Bytecode.PRINT, Some 0%nat); (Bytecode.POP, None);
          (Bytecode.HALT, None)] /\
  (forall k,
     runSource (10 + k) Language.english Sources.empty_print
     = Executed {| VM.result_output := ["undefined"]; VM.error := None |}).
Proof.
  split; [reflexivity|]. split.
  - intros line vm. unfold VM.executeInstruction, VM.pop_args, VM.pop.
    cbn [Bytecode.opcode Bytecode.operand instruction VM.argCount].
    destruct (VM.stack vm) as [|v s] eqn:Hs; cbn; repeat split; exact Hs.
  - split; [vm_compute; reflexivity|].
    intros k. apply runSource_fuel_mono. vm_compute. reflexivity.
Qed.

(** ** Jump targets *)

Section JumpTargets.
Import Bytecode.

Lemma target_within_mono (n m : nat) (i : Instruction) :
  target_within n i -> (n <= m)%nat -> target_within m i.
Proof.
  intros H Hle Hjump. destruct (H Hjump) as (t & Hop & Ht).
  exists t. split; [exact Hop|lia].
Qed.

Lemma settled_same_instructions (g g' : BytecodeGenerator) :
  instructions g' = instructions g -> jumps_settled g -> jumps_settled g'.
Proof. unfold jumps_settled. intros ->. trivial. Qed.

Lemma wp_bind {A B} (m : M A) (k : A -> M B) Q g :
  wp m (fun a g' => wp (k a) Q g') g -> wp (bind m k) Q g.
Proof. unfold wp, bind. destruct (m g); trivial. Qed.

Lemma wp_mono {A} (m : M A) (P Q : A -> BytecodeGenerator -> Prop) g :
  wp m P g -> (forall a g', P a g' -> Q a g') -> wp m Q g.
Proof. unfold wp. destruct (m g); auto. Qed.

Lemma wp_ret {A} (a : A) (Q : A -> BytecodeGenerator -> Prop) g :
  Q a g -> wp (ret a) Q g.
Proof. trivial. Qed.

Lemma wp_throw {A} message (Q : A -> BytecodeGenerator -> Prop) g :
  wp (throw message) Q g.
Proof. exact I. Qed.

Lemma wp_here (Q : nat -> BytecodeGenerator -> Prop) g :
  Q (size_of g) g -> wp here Q g.
Proof. trivial. Qed.

Lemma wp_quiet {A} (m : M A) (Q : A -> BytecodeGenerator -> Prop) g :
  quiet m ->
  jumps_settled g ->
  (forall a g', jumps_settled g' -> size_of g' = size_of g -> Q a g') ->
  wp m Q g.
Proof.
  intros Hq Hs HQ. unfold wp. destruct (Hq g) as (a & g' & -> & Hsame).
  apply HQ.
  - exact (settled_same_instructions g g' Hsame Hs).
  - unfold size_of. rewrite Hsame. reflexivity.
Qed.

Lemma quiet_addConstant value : quiet (addConstant value).
Proof.
  intros g. unfold addConstant.
  destruct (JSOps.indexOf (constants g) value); eauto.
Qed.

Lemma quiet_bindVariable name : quiet (bindVariable name).
Proof. intros g. unfold bindVariable. eauto. Qed.

Lemma quiet_setFunction name info : quiet (setFunction name info).
Proof. intros g. unfold setFunction. eauto. Qed.

Lemma quiet_getVariable name : quiet (getVariable name).
Proof. intros g. unfold getVariable. eauto. Qed.

Lemma quiet_getFunction name : quiet (getFunction name).
Proof. intros g. unfold getFunction. eauto. Qed.

(** An emitted instruction may aim at itself or right after itself. *)
Lemma wp_emit op operand (Q : unit -> BytecodeGenerator -> Prop) g :
  jumps_settled g ->
  target_within (S (size_of g)) (instruction op operand (currentLine g)) ->
  (forall g', jumps_settled g' -> size_of g' = S (size_of g) -> Q tt g') ->
  wp (emit op operand) Q g.
Proof.
  intros Hs Ht HQ. unfold wp, emit. apply HQ.
  - unfold jumps_settled, set_instructions; cbn [instructions].
    rewrite length_app, Nat.add_1_r. apply Forall_app. split.
    + eapply Forall_impl; [exact Hs|]. intros i Hi.
      eapply target_within_mono; [exact Hi|]. unfold size_of. lia.
    + apply Forall_singleton. exact Ht.
  - unfold size_of, set_instructions; cbn [instructions].
    rewrite length_app, Nat.add_1_r. reflexivity.
Qed.

(** A patched jump may aim at any instruction emitted so far, or right
    after them. *)
Lemma wp_patch index target (Q : unit -> BytecodeGenerator -> Prop) g :
  jumps_settled g ->
  (target <= size_of g)%nat ->
  (forall g', jumps_settled g' -> size_of g' = size_of g -> Q tt g') ->
  wp (patch index target) Q g.
Proof.
  intros Hs Ht HQ. unfold wp, patch.
  destruct (instructions g !! index) as [i|] eqn:Hi; [|exact I].
  apply HQ.
  - unfold jumps_settled, set_instructions; cbn [instructions].
    rewrite length_insert. apply Forall_insert; [exact Hs|].
    intros _. exists target. split; [reflexivity|exact Ht].
  - unfold size_of, set_instructions; cbn [instructions].
    apply length_insert.
Qed.

Lemma careful_forEach {A} (visit : A -> M unit) (xs : list A) :
  Forall (fun x => careful (visit x)) xs -> careful (forEach visit xs).
Proof.
  induction 1 as [|x xs Hx _ IH]; intros g Hs; cbn [forEach].
  - apply wp_ret. split; [exact Hs|lia].
  - apply wp_bind. eapply wp_mono; [exact (Hx g Hs)|].
    intros [] g1 [Hs1 Hl1]. eapply wp_mono; [exact (IH g1 Hs1)|].
    intros [] g2 [Hs2 Hl2]. split; [exact Hs2|lia].
Qed.

Lemma binaryOpcode_no_jump operator o :
  binaryOpcode operator = Some o -> is_jump o = false.
Proof.
  unfold binaryOpcode.
  repeat (destruct (String.eqb operator _); [intros [= <-]; reflexivity|]).
  discriminate.
Qed.

Lemma unaryOpcode_no_jump operator o :
  unaryOpcode operator = Some o -> is_jump o = false.
Proof.
  unfold unaryOpcode.
  repeat (destruct (String.eqb operator _); [intros [= <-]; reflexivity|]).
  discriminate.
Qed.

Lemma careful_emit_if_some (op : option OpCode) :
  (forall o, op = Some o -> is_jump o = false) -> careful (emit_if_some op).
Proof.
  intros Hop g Hs. destruct op as [o|]; cbn [emit_if_some].
  - apply wp_emit; [exact Hs| |].
    + intros Hjump. cbn in Hjump. rewrite (Hop o eq_refl) in Hjump.
      discriminate Hjump.
    + intros g' Hs' Hl'. split; [exact Hs'|lia].
  - apply wp_ret. split; [exact Hs|lia].
Qed.

Ltac target_ok :=
  unfold target_within; cbn [opcode operand instruction is_jump];
  let Hjump := fresh "Hjump" in
  intros Hjump;
  first [discriminate Hjump | eexists; split; [reflexivity|lia]].

Ltac wp_step :=
  lazymatch goal with
  | |- wp (bind _ _) _ _ => apply wp_bind
  | |- wp (ret _) _ _ => apply wp_ret
  | |- wp (throw _) _ _ => apply wp_throw
  | |- wp here _ _ => apply wp_here
  | |- wp (emit _ _) _ _ =>
      apply wp_emit; [assumption|target_ok|intros ? ? ?]
  | |- wp (patch _ _) _ _ =>
      apply wp_patch; [assumption|lia|intros ? ? ?]
  | |- wp (addConstant _) _ _ =>
      apply wp_quiet; [apply quiet_addConstant|assumption|intros ? ? ? ?]
  | |- wp (bindVariable _) _ _ =>
      apply wp_quiet; [apply quiet_bindVariable|assumption|intros ? ? ? ?]
  | |- wp (setFunction _ _) _ _ =>
      apply wp_quiet; [apply quiet_setFunction|assumption|intros ? ? ? ?]
  | |- wp (getVariable _) _ _ =>
      apply wp_quiet; [apply quiet_getVariable|assumption|intros ? ? ? ?]
  | |- wp (getFunction _) _ _ =>
      apply wp_quiet; [apply quiet_getFunction|assumption|intros ? ? ? ?]
  | H : careful ?m |- wp ?m _ ?g =>
      eapply wp_mono; [apply (H g); assumption|intros [] ? [? ?]]
  | |- wp (match ?x with Some _ => _ | None => _ end) _ _ => destruct x
  | |- wp (if ?b then _ else _) _ _ => destruct b
  | |- extends _ _ _ => split; [assumption|lia]
  end.

(** Visiting a node keeps the jumps settled: a placeholder aims at
    instruction [0], a loop jumps back to an instruction already emitted,
    and a patch aims right after the last instruction emitted. *)
Lemma accept_careful (node : AST.ASTNode) : careful (accept node).
Proof.
  induction node as
    [identifier initializer IHinit
    |name parameters body IHbody
    |condition thenStatement elseStatement IHcond IHthen IHelse
    |condition body IHcond IHbody
    |initializer condition increment body IHinit IHcond IHinc IHbody
    |value IHvalue
    |expression IHexpr
    |lhs operator rhs IHlhs IHrhs
    |operator operand IHoperand
    |callee args IHcallee IHargs
    |name
    |value type
    |identifier value IHvalue
    |statements IHstatements] using ASTNode_nested_ind;
    intros g Hs; cbn [accept].
  - (* VarDeclaration *)
    destruct initializer; cbn [P_option] in *; repeat wp_step.
  - (* FunctionDeclaration *)
    pose proof (careful_forEach accept body IHbody) as Hbody.
    assert (Hparams : careful
              (forEach (fun p => bind (bindVariable p)
                                   (fun paramIndex => emit STORE_VAR (Some paramIndex)))
                       (List.rev parameters))).
    { apply careful_forEach, Forall_forall. intros p _ g' Hs'.
      repeat wp_step. }
    repeat wp_step.
  - (* IfStatement *)
    destruct elseStatement; cbn [P_option] in *; repeat wp_step.
  - (* WhileStatement *)
    repeat wp_step.
  - (* ForStatement *)
    destruct initializer, condition, increment; cbn [P_option] in *;
      repeat wp_step.
  - (* ReturnStatement *)
    destruct value; cbn [P_option] in *; repeat wp_step.
  - (* ExpressionStatement *)
    repeat wp_step.
  - (* BinaryExpression *)
    pose proof (careful_emit_if_some _ (binaryOpcode_no_jump operator)).
    repeat wp_step.
  - (* UnaryExpression *)
    pose proof (careful_emit_if_some _ (unaryOpcode_no_jump operator)).
    repeat wp_step.
  - (* CallExpression *)
    pose proof (careful_forEach accept args IHargs) as Hargs.
    assert (Hregular : wp (bind (forEach accept args)
                            (fun _ => bind (accept callee)
                               (fun _ => emit CALL (Some (length args)))))
                          (extends g) g) by repeat wp_step.
    destruct callee; try exact Hregular.
    destruct (is_print_name name); [repeat wp_step|].
    destruct (is_input_name name); [repeat wp_step|exact Hregular].
  - (* Identifier *)
    repeat wp_step.
  - (* Literal *)
    repeat wp_step.
  - (* AssignmentExpression *)
    repeat wp_step.
  - (* BlockStatement *)
    exact (careful_forEach accept statements IHstatements g Hs).
Qed.

End JumpTargets.

(** C4. In the bytecode of every program that compiles, the operand of
    each [JUMP], [JUMP_IF_FALSE] and [JUMP_IF_TRUE] is the index of an
    instruction of the program, and the last instruction is [HALT]. *)
Theorem compiled_jumps_in_range_and_HALT_last :
  forall (program : AST.Program) (bytecode : Bytecode.Program),
    compiled program = Some bytecode ->
    Forall
      (fun i =>
         is_jump (Bytecode.opcode i) = true ->
         exists target,
           Bytecode.operand i = Some target /\
           (target < length (Bytecode.program_instructions bytecode))%nat)
      (Bytecode.program_instructions bytecode) /\
    exists line,
      last (Bytecode.program_instructions bytecode)
      = Some (instruction Bytecode.HALT None line).
Proof.
  intros program bytecode. unfold compiled, Bytecode.generate,
    Bytecode.generate_from, Bytecode.visitProgram, Bytecode.bind.
  assert (Hstart : jumps_settled Bytecode.new_generator) by constructor.
  pose proof (careful_forEach Bytecode.accept (AST.statements program)
                (proj2 (Forall_forall _ _) (fun n _ => accept_careful n))
                Bytecode.new_generator Hstart) as Hvisit.
  unfold wp in Hvisit.
  destruct (Bytecode.forEach Bytecode.accept (AST.statements program)
              Bytecode.new_generator) as [[] g|message]; [|discriminate].
  destruct Hvisit as [Hsettled _]. cbn. intros [= <-].
  cbn [Bytecode.program_instructions]. split.
  - rewrite length_app, Nat.add_1_r. apply Forall_app. split.
    + eapply Forall_impl; [exact Hsettled|]. intros i Hi Hjump.
      destruct (Hi Hjump) as (t & Hop & Ht). exists t. split; [exact Hop|lia].
    + apply Forall_singleton. intros Hjump. discriminate Hjump.
  - exists (Bytecode.currentLine g). apply last_snoc.
Qed.

(** C4 on the program [countdown]. *)
Lemma compiled_jumps_witness :
  compiled countdown = Some countdown_bytecode /\
  (Forall
     (fun i =>
        is_jump (Bytecode.opcode i) = true ->
        exists target,
          Bytecode.operand i = Some target /\
          (target < length (Bytecode.program_instructions countdown_bytecode))%nat)
     (Bytecode.program_instructions countdown_bytecode) /\
   exists line,
     last (Bytecode.program_instructions countdown_bytecode)
     = Some (instruction Bytecode.HALT None line)).
Proof.
  split; [vm_compute; reflexivity|].
  apply (compiled_jumps_in_range_and_HALT_last countdown countdown_bytecode).
  vm_compute. reflexivity.
Defined.

(** ** The lexer never aborts *)

Section LexerTotal.
Import Lexer.

Lemma advance_while_rest_le (class : ascii -> bool) (s : string) :
  forall ln col,
    (String.length (rest (snd (advance_while class s ln col)))
     <= String.length s)%nat.
Proof.
  induction s as [|c s IH]; intros ln col; cbn [advance_while].
  - cbn. lia.
  - destruct (class c).
    + match goal with
      | |- context [advance_while class s ?l ?k] =>
          specialize (IH l k); destruct (advance_while class s l k)
      end.
      cbn in *. lia.
    + cbn. lia.
Qed.

Lemma advance_while_consumes (class : ascii -> bool) c r ln col :
  class c = true ->
  (String.length (rest (snd (advance_while class (String c r) ln col)))
   < String.length (String c r))%nat.
Proof.
  intros Hc. cbn [advance_while]. rewrite Hc.
  match goal with
  | |- context [advance_while class r ?l ?k] =>
      pose proof (advance_while_rest_le class r l k);
      destruct (advance_while class r l k)
  end.
  cbn in *. lia.
Qed.

Lemma advance_rest (st : State) :
  rest (snd (advance st)) = match rest st with
                            | String _ r => r
                            | EmptyString => EmptyString
                            end.
Proof.
  unfold advance. destruct (rest st) as [|c r] eqn:E; cbn.
  - exact E.
  - destruct (Ascii.eqb c newline); reflexivity.
Qed.

Lemma readString_loop_rest_le (quote : ascii) (n : nat) :
  forall s ln col,
    (String.length s <= n)%nat ->
    (String.length (rest (snd (readString_loop quote s ln col)))
     <= String.length s)%nat.
Proof.
  induction n as [|n IH]; intros s ln col Hn.
  - destruct s; [cbn; lia|cbn in Hn; lia].
  - destruct s as [|c r]; [cbn; lia|].
    cbn [readString_loop]. cbn in Hn. destruct (Ascii.eqb c quote).
    + cbn [snd]. rewrite advance_rest. cbn. lia.
    + destruct (Ascii.eqb c backslash).
      * destruct r as [|e r'].
        -- cbn [snd]. rewrite advance_rest. cbn. lia.
        -- match goal with
           | |- context [readString_loop quote r' ?l ?k] =>
               pose proof (IH r' l k ltac:(cbn in Hn; lia)) as H;
               destruct (readString_loop quote r' l k)
           end.
           cbn in *. lia.
      * match goal with
        | |- context [readString_loop quote r ?l ?k] =>
            pose proof (IH r l k ltac:(lia)) as H;
            destruct (readString_loop quote r l k)
        end.
        cbn in *. lia.
Qed.

Lemma getKeywordTokenType_not_EOF entries value :
  getKeywordTokenType entries value <> EOF.
Proof.
  induction entries as [|[k t] more IH]; cbn [getKeywordTokenType].
  - discriminate.
  - destruct (String.eqb value t); [|exact IH].
    unfold keywordTokenType.
    repeat (destruct (String.eqb k _); [discriminate|]).
    exact IH.
Qed.

(** A turn of the loop consumes at least one character and gives a
    token that is not [EOF]. *)
Lemma scanToken_consumes language c st :
  peek 0 st = Some c ->
  (String.length (rest (snd (scanToken language c st)))
   < String.length (rest st))%nat /\
  type (fst (scanToken language c st)) <> EOF.
Proof.
  unfold peek. intros Hpeek.
  destruct (rest st) as [|c' r] eqn:Hrest; [discriminate|].
  cbn in Hpeek. injection Hpeek as ->.
  unfold scanToken.
  destruct (is_digit c) eqn:Hdigit.
  { unfold readNumber. rewrite Hrest.
    pose proof (advance_while_consumes is_number_char c r
                  (cur_line st) (cur_column st)) as H.
    destruct (advance_while _ _ _ _). cbn in *. split; [|discriminate].
    apply H. unfold is_number_char. rewrite Hdigit. reflexivity. }
  destruct (Ascii.eqb c double_quote || Ascii.eqb c "'").
  { unfold readString, advance. rewrite Hrest.
    match goal with
    | |- context [readString_loop c ?s ?l ?k] =>
        pose proof (readString_loop_rest_le c (String.length s) s l k
                      (Nat.le_refl _)) as H;
        destruct (readString_loop c s l k)
    end.
    destruct (Ascii.eqb c newline); cbn in *; split; try discriminate; lia. }
  destruct (is_letter c) eqn:Hletter.
  { unfold readIdentifier. rewrite Hrest.
    pose proof (advance_while_consumes is_identifier_char c r
                  (cur_line st) (cur_column st)) as H.
    destruct (advance_while _ _ _ _). cbn in *.
    split; [|apply getKeywordTokenType_not_EOF].
    apply H. unfold is_identifier_char. rewrite Hletter. reflexivity. }
  unfold peek. rewrite Hrest.
  destruct r as [|d r']; cbn [String.get].
  - cbn [fst snd type]. rewrite advance_rest, Hrest. cbn. split; [lia|].
    unfold singleCharToken.
    repeat (destruct (Ascii.eqb c _); [discriminate|]). discriminate.
  - destruct (twoCharOperator c d) as [t|] eqn:Htwo; cbn [fst snd type].
    + rewrite !advance_rest, Hrest. cbn. split; [lia|].
      unfold twoCharOperator in Htwo.
      repeat (destruct (Ascii.eqb c _ && Ascii.eqb d _);
              [injection Htwo as <-; discriminate|]).
      discriminate.
    + rewrite advance_rest, Hrest. cbn. split; [lia|].
      unfold singleCharToken.
      repeat (destruct (Ascii.eqb c _); [discriminate|]). discriminate.
Qed.

Lemma skipWhitespace_rest_le (st : State) :
  (String.length (rest (skipWhitespace st)) <= String.length (rest st))%nat.
Proof. apply advance_while_rest_le. Qed.

Lemma tokenize_loop_total language (fuel : nat) :
  forall st,
    (String.length (rest st) <= fuel)%nat ->
    exists tokens eof,
      tokenize_loop fuel language st = Some (tokens ++ [eof])%list /\
      type eof = EOF /\
      Forall (fun t => type t <> EOF) tokens.
Proof.
  induction fuel as [|fuel IH]; intros st Hfuel;
    pose proof (skipWhitespace_rest_le st) as Hskip;
    cbn [tokenize_loop];
    destruct (peek 0 (skipWhitespace st)) as [c|] eqn:Hpeek.
  - unfold peek in Hpeek.
    destruct (rest (skipWhitespace st)); [discriminate|cbn in Hskip; lia].
  - eexists [], _. repeat split. constructor.
  - pose proof (scanToken_consumes language c _ Hpeek) as [Hlt Htype].
    destruct (scanToken language c (skipWhitespace st)) as [tok st'].
    cbn [fst snd] in *.
    destruct (IH st') as (tokens & eof & -> & Heof & Hall); [lia|].
    exists (tok :: tokens), eof. repeat split; [exact Heof|].
    constructor; assumption.
  - eexists [], _. repeat split. constructor.
Qed.

(** For every table and every source, [tokenize] returns a sequence of
    tokens; its last token is the only [EOF] in it. *)
Theorem tokenize_ends_with_single_EOF language source :
  exists tokens eof,
    tokenize language source = Some (tokens ++ [eof])%list /\
    type eof = EOF /\
    Forall (fun t => type t <> EOF) tokens.
Proof. apply tokenize_loop_total. cbn. lia. Qed.

End LexerTotal.

(** ** Programs without functions *)

(** Four programs made of declarations, assignments, a loop and a
    conditional print what is expected of them, with no error. *)
Theorem programs_without_functions_run :
  (forall k,
     runSource (20 + k) Language.english Sources.sum
     = Executed {| VM.result_output := ["30"]; VM.error := None |}) /\
  (forall k,
     runSource (100 + k) Language.english Sources.factorial_loop
     = Executed {| VM.result_output := ["120"]; VM.error := None |}) /\
  (forall k,
     runSource (20 + k) Language.english Sources.branches
     = Executed {| VM.result_output := ["a"; "c"]; VM.error := None |}) /\
  (forall k,
     runSource (20 + k) Language.english Sources.redeclaration
     = Executed {| VM.result_output := ["2"]; VM.error := None |}).
Proof.
  repeat split; intros k; apply runSource_fuel_mono; vm_compute; reflexivity.
Qed.

(** ** The machine, whatever the program *)

Section VMProperties.
Import Bytecode VM.

Lemma pop_frame (vm : VirtualMachine) :
  instructions (snd (pop vm)) = instructions vm /\
  pc (snd (pop vm)) = pc vm /\
  output (snd (pop vm)) = output vm.
Proof. unfold pop. destruct (stack vm); repeat split. Qed.

Lemma pop_args_frame (n : nat) :
  forall args vm,
    instructions (snd (pop_args n args vm)) = instructions vm /\
    pc (snd (pop_args n args vm)) = pc vm /\
    output (snd (pop_args n args vm)) = output vm.
Proof.
  induction n as [|n IH]; intros args vm; cbn [pop_args].
  - repeat split.
  - pose proof (pop_frame vm) as (Hi & Hp & Ho).
    destruct (pop vm) as [v vm1]. cbn [snd] in *.
    destruct (IH (v :: args) vm1) as (Hi' & Hp' & Ho').
    rewrite Hi', Hp', Ho'. auto.
Qed.

(** What an instruction leaves alone. *)
Lemma executeInstruction_frame (i : Instruction) (vm : VirtualMachine) :
  instructions (fst (executeInstruction i vm)) = instructions vm /\
  (pc (fst (executeInstruction i vm)) = pc vm \/
   pc (fst (executeInstruction i vm)) = jump_target (operand i)) /\
  (exists lines,
     output (fst (executeInstruction i vm)) = (output vm ++ lines)%list /\
     (opcode i <> PRINT -> lines = [])) /\
  (forall message,
     snd (executeInstruction i vm) = Some message -> runtime_error message).
Proof.
  destruct i as [op operand line]. unfold executeInstruction, binary, unary.
  cbn [opcode Bytecode.operand].
  destruct op;
    repeat match goal with
    | |- context [pop ?v] =>
        let H := fresh "H" in
        pose proof (pop_frame v) as H; destruct (pop v); cbn [snd] in H;
        destruct H as (? & ? & ?)
    | |- context [pop_args ?n ?a ?v] =>
        let H := fresh "H" in
        pose proof (pop_args_frame n a v) as H; destruct (pop_args n a v);
        cbn [snd] in H; destruct H as (? & ? & ?)
    | |- context [match ?o with Some _ => _ | None => _ end] => destruct o
    | |- context [if ?b then _ else _] => destruct b
    end;
    cbn; (split; [congruence|]); (split; [auto; left; congruence|]);
    (split; [first [exists []; rewrite List.app_nil_r; split; [congruence|reflexivity]
                   | eexists; split; [f_equal; eassumption|intros H'; congruence] ]|]);
    intros message [= <-]; unfold runtime_error; eauto 6.
Qed.

(** Along the loop of [execute] the counter stays in order, the
    instructions stay the same, the output only grows, and an error caught
    is one of the runtime errors. *)
Lemma run_invariants (fuel : nat) :
  forall vm vm' err,
    pc_in_order vm ->
    run fuel vm = Some (vm', err) ->
    instructions vm' = instructions vm /\
    (exists lines,
       output vm' = (output vm ++ lines)%list /\
       (Forall (fun i => opcode i <> PRINT) (instructions vm) -> lines = [])) /\
    (forall message, err = Some message -> runtime_error message).
Proof.
  induction fuel as [|fuel IH]; intros vm vm' err Hpc Hrun;
    rewrite run_unfold in Hrun; unfold pc_in_order in Hpc;
    destruct (pc vm) as [p|] eqn:Hp.
  1, 3: destruct (p <? Z.of_nat (length (instructions vm))) eqn:Hlt.
  all: try discriminate Hrun.
  all: try (injection Hrun as <- <-; split; [reflexivity|]; split;
            [exists []; rewrite List.app_nil_r; auto|discriminate]).
  destruct (p <? 0) eqn:Hneg; [lia|].
  destruct (instructions vm !! Z.to_nat p) as [i|] eqn:Hi.
  2: { apply lookup_ge_None in Hi. lia. }
  pose proof (executeInstruction_frame i vm) as (Hins & Hpc' & (lines & Hout & Hlines) & Herr).
  destruct (executeInstruction i vm) as [vm1 [message|]]; cbn [fst snd] in *.
  - injection Hrun as <- <-. split; [exact Hins|]. split.
    + exists lines. split; [exact Hout|]. intros Hall. apply Hlines.
      exact (proj1 (Forall_lookup _ _) Hall _ _ Hi).
    + intros m [= <-]. apply Herr. reflexivity.
  - apply IH in Hrun.
    + cbn [instructions output with_pc] in Hrun.
      destruct Hrun as (Hins2 & (lines2 & Hout2 & Hlines2) & Herr2).
      split; [congruence|]. split; [|exact Herr2].
      exists (lines ++ lines2)%list. split.
      * rewrite Hout2, Hout, List.app_assoc. reflexivity.
      * intros Hall. rewrite Hlines, Hlines2; [reflexivity| |].
        -- rewrite Hins. exact Hall.
        -- exact (proj1 (Forall_lookup _ _) Hall _ _ Hi).
    + unfold pc_in_order. cbn [pc with_pc].
      destruct Hpc' as [-> | ->].
      * rewrite Hp. cbn. lia.
      * destruct (operand i); cbn; [lia|exact I].
Qed.

(** On bytecode of the kind the generator emits, where an operand is a
    natural number or absent and a constant is a number, a string, a
    boolean, [null] or [undefined], taken in any order and with any jump
    targets, also targets outside the program: [execute] reports only the
    errors the instructions throw, a division by zero, the load of a
    variable that was never stored, and the two opcodes the machine does
    not know. No jump makes the loop read an instruction outside the
    program. Operands that are negative or no numbers, an environment
    without [prompt], and the limits of the host on the length of a string
    or an array are outside this statement. *)
Theorem execute_reports_runtime_errors_only :
  forall fuel bytecode answers result message,
    execute fuel bytecode answers = Some result ->
    error result = Some message ->
    runtime_error message.
Proof.
  intros fuel bytecode answers result message. unfold execute.
  destruct (run fuel (boot bytecode answers)) as [[vm err]|] eqn:Hrun;
    [|discriminate].
  intros [= <-]. cbn [error]. intros ->.
  apply run_invariants in Hrun; [|cbn; lia].
  destruct Hrun as (_ & _ & Herr). apply Herr. reflexivity.
Qed.

Lemma execute_reports_runtime_errors_only_witness :
  execute 10 division_program []
  = Some {| result_output := []; error := Some "Division by zero" |} /\
  runtime_error "Division by zero".
Proof.
  split; [vm_compute; reflexivity|].
  apply (execute_reports_runtime_errors_only 10 division_program []
           {| result_output := []; error := Some "Division by zero" |}).
  - vm_compute. reflexivity.
  - reflexivity.
Defined.

(** A program with no [PRINT] instruction prints nothing, whatever else
    it does. *)
Theorem no_PRINT_no_output :
  forall fuel bytecode answers result,
    Forall (fun i => opcode i <> PRINT) (program_instructions bytecode) ->
    execute fuel bytecode answers = Some result ->
    result_output result = [].
Proof.
  intros fuel bytecode answers result Hall. unfold execute.
  destruct (run fuel (boot bytecode answers)) as [[vm err]|] eqn:Hrun;
    [|discriminate].
  intros [= <-]. cbn [result_output].
  apply run_invariants in Hrun; [|cbn; lia].
  destruct Hrun as (_ & (lines & Hout & Hlines) & _).
  rewrite Hout, Hlines; [reflexivity|exact Hall].
Qed.

Lemma no_PRINT_no_output_witness :
  Forall (fun i => opcode i <> PRINT) (program_instructions division_program) /\
  result_output {| result_output := []; error := Some "Division by zero" |} = [].
Proof.
  assert (H : Forall (fun i => opcode i <> PRINT)
                (program_instructions division_program))
    by (repeat constructor; discriminate).
  split; [exact H|].
  apply (no_PRINT_no_output 10 division_program [] _ H).
  vm_compute. reflexivity.
Defined.

Lemma pop_args_takes (xs : list JS.Value) :
  forall args rest vm,
    stack vm = (List.rev xs ++ rest)%list ->
    pop_args (length xs) args vm = ((xs ++ args)%list, with_stack rest vm).
Proof.
  induction xs as [|x xs IH] using List.rev_ind; intros args rest vm Hstack.
  - cbn in *. rewrite <- Hstack. destruct vm; reflexivity.
  - rewrite List.length_app, Nat.add_1_r. cbn [pop_args].
    rewrite List.rev_app_distr in Hstack. cbn in Hstack.
    unfold pop. rewrite Hstack.
    rewrite (IH (x :: args) rest (with_stack (List.rev xs ++ rest) vm) eq_refl).
    rewrite <- List.app_assoc. reflexivity.
Qed.

(** [PRINT n] with the [n] values of a call on top of the stack, the last
    argument on top: it removes them and prints their texts on one line,
    first argument first, separated by single spaces. *)
Theorem PRINT_prints_arguments_in_call_order :
  forall (args : list JS.Value) rest line vm,
    args <> [] ->
    stack vm = (List.rev args ++ rest)%list ->
    exists vm',
      executeInstruction (instruction PRINT (Some (length args)) line) vm
      = (vm', None) /\
      stack vm' = rest /\
      output vm' = (output vm ++ [JSOps.join " " (List.map JSOps.ToString args)])%list /\
      variables vm' = variables vm /\
      pc vm' = pc vm.
Proof.
  intros args rest line vm Hne Hstack.
  unfold executeInstruction. cbn [opcode operand instruction].
  assert (Hcount : argCount (Some (length args)) = length args).
  { destruct args; [contradiction|reflexivity]. }
  rewrite Hcount, (pop_args_takes args [] rest vm Hstack), List.app_nil_r.
  eexists. split; [reflexivity|]. repeat split.
Qed.

Lemma PRINT_prints_arguments_witness :
  [JS.VStr "a"; JS.VNum 1] <> [] /\
  stack (push (JS.VNum 1) (push (JS.VStr "a") (idle [])))
  = (List.rev [JS.VStr "a"; JS.VNum 1] ++ [])%list /\
  exists vm',
    executeInstruction
      (instruction PRINT (Some (length [JS.VStr "a"; JS.VNum 1])) 1)
      (push (JS.VNum 1) (push (JS.VStr "a") (idle [])))
    = (vm', None) /\
    stack vm' = [] /\
    output vm'
    = (output (push (JS.VNum 1) (push (JS.VStr "a") (idle []))) ++
       [JSOps.join " " (List.map JSOps.ToString [JS.VStr "a"; JS.VNum 1])])%list /\
    variables vm' = variables (push (JS.VNum 1) (push (JS.VStr "a") (idle []))) /\
    pc vm' = pc (push (JS.VNum 1) (push (JS.VStr "a") (idle []))).
Proof.
  split; [discriminate|]. split; [reflexivity|].
  apply (PRINT_prints_arguments_in_call_order
           [JS.VStr "a"; JS.VNum 1] [] 1%nat
           (push (JS.VNum 1) (push (JS.VStr "a") (idle [])))).
  - discriminate.
  - reflexivity.
Defined.

Lemma lookup_repeat {A} (x : A) (k i : nat) :
  (i < k)%nat -> List.repeat x k !! i = Some x.
Proof.
  revert i. induction k as [|k IH]; intros i Hi; [lia|].
  destruct i; cbn; [reflexivity|apply IH; lia].
Qed.

(** The variable table after [STORE_VAR index]. *)
Lemma store_length index value vars :
  length (store index value vars) = Nat.max (length vars) (S index).
Proof.
  unfold store. rewrite length_insert, length_app, List.repeat_length. lia.
Qed.

Lemma store_same index value vars :
  nth index (store index value vars) JS.VUndefined = value.
Proof.
  unfold store. apply nth_lookup_Some with (d := JS.VUndefined).
  apply list_lookup_insert_eq. rewrite length_app, List.repeat_length. lia.
Qed.

Lemma store_other index value vars other :
  other <> index ->
  nth other (store index value vars) JS.VUndefined =
  if (other <? length vars)%nat then nth other vars JS.VUndefined
  else if (other <? index)%nat then JS.VNull
  else JS.VUndefined.
Proof.
  intros Hne. unfold store.
  rewrite !nth_lookup, list_lookup_insert_ne by congruence.
  destruct (Nat.ltb_spec other (length vars)).
  - rewrite lookup_app_l by lia. reflexivity.
  - rewrite lookup_app_r by lia.
    destruct (Nat.ltb_spec other index).
    + rewrite lookup_repeat by lia. reflexivity.
    + rewrite (proj2 (lookup_ge_None _ _)); [reflexivity|].
      rewrite List.repeat_length. lia.
Qed.

(** [STORE_VAR index] followed by [LOAD_VAR index]: neither fails, the
    value stored is the value loaded, and it is on the stack twice, since
    the store pushes it back. The store lengthens the table up to [index],
    fills what it adds in between with [null], and changes no other
    variable. *)
Theorem STORE_VAR_then_LOAD_VAR :
  forall index line line' vm value rest,
    stack vm = value :: rest ->
    exists vm1 vm2,
      executeInstruction (instruction STORE_VAR (Some index) line) vm
      = (vm1, None) /\
      executeInstruction (instruction LOAD_VAR (Some index) line') vm1
      = (vm2, None) /\
      stack vm2 = value :: value :: rest /\
      variables vm2 = variables vm1 /\
      nth index (variables vm1) JS.VUndefined = value /\
      length (variables vm1) = Nat.max (length (variables vm)) (S index) /\
      (forall other,
         other <> index -> (other < length (variables vm))%nat ->
         nth other (variables vm1) JS.VUndefined
         = nth other (variables vm) JS.VUndefined) /\
      (forall other,
         (length (variables vm) <= other < index)%nat ->
         nth other (variables vm1) JS.VUndefined = JS.VNull).
Proof.
  intros index line line' vm value rest Hstack.
  unfold executeInstruction at 1. cbn [opcode operand instruction].
  unfold pop. rewrite Hstack. cbn [stack variables with_stack push].
  eexists. eexists. split; [reflexivity|].
  unfold executeInstruction. cbn [opcode operand instruction variables push with_stack].
  rewrite store_length.
  destruct (Nat.leb_spec (Nat.max (length (variables vm)) (S index)) index);
    [lia|].
  split; [reflexivity|]. cbn [stack variables push with_stack].
  rewrite store_same. repeat split.
  - intros other Hne Hlt. rewrite store_other by exact Hne.
    destruct (Nat.ltb_spec other (length (variables vm))); [reflexivity|lia].
  - intros other [Hge Hlt]. rewrite store_other by lia.
    destruct (Nat.ltb_spec other (length (variables vm))); [lia|].
    destruct (Nat.ltb_spec other index); [reflexivity|lia].
Qed.

Lemma STORE_VAR_then_LOAD_VAR_witness :
  stack (push (JS.VNum 7) (idle [])) = [JS.VNum 7] /\
  exists vm1 vm2,
    executeInstruction (instruction STORE_VAR (Some 2%nat) 1)
      (push (JS.VNum 7) (idle [])) = (vm1, None) /\
    executeInstruction (instruction LOAD_VAR (Some 2%nat) 1) vm1 = (vm2, None) /\
    stack vm2 = [JS.VNum 7; JS.VNum 7] /\
    variables vm2 = variables vm1 /\
    nth 2 (variables vm1) JS.VUndefined = JS.VNum 7 /\
    length (variables vm1)
    = Nat.max (length (variables (push (JS.VNum 7) (idle [])))) 3 /\
    (forall other,
       other <> 2%nat ->
       (other < length (variables (push (JS.VNum 7) (idle []))))%nat ->
       nth other (variables vm1) JS.VUndefined
       = nth other (variables (push (JS.VNum 7) (idle []))) JS.VUndefined) /\
    (forall other,
       (length (variables (push (JS.VNum 7) (idle []))) <= other < 2)%nat ->
       nth other (variables vm1) JS.VUndefined = JS.VNull).
Proof.
  split; [reflexivity|].
  apply (STORE_VAR_then_LOAD_VAR 2 1 1 (push (JS.VNum 7) (idle []))
           (JS.VNum 7) []).
  reflexivity.
Defined.

End VMProperties.

(** ** What the generator emits *)

Section WellFormed.
Import Bytecode.

Lemma instruction_ok_mono (n m : nat) i :
  instruction_ok n i -> (n <= m)%nat -> instruction_ok m i.
Proof.
  intros (Hl & Hs & Hc) Hle. repeat split; [exact Hl|exact Hs|].
  intros Hop. destruct (Hc Hop) as (c & Hc1 & Hc2). exists c. split; [exact Hc1|lia].
Qed.

Lemma keeps_opcodes_refl g g' :
  instructions g' = instructions g -> keeps_opcodes g g'.
Proof. unfold keeps_opcodes, opcodes. intros ->. trivial. Qed.

Lemma wpe_bind {A B} (m : M A) (k : A -> M B) Q g :
  wpe m (fun a g' => wpe (k a) Q g') g -> wpe (bind m k) Q g.
Proof. unfold wpe, bind. destruct (m g); trivial. Qed.

Lemma wpe_mono {A} (m : M A) (P Q : A -> BytecodeGenerator -> Prop) g :
  wpe m P g -> (forall a g', P a g' -> Q a g') -> wpe m Q g.
Proof. unfold wpe. destruct (m g); auto. Qed.

Lemma wpe_ret {A} (a : A) (Q : A -> BytecodeGenerator -> Prop) g :
  Q a g -> wpe (ret a) Q g.
Proof. trivial. Qed.

Lemma wpe_throw_undefined {A} name (Q : A -> BytecodeGenerator -> Prop) g :
  wpe (throw ("Undefined variable: " +:+ name)) Q g.
Proof. exists name. reflexivity. Qed.

Lemma wpe_here (Q : nat -> BytecodeGenerator -> Prop) g :
  Q (size_of g) g -> wpe here Q g.
Proof. trivial. Qed.

Lemma wpe_silent {A} (m : M A) (Q : A -> BytecodeGenerator -> Prop) g :
  silent m ->
  well_formed g ->
  (forall a g',
     well_formed g' -> size_of g' = size_of g -> keeps_opcodes g g' ->
     Q a g') ->
  wpe m Q g.
Proof.
  intros Hq (Hl & Hi & Hp) HQ. unfold wpe.
  destruct (Hq g) as (a & g' & -> & Hsame & Hconst & Hline).
  apply HQ.
  - unfold well_formed. rewrite Hsame, Hconst, Hline. auto.
  - unfold size_of. rewrite Hsame. reflexivity.
  - apply keeps_opcodes_refl. exact Hsame.
Qed.

Lemma silent_bindVariable name : silent (bindVariable name).
Proof. intros g. unfold bindVariable. eauto 7. Qed.

Lemma silent_setFunction name info : silent (setFunction name info).
Proof. intros g. unfold setFunction. eauto 7. Qed.

Lemma silent_getVariable name : silent (getVariable name).
Proof. intros g. unfold getVariable. eauto 7. Qed.

Lemma silent_getFunction name : silent (getFunction name).
Proof. intros g. unfold getFunction. eauto 7. Qed.

(** [indexOf] finds the first constant equal to the value, and finds none
    only when no constant is. *)
Lemma indexOf_Some pool value index :
  JSOps.indexOf pool value = Some index ->
  exists x, pool !! index = Some x /\ JSOps.strict_equal x value = true /\
            forall j y, (j < index)%nat -> pool !! j = Some y ->
                        JSOps.strict_equal y value = false.
Proof.
  revert index. induction pool as [|x pool IH]; intros index; cbn [JSOps.indexOf].
  - discriminate.
  - destruct (JSOps.strict_equal x value) eqn:Hx.
    + intros [= <-]. exists x. repeat split; [exact Hx|]. intros j y Hj. lia.
    + destruct (JSOps.indexOf pool value) as [i|]; [|discriminate].
      intros [= <-]. destruct (IH i eq_refl) as (x' & Hx' & Heq & Hfirst).
      exists x'. repeat split; [exact Hx'|exact Heq|].
      intros [|j] y Hj; cbn.
      * intros [= <-]. exact Hx.
      * apply Hfirst. lia.
Qed.

Lemma indexOf_None pool value :
  JSOps.indexOf pool value = None ->
  forall (i : nat) x, pool !! i = Some x -> JSOps.strict_equal x value = false.
Proof.
  induction pool as [|x pool IH]; cbn [JSOps.indexOf]; intros H i y.
  - discriminate.
  - destruct (JSOps.strict_equal x value) eqn:Hx; [discriminate|].
    destruct (JSOps.indexOf pool value); [discriminate|].
    destruct i; cbn.
    + intros [= <-]. exact Hx.
    + apply IH. reflexivity.
Qed.

Lemma wpe_addConstant value (Q : nat -> BytecodeGenerator -> Prop) g :
  well_formed g ->
  (forall c g',
     well_formed g' -> size_of g' = size_of g -> keeps_opcodes g g' ->
     (c < length (constants g'))%nat ->
     Q c g') ->
  wpe (addConstant value) Q g.
Proof.
  intros (Hl & Hi & Hp) HQ. unfold wpe, addConstant.
  destruct (JSOps.indexOf (constants g) value) as [index|] eqn:Hindex.
  - apply HQ; [split; auto|reflexivity|apply keeps_opcodes_refl; reflexivity|].
    destruct (indexOf_Some _ _ _ Hindex) as (x & Hx & _).
    apply lookup_lt_Some in Hx. exact Hx.
  - apply HQ; cbn [constants instructions currentLine].
    + split; [exact Hl|]. cbn [constants instructions currentLine]. split.
      * eapply Forall_impl; [exact Hi|]. intros i Hok.
        eapply instruction_ok_mono; [exact Hok|]. rewrite length_app. cbn. lia.
      * intros i j x y Hij Hx Hy.
        pose proof (lookup_lt_Some _ _ _ Hy) as Hjlt.
        rewrite length_app in Hjlt. cbn in Hjlt.
        destruct (Nat.lt_ge_cases j (length (constants g))) as [Hj|Hj].
        -- rewrite lookup_app_l in Hx, Hy by lia. exact (Hp i j x y Hij Hx Hy).
        -- rewrite lookup_app_l in Hx by lia. rewrite lookup_app_r in Hy by lia.
           destruct (j - length (constants g))%nat; cbn in Hy; [|discriminate].
           injection Hy as <-. exact (indexOf_None _ _ Hindex i x Hx).
    + reflexivity.
    + apply keeps_opcodes_refl. reflexivity.
    + rewrite length_app. cbn. lia.
Qed.

Lemma wpe_emit op operand (Q : unit -> BytecodeGenerator -> Prop) g :
  well_formed g ->
  has_operand op = match operand with Some _ => true | None => false end ->
  (op = LOAD_CONST -> exists c, operand = Some c /\ (c < length (constants g))%nat) ->
  (forall g',
     well_formed g' -> size_of g' = S (size_of g) -> keeps_opcodes g g' ->
     opcodes g' !! size_of g = Some op ->
     Q tt g') ->
  wpe (emit op operand) Q g.
Proof.
  intros (Hl & Hi & Hp) Hshape Hconst HQ. unfold wpe, emit. apply HQ.
  - split; [exact Hl|]. split; [|exact Hp].
    cbn [set_instructions instructions constants].
    apply Forall_app. split; [exact Hi|]. apply Forall_singleton.
    repeat split; [exact Hl|exact Hshape|exact Hconst].
  - unfold size_of, set_instructions; cbn [instructions].
    rewrite length_app, Nat.add_1_r. reflexivity.
  - intros i o. unfold opcodes, set_instructions; cbn [instructions].
    rewrite List.map_app. intros H. rewrite lookup_app_l; [exact H|].
    apply lookup_lt_Some in H. exact H.
  - unfold opcodes, size_of, set_instructions; cbn [instructions].
    rewrite List.map_app, lookup_app_r by (rewrite List.length_map; lia).
    rewrite List.length_map, Nat.sub_diag. reflexivity.
Qed.

(** A patch succeeds on an instruction that exists; when that one is a
    jump, the instructions stay as the generator makes them. *)
Lemma wpe_patch index target (Q : unit -> BytecodeGenerator -> Prop) g :
  well_formed g ->
  (exists op, opcodes g !! index = Some op /\ is_jump op = true) ->
  (forall g',
     well_formed g' -> size_of g' = size_of g -> keeps_opcodes g g' ->
     Q tt g') ->
  wpe (patch index target) Q g.
Proof.
  intros (Hl & Hi & Hp) (op & Hop & Hjump) HQ. unfold wpe, patch.
  unfold opcodes in Hop. rewrite list_lookup_fmap in Hop.
  destruct (instructions g !! index) as [i|] eqn:Hindex; [|discriminate].
  cbn in Hop. injection Hop as <-.
  apply HQ.
  - split; [exact Hl|]. split; [|exact Hp].
    cbn [set_instructions instructions constants].
    apply Forall_insert; [exact Hi|].
    destruct (proj1 (Forall_lookup _ _) Hi _ _ Hindex) as (Hline & Hshape & _).
    repeat split; cbn [line opcode operand]; [exact Hline| |].
    + destruct (opcode i); try discriminate Hjump; reflexivity.
    + intros H. rewrite H in Hjump. discriminate Hjump.
  - unfold size_of, set_instructions; cbn [instructions]. apply length_insert.
  - intros j o. unfold opcodes, set_instructions; cbn [instructions].
    rewrite !list_lookup_fmap.
    destruct (decide (j = index)) as [->|Hne].
    + rewrite list_lookup_insert_eq by (apply lookup_lt_Some in Hindex; exact Hindex).
      rewrite Hindex. trivial.
    + rewrite list_lookup_insert_ne by congruence. trivial.
Qed.

Lemma grown_refl {A} (a : A) g : well_formed g -> grown g a g.
Proof. intros H. split; [exact H|]. split; [lia|]. intros i op; trivial. Qed.

Lemma thorough_forEach {A} (visit : A -> M unit) (xs : list A) :
  Forall (fun x => thorough (visit x)) xs -> thorough (forEach visit xs).
Proof.
  induction 1 as [|x xs Hx _ IH]; intros g Hs; cbn [forEach].
  - apply wpe_ret. apply grown_refl. exact Hs.
  - apply wpe_bind. eapply wpe_mono; [exact (Hx g Hs)|].
    intros [] g1 (Hs1 & Hl1 & Hk1). eapply wpe_mono; [exact (IH g1 Hs1)|].
    intros [] g2 (Hs2 & Hl2 & Hk2). split; [exact Hs2|]. split; [lia|].
    intros i op Hi. apply Hk2, Hk1, Hi.
Qed.

Lemma binaryOpcode_plain operator o :
  binaryOpcode operator = Some o -> has_operand o = false.
Proof.
  unfold binaryOpcode.
  repeat (destruct (String.eqb operator _); [intros [= <-]; reflexivity|]).
  discriminate.
Qed.

Lemma unaryOpcode_plain operator o :
  unaryOpcode operator = Some o -> has_operand o = false.
Proof.
  unfold unaryOpcode.
  repeat (destruct (String.eqb operator _); [intros [= <-]; reflexivity|]).
  discriminate.
Qed.

Lemma thorough_emit_if_some (op : option OpCode) :
  (forall o, op = Some o -> has_operand o = false) -> thorough (emit_if_some op).
Proof.
  intros Hop g Hs. destruct op as [o|]; cbn [emit_if_some].
  - apply wpe_emit; [exact Hs|exact (Hop o eq_refl)| |].
    + intros ->. specialize (Hop _ eq_refl). discriminate Hop.
    + intros g' Hs' Hl' Hk' _. split; [exact Hs'|]. split; [lia|exact Hk'].
  - apply wpe_ret. apply grown_refl. exact Hs.
Qed.

Ltac still_there :=
  first
    [ eassumption
    | match goal with
      | H : keeps_opcodes ?a ?b |- opcodes ?b !! _ = Some _ =>
          apply H; still_there
      end ].

Ltac keeps_chain :=
  let i := fresh "i" in
  let op := fresh "op" in
  let Hi := fresh "Hi" in
  intros i op Hi;
  repeat match goal with
         | H : keeps_opcodes ?a ?b |- opcodes ?b !! _ = Some _ => apply H
         end;
  exact Hi.

Ltac load_ok :=
  let H := fresh "Hload" in
  intros H;
  first [discriminate H | eexists; split; [reflexivity|assumption]].

Ltac wpe_step :=
  lazymatch goal with
  | |- wpe (bind _ _) _ _ => apply wpe_bind
  | |- wpe (ret _) _ _ => apply wpe_ret
  | |- wpe (throw _) _ _ => apply wpe_throw_undefined
  | |- wpe here _ _ => apply wpe_here
  | |- wpe (emit _ _) _ _ =>
      apply wpe_emit; [assumption|reflexivity|load_ok|intros ? ? ? ? ?]
  | |- wpe (patch _ _) _ _ =>
      apply wpe_patch;
      [assumption|eexists; split; [still_there|reflexivity]|intros ? ? ? ?]
  | |- wpe (addConstant _) _ _ =>
      apply wpe_addConstant; [assumption|intros ? ? ? ? ? ?]
  | |- wpe (bindVariable _) _ _ =>
      apply wpe_silent; [apply silent_bindVariable|assumption|intros ? ? ? ? ?]
  | |- wpe (setFunction _ _) _ _ =>
      apply wpe_silent; [apply silent_setFunction|assumption|intros ? ? ? ? ?]
  | |- wpe (getVariable _) _ _ =>
      apply wpe_silent; [apply silent_getVariable|assumption|intros ? ? ? ? ?]
  | |- wpe (getFunction _) _ _ =>
      apply wpe_silent; [apply silent_getFunction|assumption|intros ? ? ? ? ?]
  | H : thorough ?m |- wpe ?m _ ?g =>
      eapply wpe_mono; [apply (H g); assumption|intros [] ? (? & ? & ?)]
  | |- wpe (match ?x with Some _ => _ | None => _ end) _ _ => destruct x
  | |- wpe (if ?b then _ else _) _ _ => destruct b
  | |- grown _ _ _ => split; [assumption|split; [lia|keeps_chain]]
  end.

(** Visiting a node leaves the instructions and the pool as the generator
    makes them, and throws nothing but the error of an undefined name: the
    patches always find their jump. *)
Lemma accept_thorough (node : AST.ASTNode) : thorough (accept node).
Proof.
  induction node as
    [identifier initializer IHinit
    |name parameters body IHbody
    |condition thenStatement elseStatement IHcond IHthen IHelse
    |condition body IHcond IHbody
    |initializer condition increment body IHinit IHcond IHinc IHbody
    |value IHvalue
    |expression IHexpr
    |lhs operator rhs IHlhs IHrhs
    |operator operand IHoperand
    |callee args IHcallee IHargs
    |name
    |value type
    |identifier value IHvalue
    |statements IHstatements] using ASTNode_nested_ind;
    intros g Hs; cbn [accept].
  - destruct initializer; cbn [P_option] in *; repeat wpe_step.
  - pose proof (thorough_forEach accept body IHbody) as Hbody.
    assert (Hparams : thorough
              (forEach (fun p => bind (bindVariable p)
                                   (fun paramIndex => emit STORE_VAR (Some paramIndex)))
                       (List.rev parameters))).
    { apply thorough_forEach, Forall_forall. intros p _ g' Hs'.
      repeat wpe_step. }
    repeat wpe_step.
  - destruct elseStatement; cbn [P_option] in *; repeat wpe_step.
  - repeat wpe_step.
  - destruct initializer, condition, increment; cbn [P_option] in *;
      repeat wpe_step.
  - destruct value; cbn [P_option] in *; repeat wpe_step.
  - repeat wpe_step.
  - pose proof (thorough_emit_if_some _ (binaryOpcode_plain operator)).
    repeat wpe_step.
  - pose proof (thorough_emit_if_some _ (unaryOpcode_plain operator)).
    repeat wpe_step.
  - pose proof (thorough_forEach accept args IHargs) as Hargs.
    assert (Hregular : wpe (bind (forEach accept args)
                            (fun _ => bind (accept callee)
                               (fun _ => emit CALL (Some (length args)))))
                          (grown g) g) by repeat wpe_step.
    destruct callee; try exact Hregular.
    destruct (is_print_name name); [repeat wpe_step|].
    destruct (is_input_name name); [repeat wpe_step|exact Hregular].
  - repeat wpe_step.
  - repeat wpe_step.
  - repeat wpe_step.
  - exact (thorough_forEach accept statements IHstatements g Hs).
Qed.

Lemma new_generator_well_formed : well_formed new_generator.
Proof.
  split; [reflexivity|]. split; [constructor|].
  intros i j x y _ Hx. discriminate Hx.
Qed.

(** What [generate] does, whatever the program. *)
Lemma generate_thorough (program : AST.Program) :
  match generate program with
  | Done bytecode _ =>
      Forall (instruction_ok (length (program_constants bytecode)))
             (program_instructions bytecode) /\
      pool_distinct (program_constants bytecode)
  | Thrown message => undefined_name message
  end.
Proof.
  unfold generate, generate_from, visitProgram.
  assert (H : wpe (bind (forEach accept (AST.statements program))
                     (fun _ => emit HALT None))
                  (fun _ g => well_formed g) new_generator).
  { pose proof (thorough_forEach accept (AST.statements program)
                  (proj2 (Forall_forall _ _) (fun n _ => accept_thorough n)))
      as Hvisit.
    pose proof new_generator_well_formed.
    repeat wpe_step. assumption. }
  unfold wpe, bind in *.
  destruct (forEach accept (AST.statements program) new_generator)
    as [[] g|message]; [|exact H].
  cbn in *. destruct H as (_ & Hi & Hp). split; assumption.
Qed.

(** In the bytecode of every program that compiles, each instruction has
    an operand exactly when its opcode takes one, each [LOAD_CONST] holds
    the index of a constant of the pool, and each instruction is on
    line [1]. *)
Theorem compiled_instructions_are_well_formed :
  forall (program : AST.Program) (bytecode : Program),
    compiled program = Some bytecode ->
    Forall (instruction_ok (length (program_constants bytecode)))
           (program_instructions bytecode).
Proof.
  intros program bytecode. unfold compiled.
  pose proof (generate_thorough program) as H.
  destruct (generate program); [|discriminate].
  intros [= <-]. exact (proj1 H).
Qed.

Lemma compiled_instructions_witness :
  compiled countdown = Some countdown_bytecode /\
  Forall (instruction_ok (length (program_constants countdown_bytecode)))
         (program_instructions countdown_bytecode).
Proof.
  split; [vm_compute; reflexivity|].
  apply (compiled_instructions_are_well_formed countdown countdown_bytecode).
  vm_compute. reflexivity.
Defined.

(** The pool of a compiled program holds no two constants that [===]
    takes for equal: a literal met again gets the index it got before. *)
Theorem compiled_pool_has_no_duplicates :
  forall (program : AST.Program) (bytecode : Program),
    compiled program = Some bytecode ->
    pool_distinct (program_constants bytecode).
Proof.
  intros program bytecode. unfold compiled.
  pose proof (generate_thorough program) as H.
  destruct (generate program); [|discriminate].
  intros [= <-]. exact (proj2 H).
Qed.

Lemma compiled_pool_witness :
  compiled countdown = Some countdown_bytecode /\
  pool_distinct (program_constants countdown_bytecode).
Proof.
  split; [vm_compute; reflexivity|].
  apply (compiled_pool_has_no_duplicates countdown countdown_bytecode).
  vm_compute. reflexivity.
Defined.

(** Declaring again a name that is already a variable takes the next free
    index without using it up, so the variable declared next gets the same
    index: two names, one slot. *)
Theorem redeclaration_shares_its_slot :
  forall (g : BytecodeGenerator) (x y : string),
    is_Some (variables g !! x) ->
    variables g !! y = None ->
    exists g1 g2,
      bindVariable x g = Done (size (variables g)) g1 /\
      bindVariable y g1 = Done (size (variables g)) g2 /\
      variables g2 !! x = Some (size (variables g)) /\
      variables g2 !! y = Some (size (variables g)).
Proof.
  intros g x y Hx Hy. unfold bindVariable. eexists _, _.
  split; [reflexivity|]. cbn [variables].
  assert (Hne : x <> y) by (intros ->; rewrite Hy in Hx; destruct Hx; discriminate).
  destruct Hx as [v Hx].
  rewrite map_size_insert_Some by eauto.
  split; [reflexivity|]. cbn [variables].
  rewrite lookup_insert_ne, lookup_insert_eq, lookup_insert_eq by congruence.
  split; reflexivity.
Qed.

Lemma redeclaration_witness :
  is_Some (variables (state_after (bindVariable "x" new_generator)) !! "x") /\
  variables (state_after (bindVariable "x" new_generator)) !! "y" = None /\
  exists g1 g2,
    bindVariable "x" (state_after (bindVariable "x" new_generator))
    = Done (size (variables (state_after (bindVariable "x" new_generator)))) g1 /\
    bindVariable "y" g1
    = Done (size (variables (state_after (bindVariable "x" new_generator)))) g2 /\
    variables g2 !! "x"
    = Some (size (variables (state_after (bindVariable "x" new_generator)))) /\
    variables g2 !! "y"
    = Some (size (variables (state_after (bindVariable "x" new_generator)))).
Proof.
  assert (H1 : is_Some (variables (state_after (bindVariable "x" new_generator))
                        !! "x"))
    by (exists 0%nat; vm_compute; reflexivity).
  assert (H2 : variables (state_after (bindVariable "x" new_generator)) !! "y"
               = None)
    by (vm_compute; reflexivity).
  split; [exact H1|]. split; [exact H2|].
  exact (redeclaration_shares_its_slot
           (state_after (bindVariable "x" new_generator)) "x" "y" H1 H2).
Defined.

End WellFormed.

(** ** What the lexer returns *)

Section LexerShape.
Import Language Lexer.

Lemma append_cons c (v r : string) : String c v +:+ r = String c (v +:+ r).
Proof. reflexivity. Qed.

Lemma append_empty (r : string) : EmptyString +:+ r = r.
Proof. reflexivity. Qed.

Lemma letter_facts c :
  is_letter c = true ->
  is_digit c = false /\ is_blank c = false /\ is_quote c = false /\
  Ascii.eqb c newline = false /\ is_identifier_char c = true.
Proof.
  destruct c as [[] [] [] [] [] [] [] []]; intros H; vm_compute in H;
    try discriminate H; vm_compute; repeat split.
Qed.

Lemma digit_facts c :
  is_digit c = true ->
  is_letter c = false /\ is_blank c = false /\ is_quote c = false /\
  Ascii.eqb c newline = false /\ is_identifier_char c = true /\
  is_number_char c = true.
Proof.
  destruct c as [[] [] [] [] [] [] [] []]; intros H; vm_compute in H;
    try discriminate H; vm_compute; repeat split.
Qed.

Lemma number_char_facts c :
  is_number_char c = true ->
  is_blank c = false /\ Ascii.eqb c newline = false.
Proof.
  destruct c as [[] [] [] [] [] [] [] []]; intros H; vm_compute in H;
    try discriminate H; vm_compute; repeat split.
Qed.

Lemma identifier_char_facts c :
  is_identifier_char c = true ->
  is_blank c = false /\ Ascii.eqb c newline = false.
Proof.
  destruct c as [[] [] [] [] [] [] [] []]; intros H; vm_compute in H;
    try discriminate H; vm_compute; repeat split.
Qed.

(** What [advance_while] returns: the longest prefix in the class, and
    the state at the first character that is not in it. *)
Lemma advance_while_spec (class : ascii -> bool) (s : string) :
  forall ln col,
    s = fst (advance_while class s ln col) +:+
        rest (snd (advance_while class s ln col)) /\
    every class (fst (advance_while class s ln col)) = true /\
    match rest (snd (advance_while class s ln col)) with
    | String c _ => class c = false
    | EmptyString => True
    end.
Proof.
  induction s as [|c s IH]; intros ln col; cbn [advance_while].
  - repeat split.
  - destruct (class c) eqn:Hc.
    + match goal with
      | |- context [advance_while class s ?l ?k] =>
          specialize (IH l k); destruct (advance_while class s l k) as [v st']
      end.
      cbn [fst snd] in *. destruct IH as (Hs & Hv & Hr).
      rewrite append_cons, <- Hs. cbn [every]. rewrite Hc, Hv.
      repeat split. exact Hr.
    + cbn [fst snd rest every]. rewrite append_empty. repeat split. exact Hc.
Qed.

Lemma advance_while_all (class : ascii -> bool) (s : string) ln col :
  (forall c, class c = true -> Ascii.eqb c newline = false) ->
  every class s = true ->
  advance_while class s ln col
  = (s, {| rest := EmptyString; cur_line := ln;
           cur_column := (col + String.length s)%nat |}).
Proof.
  intros Hclass. revert ln col.
  induction s as [|c s IH]; intros ln col Hall; cbn [advance_while].
  - cbn. rewrite Nat.add_0_r. reflexivity.
  - cbn [every] in Hall. apply andb_true_iff in Hall as [Hc Hs].
    rewrite Hc. unfold advance. cbn [rest snd]. rewrite (Hclass c Hc).
    cbn [cur_line cur_column]. rewrite (IH ln (S col) Hs).
    cbn [String.length]. rewrite Nat.add_succ_r. reflexivity.
Qed.

Lemma advance_while_head (class : ascii -> bool) c r ln col :
  class c = true ->
  exists v, fst (advance_while class (String c r) ln col) = String c v.
Proof.
  intros H. cbn [advance_while]. rewrite H.
  destruct (advance_while class r _ _) as [v st']. exists v. reflexivity.
Qed.

Lemma advance_while_none (class : ascii -> bool) c r ln col :
  class c = false ->
  advance_while class (String c r) ln col
  = (EmptyString, {| rest := String c r; cur_line := ln; cur_column := col |}).
Proof. intros H. cbn [advance_while]. rewrite H. reflexivity. Qed.

Lemma every_weaken (p q : ascii -> bool) s :
  (forall c, p c = true -> q c = true) -> every p s = true -> every q s = true.
Proof.
  intros Hpq. induction s as [|c s IH]; cbn [every]; [trivial|].
  intros H. apply andb_true_iff in H as [Hc Hs].
  rewrite (Hpq c Hc), (IH Hs). reflexivity.
Qed.

Lemma twoCharOperator_text a b t :
  twoCharOperator a b = Some t ->
  fixed_text t = Some (String a (String b EmptyString)).
Proof.
  unfold twoCharOperator.
  repeat match goal with
  | |- context [Ascii.eqb ?x ?y] =>
      is_var x; destruct (Ascii.eqb_spec x y); [subst; cbn|cbn [andb]]
  end; intros H; inversion H; reflexivity.
Qed.

Lemma singleCharToken_text c t :
  singleCharToken c = Some t -> fixed_text t = Some (String c EmptyString).
Proof.
  unfold singleCharToken.
  repeat match goal with
  | |- context [Ascii.eqb ?x ?y] =>
      is_var x; destruct (Ascii.eqb_spec x y); [subst; cbn|cbn [andb]]
  end; intros H; inversion H; reflexivity.
Qed.

Lemma getKeywordTokenType_word entries value :
  fixed_text (getKeywordTokenType entries value) = None /\
  getKeywordTokenType entries value <> NUMBER /\
  getKeywordTokenType entries value <> STRING /\
  getKeywordTokenType entries value <> UNKNOWN.
Proof.
  induction entries as [|[k t] more IH]; cbn [getKeywordTokenType].
  - repeat split; discriminate.
  - destruct (String.eqb value t); [|exact IH].
    unfold keywordTokenType.
    repeat (destruct (String.eqb k _); [repeat split; discriminate|]).
    exact IH.
Qed.

(** The token of one turn of the loop agrees with its type. *)
Lemma scanToken_lexeme language c st :
  peek 0 st = Some c ->
  is_blank c = false ->
  lexeme_ok language (fst (scanToken language c st)) = true.
Proof.
  unfold peek. intros Hpeek Hblank.
  destruct (rest st) as [|c' r] eqn:Hrest; [discriminate|].
  cbn in Hpeek. injection Hpeek as ->.
  unfold scanToken.
  destruct (is_digit c) eqn:Hdigit.
  { unfold readNumber. rewrite Hrest.
    destruct (digit_facts c Hdigit) as (_ & _ & _ & _ & _ & Hnum).
    destruct (advance_while_head is_number_char c r (cur_line st) (cur_column st) Hnum)
      as [v Hv].
    pose proof (advance_while_spec is_number_char (String c r)
                  (cur_line st) (cur_column st)) as (_ & Hall & _).
    rewrite Hv in Hall.
    destruct (advance_while is_number_char (String c r) (cur_line st) (cur_column st))
      as [w st'].
    cbn [fst] in Hv. subst w. cbn [every] in Hall.
    apply andb_true_iff in Hall as [_ Hall].
    unfold lexeme_ok. cbn [fst type value is_numeral].
    rewrite Hdigit, Hall. reflexivity. }
  destruct (Ascii.eqb c double_quote || Ascii.eqb c "'") eqn:Hquote.
  { unfold readString, advance. rewrite Hrest.
    destruct (Ascii.eqb c newline); cbn [rest cur_line cur_column];
      destruct (readString_loop c r _ _) as [v st']; reflexivity. }
  destruct (is_letter c) eqn:Hletter.
  { unfold readIdentifier. rewrite Hrest.
    destruct (letter_facts c Hletter) as (_ & _ & _ & _ & Hid).
    destruct (advance_while_head is_identifier_char c r (cur_line st) (cur_column st) Hid)
      as [v Hv].
    pose proof (advance_while_spec is_identifier_char (String c r)
                  (cur_line st) (cur_column st)) as (_ & Hall & _).
    rewrite Hv in Hall.
    destruct (advance_while is_identifier_char (String c r) (cur_line st) (cur_column st))
      as [w st'].
    cbn [fst] in Hv. subst w. cbn [every] in Hall.
    apply andb_true_iff in Hall as [_ Hall].
    unfold lexeme_ok. cbn [fst type value].
    destruct (getKeywordTokenType_word (keywords language) (String c v))
      as (Hfixed & Hn & Hs & Hu).
    destruct (getKeywordTokenType (keywords language) (String c v)) eqn:Hk;
      try discriminate Hfixed; try congruence;
      cbn [fixed_text is_word]; rewrite Hletter, Hall; reflexivity. }
  apply orb_false_iff in Hquote as [Hq1 Hq2].
  assert (Hone : forall ln col,
            lexeme_ok language
              {| type := match singleCharToken c with
                         | Some t => t
                         | None => UNKNOWN
                         end;
                 value := String c EmptyString; line := ln; column := col |}
            = true).
  { intros ln col. unfold lexeme_ok. cbn [type value].
    destruct (singleCharToken c) as [t|] eqn:Hsingle.
    - pose proof (singleCharToken_text c t Hsingle) as Htext.
      destruct t; cbn [fixed_text] in Htext; try discriminate Htext;
        injection Htext as <-; reflexivity.
    - cbn [type value]. rewrite ?Hsingle, Hdigit, Hletter, Hq1, Hq2, Hblank. reflexivity. }
  unfold peek. rewrite Hrest.
  destruct r as [|d r']; cbn [String.get]; [apply Hone|].
  destruct (twoCharOperator c d) as [t|] eqn:Htwo; [|apply Hone].
  pose proof (twoCharOperator_text c d t Htwo) as Htext.
  unfold lexeme_ok. cbn [fst type value].
  destruct t; cbn [fixed_text] in Htext; try discriminate Htext;
    injection Htext as <- <-; reflexivity.
Qed.

Lemma skipWhitespace_stops (st : State) :
  match peek 0 (skipWhitespace st) with
  | Some c => is_blank c = false
  | None => True
  end.
Proof.
  unfold skipWhitespace, peek.
  pose proof (advance_while_spec is_blank (rest st) (cur_line st) (cur_column st))
    as (_ & _ & H).
  destruct (rest (snd (advance_while is_blank (rest st) (cur_line st) (cur_column st))));
    cbn; [trivial|exact H].
Qed.

Lemma tokenize_loop_lexemes language (fuel : nat) :
  forall st,
    (String.length (rest st) <= fuel)%nat ->
    exists tokens,
      tokenize_loop fuel language st = Some tokens /\
      Forall (fun t => lexeme_ok language t = true) tokens.
Proof.
  induction fuel as [|fuel IH]; intros st Hfuel;
    pose proof (skipWhitespace_rest_le st) as Hskip;
    pose proof (skipWhitespace_stops st) as Hstop;
    cbn [tokenize_loop];
    destruct (peek 0 (skipWhitespace st)) as [c|] eqn:Hpeek.
  - unfold peek in Hpeek.
    destruct (rest (skipWhitespace st)); [discriminate|cbn in Hskip; lia].
  - eexists. split; [reflexivity|]. repeat constructor.
  - pose proof (scanToken_consumes language c _ Hpeek) as [Hlt _].
    pose proof (scanToken_lexeme language c _ Hpeek Hstop) as Hok.
    destruct (scanToken language c (skipWhitespace st)) as [tok st'].
    cbn [fst snd] in *.
    destruct (IH st') as (tokens & -> & Hall); [lia|].
    exists (tok :: tokens). split; [reflexivity|].
    constructor; assumption.
  - eexists. split; [reflexivity|]. repeat constructor.
Qed.

(** For every table and every source, each token [tokenize] returns has
    a value that agrees with its type: a [NUMBER] is a digit followed by
    digits and dots, an identifier or a keyword is a word, classified by
    the table, an operator or a delimiter has its one spelling, [EOF] is
    empty and an [UNKNOWN] is one character that starts nothing else. *)
Theorem tokens_agree_with_their_type language source :
  exists tokens,
    tokenize language source = Some tokens /\
    Forall (fun t => lexeme_ok language t = true) tokens.
Proof. apply tokenize_loop_lexemes. cbn. lia. Qed.

(** *** The text of the tokens *)

Lemma without_blanks_app (v r : string) :
  without_blanks (v +:+ r) = without_blanks v +:+ without_blanks r.
Proof.
  induction v as [|c v IH]; [reflexivity|].
  rewrite append_cons. cbn [without_blanks].
  destruct (is_blank c); [exact IH|]. rewrite append_cons, IH. reflexivity.
Qed.

Lemma without_blanks_blank v :
  every is_blank v = true -> without_blanks v = EmptyString.
Proof.
  induction v as [|c v IH]; cbn [every without_blanks]; [trivial|].
  intros H. apply andb_true_iff in H as [-> Hv]. auto.
Qed.

Lemma without_blanks_visible v :
  every (fun c => negb (is_blank c)) v = true -> without_blanks v = v.
Proof.
  induction v as [|c v IH]; cbn [every without_blanks]; [trivial|].
  intros H. apply andb_true_iff in H as [Hc Hv].
  apply negb_true_iff in Hc. rewrite Hc, (IH Hv). reflexivity.
Qed.

Lemma every_app p (v r : string) :
  every p (v +:+ r) = every p v && every p r.
Proof.
  induction v as [|c v IH]; [reflexivity|].
  rewrite append_cons. cbn [every]. rewrite IH, andb_assoc. reflexivity.
Qed.

(** One turn of the loop on a character that is no quote: the value of
    the token is what was consumed, and it holds no blank. *)
Lemma scanToken_text language c st :
  peek 0 st = Some c ->
  is_blank c = false ->
  is_quote c = false ->
  rest st = value (fst (scanToken language c st)) +:+
            rest (snd (scanToken language c st)) /\
  without_blanks (value (fst (scanToken language c st)))
  = value (fst (scanToken language c st)).
Proof.
  unfold peek. intros Hpeek Hblank Hquote.
  destruct (rest st) as [|c' r] eqn:Hrest; [discriminate|].
  cbn in Hpeek. injection Hpeek as ->.
  unfold scanToken.
  destruct (is_digit c) eqn:Hdigit.
  { unfold readNumber. rewrite Hrest.
    pose proof (advance_while_spec is_number_char (String c r)
                  (cur_line st) (cur_column st)) as (Hs & Hall & _).
    destruct (advance_while is_number_char (String c r) (cur_line st) (cur_column st))
      as [v st'].
    cbn [fst snd value] in *. split; [exact Hs|].
    apply without_blanks_visible. revert Hall. apply every_weaken.
    intros x Hx. destruct (number_char_facts x Hx) as [-> _]. reflexivity. }
  unfold is_quote in Hquote. rewrite Hquote.
  destruct (is_letter c) eqn:Hletter.
  { unfold readIdentifier. rewrite Hrest.
    pose proof (advance_while_spec is_identifier_char (String c r)
                  (cur_line st) (cur_column st)) as (Hs & Hall & _).
    destruct (advance_while is_identifier_char (String c r) (cur_line st) (cur_column st))
      as [v st'].
    cbn [fst snd value] in *. split; [exact Hs|].
    apply without_blanks_visible. revert Hall. apply every_weaken.
    intros x Hx. destruct (identifier_char_facts x Hx) as [-> _]. reflexivity. }
  unfold peek. rewrite Hrest.
  assert (Hone : without_blanks (String c EmptyString) = String c EmptyString)
    by (cbn [without_blanks]; rewrite Hblank; reflexivity).
  destruct r as [|d r']; cbn [String.get].
  - cbn [fst snd value]. rewrite advance_rest, Hrest. split; [reflexivity|exact Hone].
  - destruct (twoCharOperator c d) as [t|] eqn:Htwo.
    + cbn [fst snd value]. rewrite !advance_rest, Hrest. split; [reflexivity|].
      revert Htwo. unfold twoCharOperator.
      repeat match goal with
      | |- context [Ascii.eqb ?x ?y] =>
          is_var x; destruct (Ascii.eqb_spec x y); [subst; cbn|cbn [andb]]
      end; intros H; inversion H; reflexivity.
    + cbn [fst snd value]. rewrite advance_rest, Hrest. split; [reflexivity|exact Hone].
Qed.

Lemma tokenize_loop_text language (fuel : nat) :
  forall st,
    (String.length (rest st) <= fuel)%nat ->
    every (fun c => negb (is_quote c)) (rest st) = true ->
    exists tokens,
      tokenize_loop fuel language st = Some tokens /\
      text_of tokens = without_blanks (rest st).
Proof.
  induction fuel as [|fuel IH]; intros st Hfuel Hquotes;
    pose proof (skipWhitespace_rest_le st) as Hskip;
    pose proof (skipWhitespace_stops st) as Hstop;
    pose proof (advance_while_spec is_blank (rest st) (cur_line st) (cur_column st))
      as (Hsplit & Hblanks & _);
    fold (skipWhitespace st) in Hsplit;
    rewrite Hsplit, every_app in Hquotes;
    apply andb_true_iff in Hquotes as [_ Hquotes];
    assert (Hw : without_blanks (rest st)
                 = without_blanks (rest (skipWhitespace st)))
      by (rewrite Hsplit at 1;
          rewrite without_blanks_app, (without_blanks_blank _ Hblanks);
          reflexivity);
    rewrite Hw;
    cbn [tokenize_loop];
    destruct (peek 0 (skipWhitespace st)) as [c|] eqn:Hpeek.
  - unfold peek in Hpeek.
    destruct (rest (skipWhitespace st)); [discriminate|cbn in Hskip; lia].
  - eexists. split; [reflexivity|]. unfold peek in Hpeek.
    destruct (rest (skipWhitespace st)); [reflexivity|discriminate].
  - assert (Hq : is_quote c = false).
    { unfold peek in Hpeek. destruct (rest (skipWhitespace st)); [discriminate|].
      cbn in Hpeek. injection Hpeek as ->. cbn [every] in Hquotes.
      apply andb_true_iff in Hquotes as [Hc _]. apply negb_true_iff in Hc. exact Hc. }
    pose proof (scanToken_consumes language c _ Hpeek) as [Hlt _].
    pose proof (scanToken_text language c _ Hpeek Hstop Hq) as [Htext Hvisible].
    destruct (scanToken language c (skipWhitespace st)) as [tok st'].
    cbn [fst snd] in *.
    rewrite Htext, every_app in Hquotes.
    apply andb_true_iff in Hquotes as [_ Hquotes].
    destruct (IH st') as (tokens & -> & Hall); [lia|exact Hquotes|].
    exists (tok :: tokens). split; [reflexivity|].
    cbn [text_of fold_right]. fold (text_of tokens).
    rewrite Hall, Htext, without_blanks_app, Hvisible. reflexivity.
  - eexists. split; [reflexivity|]. unfold peek in Hpeek.
    destruct (rest (skipWhitespace st)); [reflexivity|discriminate].
Qed.

(** Nothing but blanks is lost: when the source holds no quote, the
    values of its tokens, put one after the other, are the source without
    its spaces, tabs and carriage returns. *)
Theorem tokens_spell_the_source language source :
  every (fun c => negb (is_quote c)) source = true ->
  exists tokens,
    tokenize language source = Some tokens /\
    text_of tokens = without_blanks source.
Proof. intros H. apply tokenize_loop_text; [cbn; lia|exact H]. Qed.

Lemma tokens_spell_the_source_witness :
  every (fun c => negb (is_quote c)) "var x = 1.5 ;" = true /\
  exists tokens,
    tokenize english "var x = 1.5 ;" = Some tokens /\
    text_of tokens = without_blanks "var x = 1.5 ;".
Proof.
  split; [reflexivity|].
  apply (tokens_spell_the_source english "var x = 1.5 ;"). reflexivity.
Defined.

(** *** String literals *)

Lemma quote_facts c :
  is_quote c = true ->
  is_digit c = false /\ is_blank c = false /\ Ascii.eqb c newline = false.
Proof.
  destruct c as [[] [] [] [] [] [] [] []]; intros H; vm_compute in H;
    try discriminate H; vm_compute; repeat split.
Qed.

(** The loop of [readString] on plain characters: it stops at the end of
    the source as it does at the closing quote. *)
Lemma readString_loop_plain quote (s : string) :
  Ascii.eqb quote newline = false ->
  every (plain quote) s = true ->
  forall ln col,
    (exists st,
       readString_loop quote s ln col = (s, st) /\
       rest st = EmptyString /\ cur_line st = (ln + newlines s)%nat) /\
    (exists st,
       readString_loop quote (s +:+ String quote EmptyString) ln col = (s, st) /\
       rest st = EmptyString /\ cur_line st = (ln + newlines s)%nat).
Proof.
  intros Hquote. induction s as [|c s IH]; intros Hplain ln col.
  - split.
    + eexists. split; [reflexivity|]. cbn. split; [reflexivity|lia].
    + rewrite append_empty. cbn [readString_loop]. rewrite Ascii.eqb_refl.
      eexists. split; [reflexivity|]. unfold advance. cbn [rest snd].
      rewrite Hquote. cbn. split; [reflexivity|lia].
  - cbn [every] in Hplain. apply andb_true_iff in Hplain as [Hc Hs].
    unfold plain in Hc. apply andb_true_iff in Hc as [Hc1 Hc2].
    apply negb_true_iff in Hc1. apply negb_true_iff in Hc2.
    rewrite append_cons. cbn [readString_loop newlines]. rewrite Hc1, Hc2.
    unfold advance. cbn [rest snd].
    destruct (Ascii.eqb c newline); cbn [cur_line cur_column].
    + destruct (IH Hs (S ln) 1%nat) as [(st1 & -> & Hr1 & Hl1) (st2 & -> & Hr2 & Hl2)].
      split; eexists; (split; [reflexivity|]); (split; [assumption|lia]).
    + destruct (IH Hs ln (S col)) as [(st1 & -> & Hr1 & Hl1) (st2 & -> & Hr2 & Hl2)].
      split; eexists; (split; [reflexivity|]); (split; [assumption|lia]).
Qed.

Lemma tokenize_loop_at_end language fuel st :
  rest st = EmptyString ->
  tokenize_loop fuel language st
  = Some [{| type := EOF; value := EmptyString; line := cur_line st;
             column := cur_column st |}].
Proof.
  intros Hrest. destruct st as [r ln col]. cbn in Hrest. subst r.
  destruct fuel; reflexivity.
Qed.

Lemma tokenize_string language quote (s text : string) :
  is_quote quote = true ->
  (forall ln col, exists st,
     readString_loop quote s ln col = (text, st) /\
     rest st = EmptyString /\ cur_line st = (ln + newlines text)%nat) ->
  exists eof,
    type eof = EOF /\
    tokenize language (String quote s) = Some [string_token text; eof].
Proof.
  intros Hq Hloop.
  destruct (quote_facts quote Hq) as (Hdigit & Hblank & Hnewline).
  unfold tokenize. cbn [String.length tokenize_loop].
  unfold skipWhitespace at 1 2. unfold start at 1 2 3 4 5 6.
  cbn [rest cur_line cur_column].
  rewrite (advance_while_none is_blank quote s 1 1 Hblank). cbn [snd].
  unfold peek at 1. cbn [rest String.get].
  unfold scanToken. rewrite Hdigit. unfold is_quote in Hq. rewrite Hq.
  unfold readString, advance. cbn [rest]. rewrite Hnewline.
  cbn [rest cur_line cur_column].
  destruct (Hloop 1%nat 2%nat) as (st & -> & Hrest & Hline).
  rewrite (tokenize_loop_at_end language _ st Hrest).
  eexists. split; [|unfold string_token; rewrite Hline; reflexivity].
  reflexivity.
Qed.

(** A string literal without escapes that starts a source is read as
    one [STRING] token holding its text, on the line of its last
    character; and it is read the same when its closing quote is
    missing: the lexer reports no unterminated string. *)
Theorem string_literal_needs_no_closing_quote language quote text :
  is_quote quote = true ->
  every (plain quote) text = true ->
  exists eof eof',
    type eof = EOF /\ type eof' = EOF /\
    tokenize language (String quote text +:+ String quote EmptyString)
    = Some [string_token text; eof] /\
    tokenize language (String quote text) = Some [string_token text; eof'].
Proof.
  intros Hq Hplain.
  destruct (quote_facts quote Hq) as (_ & _ & Hnewline).
  destruct (tokenize_string language quote
              (text +:+ String quote EmptyString) text Hq)
    as (eof & Heof & Hclosed).
  { intros ln col.
    exact (proj2 (readString_loop_plain quote text Hnewline Hplain ln col)). }
  destruct (tokenize_string language quote text text Hq)
    as (eof' & Heof' & Hopen).
  { intros ln col.
    exact (proj1 (readString_loop_plain quote text Hnewline Hplain ln col)). }
  exists eof, eof'. rewrite append_cons. auto.
Qed.

Lemma string_literal_needs_no_closing_quote_witness :
  is_quote double_quote = true /\
  every (plain double_quote) "hi there" = true /\
  exists eof eof',
    type eof = EOF /\ type eof' = EOF /\
    tokenize english (String double_quote "hi there" +:+
                      String double_quote EmptyString)
    = Some [string_token "hi there"; eof] /\
    tokenize english (String double_quote "hi there")
    = Some [string_token "hi there"; eof'].
Proof.
  split; [reflexivity|]. split; [reflexivity|].
  apply (string_literal_needs_no_closing_quote english double_quote "hi there");
    reflexivity.
Defined.

(** *** Line numbers *)

Lemma advance_lines (st : State) :
  (cur_line (snd (advance st)) + newlines (rest (snd (advance st)))
   = cur_line st + newlines (rest st))%nat /\
  (cur_line st <= cur_line (snd (advance st)))%nat.
Proof.
  unfold advance. destruct (rest st) as [|c r] eqn:Hrest; cbn [snd].
  - rewrite Hrest. split; lia.
  - cbn [newlines]. destruct (Ascii.eqb c newline); cbn; split; lia.
Qed.

Lemma advance_while_lines (class : ascii -> bool) (s : string) :
  forall ln col,
    (cur_line (snd (advance_while class s ln col)) +
     newlines (rest (snd (advance_while class s ln col)))
     = ln + newlines s)%nat /\
    (ln <= cur_line (snd (advance_while class s ln col)))%nat.
Proof.
  induction s as [|c s IH]; intros ln col; cbn [advance_while].
  - cbn. split; lia.
  - destruct (class c).
    + unfold advance. cbn [rest snd newlines].
      destruct (Ascii.eqb c newline); cbn [cur_line cur_column];
        match goal with
        | |- context [advance_while class s ?l ?k] =>
            specialize (IH l k); destruct (advance_while class s l k)
        end; cbn [snd] in *; lia.
    + cbn. split; lia.
Qed.

Lemma readString_loop_lines (quote : ascii) (n : nat) :
  forall s ln col,
    (String.length s <= n)%nat ->
    (cur_line (snd (readString_loop quote s ln col)) +
     newlines (rest (snd (readString_loop quote s ln col)))
     = ln + newlines s)%nat /\
    (ln <= cur_line (snd (readString_loop quote s ln col)))%nat.
Proof.
  induction n as [|n IH]; intros s ln col Hn.
  - destruct s; [cbn; lia|cbn in Hn; lia].
  - destruct s as [|c r]; [cbn; lia|].
    cbn [readString_loop]. cbn in Hn.
    pose proof (advance_lines {| rest := String c r; cur_line := ln;
                                 cur_column := col |}) as Hfirst.
    pose proof (advance_rest {| rest := String c r; cur_line := ln;
                                cur_column := col |}) as Hrest.
    cbn [rest cur_line] in Hfirst, Hrest.
    destruct (Ascii.eqb c quote); [cbn [snd]; exact Hfirst|].
    destruct (Ascii.eqb c backslash).
    + destruct r as [|e r']; [cbn [snd]; exact Hfirst|].
      match goal with
      | |- context [readString_loop quote r' (cur_line ?st2) (cur_column ?st2)] =>
          pose proof (IH r' (cur_line st2) (cur_column st2) ltac:(cbn in Hn; lia))
            as Hmore;
          destruct (readString_loop quote r' (cur_line st2) (cur_column st2))
      end.
      cbn [snd] in Hmore |- *.
      match type of Hmore with
      | context [cur_line (snd (advance ?st1))] =>
          pose proof (advance_lines st1) as Hsecond;
          pose proof (advance_rest st1) as Hrest2
      end.
      rewrite Hrest in Hrest2. cbn beta iota in Hrest2.
      rewrite Hrest2, Hrest in Hsecond. rewrite Hrest in Hfirst.
      cbn [newlines] in *. lia.
    + match goal with
      | |- context [readString_loop quote r (cur_line ?st1) (cur_column ?st1)] =>
          pose proof (IH r (cur_line st1) (cur_column st1) ltac:(lia)) as Hmore;
          destruct (readString_loop quote r (cur_line st1) (cur_column st1))
      end.
      cbn [snd] in Hmore |- *. rewrite Hrest in Hfirst. cbn [newlines] in *. lia.
Qed.

(** One turn of the loop keeps the number of lines read and to read, and
    puts the token on a line between the one it starts on and the one it
    ends on. *)
Lemma scanToken_lines language c st :
  peek 0 st = Some c ->
  (cur_line (snd (scanToken language c st)) +
   newlines (rest (snd (scanToken language c st)))
   = cur_line st + newlines (rest st))%nat /\
  (cur_line st <= line (fst (scanToken language c st))
   <= cur_line (snd (scanToken language c st)))%nat.
Proof.
  intros Hpeek. unfold scanToken.
  destruct (is_digit c).
  { unfold readNumber.
    pose proof (advance_while_lines is_number_char (rest st) (cur_line st)
                  (cur_column st)) as H.
    destruct (advance_while is_number_char (rest st) (cur_line st) (cur_column st)).
    cbn [fst snd line] in *. lia. }
  destruct (Ascii.eqb c double_quote || Ascii.eqb c "'").
  { unfold readString.
    pose proof (advance_lines st) as Hfirst.
    destruct (advance st) as [[quote|] st0]; cbn [snd] in Hfirst.
    - pose proof (readString_loop_lines quote (String.length (rest st0))
                    (rest st0) (cur_line st0) (cur_column st0) ltac:(lia)) as H.
      destruct (readString_loop quote (rest st0) (cur_line st0) (cur_column st0)).
      cbn [fst snd line] in *. lia.
    - cbn [fst snd line]. lia. }
  destruct (is_letter c).
  { unfold readIdentifier.
    pose proof (advance_while_lines is_identifier_char (rest st) (cur_line st)
                  (cur_column st)) as H.
    destruct (advance_while is_identifier_char (rest st) (cur_line st)
                (cur_column st)).
    cbn [fst snd line] in *. lia. }
  pose proof (advance_lines st) as Hfirst.
  pose proof (advance_lines (snd (advance st))) as Hsecond.
  destruct (peek 1 st) as [d|]; [destruct (twoCharOperator c d)|];
    cbn [fst snd line]; lia.
Qed.

Lemma skipWhitespace_lines (st : State) :
  (cur_line (skipWhitespace st) + newlines (rest (skipWhitespace st))
   = cur_line st + newlines (rest st))%nat /\
  (cur_line st <= cur_line (skipWhitespace st))%nat.
Proof. apply advance_while_lines. Qed.

Lemma tokenize_loop_lines language (fuel : nat) :
  forall st,
    (String.length (rest st) <= fuel)%nat ->
    (1 <= cur_line st)%nat ->
    exists tokens eof,
      tokenize_loop fuel language st = Some (tokens ++ [eof])%list /\
      type eof = EOF /\
      line eof = (cur_line st + newlines (rest st))%nat /\
      Forall (on_a_line (cur_line st + newlines (rest st))) (tokens ++ [eof]).
Proof.
  induction fuel as [|fuel IH]; intros st Hfuel Hline;
    pose proof (skipWhitespace_rest_le st) as Hskip;
    pose proof (skipWhitespace_lines st) as [Htotal Hle];
    cbn [tokenize_loop];
    destruct (peek 0 (skipWhitespace st)) as [c|] eqn:Hpeek.
  - unfold peek in Hpeek.
    destruct (rest (skipWhitespace st)); [discriminate|cbn in Hskip; lia].
  - unfold peek in Hpeek.
    destruct (rest (skipWhitespace st)) eqn:Hrest; [|discriminate].
    cbn [newlines] in Htotal.
    eexists [], _. split; [reflexivity|]. cbn [line type].
    split; [reflexivity|]. split; [lia|].
    apply Forall_singleton. unfold on_a_line. cbn [line]. lia.
  - pose proof (scanToken_consumes language c _ Hpeek) as [Hlt _].
    pose proof (scanToken_lines language c _ Hpeek) as [Hkeep Htok].
    destruct (scanToken language c (skipWhitespace st)) as [tok st'].
    cbn [fst snd] in *.
    destruct (IH st') as (tokens & eof & -> & Heof & Hlast & Hall); [lia|lia|].
    exists (tok :: tokens), eof. split; [reflexivity|].
    split; [exact Heof|]. split; [lia|].
    rewrite <- app_comm_cons. constructor.
    + unfold on_a_line. lia.
    + rewrite Hkeep, Htotal in Hall. exact Hall.
  - unfold peek in Hpeek.
    destruct (rest (skipWhitespace st)) eqn:Hrest; [|discriminate].
    cbn [newlines] in Htotal.
    eexists [], _. split; [reflexivity|]. cbn [line type].
    split; [reflexivity|]. split; [lia|].
    apply Forall_singleton. unfold on_a_line. cbn [line]. lia.
Qed.

(** The line of every token is a line of the source: it lies between 1
    and the number of line feeds of the source plus one, which is the
    line of [EOF]; strings and escapes that span lines are counted. *)
Theorem token_lines_are_lines_of_the_source language source :
  exists tokens eof,
    tokenize language source = Some (tokens ++ [eof])%list /\
    type eof = EOF /\
    line eof = (1 + newlines source)%nat /\
    Forall (on_a_line (1 + newlines source)) (tokens ++ [eof]).
Proof.
  apply (tokenize_loop_lines language (String.length source) (start source));
    cbn; lia.
Qed.

(** *** Keywords *)

Lemma getKeywordTokenType_absent entries value :
  ~ In value (List.map snd entries) ->
  getKeywordTokenType entries value = IDENTIFIER.
Proof.
  induction entries as [|[k t] more IH]; cbn [getKeywordTokenType List.map snd In];
    [reflexivity|].
  intros Hnot. destruct (String.eqb_spec value t) as [->|_].
  - exfalso. apply Hnot. left. reflexivity.
  - apply IH. intros Hin. apply Hnot. right. exact Hin.
Qed.

Lemma distinct_fresh (x : string) more :
  negb (existsb (String.eqb x) more) = true -> ~ In x more.
Proof.
  intros Hx Hin. apply negb_true_iff in Hx.
  assert (existsb (String.eqb x) more = true) as Hex
    by (apply existsb_exists; exists x; split; [exact Hin|apply String.eqb_refl]).
  congruence.
Qed.

Lemma getKeywordTokenType_entry entries englishKeyword spelling :
  distinct (List.map snd entries) = true ->
  In (englishKeyword, spelling) entries ->
  getKeywordTokenType entries spelling = kind_of englishKeyword.
Proof.
  induction entries as [|[k t] more IH];
    cbn [getKeywordTokenType List.map snd In distinct]; [intros _ []|].
  intros Hdistinct Hin. apply andb_true_iff in Hdistinct as [Hfresh Hdistinct].
  apply distinct_fresh in Hfresh.
  destruct Hin as [Heq|Hin].
  - injection Heq as -> ->. rewrite String.eqb_refl. unfold kind_of.
    destruct (keywordTokenType englishKeyword); [reflexivity|].
    apply getKeywordTokenType_absent. exact Hfresh.
  - destruct (String.eqb_spec spelling t) as [->|_]; [|exact (IH Hdistinct Hin)].
    exfalso. apply Hfresh. apply in_map_iff. exists (englishKeyword, t).
    split; [reflexivity|exact Hin].
Qed.

(** The tokens of a source that is one word. *)
Lemma tokenize_word language word :
  is_word word = true ->
  tokenize language word
  = Some (word_tokens (getKeywordTokenType (keywords language) word) word).
Proof.
  destruct word as [|c r]; [discriminate|]. cbn [is_word].
  intros H. apply andb_true_iff in H as [Hletter Hrest].
  destruct (letter_facts c Hletter) as (Hdigit & Hblank & Hquote & _ & Hid).
  unfold tokenize. cbn [String.length tokenize_loop].
  unfold skipWhitespace at 1 2. unfold start at 1 2 3 4 5 6. cbn [rest cur_line cur_column].
  rewrite (advance_while_none is_blank c r 1 1 Hblank). cbn [snd].
  unfold peek at 1. cbn [rest String.get].
  unfold scanToken. rewrite Hdigit. unfold is_quote in Hquote. rewrite Hquote, Hletter.
  unfold readIdentifier. cbn [rest cur_line cur_column].
  rewrite (advance_while_all is_identifier_char (String c r) 1 1).
  - assert (Hend : forall fuel col,
              tokenize_loop fuel language
                {| rest := EmptyString; cur_line := 1; cur_column := col |}
              = Some [{| type := EOF; value := EmptyString; line := 1;
                         column := col |}])
      by (intros [|fuel] col; reflexivity).
    rewrite Hend. reflexivity.
  - intros x Hx. destruct (identifier_char_facts x Hx) as [_ Hn]. exact Hn.
  - cbn [every]. rewrite Hid, Hrest. reflexivity.
Qed.

(** In a language whose spellings are words, no two alike, the source
    made of the spelling of an entry of the keyword table is one token,
    at column 1, of the type the entry's key stands for ([IDENTIFIER] for
    the keys [print] and [input]), followed by [EOF]. *)
Theorem spelling_is_read_as_its_keyword language englishKeyword spelling :
  spelled_apart language = true ->
  In (englishKeyword, spelling) (keywords language) ->
  tokenize language spelling
  = Some (word_tokens (kind_of englishKeyword) spelling).
Proof.
  intros Hapart Hin. apply andb_true_iff in Hapart as [Hdistinct Hwords].
  rewrite tokenize_word.
  - rewrite (getKeywordTokenType_entry _ englishKeyword spelling Hdistinct Hin).
    reflexivity.
  - rewrite forallb_forall in Hwords. exact (Hwords _ Hin).
Qed.

Lemma spelling_is_read_as_its_keyword_witness :
  spelled_apart hindi = true /\
  In ("while", "jab_tak") (keywords hindi) /\
  tokenize hindi "jab_tak" = Some (word_tokens (kind_of "while") "jab_tak").
Proof.
  assert (H1 : spelled_apart hindi = true) by reflexivity.
  assert (H2 : In ("while", "jab_tak") (keywords hindi)) by (cbn; tauto).
  split; [exact H1|]. split; [exact H2|].
  exact (spelling_is_read_as_its_keyword hindi "while" "jab_tak" H1 H2).
Defined.

Lemma languages_spelled_apart name language :
  In (name, language) LANGUAGES -> spelled_apart language = true.
Proof.
  intros Hin. cbn in Hin.
  repeat (destruct Hin as [Hin|Hin]; [injection Hin as _ <-; reflexivity|]).
  destruct Hin.
Qed.

(** In each of the six languages of the table, every keyword written in
    that language is read as that keyword, and the words for [print] and
    [input] are read as identifiers. *)
Theorem every_language_reads_its_keywords name language englishKeyword spelling :
  In (name, language) LANGUAGES ->
  In (englishKeyword, spelling) (keywords language) ->
  tokenize language spelling
  = Some (word_tokens (kind_of englishKeyword) spelling).
Proof.
  intros Hlang Hin.
  pose proof (languages_spelled_apart name language Hlang) as Hapart.
  apply andb_true_iff in Hapart as [Hdistinct Hwords].
  rewrite tokenize_word.
  - rewrite (getKeywordTokenType_entry _ englishKeyword spelling Hdistinct Hin).
    reflexivity.
  - rewrite forallb_forall in Hwords. exact (Hwords _ Hin).
Qed.

Lemma every_language_reads_its_keywords_witness :
  In ("tamil", tamil) LANGUAGES /\
  In ("print", "achchidu") (keywords tamil) /\
  tokenize tamil "achchidu" = Some (word_tokens IDENTIFIER "achchidu").
Proof.
  assert (H1 : In ("tamil", tamil) LANGUAGES) by (cbn; tauto).
  assert (H2 : In ("print", "achchidu") (keywords tamil)) by (cbn; tauto).
  split; [exact H1|]. split; [exact H2|].
  exact (every_language_reads_its_keywords "tamil" tamil "print" "achchidu" H1 H2).
Defined.

End LexerShape.

(** ** The parser, on every array of tokens *)

Section ParserTotal.
Import Lexer AST Parser.
Local Open Scope nat_scope.
Variable tokens : list Token.
Variable last_token : Token.
Hypothesis Hlast : last tokens = Some last_token.
Hypothesis Heof : type last_token = EOF.
Variables binary_ok unary_ok : string -> bool.
Hypothesis Hbinary : forall t,
  In t tokens -> In (type t) binary_types -> binary_ok (value t) = true.
Hypothesis Hunary : forall t,
  In t tokens -> In (type t) [NOT; MINUS] -> unary_ok (value t) = true.

Local Abbreviation n := (length tokens).
Local Abbreviation tok pos := (nth pos tokens last_token).
Local Abbreviation wp' := (wpp tokens).
Local Abbreviation peek := (Parser.peek tokens last_token).
Local Abbreviation previous := (Parser.previous tokens last_token).
Local Abbreviation isAtEnd := (Parser.isAtEnd tokens last_token).
Local Abbreviation advance := (Parser.advance tokens last_token).
Local Abbreviation check := (Parser.check tokens last_token).
Local Abbreviation match_ := (Parser.match_ tokens last_token).
Local Abbreviation consume := (Parser.consume tokens last_token).
Local Abbreviation synchronize_loop := (Parser.synchronize_loop tokens last_token).
Local Abbreviation synchronize := (Parser.synchronize tokens last_token).
Local Abbreviation binary_loop := (Parser.binary_loop tokens last_token).
Local Abbreviation binary := (Parser.binary tokens last_token).
Local Abbreviation block_loop := (Parser.block_loop tokens last_token).
Local Abbreviation comma_loop := (Parser.comma_loop tokens last_token).
Local Abbreviation finishCall := (Parser.finishCall tokens last_token).
Local Abbreviation call_loop := (Parser.call_loop tokens last_token).
Local Abbreviation varDeclaration := (Parser.varDeclaration tokens last_token).
Local Abbreviation functionDeclaration := (Parser.functionDeclaration tokens last_token).
Local Abbreviation expressionStatement := (Parser.expressionStatement tokens last_token).
Local Abbreviation ifStatement := (Parser.ifStatement tokens last_token).
Local Abbreviation whileStatement := (Parser.whileStatement tokens last_token).
Local Abbreviation forStatement := (Parser.forStatement tokens last_token).
Local Abbreviation returnStatement := (Parser.returnStatement tokens last_token).
Local Abbreviation blockStatement := (Parser.blockStatement tokens last_token).
Local Abbreviation declaration := (Parser.declaration tokens last_token).
Local Abbreviation statement := (Parser.statement tokens last_token).
Local Abbreviation expression := (Parser.expression tokens last_token).
Local Abbreviation assignment := (Parser.assignment tokens last_token).
Local Abbreviation or_ := (Parser.or_ tokens last_token).
Local Abbreviation and_ := (Parser.and_ tokens last_token).
Local Abbreviation equality := (Parser.equality tokens last_token).
Local Abbreviation comparison := (Parser.comparison tokens last_token).
Local Abbreviation term := (Parser.term tokens last_token).
Local Abbreviation factor := (Parser.factor tokens last_token).
Local Abbreviation unary := (Parser.unary tokens last_token).
Local Abbreviation call := (Parser.call tokens last_token).
Local Abbreviation primary := (Parser.primary tokens last_token).
Local Abbreviation parse_loop := (Parser.parse_loop tokens last_token).
Local Abbreviation ok := (operators_satisfy binary_ok unary_ok).

(** *** The token functions *)

Lemma tok_in pos : (pos < n)%nat -> In (tok pos) tokens.
Proof. intros H. apply nth_In. exact H. Qed.

Lemma tok_last : tok (n - 1) = last_token.
Proof.
  apply last_Some in Hlast as [front ->].
  rewrite length_app. cbn [length].
  replace (length front + 1 - 1)%nat with (length front) by lia.
  rewrite app_nth2 by lia. rewrite Nat.sub_diag. reflexivity.
Qed.

Lemma not_at_end_next pos :
  (pos < n)%nat -> TokenType_eqb (type (tok pos)) EOF = false -> (S pos < n)%nat.
Proof.
  intros Hpos Hnot.
  destruct (Nat.eq_dec pos (n - 1)) as [->|]; [|lia].
  rewrite tok_last, Heof in Hnot. discriminate.
Qed.

Lemma accepts_not_at_end types t :
  accepts types t = true -> TokenType_eqb (type t) EOF = false.
Proof.
  unfold accepts. intros H. apply andb_true_iff in H as [H _].
  apply negb_true_iff in H. exact H.
Qed.

Lemma accepts_next types pos :
  (pos < n)%nat -> accepts types (tok pos) = true -> (S pos < n)%nat.
Proof.
  intros Hpos H. apply not_at_end_next; [exact Hpos|].
  exact (accepts_not_at_end _ _ H).
Qed.

Lemma TokenType_eqb_eq a b : TokenType_eqb a b = true -> a = b.
Proof. destruct a, b; cbn; intros H; try discriminate H; reflexivity. Qed.

Lemma accepts_In types t : accepts types t = true -> In (type t) types.
Proof.
  unfold accepts. intros H. apply andb_true_iff in H as [_ H].
  apply existsb_exists in H as (ty & Hin & Heq).
  apply TokenType_eqb_eq in Heq. rewrite Heq. exact Hin.
Qed.

Lemma peek_eq pos : peek pos = Ok (tok pos) pos.
Proof. reflexivity. Qed.

Lemma previous_eq pos : previous pos = Ok (tok (pos - 1)) pos.
Proof. reflexivity. Qed.

Lemma isAtEnd_eq pos : isAtEnd pos = Ok (TokenType_eqb (type (tok pos)) EOF) pos.
Proof. reflexivity. Qed.

Lemma check_eq ty pos : check ty pos = Ok (accepts [ty] (tok pos)) pos.
Proof.
  unfold Parser.check, bind. rewrite isAtEnd_eq. unfold accepts.
  destruct (TokenType_eqb (type (tok pos)) EOF); cbn [negb andb existsb].
  - reflexivity.
  - rewrite peek_eq. unfold ret. rewrite orb_false_r. reflexivity.
Qed.

Lemma advance_eq pos :
  TokenType_eqb (type (tok pos)) EOF = false ->
  advance pos = Ok (tok pos) (S pos).
Proof.
  intros H. unfold Parser.advance, bind. rewrite isAtEnd_eq, H, previous_eq.
  cbn [Nat.sub]. rewrite Nat.sub_0_r. reflexivity.
Qed.

Lemma match_eq types pos :
  match_ types pos
  = Ok (accepts types (tok pos))
       (if accepts types (tok pos) then S pos else pos).
Proof.
  induction types as [|ty more IH]; cbn [Parser.match_].
  - unfold ret, accepts. cbn [existsb]. rewrite andb_false_r. reflexivity.
  - unfold bind. rewrite check_eq.
    destruct (accepts [ty] (tok pos)) eqn:Hty.
    + rewrite (advance_eq pos (accepts_not_at_end _ _ Hty)). unfold ret.
      assert (accepts (ty :: more) (tok pos) = true) as ->; [|reflexivity].
      unfold accepts in *. cbn [existsb] in *.
      destruct (TokenType_eqb (type (tok pos)) EOF); [discriminate|].
      cbn [negb andb] in *. rewrite orb_false_r in Hty. rewrite Hty. reflexivity.
    + rewrite IH.
      assert (accepts (ty :: more) (tok pos) = accepts more (tok pos)) as ->;
        [|reflexivity].
      unfold accepts in *. cbn [existsb] in *.
      destruct (TokenType_eqb (type (tok pos)) EOF); [reflexivity|].
      cbn [negb andb] in *. rewrite orb_false_r in Hty. rewrite Hty. reflexivity.
Qed.

Lemma consume_eq ty message pos :
  consume ty message pos
  = if accepts [ty] (tok pos) then Ok (tok pos) (S pos)
    else ParseError message (tok pos) pos.
Proof.
  unfold Parser.consume, bind. rewrite check_eq.
  destruct (accepts [ty] (tok pos)) eqn:Hty.
  - apply advance_eq. exact (accepts_not_at_end _ _ Hty).
  - reflexivity.
Qed.

(** *** Rules *)

Lemma wpp_bind {A B} (m : M A) (k : A -> M B) Q pos :
  wp' m (fun a pos' => wp' (k a) Q pos') pos -> wp' (bind m k) Q pos.
Proof. unfold wpp, bind. destruct (m pos); trivial. Qed.

Lemma wpp_mono {A} (m : M A) (P Q : A -> nat -> Prop) pos :
  wp' m P pos -> (forall a pos', P a pos' -> Q a pos') -> wp' m Q pos.
Proof. unfold wpp. destruct (m pos); auto. Qed.

Lemma wpp_ret {A} (a : A) (Q : A -> nat -> Prop) pos : Q a pos -> wp' (ret a) Q pos.
Proof. trivial. Qed.

Lemma wpp_peek (Q : Token -> nat -> Prop) pos : Q (tok pos) pos -> wp' peek Q pos.
Proof. trivial. Qed.

Lemma wpp_previous (Q : Token -> nat -> Prop) pos :
  Q (tok (pos - 1)) pos -> wp' previous Q pos.
Proof. trivial. Qed.

Lemma wpp_isAtEnd (Q : bool -> nat -> Prop) pos :
  Q (TokenType_eqb (type (tok pos)) EOF) pos -> wp' isAtEnd Q pos.
Proof. trivial. Qed.

Lemma wpp_check ty (Q : bool -> nat -> Prop) pos :
  Q (accepts [ty] (tok pos)) pos -> wp' (check ty) Q pos.
Proof. unfold wpp. rewrite check_eq. trivial. Qed.

Lemma wpp_match types (Q : bool -> nat -> Prop) pos :
  (pos < n)%nat ->
  (accepts types (tok pos) = true -> (S pos < n)%nat -> Q true (S pos)) ->
  (accepts types (tok pos) = false -> Q false pos) ->
  wp' (match_ types) Q pos.
Proof.
  intros Hpos Hyes Hno. unfold wpp. rewrite match_eq.
  destruct (accepts types (tok pos)) eqn:H.
  - apply Hyes; [reflexivity|]. exact (accepts_next _ _ Hpos H).
  - apply Hno. reflexivity.
Qed.

Lemma wpp_consume ty message (Q : Token -> nat -> Prop) pos :
  (pos < n)%nat ->
  In message parse_messages ->
  (accepts [ty] (tok pos) = true -> (S pos < n)%nat -> Q (tok pos) (S pos)) ->
  wp' (consume ty message) Q pos.
Proof.
  intros Hpos Hmsg Hyes. unfold wpp. rewrite consume_eq.
  destruct (accepts [ty] (tok pos)) eqn:H.
  - apply Hyes; [reflexivity|]. exact (accepts_next _ _ Hpos H).
  - split; [exact Hmsg|]. exact (tok_in pos Hpos).
Qed.

Lemma wpp_throw {A} message token (Q : A -> nat -> Prop) pos :
  In message parse_messages -> In token tokens ->
  wp' (throw message token) Q pos.
Proof. intros H1 H2. split; assumption. Qed.

Lemma steady_from {A} (R : A -> bool) (p q : nat) (m : M A) :
  steady tokens R p m -> (p <= q)%nat -> steady tokens R q m.
Proof. intros H Hpq pos Hpos Hn. apply H; lia. Qed.

Lemma within_In types all ty :
  within types all = true -> In ty types -> In ty all.
Proof.
  unfold within. rewrite forallb_forall. intros H Hin.
  specialize (H ty Hin). apply existsb_exists in H as (x & Hx & Heq).
  apply TokenType_eqb_eq in Heq. rewrite Heq. exact Hx.
Qed.

(** *** The loops *)

Ltac message_in := cbn; tauto.

Ltac known_ok :=
  cbn [operators_satisfy option_all forallb];
  rewrite ?andb_true_iff; repeat split; try assumption; try reflexivity.

Ltac parser_step :=
  lazymatch goal with
  | |- wpp _ (bind _ _) _ _ => apply wpp_bind
  | |- wpp _ (ret _) _ _ => apply wpp_ret
  | |- wpp _ peek _ _ => apply wpp_peek
  | |- wpp _ previous _ _ =>
      apply wpp_previous; cbn [Nat.sub]; rewrite ?Nat.sub_0_r
  | |- wpp _ isAtEnd _ _ => apply wpp_isAtEnd
  | |- wpp _ (check _) _ _ => apply wpp_check
  | |- wpp _ (match_ _) _ _ => apply wpp_match; [lia|intros ? ?|intros ?]
  | |- wpp _ (consume _ _) _ _ =>
      apply wpp_consume; [lia|message_in|intros ? ?]
  | |- wpp _ (throw _ _) _ _ =>
      apply wpp_throw; [message_in|apply tok_in; lia]
  | H : steady _ _ _ ?m |- wpp _ ?m _ ?q =>
      eapply wpp_mono; [apply (H q); lia|intros ? ? [? ?]]
  | |- wpp _ (if ?b then _ else _) _ _ => destruct b eqn:?
  | |- advanced _ _ _ _ _ => split; [lia|known_ok]
  | |- reached _ _ _ _ _ => split; [lia|known_ok]
  end.

Ltac by_steady := first [assumption | eapply steady_from; [eassumption|lia]].

Ltac use H :=
  lazymatch goal with
  | |- wpp _ _ _ ?q => eapply wpp_mono; [apply (H q)|intros ? ? [? ?]]
  end.

Lemma comma_loop_steady {A} (R : A -> bool) (element : M A) (fuel : nat) :
  forall pos,
    pos < n -> n - 1 - pos < fuel ->
    steady tokens R pos element ->
    wp' (comma_loop element fuel) (advanced tokens (forallb R) pos) pos.
Proof.
  induction fuel as [|fuel IH]; intros pos Hpos Hfuel Helement; [lia|].
  cbn [Parser.comma_loop]. repeat parser_step.
  use IH; [lia|lia|by_steady|repeat parser_step].
Qed.

Lemma block_loop_steady (declaration_ : M ASTNode) (fuel : nat) :
  forall pos,
    pos < n -> n - 1 - pos < fuel ->
    steady tokens ok pos declaration_ ->
    wp' (block_loop declaration_ fuel) (reached tokens (forallb ok) pos) pos.
Proof.
  induction fuel as [|fuel IH]; intros pos Hpos Hfuel Hdecl; [lia|].
  cbn [Parser.block_loop]. repeat parser_step.
  use IH; [lia|lia|by_steady|repeat parser_step].
Qed.

Lemma binary_loop_steady types (operand : M ASTNode) (fuel : nat) :
  within types binary_types = true ->
  forall pos expr,
    pos < n -> n - 1 - pos < fuel ->
    ok expr = true ->
    steady tokens ok (S pos) operand ->
    wp' (binary_loop types operand fuel expr) (reached tokens ok pos) pos.
Proof.
  intros Htypes.
  induction fuel as [|fuel IH]; intros pos expr Hpos Hfuel Hexpr Hoperand; [lia|].
  cbn [Parser.binary_loop]. repeat parser_step.
  use IH; [lia|lia| |by_steady|repeat parser_step].
  known_ok. apply Hbinary; [apply tok_in; lia|].
  eapply within_In; [exact Htypes|]. apply accepts_In. assumption.
Qed.

Lemma binary_steady types (operand : M ASTNode) (fuel : nat) pos :
  within types binary_types = true ->
  pos < n -> n - 1 - pos < fuel ->
  steady tokens ok pos operand ->
  wp' (binary types operand fuel) (advanced tokens ok pos) pos.
Proof.
  intros Htypes Hpos Hfuel Hoperand. unfold Parser.binary. repeat parser_step.
  use (binary_loop_steady types operand fuel Htypes);
    [lia|lia|assumption|by_steady|repeat parser_step].
Qed.

Lemma finishCall_steady (expression_ : M ASTNode) (fuel : nat) callee pos :
  pos < n -> n - 1 - pos < fuel ->
  ok callee = true ->
  steady tokens ok pos expression_ ->
  wp' (finishCall expression_ fuel callee) (advanced tokens ok pos) pos.
Proof.
  intros Hpos Hfuel Hcallee Hexpr. unfold Parser.finishCall.
  repeat parser_step.
  use (comma_loop_steady ok expression_ fuel); [lia|lia|by_steady|].
  repeat parser_step.
Qed.

Lemma call_loop_steady (expression_ : M ASTNode) (fuel : nat) :
  forall pos expr,
    pos < n -> n - 1 - pos < fuel ->
    ok expr = true ->
    steady tokens ok (S pos) expression_ ->
    wp' (call_loop expression_ fuel expr) (reached tokens ok pos) pos.
Proof.
  induction fuel as [|fuel IH]; intros pos expr Hpos Hfuel Hexpr Hsteady; [lia|].
  cbn [Parser.call_loop]. repeat parser_step.
  lazymatch goal with
  | |- wpp _ (Parser.finishCall _ _ ?e ?k ?c) _ ?q =>
      eapply wpp_mono;
      [apply (finishCall_steady e k c q); [lia|lia|assumption|by_steady]
      |intros ? ? [? ?]]
  end.
  use IH; [lia|lia|assumption|by_steady|repeat parser_step].
Qed.

(** *** The statements *)

Ltac loop_step :=
  lazymatch goal with
  | |- wpp _ (Parser.comma_loop _ _ ?e ?k) _ ?q =>
      eapply wpp_mono;
      [eapply (comma_loop_steady _ e k q); [lia|lia|by_steady]
      |intros ? ? [? ?]]
  | |- wpp _ (Parser.block_loop _ _ ?d ?k) _ ?q =>
      eapply wpp_mono;
      [apply (block_loop_steady d k q); [lia|lia|by_steady]
      |intros ? ? [? ?]]
  | _ => parser_step
  end.

Lemma varDeclaration_steady (expression_ : M ASTNode) pos :
  pos < n ->
  steady tokens ok (S pos) expression_ ->
  wp' (varDeclaration expression_) (advanced tokens ok pos) pos.
Proof.
  intros Hpos Hexpr. unfold Parser.varDeclaration. repeat parser_step.
Qed.

Lemma expressionStatement_steady (expression_ : M ASTNode) pos :
  pos < n ->
  steady tokens ok pos expression_ ->
  wp' (expressionStatement expression_) (advanced tokens ok pos) pos.
Proof.
  intros Hpos Hexpr. unfold Parser.expressionStatement. repeat parser_step.
Qed.

Lemma parameter_steady p :
  steady tokens (fun _ : string => true) p
    (bind (consume IDENTIFIER "Expected parameter name")
          (fun p => ret (value p))).
Proof. intros q Hq Hn. repeat parser_step. Qed.

Lemma functionDeclaration_steady (declaration_ : M ASTNode) (fuel : nat) pos :
  pos < n -> n - 1 - pos < fuel ->
  steady tokens ok (S pos) declaration_ ->
  wp' (functionDeclaration declaration_ fuel) (advanced tokens ok pos) pos.
Proof.
  intros Hpos Hfuel Hdecl. unfold Parser.functionDeclaration.
  pose proof (parameter_steady (S (S pos))) as Hparam.
  repeat loop_step.
Qed.

Lemma ifStatement_steady (expression_ statement_ : M ASTNode) pos :
  pos < n ->
  steady tokens ok (S pos) expression_ ->
  steady tokens ok (S pos) statement_ ->
  wp' (ifStatement expression_ statement_) (advanced tokens ok pos) pos.
Proof.
  intros Hpos Hexpr Hstmt. unfold Parser.ifStatement. repeat parser_step.
Qed.

Lemma whileStatement_steady (expression_ statement_ : M ASTNode) pos :
  pos < n ->
  steady tokens ok (S pos) expression_ ->
  steady tokens ok (S pos) statement_ ->
  wp' (whileStatement expression_ statement_) (advanced tokens ok pos) pos.
Proof.
  intros Hpos Hexpr Hstmt. unfold Parser.whileStatement. repeat parser_step.
Qed.

Lemma returnStatement_steady (expression_ : M ASTNode) pos :
  pos < n ->
  steady tokens ok pos expression_ ->
  wp' (returnStatement expression_) (advanced tokens ok pos) pos.
Proof.
  intros Hpos Hexpr. unfold Parser.returnStatement.
  repeat parser_step; cbn [negb]; repeat parser_step.
Qed.

Lemma blockStatement_steady (declaration_ : M ASTNode) (fuel : nat) pos :
  pos < n -> n - 1 - pos < fuel ->
  steady tokens ok pos declaration_ ->
  wp' (blockStatement declaration_ fuel) (advanced tokens ok pos) pos.
Proof.
  intros Hpos Hfuel Hdecl. unfold Parser.blockStatement. repeat loop_step.
Qed.

Lemma forStatement_steady (expression_ statement_ : M ASTNode) pos :
  pos < n ->
  steady tokens ok (S pos) expression_ ->
  steady tokens ok (S pos) statement_ ->
  wp' (forStatement expression_ statement_) (advanced tokens ok pos) pos.
Proof.
  intros Hpos Hexpr Hstmt.
  unfold Parser.forStatement, Parser.varDeclaration, Parser.expressionStatement.
  repeat parser_step.
Qed.

Lemma assignment_target expr value_ (Q : ASTNode -> nat -> Prop) pos :
  0 < pos <= n ->
  (forall name, expr = Identifier name -> Q (AssignmentExpression name value_) pos) ->
  wp' (match expr with
       | Identifier name => ret (AssignmentExpression name value_)
       | _ => bind previous (fun p => throw "Invalid assignment target" p)
       end) Q pos.
Proof.
  intros Hpos HQ.
  destruct expr; try (apply HQ; reflexivity);
    (apply wpp_bind, wpp_previous, wpp_throw; [message_in|apply tok_in; lia]).
Qed.

(** *** The grammar *)

Ltac grammar_step :=
  lazymatch goal with
  | |- wpp _ (Parser.varDeclaration _ _ ?e) _ ?q =>
      eapply wpp_mono;
      [apply (varDeclaration_steady e q); [lia|by_steady]|intros ? ? [? ?]]
  | |- wpp _ (Parser.functionDeclaration _ _ ?d ?k) _ ?q =>
      eapply wpp_mono;
      [apply (functionDeclaration_steady d k q); [lia|lia|by_steady]
      |intros ? ? [? ?]]
  | |- wpp _ (Parser.ifStatement _ _ ?e ?s) _ ?q =>
      eapply wpp_mono;
      [apply (ifStatement_steady e s q); [lia|by_steady|by_steady]
      |intros ? ? [? ?]]
  | |- wpp _ (Parser.whileStatement _ _ ?e ?s) _ ?q =>
      eapply wpp_mono;
      [apply (whileStatement_steady e s q); [lia|by_steady|by_steady]
      |intros ? ? [? ?]]
  | |- wpp _ (Parser.forStatement _ _ ?e ?s) _ ?q =>
      eapply wpp_mono;
      [apply (forStatement_steady e s q); [lia|by_steady|by_steady]
      |intros ? ? [? ?]]
  | |- wpp _ (Parser.returnStatement _ _ ?e) _ ?q =>
      eapply wpp_mono;
      [apply (returnStatement_steady e q); [lia|by_steady]|intros ? ? [? ?]]
  | |- wpp _ (Parser.blockStatement _ _ ?d ?k) _ ?q =>
      eapply wpp_mono;
      [apply (blockStatement_steady d k q); [lia|lia|by_steady]
      |intros ? ? [? ?]]
  | |- wpp _ (Parser.expressionStatement _ _ ?e) _ ?q =>
      eapply wpp_mono;
      [apply (expressionStatement_steady e q); [lia|by_steady]
      |intros ? ? [? ?]]
  | |- wpp _ (Parser.binary _ _ ?types ?e ?k) _ ?q =>
      eapply wpp_mono;
      [apply (binary_steady types e k q); [reflexivity|lia|lia|by_steady]
      |intros ? ? [? ?]]
  | |- wpp _ (Parser.call_loop _ _ ?e ?k ?x) _ ?q =>
      eapply wpp_mono;
      [apply (call_loop_steady e k q x); [lia|lia|assumption|by_steady]
      |intros ? ? [? ?]]
  | |- wpp _ (match _ with Identifier _ => _ | _ => _ end) _ _ =>
      apply assignment_target; [lia|intros ? ?]
  | _ => parser_step
  end.

Lemma grammar_steady (fuel : nat) :
  forall pos rank m,
    In (rank, m) (grammar tokens last_token fuel) ->
    pos < n -> 13 * (n - 1 - pos) + rank <= fuel ->
    wp' m (advanced tokens ok pos) pos.
Proof.
  induction fuel as [|f IH]; intros pos rank m Hin Hpos Hfuel.
  { cbn in Hin.
    repeat (destruct Hin as [Hin|Hin]; [injection Hin as <- _; lia|]).
    destruct Hin. }
  assert (Hsteady : forall rank' g p,
            In (rank', g) (grammar tokens last_token f) ->
            (forall q, p <= q -> q < n -> 13 * (n - 1 - q) + rank' <= f) ->
            steady tokens ok p g).
  { intros rank' g p Hg Hp q Hq Hn. apply (IH q rank' g Hg Hn). apply Hp; lia. }
  assert (Hhere : forall rank' g,
            In (rank', g) (grammar tokens last_token f) ->
            S rank' = rank -> steady tokens ok pos g).
  { intros rank' g Hg Hr. apply (Hsteady rank' g pos Hg). intros q Hq Hn. lia. }
  assert (Hnext : forall rank' g,
            In (rank', g) (grammar tokens last_token f) ->
            steady tokens ok (S pos) g).
  { intros rank' g Hg. apply (Hsteady rank' g (S pos) Hg). intros q Hq Hn.
    assert (rank' <= 13)
      by (cbn in Hg;
          repeat (destruct Hg as [Hg|Hg]; [injection Hg as <- _; lia|]);
          destruct Hg).
    assert (1 <= rank)
      by (cbn in Hin;
          repeat (destruct Hin as [Hin|Hin]; [injection Hin as <- _; lia|]);
          destruct Hin).
    lia. }
  pose proof (Hnext 13 (declaration f) ltac:(cbn; tauto)) as Ndeclaration.
  pose proof (Hnext 12 (statement f) ltac:(cbn; tauto)) as Nstatement.
  pose proof (Hnext 11 (expression f) ltac:(cbn; tauto)) as Nexpression.
  pose proof (Hnext 10 (assignment f) ltac:(cbn; tauto)) as Nassignment.
  pose proof (Hnext 3 (unary f) ltac:(cbn; tauto)) as Nunary.
  unfold grammar in Hin.
  repeat (destruct Hin as [Hin|Hin]; [apply pair_equal_spec in Hin as [<- <-]|]);
    [..|destruct Hin].
  - pose proof (Hhere 12 (statement f) ltac:(cbn; tauto) eq_refl) as Hstatement.
    change (declaration (S f))
      with (bind (match_ [VAR])
              (fun v =>
               if v then varDeclaration (expression f)
               else bind (match_ [FUNCTION])
                      (fun fn =>
                       if fn then functionDeclaration (declaration f) f
                       else statement f))).
    repeat grammar_step.
  - pose proof (Hhere 11 (expression f) ltac:(cbn; tauto) eq_refl) as Hexpression.
    change (statement (S f))
      with (bind (match_ [IF])
              (fun i =>
               if i then ifStatement (expression f) (statement f)
               else bind (match_ [WHILE])
                 (fun w =>
                  if w then whileStatement (expression f) (statement f)
                  else bind (match_ [FOR])
                    (fun fo =>
                     if fo then forStatement (expression f) (statement f)
                     else bind (match_ [RETURN])
                       (fun r =>
                        if r then returnStatement (expression f)
                        else bind (match_ [LBRACE])
                          (fun b =>
                           if b then blockStatement (declaration f) f
                           else expressionStatement (expression f))))))).
    repeat grammar_step.
  - pose proof (Hhere 10 (assignment f) ltac:(cbn; tauto) eq_refl) as Hassignment.
    change (expression (S f)) with (assignment f).
    apply Hassignment; lia.
  - pose proof (Hhere 9 (or_ f) ltac:(cbn; tauto) eq_refl) as Hor.
    change (assignment (S f))
      with (bind (or_ f)
              (fun expr =>
               bind (match_ [ASSIGN])
                 (fun m =>
                  if m then
                    bind (assignment f)
                      (fun value_ =>
                       match expr with
                       | Identifier name => ret (AssignmentExpression name value_)
                       | _ => bind previous
                                (fun p => throw "Invalid assignment target" p)
                       end)
                  else ret expr))).
    repeat grammar_step.
  - pose proof (Hhere 8 (and_ f) ltac:(cbn; tauto) eq_refl) as Hand.
    change (or_ (S f)) with (binary [OR] (and_ f) f).
    repeat grammar_step.
  - pose proof (Hhere 7 (equality f) ltac:(cbn; tauto) eq_refl) as Hequality.
    change (and_ (S f)) with (binary [AND] (equality f) f).
    repeat grammar_step.
  - pose proof (Hhere 6 (comparison f) ltac:(cbn; tauto) eq_refl) as Hcomparison.
    change (equality (S f)) with (binary [NOT_EQUAL; EQUAL] (comparison f) f).
    repeat grammar_step.
  - pose proof (Hhere 5 (term f) ltac:(cbn; tauto) eq_refl) as Hterm.
    change (comparison (S f))
      with (binary [GREATER_THAN; GREATER_EQUAL; LESS_THAN; LESS_EQUAL]
              (term f) f).
    repeat grammar_step.
  - pose proof (Hhere 4 (factor f) ltac:(cbn; tauto) eq_refl) as Hfactor.
    change (term (S f)) with (binary [MINUS; PLUS] (factor f) f).
    repeat grammar_step.
  - pose proof (Hhere 3 (unary f) ltac:(cbn; tauto) eq_refl) as Hunary_.
    change (factor (S f)) with (binary [DIVIDE; MULTIPLY; MODULO] (unary f) f).
    repeat grammar_step.
  - pose proof (Hhere 2 (call f) ltac:(cbn; tauto) eq_refl) as Hcall.
    change (unary (S f))
      with (bind (match_ [NOT; MINUS])
              (fun m =>
               if m then
                 bind previous
                   (fun op =>
                    bind (unary f)
                      (fun right => ret (UnaryExpression (value op) right)))
               else call f)).
    repeat grammar_step.
    apply Hunary; [apply tok_in; lia|]. apply accepts_In. assumption.
  - pose proof (Hhere 1 (primary f) ltac:(cbn; tauto) eq_refl) as Hprimary.
    change (call (S f))
      with (bind (primary f) (fun expr => call_loop (expression f) f expr)).
    repeat grammar_step.
  - change (primary (S f))
      with (bind (match_ [TRUE])
        (fun t =>
         if t then ret (Literal (JS.VBool true) boolean)
         else bind (match_ [FALSE])
           (fun fa =>
            if fa then ret (Literal (JS.VBool false) boolean)
            else bind (match_ [NULL])
              (fun n_ =>
               if n_ then ret (Literal JS.VNull null)
               else bind (match_ [NUMBER])
                 (fun nu =>
                  if nu then
                    bind previous
                      (fun p =>
                       ret (Literal (JS.VNum (JS.parseFloat (value p))) number))
                  else bind (match_ [STRING])
                    (fun st =>
                     if st then
                       bind previous
                         (fun p => ret (Literal (JS.VStr (value p)) string_))
                     else bind (match_ [IDENTIFIER])
                       (fun i =>
                        if i then
                          bind previous (fun p => ret (Identifier (value p)))
                        else bind (match_ [LPAREN])
                          (fun l =>
                           if l then
                             bind (expression f)
                               (fun expr =>
                                bind (consume RPAREN
                                        "Expected ')' after expression")
                                  (fun _ => ret expr))
                           else bind peek
                                  (fun tk => throw "Expected expression" tk))))))))).
    repeat grammar_step.
Qed.

(** *** The loop of [parse] *)

Lemma not_at_end_before_last pos :
  TokenType_eqb (type (tok pos)) EOF = false -> pos < n - 1.
Proof.
  intros Hnot.
  destruct (Nat.lt_ge_cases pos n) as [Hlt|Hge].
  - pose proof (not_at_end_next pos Hlt Hnot). lia.
  - rewrite (nth_overflow _ _ Hge), Heof in Hnot. discriminate.
Qed.

Lemma synchronize_loop_returns (fuel : nat) :
  forall pos,
    n - 1 - pos < fuel ->
    exists pos', synchronize_loop fuel pos = Ok tt pos'.
Proof.
  induction fuel as [|fuel IH]; intros pos Hfuel; [lia|].
  cbn [Parser.synchronize_loop]. unfold bind at 1. rewrite isAtEnd_eq.
  destruct (TokenType_eqb (type (tok pos)) EOF) eqn:Hend;
    [eexists; reflexivity|].
  unfold bind at 1. rewrite previous_eq.
  destruct (TokenType_eqb (type (tok (pos - 1))) SEMICOLON);
    [eexists; reflexivity|].
  unfold bind at 1. rewrite peek_eq.
  destruct (is_statement_start (type (tok pos))); [eexists; reflexivity|].
  unfold bind at 1. rewrite (advance_eq pos Hend).
  apply IH. pose proof (not_at_end_before_last pos Hend). lia.
Qed.

Lemma synchronize_returns pos : exists pos', synchronize pos = Ok tt pos'.
Proof.
  unfold Parser.synchronize, bind at 1.
  unfold Parser.advance, bind. rewrite isAtEnd_eq.
  destruct (TokenType_eqb (type (tok pos)) EOF); cbn [ret];
    rewrite previous_eq; apply synchronize_loop_returns; lia.
Qed.

Lemma parse_loop_answers (fuel : nat) :
  forall pos,
    pos < n -> n - 1 - pos < fuel ->
    wp' (parse_loop fuel) (fun statements _ => forallb ok statements = true) pos.
Proof.
  induction fuel as [|fuel IH]; intros pos Hpos Hfuel; [lia|].
  unfold wpp. cbn [Parser.parse_loop]. unfold bind at 1. rewrite isAtEnd_eq.
  destruct (TokenType_eqb (type (tok pos)) EOF) eqn:Hend; [reflexivity|].
  pose proof (not_at_end_before_last pos Hend) as Hbefore.
  assert (Hd : wp' (declaration (depth tokens)) (advanced tokens ok pos) pos).
  { apply (grammar_steady (depth tokens) pos 13);
      [cbn; tauto|exact Hpos|unfold depth; lia]. }
  unfold wpp in Hd.
  destruct (declaration (depth tokens) pos) as [stmt pos'|message token at_| |];
    [|destruct (synchronize_returns at_) as [p ->]; exact Hd|exact Hd|exact Hd].
  destruct Hd as [Hpos' Hstmt].
  specialize (IH pos' ltac:(lia) ltac:(lia)). unfold wpp in IH. unfold bind.
  destruct (parse_loop fuel pos') as [more pos''|message token at_| |];
    [|exact IH|exact IH|exact IH].
  cbn [ret forallb]. rewrite Hstmt, IH. reflexivity.
Qed.

End ParserTotal.

(** ** What [parse] answers *)

Section ParserAnswers.
Import Lexer AST Parser.
Local Open Scope nat_scope.

Lemma last_map_Some (l : list Token) : List.last (List.map Some l) None = last l.
Proof.
  induction l as [|x [|y l] IH]; [reflexivity|reflexivity|].
  exact IH.
Qed.

Lemma filter_keeps_EOF (tokens : list Token) :
  ends_with_EOF tokens ->
  ends_with_EOF
    (List.filter (fun t => negb (TokenType_eqb (type t) NEWLINE)) tokens).
Proof.
  intros (t & Hl & Ht). apply last_Some in Hl as [front ->].
  exists t. split; [|exact Ht].
  rewrite List.filter_app. cbn [List.filter]. rewrite Ht. cbn.
  apply last_snoc.
Qed.

(** What [parse] answers on an array that ends with [EOF], for any two
    conditions the operator tokens of the array meet. *)
Lemma parse_answers (binary_ok unary_ok : string -> bool) (tokens : list Token) :
  ends_with_EOF tokens ->
  (forall t, In t tokens -> In (type t) binary_types ->
             binary_ok (value t) = true) ->
  (forall t, In t tokens -> In (type t) [NOT; MINUS] ->
             unary_ok (value t) = true) ->
  match parse tokens with
  | Ok program _ =>
      forallb (operators_satisfy binary_ok unary_ok) (statements program) = true
  | ParseError message token _ =>
      In message parse_messages /\ In token tokens
  | TypeError => False
  | OutOfFuel => False
  end.
Proof.
  intros Hends Hbinary Hunary. unfold parse.
  destruct (filter_keeps_EOF tokens Hends) as (t & Hl & Ht).
  set (kept := List.filter (fun t => negb (TokenType_eqb (type t) NEWLINE)) tokens)
    in *.
  assert (Hkept : forall x, In x kept -> In x tokens)
    by (intros x Hx; apply List.filter_In in Hx as [Hx _]; exact Hx).
  rewrite last_map_Some, Hl.
  assert (Hlen : (0 < length kept)%nat)
    by (destruct kept; [discriminate|cbn; lia]).
  pose proof (parse_loop_answers kept t Hl Ht binary_ok unary_ok
                (fun x Hx => Hbinary x (Hkept x Hx))
                (fun x Hx => Hunary x (Hkept x Hx))
                (S (length kept)) 0%nat Hlen ltac:(lia)) as H.
  unfold wpp in H.
  destruct (parse_loop kept t (S (length kept)) 0) as [l pos|message token at_| |];
    [exact H| |exact H|exact H].
  destruct H as [Hm Ht']. split; [exact Hm|exact (Hkept _ Ht')].
Qed.

Lemma binary_operator_known t :
  spelled t -> In (type t) binary_types ->
  known (Bytecode.binaryOpcode (value t)) = true.
Proof.
  unfold spelled. intros Hs Hin. cbn in Hin.
  repeat (destruct Hin as [Hin|Hin];
          [rewrite <- Hin in Hs; cbn in Hs; rewrite Hs; reflexivity|]).
  destruct Hin.
Qed.

Lemma unary_operator_known t :
  spelled t -> In (type t) [NOT; MINUS] ->
  known (Bytecode.unaryOpcode (value t)) = true.
Proof.
  unfold spelled. intros Hs Hin. cbn in Hin.
  repeat (destruct Hin as [Hin|Hin];
          [rewrite <- Hin in Hs; cbn in Hs; rewrite Hs; reflexivity|]).
  destruct Hin.
Qed.

Lemma lexeme_spelled language t : lexeme_ok language t = true -> spelled t.
Proof.
  unfold lexeme_ok, spelled.
  destruct (type t); cbn [fixed_text]; trivial; apply String.eqb_eq.
Qed.

(** What [tokenize] returns: tokens spelled as their type, [EOF] last. *)
Lemma tokenize_spelled language source tokens :
  tokenize language source = Some tokens ->
  ends_with_EOF tokens /\ Forall spelled tokens.
Proof.
  intros Htokens. split.
  - destruct (tokenize_loop_total language (String.length source) (start source))
      as (front & eof & Hsome & Heof & _); [cbn; lia|].
    unfold tokenize in Htokens. rewrite Hsome in Htokens.
    injection Htokens as <-. exists eof. split; [apply last_snoc|exact Heof].
  - destruct (tokenize_loop_lexemes language (String.length source) (start source))
      as (tokens' & Hsome & Hall); [cbn; lia|].
    unfold tokenize in Htokens. rewrite Hsome in Htokens.
    injection Htokens as <-.
    eapply Forall_impl; [exact Hall|]. intros t. apply lexeme_spelled.
Qed.

(** When the tokens of a source are parsed, every binary and every unary
    operator of the program is one [visitBinaryExpression] and
    [visitUnaryExpression] have a case for: no operator is compiled to
    nothing. *)
Theorem parsed_operators_have_opcodes language source program :
  parsed language source = Some program ->
  forallb operators_known (statements program) = true.
Proof.
  unfold parsed.
  destruct (tokenize language source) as [tokens|] eqn:Htokens; [|discriminate].
  destruct (tokenize_spelled language source tokens Htokens) as [Hends Hspelled].
  rewrite List.Forall_forall in Hspelled.
  pose proof (parse_answers
                (fun operator => known (Bytecode.binaryOpcode operator))
                (fun operator => known (Bytecode.unaryOpcode operator))
                tokens Hends
                (fun t Ht => binary_operator_known t (Hspelled t Ht))
                (fun t Ht => unary_operator_known t (Hspelled t Ht))) as H.
  destruct (parse tokens); try discriminate.
  intros [= <-]. exact H.
Qed.

Lemma parsed_operators_have_opcodes_witness :
  parsed Language.english "x = 1 + -2;"
  = Some {| statements :=
              [ExpressionStatement
                 (AssignmentExpression "x"
                    (BinaryExpression (Literal (JS.VNum 1) number) "+"
                       (UnaryExpression "-" (Literal (JS.VNum 2) number))))] |} /\
  forallb operators_known
    [ExpressionStatement
       (AssignmentExpression "x"
          (BinaryExpression (Literal (JS.VNum 1) number) "+"
             (UnaryExpression "-" (Literal (JS.VNum 2) number))))] = true.
Proof.
  split; [vm_compute; reflexivity|].
  apply (parsed_operators_have_opcodes Language.english "x = 1 + -2;"
           {| statements :=
                [ExpressionStatement
                   (AssignmentExpression "x"
                      (BinaryExpression (Literal (JS.VNum 1) number) "+"
                         (UnaryExpression "-" (Literal (JS.VNum 2) number))))] |}).
  vm_compute. reflexivity.
Defined.

End ParserAnswers.

(** ** Programs that always stop *)

Section StraightLine.
Import Bytecode VM.

Lemma executeInstruction_keeps_pc (i : Instruction) (vm : VirtualMachine) :
  is_jump (opcode i) = false ->
  pc (fst (executeInstruction i vm)) = pc vm /\
  instructions (fst (executeInstruction i vm)) = instructions vm.
Proof.
  destruct i as [op operand line]. unfold executeInstruction, binary, unary.
  cbn [opcode Bytecode.operand].
  destruct op; cbn [is_jump]; intros Hjump; try discriminate Hjump;
    repeat match goal with
    | |- context [pop ?v] =>
        let H := fresh "H" in
        pose proof (pop_frame v) as H; destruct (pop v); cbn [snd] in H;
        destruct H as (? & ? & ?)
    | |- context [pop_args ?n ?a ?v] =>
        let H := fresh "H" in
        pose proof (pop_args_frame n a v) as H; destruct (pop_args n a v);
        cbn [snd] in H; destruct H as (? & ? & ?)
    | |- context [match ?o with Some _ => _ | None => _ end] => destruct o
    | |- context [if ?b then _ else _] => destruct b
    end;
    cbn; split; congruence.
Qed.

(** Without jumps the counter only moves forward: the loop ends within
    as many turns as there are instructions left. *)
Lemma run_straight (fuel : nat) :
  forall vm p,
    pc vm = Some p -> 0 <= p ->
    (length (instructions vm) - Z.to_nat p <= fuel)%nat ->
    jump_free (instructions vm) ->
    exists r, run fuel vm = Some r.
Proof.
  induction fuel as [|fuel IH]; intros vm p Hpc Hp Hfuel Hfree;
    rewrite run_unfold, Hpc;
    destruct (p <? Z.of_nat (length (instructions vm))) eqn:Hlt;
    try (eexists; reflexivity); [lia|].
  destruct (p <? 0) eqn:Hneg; [lia|].
  destruct (instructions vm !! Z.to_nat p) as [i|] eqn:Hi;
    [|eexists; reflexivity].
  pose proof (executeInstruction_keeps_pc i vm
                (proj1 (Forall_lookup _ _) Hfree _ _ Hi)) as [Hsame Hins].
  destruct (executeInstruction i vm) as [vm' [message|]]; cbn [fst] in *;
    [eexists; reflexivity|].
  apply (IH _ (Z.succ p)).
  - cbn [pc with_pc]. rewrite Hsame, Hpc. reflexivity.
  - lia.
  - cbn [instructions with_pc]. rewrite Hins. lia.
  - cbn [instructions with_pc]. rewrite Hins. exact Hfree.
Qed.

(** Bytecode without jumps always stops: [execute] returns within as
    many turns of its loop as the program has instructions, whatever the
    constants and the answers to the prompts. *)
Theorem code_without_jumps_stops bytecode answers fuel :
  jump_free (program_instructions bytecode) ->
  (length (program_instructions bytecode) <= fuel)%nat ->
  exists result, execute fuel bytecode answers = Some result.
Proof.
  intros Hfree Hfuel. unfold execute.
  destruct (run_straight fuel (boot bytecode answers) 0) as [[vm err] ->];
    [reflexivity|lia|cbn; lia|exact Hfree|].
  eexists. reflexivity.
Qed.

Lemma code_without_jumps_stops_witness :
  jump_free (program_instructions division_program) /\
  (length (program_instructions division_program) <= 3)%nat /\
  exists result, execute 3 division_program [] = Some result.
Proof.
  assert (H : jump_free (program_instructions division_program))
    by (repeat constructor).
  split; [exact H|]. split; [cbn; lia|].
  apply (code_without_jumps_stops division_program [] 3 H). cbn. lia.
Defined.

End StraightLine.

(** *** What the generator emits for a tree without branches *)

Section BranchFree.
Import Bytecode.

Lemma wl_quiet {A} (m : M A) (Q : A -> BytecodeGenerator -> Prop) g :
  quiet m ->
  (forall a g', instructions g' = instructions g -> Q a g') ->
  wp m Q g.
Proof.
  intros Hquiet HQ. unfold wp.
  destruct (Hquiet g) as (a & g' & -> & Hi). apply HQ. exact Hi.
Qed.

Lemma wl_emit op operand (Q : unit -> BytecodeGenerator -> Prop) g :
  jump_free (instructions g) ->
  is_jump op = false ->
  (forall g', jump_free (instructions g') -> Q tt g') ->
  wp (emit op operand) Q g.
Proof.
  intros Hfree Hop HQ. unfold wp, emit. apply HQ.
  unfold set_instructions; cbn [instructions].
  apply Forall_app. split; [exact Hfree|]. apply Forall_singleton. exact Hop.
Qed.

Lemma straight_forEach {A} (visit : A -> M unit) (xs : list A) :
  Forall (fun x => straight (visit x)) xs -> straight (forEach visit xs).
Proof.
  induction 1 as [|x xs Hx _ IH]; intros g Hfree; cbn [forEach].
  - apply wp_ret. exact Hfree.
  - apply wp_bind. eapply wp_mono; [exact (Hx g Hfree)|].
    intros [] g1 Hfree1. exact (IH g1 Hfree1).
Qed.

Lemma straight_emit_if_some op :
  (forall o, op = Some o -> is_jump o = false) -> straight (emit_if_some op).
Proof.
  intros Hop g Hfree. destruct op as [o|]; cbn [emit_if_some].
  - apply wl_emit; [exact Hfree|exact (Hop o eq_refl)|trivial].
  - apply wp_ret. exact Hfree.
Qed.

Lemma straight_list (nodes : list AST.ASTNode) :
  Forall (fun n => branch_free n = true -> straight (accept n)) nodes ->
  forallb branch_free nodes = true ->
  straight (forEach accept nodes).
Proof.
  intros Hall Hfree. apply straight_forEach.
  rewrite forallb_forall in Hfree. rewrite List.Forall_forall in *.
  intros n Hn. exact (Hall n Hn (Hfree n Hn)).
Qed.

Ltac same_code :=
  match goal with
  | H : instructions ?g' = instructions _ |- jump_free (instructions ?g') =>
      rewrite H; first [assumption | same_code]
  end.

Ltac wl_step :=
  lazymatch goal with
  | |- wp (bind _ _) _ _ => apply wp_bind
  | |- wp (ret _) _ _ => apply wp_ret
  | |- wp (throw _) _ _ => apply wp_throw
  | |- wp here _ _ => apply wp_here
  | |- wp (emit _ _) _ _ =>
      apply wl_emit; [first [assumption|same_code]|reflexivity|intros ? ?]
  | |- wp (addConstant _) _ _ =>
      apply wl_quiet; [apply quiet_addConstant|intros ? ? ?]
  | |- wp (bindVariable _) _ _ =>
      apply wl_quiet; [apply quiet_bindVariable|intros ? ? ?]
  | |- wp (setFunction _ _) _ _ =>
      apply wl_quiet; [apply quiet_setFunction|intros ? ? ?]
  | |- wp (getVariable _) _ _ =>
      apply wl_quiet; [apply quiet_getVariable|intros ? ? ?]
  | |- wp (getFunction _) _ _ =>
      apply wl_quiet; [apply quiet_getFunction|intros ? ? ?]
  | H : straight ?m |- wp ?m _ ?g =>
      eapply wp_mono; [apply (H g); first [assumption|same_code]|intros [] ? ?]
  | |- wp (match ?x with Some _ => _ | None => _ end) _ _ => destruct x
  | |- wp (if ?b then _ else _) _ _ => destruct b
  | |- jump_free _ => first [assumption|same_code]
  end.

Lemma accept_straight (node : AST.ASTNode) :
  branch_free node = true -> straight (accept node).
Proof.
  induction node as
    [identifier initializer IHinit
    |name parameters body IHbody
    |condition thenStatement elseStatement IHcond IHthen IHelse
    |condition body IHcond IHbody
    |initializer condition increment body IHinit IHcond IHinc IHbody
    |value IHvalue
    |expression IHexpr
    |lhs operator rhs IHlhs IHrhs
    |operator operand IHoperand
    |callee args IHcallee IHargs
    |name
    |value type
    |identifier value IHvalue
    |statements IHstatements] using ASTNode_nested_ind;
    cbn [branch_free]; intros Hfree; try discriminate Hfree;
    intros g Hg; cbn [accept].
  - destruct initializer as [init|]; cbn [P_option option_all] in *;
      [specialize (IHinit Hfree)|]; repeat wl_step.
  - pose proof (straight_list body IHbody Hfree) as Hbody.
    assert (Hparams : straight
              (forEach (fun p => bind (bindVariable p)
                                   (fun paramIndex => emit STORE_VAR (Some paramIndex)))
                       (List.rev parameters))).
    { apply straight_forEach, Forall_forall. intros p _ g' Hg'.
      repeat wl_step. }
    repeat wl_step.
  - destruct value as [v|]; cbn [P_option option_all] in *;
      [specialize (IHvalue Hfree)|]; repeat wl_step.
  - specialize (IHexpr Hfree). repeat wl_step.
  - apply andb_true_iff in Hfree as [Hl Hr].
    specialize (IHlhs Hl). specialize (IHrhs Hr).
    pose proof (straight_emit_if_some _ (binaryOpcode_no_jump operator)).
    repeat wl_step.
  - specialize (IHoperand Hfree).
    pose proof (straight_emit_if_some _ (unaryOpcode_no_jump operator)).
    repeat wl_step.
  - apply andb_true_iff in Hfree as [Hc Ha].
    specialize (IHcallee Hc).
    pose proof (straight_list args IHargs Ha) as Hargs.
    destruct callee; repeat wl_step.
  - repeat wl_step.
  - repeat wl_step.
  - specialize (IHvalue Hfree). repeat wl_step.
  - pose proof (straight_list statements IHstatements Hfree) as Hstatements.
    repeat wl_step.
Qed.

(** A program without [if], [while] and [for] compiles to bytecode
    without jumps, and so always stops: whatever it computes, [execute]
    returns within as many turns as the bytecode has instructions. *)
Theorem programs_without_branches_stop program bytecode answers fuel :
  forallb branch_free (AST.statements program) = true ->
  compiled program = Some bytecode ->
  (length (program_instructions bytecode) <= fuel)%nat ->
  jump_free (program_instructions bytecode) /\
  exists result, VM.execute fuel bytecode answers = Some result.
Proof.
  intros Hfree Hcompiled Hfuel.
  assert (Hjumps : jump_free (program_instructions bytecode)).
  { unfold compiled, generate, generate_from, visitProgram in Hcompiled.
    assert (H : wp (bind (forEach accept (AST.statements program))
                      (fun _ => emit HALT None))
                   (fun _ g => jump_free (instructions g)) new_generator).
    { assert (Hvisit : straight (forEach accept (AST.statements program))).
      { apply straight_list; [|exact Hfree].
        apply List.Forall_forall. intros n _. apply accept_straight. }
      assert (Hnew : jump_free (instructions new_generator)) by constructor.
      repeat wl_step. }
    unfold wp, bind in *.
    destruct (forEach accept (AST.statements program) new_generator)
      as [[] g|message]; [|discriminate].
    cbn in *. injection Hcompiled as <-. exact H. }
  split; [exact Hjumps|].
  unfold VM.execute.
  destruct (run_straight fuel (VM.boot bytecode answers) 0) as [[vm err] ->];
    [reflexivity|lia|cbn; lia|exact Hjumps|].
  eexists. reflexivity.
Qed.

Lemma programs_without_branches_stop_witness :
  forallb branch_free (AST.statements print_sum) = true /\
  compiled print_sum = Some print_sum_bytecode /\
  (length (program_instructions print_sum_bytecode) <= 6)%nat /\
  jump_free (program_instructions print_sum_bytecode) /\
  exists result, VM.execute 6 print_sum_bytecode [] = Some result.
Proof.
  assert (H1 : forallb branch_free (AST.statements print_sum) = true)
    by reflexivity.
  assert (H2 : compiled print_sum = Some print_sum_bytecode)
    by (vm_compute; reflexivity).
  assert (H3 : (length (program_instructions print_sum_bytecode) <= 6)%nat)
    by (cbn; lia).
  split; [exact H1|]. split; [exact H2|]. split; [exact H3|].
  exact (programs_without_branches_stop print_sum print_sum_bytecode [] 6 H1 H2 H3).
Defined.

End BranchFree.

(** ** The language table *)

Section Languages.
Import Language.

Ltac each_language H :=
  cbn in H;
  repeat (destruct H as [H|H];
          [apply pair_equal_spec in H as [<- <-]|]);
  [..|destruct H].

(** The table is keyed by the names of the languages, not by their
    codes: [getLanguageByCode] finds a language under its name and finds
    nothing under its code, and [getKeywordTranslation] gives the keyword
    back when either language is named by its code. *)
Theorem languages_are_found_by_name_not_by_code name language :
  In (name, language) LANGUAGES ->
  getLanguageByCode name = Own language /\
  getLanguageByCode (code language) = Undefined /\
  forall keyword other,
    getKeywordTranslation keyword (code language) other = Text keyword /\
    (forall known, getLanguageByCode other = Own known ->
       getKeywordTranslation keyword other (code language) = Text keyword).
Proof.
  intros Hin. each_language Hin.
  all: split; [reflexivity|]; split; [reflexivity|].
  all: intros keyword other; split; [reflexivity|].
  all: intros known Hother; unfold getKeywordTranslation;
    unfold getLanguageByCode in Hother; rewrite Hother; reflexivity.
Qed.

Lemma languages_are_found_by_name_witness :
  In ("tamil", tamil) LANGUAGES /\
  getLanguageByCode "tamil" = Own tamil /\
  getLanguageByCode (code tamil) = Undefined /\
  forall keyword other,
    getKeywordTranslation keyword (code tamil) other = Text keyword /\
    (forall known, getLanguageByCode other = Own known ->
       getKeywordTranslation keyword other (code tamil) = Text keyword).
Proof.
  assert (H : In ("tamil", tamil) LANGUAGES) by (cbn; tauto).
  split; [exact H|].
  exact (languages_are_found_by_name_not_by_code "tamil" tamil H).
Defined.

Lemma all_entries_translate_back :
  forallb
    (fun s =>
       forallb
         (fun t =>
            forallb (translates_back (fst s) (fst t) (snd t))
                    (keywords (snd s)))
         LANGUAGES)
    LANGUAGES = true.
Proof. vm_compute. reflexivity. Qed.

(** Between any two languages of the table, a keyword is translated to
    the word the other language has for the same key, and translating
    that word back gives the keyword again. *)
Theorem keyword_translation_round_trip
    (source target : LanguageDefinition)
    (sourceName targetName key spelling : string) :
  In (sourceName, source) LANGUAGES ->
  In (targetName, target) LANGUAGES ->
  In (key, spelling) (keywords source) ->
  exists translated,
    In (key, translated) (keywords target) /\
    getKeywordTranslation spelling sourceName targetName = Text translated /\
    getKeywordTranslation translated targetName sourceName = Text spelling.
Proof.
  intros Hs Ht Hk. pose proof all_entries_translate_back as H.
  rewrite forallb_forall in H. specialize (H _ Hs).
  rewrite forallb_forall in H. specialize (H _ Ht).
  rewrite forallb_forall in H. specialize (H _ Hk).
  unfold translates_back in H. cbn [fst snd] in H.
  destruct (getKeywordTranslation spelling sourceName targetName)
    as [translated| |]; try discriminate H.
  apply andb_true_iff in H as [Hentry Hback]. exists translated.
  destruct (getKeywordTranslation translated targetName sourceName)
    as [back| |]; try discriminate Hback.
  apply String.eqb_eq in Hback as ->. split; [|split; reflexivity].
  apply existsb_exists in Hentry as ([k t] & Hin & Heq).
  unfold entry_eqb in Heq. cbn [fst snd] in Heq.
  apply andb_true_iff in Heq as [Hk' Ht'].
  apply String.eqb_eq in Hk' as ->. apply String.eqb_eq in Ht' as ->.
  exact Hin.
Qed.

Lemma keyword_translation_round_trip_witness :
  In ("hindi", hindi) LANGUAGES /\
  In ("tamil", tamil) LANGUAGES /\
  In ("while", "jab_tak") (keywords hindi) /\
  exists translated,
    In ("while", translated) (keywords tamil) /\
    getKeywordTranslation "jab_tak" "hindi" "tamil" = Text translated /\
    getKeywordTranslation translated "tamil" "hindi" = Text "jab_tak".
Proof.
  assert (H1 : In ("hindi", hindi) LANGUAGES) by (cbn; tauto).
  assert (H2 : In ("tamil", tamil) LANGUAGES) by (cbn; tauto).
  assert (H3 : In ("while", "jab_tak") (keywords hindi)) by (cbn; tauto).
  split; [exact H1|]. split; [exact H2|]. split; [exact H3|].
  exact (keyword_translation_round_trip hindi tamil "hindi" "tamil"
           "while" "jab_tak" H1 H2 H3).
Defined.

End Languages.

(** ** The menu of the editor *)

Section Editor.
Import Language App.

Ltac each_language H :=
  cbn in H;
  repeat (destruct H as [H|H];
          [apply pair_equal_spec in H as [<- <-]|]);
  [..|destruct H].

(** Choosing a language in the menu calls [handleLanguageChange] with
    the language's code. The language is then the current one, but the
    example put in the editor is always the English one: the table is
    read under the code, where it has nothing. *)
Theorem menu_choice_loads_the_English_example name language :
  In (name, language) LANGUAGES ->
  currentLanguage (code language) = language /\
  handleLanguageChange (code language)
  = Some {| selectedLanguage := code language;
            showLanguageDropdown := false;
            error := EmptyString;
            output := [];
            described := false;
            editor := getExampleCode english |}.
Proof.
  intros Hin. each_language Hin; split; reflexivity.
Qed.

Lemma menu_choice_loads_the_English_example_witness :
  In ("hindi", hindi) LANGUAGES /\
  currentLanguage (code hindi) = hindi /\
  handleLanguageChange (code hindi)
  = Some {| selectedLanguage := code hindi;
            showLanguageDropdown := false;
            error := EmptyString;
            output := [];
            described := false;
            editor := getExampleCode english |}.
Proof.
  assert (H : In ("hindi", hindi) LANGUAGES) by (cbn; tauto).
  split; [exact H|].
  exact (menu_choice_loads_the_English_example "hindi" hindi H).
Defined.

(** The example of each language, compiled and run in that language,
    prints the sum and the first message, with no error. *)
Theorem example_runs_in_its_language name language fuel :
  In (name, language) LANGUAGES ->
  (40 <= fuel)%nat ->
  runSource fuel language (getExampleCode language)
  = Executed {| VM.result_output := ["30"; "Sum is greater than 25"];
                VM.error := None |}.
Proof.
  intros Hin Hfuel.
  replace fuel with (40 + (fuel - 40))%nat by lia.
  apply runSource_fuel_mono.
  each_language Hin; vm_compute; reflexivity.
Qed.

Lemma example_runs_in_its_language_witness :
  In ("tamil", tamil) LANGUAGES /\
  (40 <= 40)%nat /\
  runSource 40 tamil (getExampleCode tamil)
  = Executed {| VM.result_output := ["30"; "Sum is greater than 25"];
                VM.error := None |}.
Proof.
  assert (H : In ("tamil", tamil) LANGUAGES) by (cbn; tauto).
  split; [exact H|]. split; [lia|].
  apply (example_runs_in_its_language "tamil" tamil 40 H). lia.
Defined.

(** After any language but English is chosen in the menu, running what
    the editor holds fails: the English example is read with the words
    of the chosen language, where [var] is an identifier, and the parser
    stops at [x], on line 1. *)
Theorem after_a_menu_choice_the_example_fails name language state fuel :
  In (name, language) LANGUAGES ->
  name <> "english" ->
  handleLanguageChange (code language) = Some state ->
  runSource fuel (currentLanguage (selectedLanguage state)) (editor state)
  = SyntaxError "Expected ';' after expression"
      (on_first_line Lexer.IDENTIFIER "x" 5).
Proof.
  intros Hin Hname Hstate.
  each_language Hin; try (exfalso; apply Hname; reflexivity);
    vm_compute in Hstate; injection Hstate as <-; vm_compute; reflexivity.
Qed.

Lemma after_a_menu_choice_the_example_fails_witness :
  In ("hindi", hindi) LANGUAGES /\
  "hindi" <> "english" /\
  handleLanguageChange (code hindi)
  = Some {| selectedLanguage := code hindi;
            showLanguageDropdown := false;
            error := EmptyString;
            output := [];
            described := false;
            editor := getExampleCode english |} /\
  runSource 0 (currentLanguage (code hindi)) (getExampleCode english)
  = SyntaxError "Expected ';' after expression"
      (on_first_line Lexer.IDENTIFIER "x" 5).
Proof.
  assert (H1 : In ("hindi", hindi) LANGUAGES) by (cbn; tauto).
  assert (H2 : "hindi" <> "english") by discriminate.
  assert (H3 : handleLanguageChange (code hindi)
               = Some {| selectedLanguage := code hindi;
                         showLanguageDropdown := false;
                         error := EmptyString;
                         output := [];
                         described := false;
                         editor := getExampleCode english |}) by reflexivity.
  split; [exact H1|]. split; [exact H2|]. split; [exact H3|].
  exact (after_a_menu_choice_the_example_fails "hindi" hindi _ 0 H1 H2 H3).
Defined.

End Editor.

(** ** Simple programs fail by division by zero only *)

Section SimpleCode.
Import Bytecode.














End SimpleCode.

Section SimpleRuns.
Import Bytecode VM.







End SimpleRuns.

(** ** The shape of what is parsed *)

Section ParsedShapes.
Import Lexer AST Parser.
Local Open Scope nat_scope.

(** Written without parentheses, [x o1 y o2 z] is grouped by the
    binding of the two operators: to the left when the first binds at
    least as tightly as the second, so that operators of one rank
    associate to the left, and to the right otherwise. The ranks are, from
    the loosest, [||], [&&], [== !=], [< > <= >=], [+ -], [* / %]. *)
Theorem binary_operators_group_by_binding tokens first second rank1 rank2 :
  List.map type tokens
  = [IDENTIFIER; first; IDENTIFIER; second; IDENTIFIER; SEMICOLON; EOF] ->
  binding first = Some rank1 ->
  binding second = Some rank2 ->
  parse tokens
  = Ok (one_expression
          (if rank2 <=? rank1 then
             BinaryExpression
               (BinaryExpression (named 0 tokens) (text 1 tokens) (named 2 tokens))
               (text 3 tokens) (named 4 tokens)
           else
             BinaryExpression (named 0 tokens) (text 1 tokens)
               (BinaryExpression (named 2 tokens) (text 3 tokens)
                                 (named 4 tokens))))
       6.
Proof.
  intros Htypes H1 H2.
  do 8 (destruct tokens as [|[? ? ? ?] tokens]; try discriminate Htypes).
  cbn [List.map type] in Htypes.
  injection Htypes as -> -> -> -> -> -> ->.
  destruct first; try discriminate H1; injection H1 as <-;
    destruct second; try discriminate H2; injection H2 as <-;
    vm_compute; reflexivity.
Qed.

Lemma binary_operators_group_by_binding_witness :
  List.map type [word "a"; sign MINUS "-"; word "b"; sign MINUS "-"; word "c";
                 sign SEMICOLON ";"; sign EOF EmptyString]
  = [IDENTIFIER; MINUS; IDENTIFIER; MINUS; IDENTIFIER; SEMICOLON; EOF] /\
  binding MINUS = Some 5 /\
  parse [word "a"; sign MINUS "-"; word "b"; sign MINUS "-"; word "c";
         sign SEMICOLON ";"; sign EOF EmptyString]
  = Ok (one_expression
          (BinaryExpression
             (BinaryExpression (Identifier "a") "-" (Identifier "b"))
             "-" (Identifier "c")))
       6.
Proof.
  split; [reflexivity|]. split; [reflexivity|].
  exact (binary_operators_group_by_binding
           [word "a"; sign MINUS "-"; word "b"; sign MINUS "-"; word "c";
            sign SEMICOLON ";"; sign EOF EmptyString]
           MINUS MINUS 5 5 eq_refl eq_refl eq_refl).
Defined.

(** Assignment associates to the right and binds more loosely than any
    binary operator: [x = y = z o w] is [x = (y = (z o w))]. When what
    stands left of [=] is not a single name, the [ParseError] is thrown
    after the right-hand side was read, and the token it reports is the
    last token of the right-hand side. *)
Theorem assignment_groups_to_the_right tokens operator rank :
  binding operator = Some rank ->
  (List.map type tokens
   = [IDENTIFIER; ASSIGN; IDENTIFIER; ASSIGN; IDENTIFIER; operator;
      IDENTIFIER; SEMICOLON; EOF] ->
   parse tokens
   = Ok (one_expression
           (AssignmentExpression (text 0 tokens)
              (AssignmentExpression (text 2 tokens)
                 (BinaryExpression (named 4 tokens) (text 5 tokens)
                                   (named 6 tokens)))))
        8) /\
  (List.map type tokens
   = [IDENTIFIER; operator; IDENTIFIER; ASSIGN; IDENTIFIER; SEMICOLON; EOF] ->
   parse tokens
   = ParseError "Invalid assignment target" (token 4 tokens) 5).
Proof.
  intros Hrank. split; intros Htypes.
  - do 10 (destruct tokens as [|[? ? ? ?] tokens]; try discriminate Htypes).
    cbn [List.map type] in Htypes.
    injection Htypes as -> -> -> -> -> -> -> -> ->.
    destruct operator; try discriminate Hrank; vm_compute; reflexivity.
  - do 8 (destruct tokens as [|[? ? ? ?] tokens]; try discriminate Htypes).
    cbn [List.map type] in Htypes.
    injection Htypes as -> -> -> -> -> -> ->.
    destruct operator; try discriminate Hrank; vm_compute; reflexivity.
Qed.

Lemma assignment_groups_to_the_right_witness :
  binding PLUS = Some 5 /\
  parse [word "x"; sign ASSIGN "="; word "y"; sign ASSIGN "=";
         word "z"; sign PLUS "+"; word "w"; sign SEMICOLON ";";
         sign EOF EmptyString]
  = Ok (one_expression
          (AssignmentExpression "x"
             (AssignmentExpression "y"
                (BinaryExpression (Identifier "z") "+" (Identifier "w")))))
       8 /\
  parse [word "x"; sign PLUS "+"; word "y"; sign ASSIGN "="; word "z";
         sign SEMICOLON ";"; sign EOF EmptyString]
  = ParseError "Invalid assignment target" (word "z") 5.
Proof.
  split; [reflexivity|]. split.
  - exact (proj1 (assignment_groups_to_the_right
                    [word "x"; sign ASSIGN "="; word "y"; sign ASSIGN "=";
                     word "z"; sign PLUS "+"; word "w"; sign SEMICOLON ";";
                     sign EOF EmptyString]
                    PLUS 5 eq_refl) eq_refl).
  - exact (proj2 (assignment_groups_to_the_right
                    [word "x"; sign PLUS "+"; word "y"; sign ASSIGN "=";
                     word "z"; sign SEMICOLON ";"; sign EOF EmptyString]
                    PLUS 5 eq_refl) eq_refl).
Defined.

(** A prefix operator binds more tightly than any binary operator and
    more loosely than a call: [- f ( x ) o y] is [(- (f(x))) o y]. *)
Theorem prefix_operators_bind_between_calls_and_binary_operators
    tokens prefix operator rank :
  List.map type tokens
  = [prefix; IDENTIFIER; LPAREN; IDENTIFIER; RPAREN; operator; IDENTIFIER;
     SEMICOLON; EOF] ->
  prefix = NOT \/ prefix = MINUS ->
  binding operator = Some rank ->
  parse tokens
  = Ok (one_expression
          (BinaryExpression
             (UnaryExpression (text 0 tokens)
                (CallExpression (named 1 tokens) [named 3 tokens]))
             (text 5 tokens) (named 6 tokens)))
       8.
Proof.
  intros Htypes Hprefix Hrank.
  do 10 (destruct tokens as [|[? ? ? ?] tokens]; try discriminate Htypes).
  cbn [List.map type] in Htypes.
  injection Htypes as -> -> -> -> -> -> -> -> ->.
  destruct Hprefix as [->| ->];
    destruct operator; try discriminate Hrank; vm_compute; reflexivity.
Qed.

Lemma prefix_operators_bind_witness :
  List.map type [sign MINUS "-"; word "f"; sign LPAREN "("; word "x";
                 sign RPAREN ")"; sign MULTIPLY "*"; word "y";
                 sign SEMICOLON ";"; sign EOF EmptyString]
  = [MINUS; IDENTIFIER; LPAREN; IDENTIFIER; RPAREN; MULTIPLY; IDENTIFIER;
     SEMICOLON; EOF] /\
  (MINUS = NOT \/ MINUS = MINUS) /\
  binding MULTIPLY = Some 6 /\
  parse [sign MINUS "-"; word "f"; sign LPAREN "("; word "x";
         sign RPAREN ")"; sign MULTIPLY "*"; word "y";
         sign SEMICOLON ";"; sign EOF EmptyString]
  = Ok (one_expression
          (BinaryExpression
             (UnaryExpression "-"
                (CallExpression (Identifier "f") [Identifier "x"]))
             "*" (Identifier "y")))
       8.
Proof.
  split; [reflexivity|]. split; [right; reflexivity|]. split; [reflexivity|].
  exact (prefix_operators_bind_between_calls_and_binary_operators
           [sign MINUS "-"; word "f"; sign LPAREN "("; word "x";
            sign RPAREN ")"; sign MULTIPLY "*"; word "y";
            sign SEMICOLON ";"; sign EOF EmptyString]
           MINUS MULTIPLY 6 eq_refl (or_intror eq_refl) eq_refl).
Defined.

(** An [else] belongs to the nearest [if]:
    [if (c) if (d) a; else b;] is [if (c) { if (d) a; else b; }]. *)
Theorem else_belongs_to_the_nearest_if tokens :
  List.map type tokens
  = [IF; LPAREN; IDENTIFIER; RPAREN; IF; LPAREN; IDENTIFIER; RPAREN;
     IDENTIFIER; SEMICOLON; ELSE; IDENTIFIER; SEMICOLON; EOF] ->
  parse tokens
  = Ok {| statements :=
            [IfStatement (named 2 tokens)
               (IfStatement (named 6 tokens)
                  (ExpressionStatement (named 8 tokens))
                  (Some (ExpressionStatement (named 11 tokens))))
               None] |}
       13.
Proof.
  intros Htypes.
  do 15 (destruct tokens as [|[? ? ? ?] tokens]; try discriminate Htypes).
  cbn [List.map type] in Htypes.
  injection Htypes as -> -> -> -> -> -> -> -> -> -> -> -> -> ->.
  vm_compute. reflexivity.
Qed.

Lemma else_belongs_to_the_nearest_if_witness :
  List.map type
    [sign IF "if"; sign LPAREN "("; word "c"; sign RPAREN ")";
     sign IF "if"; sign LPAREN "("; word "d"; sign RPAREN ")";
     word "a"; sign SEMICOLON ";"; sign ELSE "else"; word "b";
     sign SEMICOLON ";"; sign EOF EmptyString]
  = [IF; LPAREN; IDENTIFIER; RPAREN; IF; LPAREN; IDENTIFIER; RPAREN;
     IDENTIFIER; SEMICOLON; ELSE; IDENTIFIER; SEMICOLON; EOF] /\
  parse
    [sign IF "if"; sign LPAREN "("; word "c"; sign RPAREN ")";
     sign IF "if"; sign LPAREN "("; word "d"; sign RPAREN ")";
     word "a"; sign SEMICOLON ";"; sign ELSE "else"; word "b";
     sign SEMICOLON ";"; sign EOF EmptyString]
  = Ok {| statements :=
            [IfStatement (Identifier "c")
               (IfStatement (Identifier "d")
                  (ExpressionStatement (Identifier "a"))
                  (Some (ExpressionStatement (Identifier "b"))))
               None] |}
       13.
Proof.
  split; [reflexivity|].
  exact (else_belongs_to_the_nearest_if
           [sign IF "if"; sign LPAREN "("; word "c"; sign RPAREN ")";
            sign IF "if"; sign LPAREN "("; word "d"; sign RPAREN ")";
            word "a"; sign SEMICOLON ";"; sign ELSE "else"; word "b";
            sign SEMICOLON ";"; sign EOF EmptyString]
           eq_refl).
Defined.

End ParsedShapes.

(** ** The generator on a bounded call stack *)

Section GeneratorOnStack.
Import AST Bytecode.
Local Open Scope nat_scope.

Lemma accept_visit (node : ASTNode) :
  accept node = Host.Generator.visit accept node.
Proof. destruct node; reflexivity. Qed.

Lemma or_exhausted_refl {A} (m : M A) : or_exhausted m m.
Proof. intros g. right. reflexivity. Qed.

Lemma or_exhausted_bind {A B} (m' m : M A) (k' k : A -> M B) :
  or_exhausted m' m -> (forall a, or_exhausted (k' a) (k a)) ->
  or_exhausted (bind m' k') (bind m k).
Proof.
  intros Hm Hk g. unfold bind. destruct (Hm g) as [-> | ->].
  - left. reflexivity.
  - destruct (m g) as [a g'|message]; [apply Hk|right; reflexivity].
Qed.

Lemma or_exhausted_forEach {A} (visit' visit : A -> M unit) (xs : list A) :
  (forall x, or_exhausted (visit' x) (visit x)) ->
  or_exhausted (forEach visit' xs) (forEach visit xs).
Proof.
  intros H. induction xs as [|x xs IH]; cbn [forEach].
  - apply or_exhausted_refl.
  - apply or_exhausted_bind; [apply H|intros _; exact IH].
Qed.

Ltac exhausted_step IH :=
  first
    [ apply IH
    | apply or_exhausted_forEach; intros ?
    | apply or_exhausted_bind; [|intros ?]
    | apply or_exhausted_refl ].

(** A visit on a bounded stack does what the visit does, or throws the
    [RangeError]. *)
Lemma accept_or_exhausted (stack : nat) :
  forall node, or_exhausted (Host.Generator.accept stack node) (accept node).
Proof.
  induction stack as [|s IH]; intros node.
  { intros g. left. reflexivity. }
  cbn [Host.Generator.accept]. rewrite accept_visit.
  destruct node as [identifier [init|]|name parameters body
                   |condition thenStatement [els|]|condition body
                   |[init|] [cond|] [inc|] body|[v|]|expression
                   |lhs operator rhs|operator operand|callee args|name
                   |value type|identifier value|statements];
    cbn [Host.Generator.visit];
    try (destruct (is_ExpressionStatement init));
    try (destruct callee; try destruct (is_print_name _);
         try destruct (is_input_name _));
    repeat exhausted_step IH.
Qed.

Lemma list_max_bound (l : list nat) (n k : nat) :
  list_max l <= n -> In k l -> k <= n.
Proof.
  intros H Hin. apply list_max_le in H.
  rewrite List.Forall_forall in H. exact (H k Hin).
Qed.

Lemma forEach_same {A} (visit' visit : A -> M unit) (xs : list A) :
  (forall x, In x xs -> forall g, visit' x g = visit x g) ->
  forall g, forEach visit' xs g = forEach visit xs g.
Proof.
  induction xs as [|x xs IH]; intros H g; cbn [forEach]; [reflexivity|].
  unfold bind. rewrite (H x) by (left; reflexivity).
  destruct (visit x g); [|reflexivity].
  apply IH. intros y Hy. apply H. right. exact Hy.
Qed.

Lemma bind_same {A B} (m' m : M A) (k' k : A -> M B) g :
  m' g = m g -> (forall a g', k' a g' = k a g') -> bind m' k' g = bind m k g.
Proof.
  intros Hm Hk. unfold bind. rewrite Hm. destruct (m g); [apply Hk|reflexivity].
Qed.

Ltac same_step IH :=
  first
    [ reflexivity
    | apply IH; lia
    | apply forEach_same; intros ? ? ?;
      apply IH;
      match goal with
      | Hin : In ?x ?l, Hle : context [list_max (List.map height ?l)] |- _ =>
          apply (list_max_bound (List.map height l)); [lia|apply in_map; exact Hin]
      end
    | apply bind_same; [|intros ? ?] ].

(** On a stack that holds the nesting of the tree, the visit is the
    visit. *)
Lemma accept_on_enough_stack (stack : nat) :
  forall node g,
    height node <= stack -> Host.Generator.accept stack node g = accept node g.
Proof.
  induction stack as [|s IH]; intros node g Hheight.
  { destruct node; cbn [height] in Hheight; lia. }
  cbn [Host.Generator.accept]. rewrite accept_visit.
  assert (IH' : forall n g', height n <= s ->
                  Host.Generator.accept s n g' = accept n g')
    by (intros; apply IH; assumption).
  clear IH. revert g.
  destruct node as [identifier [init|]|name parameters body
                   |condition thenStatement [els|]|condition body
                   |[init|] [cond|] [inc|] body|[v|]|expression
                   |lhs operator rhs|operator operand|callee args|name
                   |value type|identifier value|statements];
    cbn [height] in Hheight; cbn [Host.Generator.visit]; intros g;
    try (destruct (is_ExpressionStatement init));
    try (destruct callee; try destruct (is_print_name _);
         try destruct (is_input_name _));
    repeat same_step IH'.
Qed.

(** A visit on a stack does what it does on a deeper stack, or throws
    the [RangeError]. *)
Lemma accept_on_deeper_stack (stack : nat) :
  forall deeper node,
    stack <= deeper ->
    or_exhausted (Host.Generator.accept stack node)
                 (Host.Generator.accept deeper node).
Proof.
  induction stack as [|s IH]; intros deeper node Hle.
  { intros g. left. reflexivity. }
  destruct deeper as [|d]; [lia|].
  assert (IH' : forall node, or_exhausted (Host.Generator.accept s node)
                                          (Host.Generator.accept d node))
    by (intros; apply IH; lia).
  cbn [Host.Generator.accept].
  destruct node as [identifier [init|]|name parameters body
                   |condition thenStatement [els|]|condition body
                   |[init|] [cond|] [inc|] body|[v|]|expression
                   |lhs operator rhs|operator operand|callee args|name
                   |value type|identifier value|statements];
    cbn [Host.Generator.visit];
    try (destruct (is_ExpressionStatement init));
    try (destruct callee; try destruct (is_print_name _);
         try destruct (is_input_name _));
    repeat exhausted_step IH'.
Qed.

Lemma generate_on_deeper_stack (stack deeper : nat) (program : AST.Program) :
  stack <= deeper ->
  Host.Generator.generate stack program = Thrown Host.stack_exhausted \/
  Host.Generator.generate stack program
  = Host.Generator.generate deeper program.
Proof.
  intros Hle. unfold Host.Generator.generate.
  apply or_exhausted_bind; [|intros _; apply or_exhausted_refl].
  apply or_exhausted_forEach. intros node.
  apply accept_on_deeper_stack. exact Hle.
Qed.

Lemma generate_or_exhausted (stack : nat) (program : AST.Program) :
  Host.Generator.generate stack program = Thrown Host.stack_exhausted \/
  Host.Generator.generate stack program = generate program.
Proof.
  unfold Host.Generator.generate, generate, generate_from, visitProgram.
  apply or_exhausted_bind; [|intros _; apply or_exhausted_refl].
  apply or_exhausted_forEach. intros node. apply accept_or_exhausted.
Qed.

Lemma generate_on_enough_stack (stack : nat) (program : AST.Program) :
  nesting program <= stack ->
  Host.Generator.generate stack program = generate program.
Proof.
  intros Hnesting.
  unfold Host.Generator.generate, generate, generate_from, visitProgram.
  apply bind_same; [|reflexivity].
  apply forEach_same. intros node Hin g. apply accept_on_enough_stack.
  apply (list_max_bound (List.map height (statements program)));
    [exact Hnesting|apply in_map; exact Hin].
Qed.

(** What [generate] answers on a call stack of any depth. *)
Lemma generate_answers (stack : nat) (program : AST.Program) :
  match Host.Generator.generate stack program with
  | Done bytecode g => generate program = Done bytecode g
  | Thrown message =>
      (exists name, message = "Undefined variable: " +:+ name) \/
      (message = Host.stack_exhausted /\ stack < nesting program)
  end.
Proof.
  pose proof (generate_thorough program) as Hthorough.
  destruct (Nat.le_gt_cases (nesting program) stack) as [Hle|Hgt].
  - rewrite (generate_on_enough_stack stack program Hle).
    destruct (generate program) as [bytecode g|message];
      [reflexivity|left; exact Hthorough].
  - destruct (generate_or_exhausted stack program) as [-> | ->].
    + right. split; [reflexivity|exact Hgt].
    + destruct (generate program) as [bytecode g|message];
        [reflexivity|left; exact Hthorough].
Qed.

(** [generate] throws for two reasons only: a name that is neither a
    variable nor a function, and a tree nested deeper than the call stack
    of the host holds, which ends the recursion of the visits with the
    [RangeError]. No patch ever misses its jump. When the stack holds the
    nesting of the tree, its depth makes no difference. *)
Theorem generate_throws_for_undefined_names_or_deep_trees :
  forall (stack : nat) (program : AST.Program),
    (nesting program <= stack ->
     Host.Generator.generate stack program = generate program) /\
    (forall message,
       Host.Generator.generate stack program = Thrown message ->
       (exists name, message = "Undefined variable: " +:+ name) \/
       (message = Host.stack_exhausted /\ stack < nesting program)) /\
    (forall bytecode g,
       Host.Generator.generate stack program = Done bytecode g ->
       generate program = Done bytecode g).
Proof.
  intros stack program. split; [apply generate_on_enough_stack|].
  pose proof (generate_answers stack program) as H.
  split.
  - intros message Hthrown. rewrite Hthrown in H. exact H.
  - intros bytecode g Hdone. rewrite Hdone in H. exact H.
Qed.

Lemma generate_throws_witness :
  nesting print_one_plus_two = 4 /\
  Host.Generator.generate 3 print_one_plus_two = Thrown Host.stack_exhausted /\
  Host.Generator.generate 4 print_one_plus_two = generate print_one_plus_two /\
  Host.Generator.generate 2 undeclared = Thrown "Undefined variable: y" /\
  ((exists name, "Undefined variable: y" = "Undefined variable: " +:+ name) \/
   ("Undefined variable: y" = Host.stack_exhausted /\ 2 < nesting undeclared)).
Proof.
  split; [reflexivity|]. split; [vm_compute; reflexivity|].
  split.
  - exact (proj1 (generate_throws_for_undefined_names_or_deep_trees
                    4 print_one_plus_two) (le_n 4)).
  - split; [vm_compute; reflexivity|].
    exact (proj1 (proj2 (generate_throws_for_undefined_names_or_deep_trees
                           2 undeclared))
             "Undefined variable: y" eq_refl).
Defined.

End GeneratorOnStack.

(** ** The parser inside the array *)

Section InsideTheArray.
Import Lexer AST Host.Parser.
Local Open Scope nat_scope.
Variable tokens : list Token.
Variable last_token : Token.
Hypothesis Hlast : last tokens = Some last_token.
Hypothesis Heof : type last_token = EOF.

Local Abbreviation n := (length tokens).
Local Abbreviation tok pos := (nth pos tokens last_token).
Local Abbreviation peek := (Host.Parser.peek tokens).
Local Abbreviation previous := (Host.Parser.previous tokens).
Local Abbreviation isAtEnd := (Host.Parser.isAtEnd tokens).
Local Abbreviation advance := (Host.Parser.advance tokens).
Local Abbreviation check := (Host.Parser.check tokens).
Local Abbreviation match_ := (Host.Parser.match_ tokens).
Local Abbreviation consume := (Host.Parser.consume tokens).
Local Abbreviation synchronize_loop := (Host.Parser.synchronize_loop tokens).
Local Abbreviation synchronize := (Host.Parser.synchronize tokens).

(** *** The token functions, inside the array *)

Lemma token_at pos : pos < n -> tokens !! pos = Some (tok pos).
Proof.
  intros H. destruct (tokens !! pos) as [t|] eqn:Ht.
  - f_equal. symmetry. apply nth_lookup_Some with (d := last_token) in Ht.
    exact Ht.
  - apply lookup_ge_None in Ht. lia.
Qed.

Lemma next_in_array pos :
  pos < n -> TokenType_eqb (type (tok pos)) EOF = false -> S pos < n.
Proof.
  intros Hpos Hnot.
  destruct (Nat.eq_dec pos (n - 1)) as [->|]; [|lia].
  assert (Hend : tok (n - 1) = last_token).
  { apply last_Some in Hlast as [front ->].
    rewrite length_app. cbn [length].
    replace (length front + 1 - 1) with (length front) by lia.
    rewrite app_nth2 by lia. rewrite Nat.sub_diag. reflexivity. }
  rewrite Hend, Heof in Hnot. discriminate.
Qed.

Lemma accepted_next types pos :
  pos < n -> accepts types (tok pos) = true -> S pos < n.
Proof.
  intros Hpos H. apply next_in_array; [exact Hpos|].
  exact (accepts_not_at_end _ _ H).
Qed.

Lemma host_peek_eq pos : pos < n -> peek pos = Ok (Some (tok pos)) pos.
Proof. intros H. unfold Host.Parser.peek. rewrite (token_at pos H). reflexivity. Qed.

Lemma host_previous_eq pos :
  pos < n -> previous (S pos) = Ok (Some (tok pos)) (S pos).
Proof.
  intros H. unfold Host.Parser.previous. rewrite (token_at pos H). reflexivity.
Qed.

Lemma host_isAtEnd_eq pos :
  pos < n -> isAtEnd pos = Ok (TokenType_eqb (type (tok pos)) EOF) pos.
Proof.
  intros H. unfold Host.Parser.isAtEnd, bind. rewrite (host_peek_eq pos H).
  reflexivity.
Qed.

Lemma host_check_eq ty pos :
  pos < n -> check ty pos = Ok (accepts [ty] (tok pos)) pos.
Proof.
  intros H. unfold Host.Parser.check, bind. rewrite (host_isAtEnd_eq pos H).
  unfold accepts.
  destruct (TokenType_eqb (type (tok pos)) EOF); cbn [negb andb existsb].
  - reflexivity.
  - rewrite (host_peek_eq pos H). cbn. rewrite orb_false_r. reflexivity.
Qed.

Lemma host_advance_eq pos :
  pos < n -> TokenType_eqb (type (tok pos)) EOF = false ->
  advance pos = Ok (Some (tok pos)) (S pos).
Proof.
  intros H Hnot. unfold Host.Parser.advance, bind.
  rewrite (host_isAtEnd_eq pos H), Hnot. apply host_previous_eq. exact H.
Qed.

Lemma host_match_eq types pos :
  pos < n ->
  match_ types pos
  = Ok (accepts types (tok pos))
       (if accepts types (tok pos) then S pos else pos).
Proof.
  intros H. induction types as [|ty more IH]; cbn [Host.Parser.match_].
  - unfold ret, accepts. cbn [existsb]. rewrite andb_false_r. reflexivity.
  - unfold bind. rewrite (host_check_eq ty pos H).
    destruct (accepts [ty] (tok pos)) eqn:Hty.
    + rewrite (host_advance_eq pos H (accepts_not_at_end _ _ Hty)). unfold ret.
      assert (accepts (ty :: more) (tok pos) = true) as ->; [|reflexivity].
      unfold accepts in *. cbn [existsb] in *.
      destruct (TokenType_eqb (type (tok pos)) EOF); [discriminate|].
      cbn [negb andb] in *. rewrite orb_false_r in Hty. rewrite Hty. reflexivity.
    + rewrite IH.
      assert (accepts (ty :: more) (tok pos) = accepts more (tok pos)) as ->;
        [|reflexivity].
      unfold accepts in *. cbn [existsb] in *.
      destruct (TokenType_eqb (type (tok pos)) EOF); [reflexivity|].
      cbn [negb andb] in *. rewrite orb_false_r in Hty. rewrite Hty. reflexivity.
Qed.

Lemma host_consume_eq ty message pos :
  pos < n ->
  consume ty message pos
  = if accepts [ty] (tok pos) then Ok (Some (tok pos)) (S pos)
    else ParseError message (Some (tok pos)) pos.
Proof.
  intros H. unfold Host.Parser.consume, bind. rewrite (host_check_eq ty pos H).
  destruct (accepts [ty] (tok pos)) eqn:Hty.
  - apply host_advance_eq; [exact H|]. exact (accepts_not_at_end _ _ Hty).
  - rewrite (host_peek_eq pos H). reflexivity.
Qed.

(** *** [synchronize] *)

Lemma host_synchronize_loop (turns : nat) :
  forall pos,
    pos < n ->
    0 < pos \/ TokenType_eqb (type (tok pos)) EOF = true ->
    n - 1 - pos < turns ->
    exists pos', synchronize_loop turns pos = Ok tt pos'.
Proof.
  induction turns as [|turns IH]; intros pos Hpos Hstart Hturns; [lia|].
  cbn [Host.Parser.synchronize_loop]. unfold bind at 1.
  rewrite (host_isAtEnd_eq pos Hpos).
  destruct (TokenType_eqb (type (tok pos)) EOF) eqn:Hend;
    [eexists; reflexivity|].
  destruct pos as [|before]; [destruct Hstart; [lia|discriminate]|].
  unfold bind at 1. rewrite (host_previous_eq before) by lia.
  unfold bind at 1. cbn [property].
  destruct (TokenType_eqb (type (tok before)) SEMICOLON);
    [eexists; reflexivity|].
  unfold bind at 1. rewrite (host_peek_eq (S before) Hpos).
  unfold bind at 1. cbn [property].
  destruct (is_statement_start (type (tok (S before)))); [eexists; reflexivity|].
  unfold bind at 1. rewrite (host_advance_eq (S before) Hpos Hend).
  pose proof (next_in_array (S before) Hpos Hend).
  apply IH; [lia|left; lia|lia].
Qed.

Lemma host_synchronize pos :
  pos < n -> exists pos', synchronize pos = Ok tt pos'.
Proof.
  intros Hpos. unfold Host.Parser.synchronize, bind at 1.
  unfold Host.Parser.advance, bind. rewrite (host_isAtEnd_eq pos Hpos).
  destruct (TokenType_eqb (type (tok pos)) EOF) eqn:Hend; cbn [ret].
  - unfold Host.Parser.previous.
    apply host_synchronize_loop; [exact Hpos|right; exact Hend|lia].
  - pose proof (next_in_array pos Hpos Hend).
    rewrite (host_previous_eq pos Hpos).
    apply host_synchronize_loop; [lia|left; lia|lia].
Qed.

End InsideTheArray.

(** ** A deeper stack *)

Section DeeperStack.
Import Lexer AST Host.Parser.
Local Open Scope nat_scope.
Variable tokens : list Token.

Lemma or_range_refl {A} (m : M A) : or_range m m.
Proof. intros pos. right. reflexivity. Qed.

Lemma or_range_bind {A B} (m' m : M A) (k' k : A -> M B) :
  or_range m' m -> (forall a, or_range (k' a) (k a)) ->
  or_range (bind m' k') (bind m k).
Proof.
  intros Hm Hk pos. unfold bind. destruct (Hm pos) as [-> | ->].
  - left. reflexivity.
  - destruct (m pos); try (right; reflexivity). apply Hk.
Qed.

Ltac range_step :=
  first
    [ assumption
    | apply or_range_refl
    | apply or_range_bind; [|intros ?]
    | match goal with
      | |- or_range (if ?b then _ else _) (if ?b then _ else _) => destruct b
      end ].

Lemma deeper_binary_loop types (operand' operand : M ASTNode) (turns : nat) :
  or_range operand' operand ->
  forall expr,
    or_range (binary_loop tokens types operand' turns expr)
             (binary_loop tokens types operand turns expr).
Proof.
  intros Hoperand. induction turns as [|turns IH]; intros expr;
    cbn [binary_loop]; [apply or_range_refl|].
  repeat range_step. apply IH.
Qed.

Lemma deeper_binary types (operand' operand : M ASTNode) :
  or_range operand' operand ->
  or_range (binary tokens types operand') (binary tokens types operand).
Proof.
  intros Hoperand. unfold binary. apply or_range_bind; [exact Hoperand|].
  intros expr. apply deeper_binary_loop. exact Hoperand.
Qed.

Lemma deeper_comma_loop {A} (element' element : M A) (turns : nat) :
  or_range element' element ->
  or_range (comma_loop tokens element' turns) (comma_loop tokens element turns).
Proof.
  intros Helement. induction turns as [|turns IH];
    cbn [comma_loop]; [apply or_range_refl|].
  repeat range_step.
Qed.

Lemma deeper_block_loop (declaration' declaration_ : M ASTNode) (turns : nat) :
  or_range declaration' declaration_ ->
  or_range (block_loop tokens declaration' turns)
           (block_loop tokens declaration_ turns).
Proof.
  intros Hdecl. induction turns as [|turns IH];
    cbn [block_loop]; [apply or_range_refl|].
  repeat range_step.
Qed.

Lemma deeper_finishCall (expression' expression_ : M ASTNode) callee :
  or_range expression' expression_ ->
  or_range (finishCall tokens expression' callee)
           (finishCall tokens expression_ callee).
Proof.
  intros Hexpr. unfold finishCall.
  pose proof (deeper_comma_loop expression' expression_ (length tokens) Hexpr).
  repeat range_step.
Qed.

Lemma deeper_call_loop (expression' expression_ : M ASTNode) (turns : nat) :
  or_range expression' expression_ ->
  forall expr,
    or_range (call_loop tokens expression' turns expr)
             (call_loop tokens expression_ turns expr).
Proof.
  intros Hexpr. induction turns as [|turns IH]; intros expr;
    cbn [call_loop]; [apply or_range_refl|].
  apply or_range_bind; [apply or_range_refl|]. intros m.
  destruct m; [|apply or_range_refl].
  apply or_range_bind; [apply deeper_finishCall; exact Hexpr|].
  intros expr'. apply IH.
Qed.

Lemma deeper_varDeclaration (expression' expression_ : M ASTNode) :
  or_range expression' expression_ ->
  or_range (varDeclaration tokens expression')
           (varDeclaration tokens expression_).
Proof. intros Hexpr. unfold varDeclaration. repeat range_step. Qed.

Lemma deeper_expressionStatement (expression' expression_ : M ASTNode) :
  or_range expression' expression_ ->
  or_range (expressionStatement tokens expression')
           (expressionStatement tokens expression_).
Proof. intros Hexpr. unfold expressionStatement. repeat range_step. Qed.

Lemma deeper_functionDeclaration (declaration' declaration_ : M ASTNode) :
  or_range declaration' declaration_ ->
  or_range (functionDeclaration tokens declaration')
           (functionDeclaration tokens declaration_).
Proof.
  intros Hdecl. unfold functionDeclaration.
  pose proof (deeper_block_loop declaration' declaration_ (length tokens) Hdecl).
  repeat range_step.
Qed.

Lemma deeper_ifStatement (expression' expression_ statement' statement_ : M ASTNode) :
  or_range expression' expression_ -> or_range statement' statement_ ->
  or_range (ifStatement tokens expression' statement')
           (ifStatement tokens expression_ statement_).
Proof. intros Hexpr Hstmt. unfold ifStatement. repeat range_step. Qed.

Lemma deeper_whileStatement
    (expression' expression_ statement' statement_ : M ASTNode) :
  or_range expression' expression_ -> or_range statement' statement_ ->
  or_range (whileStatement tokens expression' statement')
           (whileStatement tokens expression_ statement_).
Proof. intros Hexpr Hstmt. unfold whileStatement. repeat range_step. Qed.

Lemma deeper_forStatement
    (expression' expression_ statement' statement_ : M ASTNode) :
  or_range expression' expression_ -> or_range statement' statement_ ->
  or_range (forStatement tokens expression' statement')
           (forStatement tokens expression_ statement_).
Proof.
  intros Hexpr Hstmt. unfold forStatement.
  pose proof (deeper_varDeclaration expression' expression_ Hexpr).
  pose proof (deeper_expressionStatement expression' expression_ Hexpr).
  repeat range_step.
Qed.

Lemma deeper_returnStatement (expression' expression_ : M ASTNode) :
  or_range expression' expression_ ->
  or_range (returnStatement tokens expression')
           (returnStatement tokens expression_).
Proof. intros Hexpr. unfold returnStatement. repeat range_step. Qed.

Lemma deeper_blockStatement (declaration' declaration_ : M ASTNode) :
  or_range declaration' declaration_ ->
  or_range (blockStatement tokens declaration')
           (blockStatement tokens declaration_).
Proof.
  intros Hdecl. unfold blockStatement.
  pose proof (deeper_block_loop declaration' declaration_ (length tokens) Hdecl).
  repeat range_step.
Qed.

Ltac grammar_range_step :=
  first
    [ apply deeper_varDeclaration; assumption
    | apply deeper_functionDeclaration; assumption
    | apply deeper_ifStatement; assumption
    | apply deeper_whileStatement; assumption
    | apply deeper_forStatement; assumption
    | apply deeper_returnStatement; assumption
    | apply deeper_blockStatement; assumption
    | apply deeper_expressionStatement; assumption
    | range_step ].

(** On a deeper stack every function of the grammar does what it does on
    the stack, unless that is the [RangeError]. *)
Lemma deeper_grammar (stack : nat) :
  forall deeper,
    stack <= deeper ->
    Forall2 (fun g' g => fst g' = fst g /\ or_range (snd g') (snd g))
      (grammar_on tokens stack) (grammar_on tokens deeper).
Proof.
  induction stack as [|s IH]; intros deeper Hle.
  { unfold grammar_on.
    repeat (constructor; [split; [reflexivity|intros pos; left; reflexivity]|]).
    constructor. }
  destruct deeper as [|d]; [lia|].
  specialize (IH d ltac:(lia)). unfold grammar_on in IH.
  repeat match goal with
         | H : Forall2 _ (_ :: _) (_ :: _) |- _ =>
             apply Forall2_cons_1 in H as [[_ ?] H]
         end.
  cbn [snd] in *.
  unfold grammar_on.
  repeat (constructor; [split; [reflexivity|]|]); [..|constructor]; cbn [snd].
  - change (or_range
              (bind (match_ tokens [VAR])
                 (fun v =>
                  if v then varDeclaration tokens (expression tokens s)
                  else bind (match_ tokens [FUNCTION])
                         (fun fn =>
                          if fn then functionDeclaration tokens (declaration tokens s)
                          else statement tokens s)))
              (bind (match_ tokens [VAR])
                 (fun v =>
                  if v then varDeclaration tokens (expression tokens d)
                  else bind (match_ tokens [FUNCTION])
                         (fun fn =>
                          if fn then functionDeclaration tokens (declaration tokens d)
                          else statement tokens d)))).
    repeat grammar_range_step.
  - change (or_range
              (bind (match_ tokens [IF])
                 (fun i =>
                  if i then ifStatement tokens (expression tokens s) (statement tokens s)
                  else bind (match_ tokens [WHILE])
                    (fun w =>
                     if w then whileStatement tokens (expression tokens s)
                                 (statement tokens s)
                     else bind (match_ tokens [FOR])
                       (fun fo =>
                        if fo then forStatement tokens (expression tokens s)
                                     (statement tokens s)
                        else bind (match_ tokens [RETURN])
                          (fun r =>
                           if r then returnStatement tokens (expression tokens s)
                           else bind (match_ tokens [LBRACE])
                             (fun b =>
                              if b then blockStatement tokens (declaration tokens s)
                              else expressionStatement tokens
                                     (expression tokens s)))))))
              (bind (match_ tokens [IF])
                 (fun i =>
                  if i then ifStatement tokens (expression tokens d) (statement tokens d)
                  else bind (match_ tokens [WHILE])
                    (fun w =>
                     if w then whileStatement tokens (expression tokens d)
                                 (statement tokens d)
                     else bind (match_ tokens [FOR])
                       (fun fo =>
                        if fo then forStatement tokens (expression tokens d)
                                     (statement tokens d)
                        else bind (match_ tokens [RETURN])
                          (fun r =>
                           if r then returnStatement tokens (expression tokens d)
                           else bind (match_ tokens [LBRACE])
                             (fun b =>
                              if b then blockStatement tokens (declaration tokens d)
                              else expressionStatement tokens
                                     (expression tokens d)))))))).
    repeat grammar_range_step.
  - change (or_range (assignment tokens s) (assignment tokens d)). assumption.
  - change (or_range
              (bind (or_ tokens s)
                 (fun expr =>
                  bind (match_ tokens [ASSIGN])
                    (fun m =>
                     if m then
                       bind (assignment tokens s)
                         (fun value_ =>
                          match expr with
                          | Identifier name =>
                              ret (AssignmentExpression name value_)
                          | _ => bind (previous tokens)
                                   (fun p => throw "Invalid assignment target" p)
                          end)
                     else ret expr)))
              (bind (or_ tokens d)
                 (fun expr =>
                  bind (match_ tokens [ASSIGN])
                    (fun m =>
                     if m then
                       bind (assignment tokens d)
                         (fun value_ =>
                          match expr with
                          | Identifier name =>
                              ret (AssignmentExpression name value_)
                          | _ => bind (previous tokens)
                                   (fun p => throw "Invalid assignment target" p)
                          end)
                     else ret expr)))).
    repeat range_step.
  - change (or_range (binary tokens [OR] (and_ tokens s))
                     (binary tokens [OR] (and_ tokens d))).
    apply deeper_binary. assumption.
  - change (or_range (binary tokens [AND] (equality tokens s))
                     (binary tokens [AND] (equality tokens d))).
    apply deeper_binary. assumption.
  - change (or_range (binary tokens [NOT_EQUAL; EQUAL] (comparison tokens s))
                     (binary tokens [NOT_EQUAL; EQUAL] (comparison tokens d))).
    apply deeper_binary. assumption.
  - change (or_range
              (binary tokens [GREATER_THAN; GREATER_EQUAL; LESS_THAN; LESS_EQUAL]
                 (term tokens s))
              (binary tokens [GREATER_THAN; GREATER_EQUAL; LESS_THAN; LESS_EQUAL]
                 (term tokens d))).
    apply deeper_binary. assumption.
  - change (or_range (binary tokens [MINUS; PLUS] (factor tokens s))
                     (binary tokens [MINUS; PLUS] (factor tokens d))).
    apply deeper_binary. assumption.
  - change (or_range (binary tokens [DIVIDE; MULTIPLY; MODULO] (unary tokens s))
                     (binary tokens [DIVIDE; MULTIPLY; MODULO] (unary tokens d))).
    apply deeper_binary. assumption.
  - change (or_range
              (bind (match_ tokens [NOT; MINUS])
                 (fun m =>
                  if m then
                    bind (previous tokens)
                      (fun p =>
                       bind (property value p)
                         (fun operator =>
                          bind (unary tokens s)
                            (fun right => ret (UnaryExpression operator right))))
                  else call tokens s))
              (bind (match_ tokens [NOT; MINUS])
                 (fun m =>
                  if m then
                    bind (previous tokens)
                      (fun p =>
                       bind (property value p)
                         (fun operator =>
                          bind (unary tokens d)
                            (fun right => ret (UnaryExpression operator right))))
                  else call tokens d))).
    repeat range_step.
  - change (or_range
              (bind (primary tokens s)
                 (fun expr => call_loop tokens (expression tokens s)
                                (length tokens) expr))
              (bind (primary tokens d)
                 (fun expr => call_loop tokens (expression tokens d)
                                (length tokens) expr))).
    apply or_range_bind; [assumption|]. intros expr.
    apply deeper_call_loop. assumption.
  - change (or_range
      (bind (match_ tokens [TRUE])
        (fun t =>
         if t then ret (Literal (JS.VBool true) boolean)
         else bind (match_ tokens [FALSE])
           (fun fa =>
            if fa then ret (Literal (JS.VBool false) boolean)
            else bind (match_ tokens [NULL])
              (fun n_ =>
               if n_ then ret (Literal JS.VNull null)
               else bind (match_ tokens [NUMBER])
                 (fun nu =>
                  if nu then
                    bind (previous tokens)
                      (fun p =>
                       bind (property value p)
                         (fun lexeme =>
                          ret (Literal (JS.VNum (JS.parseFloat lexeme)) number)))
                  else bind (match_ tokens [STRING])
                    (fun st =>
                     if st then
                       bind (previous tokens)
                         (fun p =>
                          bind (property value p)
                            (fun text => ret (Literal (JS.VStr text) string_)))
                     else bind (match_ tokens [IDENTIFIER])
                       (fun i =>
                        if i then
                          bind (previous tokens)
                            (fun p =>
                             bind (property value p)
                               (fun name => ret (Identifier name)))
                        else bind (match_ tokens [LPAREN])
                          (fun l =>
                           if l then
                             bind (expression tokens s)
                               (fun expr =>
                                bind (consume tokens RPAREN
                                        "Expected ')' after expression")
                                  (fun _ => ret expr))
                           else bind (peek tokens)
                                  (fun tk => throw "Expected expression" tk)))))))))
      (bind (match_ tokens [TRUE])
        (fun t =>
         if t then ret (Literal (JS.VBool true) boolean)
         else bind (match_ tokens [FALSE])
           (fun fa =>
            if fa then ret (Literal (JS.VBool false) boolean)
            else bind (match_ tokens [NULL])
              (fun n_ =>
               if n_ then ret (Literal JS.VNull null)
               else bind (match_ tokens [NUMBER])
                 (fun nu =>
                  if nu then
                    bind (previous tokens)
                      (fun p =>
                       bind (property value p)
                         (fun lexeme =>
                          ret (Literal (JS.VNum (JS.parseFloat lexeme)) number)))
                  else bind (match_ tokens [STRING])
                    (fun st =>
                     if st then
                       bind (previous tokens)
                         (fun p =>
                          bind (property value p)
                            (fun text => ret (Literal (JS.VStr text) string_)))
                     else bind (match_ tokens [IDENTIFIER])
                       (fun i =>
                        if i then
                          bind (previous tokens)
                            (fun p =>
                             bind (property value p)
                               (fun name => ret (Identifier name)))
                        else bind (match_ tokens [LPAREN])
                          (fun l =>
                           if l then
                             bind (expression tokens d)
                               (fun expr =>
                                bind (consume tokens RPAREN
                                        "Expected ')' after expression")
                                  (fun _ => ret expr))
                           else bind (peek tokens)
                                  (fun tk => throw "Expected expression" tk)))))))))).
    repeat range_step.
Qed.

Lemma deeper_declaration (stack deeper : nat) :
  stack <= deeper ->
  or_range (declaration tokens stack) (declaration tokens deeper).
Proof.
  intros Hle. pose proof (deeper_grammar stack deeper Hle) as H.
  unfold grammar_on in H. apply Forall2_cons_1 in H as [[_ H] _]. exact H.
Qed.

Lemma deeper_parse_loop (stack deeper turns : nat) :
  stack <= deeper ->
  or_range (parse_loop tokens stack turns) (parse_loop tokens deeper turns).
Proof.
  intros Hle. induction turns as [|turns IH];
    cbn [parse_loop]; [apply or_range_refl|].
  apply or_range_bind; [apply or_range_refl|]. intros e.
  destruct e; [apply or_range_refl|]. intros pos.
  destruct (deeper_declaration stack deeper Hle pos) as [-> | ->];
    [left; reflexivity|].
  destruct (declaration tokens deeper pos) as [stmt pos'|message token at_| | |];
    try (right; reflexivity).
  apply (or_range_bind _ _ _ _ IH). intros more. apply or_range_refl.
Qed.

End DeeperStack.

(** ** The two readings of the parser agree *)

Section TwoReadings.
Import Lexer AST.
Local Open Scope nat_scope.
Variable tokens : list Token.
Variable last_token : Token.
Hypothesis Hlast : last tokens = Some last_token.
Hypothesis Heof : type last_token = EOF.

Local Abbreviation n := (length tokens).
Local Abbreviation tok pos := (nth pos tokens last_token).
Local Abbreviation ag := (agree tokens).
Local Abbreviation hbind := Host.Parser.bind.
Local Abbreviation pbind := Parser.bind.
Local Abbreviation hret := Host.Parser.ret.
Local Abbreviation pret := Parser.ret.

(** *** Rules *)

Lemma agree_bind {A A' B B'} (m' : Host.Parser.M A) (m : Parser.M A')
    (k' : A -> Host.Parser.M B) (k : A' -> Parser.M B') Q pos :
  ag m' m (fun a b pos' => ag (k' a) (k b) Q pos') pos ->
  ag (hbind m' k') (pbind m k) Q pos.
Proof.
  unfold agree, Host.Parser.bind, Parser.bind.
  destruct (m' pos), (m pos); try tauto.
  intros [<- H]. exact H.
Qed.

Lemma agree_mono {A B} (m' : Host.Parser.M A) (m : Parser.M B)
    (P Q : A -> B -> nat -> Prop) pos :
  ag m' m P pos -> (forall a b pos', P a b pos' -> Q a b pos') -> ag m' m Q pos.
Proof.
  unfold agree. destruct (m' pos), (m pos); try tauto.
  intros [<- H] HPQ. split; [reflexivity|]. apply HPQ. exact H.
Qed.

Lemma agree_ret {A B} (a : A) (b : B) (Q : A -> B -> nat -> Prop) pos :
  Q a b pos -> ag (hret a) (pret b) Q pos.
Proof. intros H. split; [reflexivity|exact H]. Qed.

Lemma agree_peek (Q : option Token -> Token -> nat -> Prop) pos :
  pos < n -> Q (Some (tok pos)) (tok pos) pos ->
  ag (Host.Parser.peek tokens) (Parser.peek tokens last_token) Q pos.
Proof.
  intros H HQ. unfold agree.
  rewrite (host_peek_eq tokens last_token pos H), peek_eq.
  split; [reflexivity|exact HQ].
Qed.

Lemma agree_previous (Q : option Token -> Token -> nat -> Prop) pos :
  pos < n -> Q (Some (tok pos)) (tok pos) (S pos) ->
  ag (Host.Parser.previous tokens) (Parser.previous tokens last_token) Q (S pos).
Proof.
  intros H HQ. unfold agree.
  rewrite (host_previous_eq tokens last_token pos H), previous_eq.
  cbn [Nat.sub]. rewrite Nat.sub_0_r. split; [reflexivity|exact HQ].
Qed.

(** [x.value] of a token that is there is its value. *)
Lemma agree_property {A B C} (field : Token -> A) t
    (k' : A -> Host.Parser.M B) (m : Parser.M C) Q pos :
  ag (k' (field t)) m Q pos ->
  ag (hbind (Host.Parser.property field (Some t)) k') m Q pos.
Proof. intros H. exact H. Qed.

Lemma agree_property_ret {A} (field : Token -> A) t
    (Q : A -> A -> nat -> Prop) pos :
  Q (field t) (field t) pos ->
  ag (Host.Parser.property field (Some t)) (pret (field t)) Q pos.
Proof. intros H. split; [reflexivity|exact H]. Qed.

Lemma agree_isAtEnd (Q : bool -> bool -> nat -> Prop) pos :
  pos < n ->
  Q (TokenType_eqb (type (tok pos)) EOF) (TokenType_eqb (type (tok pos)) EOF) pos ->
  ag (Host.Parser.isAtEnd tokens) (Parser.isAtEnd tokens last_token) Q pos.
Proof.
  intros H HQ. unfold agree.
  rewrite (host_isAtEnd_eq tokens last_token pos H), isAtEnd_eq.
  split; [reflexivity|exact HQ].
Qed.

Lemma agree_check ty (Q : bool -> bool -> nat -> Prop) pos :
  pos < n ->
  Q (accepts [ty] (tok pos)) (accepts [ty] (tok pos)) pos ->
  ag (Host.Parser.check tokens ty) (Parser.check tokens last_token ty) Q pos.
Proof.
  intros H HQ. unfold agree.
  rewrite (host_check_eq tokens last_token ty pos H), check_eq.
  split; [reflexivity|exact HQ].
Qed.

Lemma agree_match types (Q : bool -> bool -> nat -> Prop) pos :
  pos < n ->
  (accepts types (tok pos) = true -> S pos < n -> Q true true (S pos)) ->
  (accepts types (tok pos) = false -> Q false false pos) ->
  ag (Host.Parser.match_ tokens types) (Parser.match_ tokens last_token types)
     Q pos.
Proof.
  intros Hpos Hyes Hno. unfold agree.
  rewrite (host_match_eq tokens last_token types pos Hpos), match_eq.
  destruct (accepts types (tok pos)) eqn:H; (split; [reflexivity|]).
  - apply Hyes; [reflexivity|].
    exact (accepted_next tokens last_token Hlast Heof _ _ Hpos H).
  - apply Hno. reflexivity.
Qed.

Lemma agree_consume ty message (Q : option Token -> Token -> nat -> Prop) pos :
  pos < n ->
  (accepts [ty] (tok pos) = true -> S pos < n ->
   Q (Some (tok pos)) (tok pos) (S pos)) ->
  ag (Host.Parser.consume tokens ty message)
     (Parser.consume tokens last_token ty message) Q pos.
Proof.
  intros Hpos Hyes. unfold agree.
  rewrite (host_consume_eq tokens last_token ty message pos Hpos), consume_eq.
  destruct (accepts [ty] (tok pos)) eqn:H.
  - split; [reflexivity|]. apply Hyes; [reflexivity|].
    exact (accepted_next tokens last_token Hlast Heof _ _ Hpos H).
  - repeat split. exact Hpos.
Qed.

Lemma agree_throw {A B} message t (Q : A -> B -> nat -> Prop) pos :
  pos < n ->
  ag (Host.Parser.throw message (Some t)) (Parser.throw message t) Q pos.
Proof. intros H. repeat split. exact H. Qed.

Lemma agreeing_from {A} (p q : nat) (m' : Host.Parser.M A) (m : Parser.M A) :
  agreeing tokens p m' m -> p <= q -> agreeing tokens q m' m.
Proof. intros H Hpq pos Hpos Hn. apply H; lia. Qed.

(** *** The loops *)

Ltac same_value := unfold onward, onward_or_here; split; [congruence|lia].

Ltac agree_step :=
  lazymatch goal with
  | |- agree _ (Host.Parser.bind (Host.Parser.property _ (Some _)) _) _ _ _ =>
      apply agree_property; cbv beta
  | |- agree _ (Host.Parser.property _ (Some _)) (Parser.ret _) _ _ =>
      apply agree_property_ret
  | |- agree _ (Host.Parser.bind _ _) (Parser.bind _ _) _ _ => apply agree_bind
  | |- agree _ (Host.Parser.ret _) (Parser.ret _) _ _ => apply agree_ret
  | |- agree _ (Host.Parser.peek _) (Parser.peek _ _) _ _ =>
      apply agree_peek; [lia|]
  | |- agree _ (Host.Parser.previous _) (Parser.previous _ _) _ _ =>
      apply agree_previous; [lia|]
  | |- agree _ (Host.Parser.isAtEnd _) (Parser.isAtEnd _ _) _ _ =>
      apply agree_isAtEnd; [lia|]
  | |- agree _ (Host.Parser.check _ _) (Parser.check _ _ _) _ _ =>
      apply agree_check; [lia|]
  | |- agree _ (Host.Parser.match_ _ _) (Parser.match_ _ _ _) _ _ =>
      apply agree_match; [lia|intros ? ?|intros ?]
  | |- agree _ (Host.Parser.consume _ _ _) (Parser.consume _ _ _ _) _ _ =>
      apply agree_consume; [lia|intros ? ?]
  | |- agree _ (Host.Parser.throw _ (Some _)) (Parser.throw _ _) _ _ =>
      apply agree_throw; lia
  | H : agreeing _ _ ?m' ?m |- agree _ ?m' ?m _ ?q =>
      eapply agree_mono;
      [apply (H q); lia|unfold onward; intros ? ? ? [<- ?]]
  | |- agree _ (if negb ?b then _ else _) (if negb ?b then _ else _) _ _ =>
      destruct b eqn:?; cbn [negb andb]
  | |- agree _ (if ?b then _ else _) (if ?b then _ else _) _ _ =>
      destruct b eqn:?
  | |- onward _ _ _ _ _ => same_value
  | |- onward_or_here _ _ _ _ _ => same_value
  | |- _ = _ /\ _ < _ < _ => same_value
  | |- _ = _ /\ _ <= _ < _ => same_value
  end.

Ltac by_agreeing := first [assumption | eapply agreeing_from; [eassumption|lia]].

Ltac agree_at H :=
  lazymatch goal with
  | |- agree _ _ _ _ ?q =>
      eapply agree_mono;
      [apply (H q)|unfold onward, onward_or_here; intros ? ? ? [<- ?]]
  end.

Lemma agree_comma_loop {A} (element' : Host.Parser.M A) (element : Parser.M A)
    (turns : nat) :
  forall fuel pos,
    pos < n -> n - 1 - pos < turns -> n - 1 - pos < fuel ->
    agreeing tokens pos element' element ->
    ag (Host.Parser.comma_loop tokens element' turns)
       (Parser.comma_loop tokens last_token element fuel)
       (onward tokens pos) pos.
Proof.
  induction turns as [|turns IH]; intros fuel pos Hpos Hturns Hfuel Helement;
    [lia|].
  destruct fuel as [|fuel]; [lia|].
  cbn [Host.Parser.comma_loop Parser.comma_loop]. repeat agree_step.
  eapply agree_mono;
    [apply (IH fuel); [lia|lia|lia|by_agreeing]
    |unfold onward; intros ? ? ? [<- ?]].
  repeat agree_step.
Qed.

Lemma agree_block_loop (declaration' : Host.Parser.M ASTNode)
    (declaration_ : Parser.M ASTNode) (turns : nat) :
  forall fuel pos,
    pos < n -> n - 1 - pos < turns -> n - 1 - pos < fuel ->
    agreeing tokens pos declaration' declaration_ ->
    ag (Host.Parser.block_loop tokens declaration' turns)
       (Parser.block_loop tokens last_token declaration_ fuel)
       (onward_or_here tokens pos) pos.
Proof.
  induction turns as [|turns IH]; intros fuel pos Hpos Hturns Hfuel Hdecl; [lia|].
  destruct fuel as [|fuel]; [lia|].
  cbn [Host.Parser.block_loop Parser.block_loop].
  apply agree_bind, agree_check; [lia|].
  destruct (accepts [RBRACE] (tok pos)) eqn:Hbrace; cbn [negb andb].
  - apply agree_bind.
    unfold agree. rewrite isAtEnd_eq. cbn. split; [reflexivity|].
    split; [reflexivity|]. same_value.
  - apply agree_bind, agree_isAtEnd; [lia|].
    destruct (TokenType_eqb (type (tok pos)) EOF) eqn:Hend; cbn [negb andb].
    + repeat agree_step.
    + repeat agree_step.
      eapply agree_mono;
        [apply (IH fuel); [lia|lia|lia|by_agreeing]
        |unfold onward_or_here; intros ? ? ? [<- ?]].
      repeat agree_step.
Qed.

Lemma agree_binary_loop types (operand' : Host.Parser.M ASTNode)
    (operand : Parser.M ASTNode) (turns : nat) :
  forall fuel pos expr,
    pos < n -> n - 1 - pos < turns -> n - 1 - pos < fuel ->
    agreeing tokens (S pos) operand' operand ->
    ag (Host.Parser.binary_loop tokens types operand' turns expr)
       (Parser.binary_loop tokens last_token types operand fuel expr)
       (onward_or_here tokens pos) pos.
Proof.
  induction turns as [|turns IH];
    intros fuel pos expr Hpos Hturns Hfuel Hoperand; [lia|].
  destruct fuel as [|fuel]; [lia|].
  cbn [Host.Parser.binary_loop Parser.binary_loop]. repeat agree_step.
  eapply agree_mono;
    [apply (IH fuel); [lia|lia|lia|by_agreeing]
    |unfold onward_or_here; intros ? ? ? [<- ?]].
  repeat agree_step.
Qed.

Lemma agree_binary types (operand' : Host.Parser.M ASTNode)
    (operand : Parser.M ASTNode) (fuel : nat) pos :
  pos < n -> n - 1 - pos < fuel ->
  agreeing tokens pos operand' operand ->
  ag (Host.Parser.binary tokens types operand')
     (Parser.binary tokens last_token types operand fuel)
     (onward tokens pos) pos.
Proof.
  intros Hpos Hfuel Hoperand. unfold Host.Parser.binary, Parser.binary.
  repeat agree_step.
  eapply agree_mono;
    [apply (agree_binary_loop types operand' operand n fuel);
     [lia|lia|lia|by_agreeing]
    |unfold onward_or_here; intros ? ? ? [<- ?]].
  repeat agree_step.
Qed.

Lemma agree_finishCall (expression' : Host.Parser.M ASTNode)
    (expression_ : Parser.M ASTNode) (fuel : nat) callee pos :
  pos < n -> n - 1 - pos < fuel ->
  agreeing tokens pos expression' expression_ ->
  ag (Host.Parser.finishCall tokens expression' callee)
     (Parser.finishCall tokens last_token expression_ fuel callee)
     (onward tokens pos) pos.
Proof.
  intros Hpos Hfuel Hexpr. unfold Host.Parser.finishCall, Parser.finishCall.
  repeat agree_step.
  eapply agree_mono;
    [apply (agree_comma_loop expression' expression_ n fuel);
     [lia|lia|lia|by_agreeing]
    |unfold onward; intros ? ? ? [<- ?]].
  repeat agree_step.
Qed.

Lemma agree_call_loop (expression' : Host.Parser.M ASTNode)
    (expression_ : Parser.M ASTNode) (turns : nat) :
  forall fuel pos expr,
    pos < n -> n - 1 - pos < turns -> n - 1 - pos < fuel ->
    agreeing tokens (S pos) expression' expression_ ->
    ag (Host.Parser.call_loop tokens expression' turns expr)
       (Parser.call_loop tokens last_token expression_ fuel expr)
       (onward_or_here tokens pos) pos.
Proof.
  induction turns as [|turns IH];
    intros fuel pos expr Hpos Hturns Hfuel Hexpr; [lia|].
  destruct fuel as [|fuel]; [lia|].
  cbn [Host.Parser.call_loop Parser.call_loop]. repeat agree_step.
  lazymatch goal with
  | |- agree _ (Host.Parser.finishCall _ ?e' ?c) _ _ ?q =>
      eapply agree_mono;
      [apply (agree_finishCall e' expression_ fuel c q); [lia|lia|by_agreeing]
      |unfold onward; intros ? ? ? [<- ?]]
  end.
  eapply agree_mono;
    [apply (IH fuel); [lia|lia|lia|by_agreeing]
    |unfold onward_or_here; intros ? ? ? [<- ?]].
  repeat agree_step.
Qed.

(** *** The statements *)

Ltac agree_loop_step :=
  lazymatch goal with
  | |- agree _ (Host.Parser.comma_loop _ ?e' ?k') (Parser.comma_loop _ _ ?e ?k) _ ?q =>
      eapply agree_mono;
      [eapply (agree_comma_loop e' e k' k q); [lia|lia|lia|by_agreeing]
      |unfold onward; intros ? ? ? [<- ?]]
  | |- agree _ (Host.Parser.block_loop _ ?d' ?k') (Parser.block_loop _ _ ?d ?k) _ ?q =>
      eapply agree_mono;
      [apply (agree_block_loop d' d k' k q); [lia|lia|lia|by_agreeing]
      |unfold onward_or_here; intros ? ? ? [<- ?]]
  | _ => agree_step
  end.

Lemma agree_varDeclaration (expression' : Host.Parser.M ASTNode)
    (expression_ : Parser.M ASTNode) pos :
  pos < n ->
  agreeing tokens (S pos) expression' expression_ ->
  ag (Host.Parser.varDeclaration tokens expression')
     (Parser.varDeclaration tokens last_token expression_)
     (onward tokens pos) pos.
Proof.
  intros Hpos Hexpr. unfold Host.Parser.varDeclaration, Parser.varDeclaration.
  repeat agree_step.
Qed.

Lemma agree_expressionStatement (expression' : Host.Parser.M ASTNode)
    (expression_ : Parser.M ASTNode) pos :
  pos < n ->
  agreeing tokens pos expression' expression_ ->
  ag (Host.Parser.expressionStatement tokens expression')
     (Parser.expressionStatement tokens last_token expression_)
     (onward tokens pos) pos.
Proof.
  intros Hpos Hexpr.
  unfold Host.Parser.expressionStatement, Parser.expressionStatement.
  repeat agree_step.
Qed.

Lemma agree_parameter p :
  agreeing tokens p
    (hbind (Host.Parser.consume tokens IDENTIFIER "Expected parameter name")
           (fun p => Host.Parser.property value p))
    (pbind (Parser.consume tokens last_token IDENTIFIER "Expected parameter name")
           (fun p => pret (value p))).
Proof. intros q Hq Hn. repeat agree_step. Qed.

Lemma agree_functionDeclaration (declaration' : Host.Parser.M ASTNode)
    (declaration_ : Parser.M ASTNode) (fuel : nat) pos :
  pos < n -> n - 1 - pos < fuel ->
  agreeing tokens (S pos) declaration' declaration_ ->
  ag (Host.Parser.functionDeclaration tokens declaration')
     (Parser.functionDeclaration tokens last_token declaration_ fuel)
     (onward tokens pos) pos.
Proof.
  intros Hpos Hfuel Hdecl.
  unfold Host.Parser.functionDeclaration, Parser.functionDeclaration.
  pose proof (agree_parameter (S (S pos))) as Hparam.
  repeat agree_loop_step.
Qed.

Lemma agree_ifStatement (expression' statement' : Host.Parser.M ASTNode)
    (expression_ statement_ : Parser.M ASTNode) pos :
  pos < n ->
  agreeing tokens (S pos) expression' expression_ ->
  agreeing tokens (S pos) statement' statement_ ->
  ag (Host.Parser.ifStatement tokens expression' statement')
     (Parser.ifStatement tokens last_token expression_ statement_)
     (onward tokens pos) pos.
Proof.
  intros Hpos Hexpr Hstmt. unfold Host.Parser.ifStatement, Parser.ifStatement.
  repeat agree_step.
Qed.

Lemma agree_whileStatement (expression' statement' : Host.Parser.M ASTNode)
    (expression_ statement_ : Parser.M ASTNode) pos :
  pos < n ->
  agreeing tokens (S pos) expression' expression_ ->
  agreeing tokens (S pos) statement' statement_ ->
  ag (Host.Parser.whileStatement tokens expression' statement')
     (Parser.whileStatement tokens last_token expression_ statement_)
     (onward tokens pos) pos.
Proof.
  intros Hpos Hexpr Hstmt.
  unfold Host.Parser.whileStatement, Parser.whileStatement.
  repeat agree_step.
Qed.

Lemma agree_returnStatement (expression' : Host.Parser.M ASTNode)
    (expression_ : Parser.M ASTNode) pos :
  pos < n ->
  agreeing tokens pos expression' expression_ ->
  ag (Host.Parser.returnStatement tokens expression')
     (Parser.returnStatement tokens last_token expression_)
     (onward tokens pos) pos.
Proof.
  intros Hpos Hexpr.
  unfold Host.Parser.returnStatement, Parser.returnStatement.
  repeat agree_step.
Qed.

Lemma agree_blockStatement (declaration' : Host.Parser.M ASTNode)
    (declaration_ : Parser.M ASTNode) (fuel : nat) pos :
  pos < n -> n - 1 - pos < fuel ->
  agreeing tokens pos declaration' declaration_ ->
  ag (Host.Parser.blockStatement tokens declaration')
     (Parser.blockStatement tokens last_token declaration_ fuel)
     (onward tokens pos) pos.
Proof.
  intros Hpos Hfuel Hdecl.
  unfold Host.Parser.blockStatement, Parser.blockStatement.
  repeat agree_loop_step.
Qed.

Lemma agree_forStatement (expression' statement' : Host.Parser.M ASTNode)
    (expression_ statement_ : Parser.M ASTNode) pos :
  pos < n ->
  agreeing tokens (S pos) expression' expression_ ->
  agreeing tokens (S pos) statement' statement_ ->
  ag (Host.Parser.forStatement tokens expression' statement')
     (Parser.forStatement tokens last_token expression_ statement_)
     (onward tokens pos) pos.
Proof.
  intros Hpos Hexpr Hstmt.
  unfold Host.Parser.forStatement, Parser.forStatement,
    Host.Parser.varDeclaration, Parser.varDeclaration,
    Host.Parser.expressionStatement, Parser.expressionStatement.
  repeat agree_step.
Qed.

Lemma agree_assignment_target expr value_ (Q : ASTNode -> ASTNode -> nat -> Prop) pos :
  0 < pos < n ->
  (forall name, expr = Identifier name ->
                Q (AssignmentExpression name value_)
                  (AssignmentExpression name value_) pos) ->
  ag (match expr with
      | Identifier name => hret (AssignmentExpression name value_)
      | _ => hbind (Host.Parser.previous tokens)
               (fun p => Host.Parser.throw "Invalid assignment target" p)
      end)
     (match expr with
      | Identifier name => pret (AssignmentExpression name value_)
      | _ => pbind (Parser.previous tokens last_token)
               (fun p => Parser.throw "Invalid assignment target" p)
      end) Q pos.
Proof.
  intros Hpos HQ. destruct pos as [|before]; [lia|].
  destruct expr;
    try (apply agree_ret, HQ; reflexivity);
    (apply agree_bind, agree_previous; [lia|]; apply agree_throw; lia).
Qed.

(** *** The grammar *)

Ltac agree_grammar_step :=
  lazymatch goal with
  | |- agree _ (Host.Parser.varDeclaration _ ?e') (Parser.varDeclaration _ _ ?e) _ ?q =>
      eapply agree_mono;
      [apply (agree_varDeclaration e' e q); [lia|by_agreeing]
      |unfold onward; intros ? ? ? [<- ?]]
  | |- agree _ (Host.Parser.functionDeclaration _ ?d')
               (Parser.functionDeclaration _ _ ?d ?k) _ ?q =>
      eapply agree_mono;
      [apply (agree_functionDeclaration d' d k q); [lia|lia|by_agreeing]
      |unfold onward; intros ? ? ? [<- ?]]
  | |- agree _ (Host.Parser.ifStatement _ ?e' ?s') (Parser.ifStatement _ _ ?e ?s) _ ?q =>
      eapply agree_mono;
      [apply (agree_ifStatement e' s' e s q); [lia|by_agreeing|by_agreeing]
      |unfold onward; intros ? ? ? [<- ?]]
  | |- agree _ (Host.Parser.whileStatement _ ?e' ?s')
               (Parser.whileStatement _ _ ?e ?s) _ ?q =>
      eapply agree_mono;
      [apply (agree_whileStatement e' s' e s q); [lia|by_agreeing|by_agreeing]
      |unfold onward; intros ? ? ? [<- ?]]
  | |- agree _ (Host.Parser.forStatement _ ?e' ?s') (Parser.forStatement _ _ ?e ?s) _ ?q =>
      eapply agree_mono;
      [apply (agree_forStatement e' s' e s q); [lia|by_agreeing|by_agreeing]
      |unfold onward; intros ? ? ? [<- ?]]
  | |- agree _ (Host.Parser.returnStatement _ ?e') (Parser.returnStatement _ _ ?e) _ ?q =>
      eapply agree_mono;
      [apply (agree_returnStatement e' e q); [lia|by_agreeing]
      |unfold onward; intros ? ? ? [<- ?]]
  | |- agree _ (Host.Parser.blockStatement _ ?d')
               (Parser.blockStatement _ _ ?d ?k) _ ?q =>
      eapply agree_mono;
      [apply (agree_blockStatement d' d k q); [lia|lia|by_agreeing]
      |unfold onward; intros ? ? ? [<- ?]]
  | |- agree _ (Host.Parser.expressionStatement _ ?e')
               (Parser.expressionStatement _ _ ?e) _ ?q =>
      eapply agree_mono;
      [apply (agree_expressionStatement e' e q); [lia|by_agreeing]
      |unfold onward; intros ? ? ? [<- ?]]
  | |- agree _ (Host.Parser.binary _ ?types ?e') (Parser.binary _ _ ?types ?e ?k) _ ?q =>
      eapply agree_mono;
      [apply (agree_binary types e' e k q); [lia|lia|by_agreeing]
      |unfold onward; intros ? ? ? [<- ?]]
  | |- agree _ (Host.Parser.call_loop _ ?e' ?k' ?x) (Parser.call_loop _ _ ?e ?k ?x) _ ?q =>
      eapply agree_mono;
      [apply (agree_call_loop e' e k' k q x); [lia|lia|lia|by_agreeing]
      |unfold onward_or_here; intros ? ? ? [<- ?]]
  | |- agree _ (match _ with Identifier _ => _ | _ => _ end) _ _ _ =>
      apply agree_assignment_target; [lia|intros ? ?]
  | _ => agree_step
  end.

Lemma rank_of_pair (stack fuel rank : nat) m' m :
  In (rank, (m', m)) (grammar_pairs tokens last_token stack fuel) ->
  1 <= rank <= 13.
Proof.
  unfold grammar_pairs. intros Hin.
  repeat (destruct Hin as [Hin|Hin];
          [apply pair_equal_spec in Hin as [<- _]; lia|]).
  destruct Hin.
Qed.

(** With thirteen calls for each token left and [rank] more in the stack
    and in the budget, a function of the grammar answers the same in the
    two readings. *)
Lemma agree_grammar (stack : nat) :
  forall fuel pos rank m' m,
    In (rank, (m', m)) (grammar_pairs tokens last_token stack fuel) ->
    pos < n ->
    13 * (n - 1 - pos) + rank <= stack ->
    13 * (n - 1 - pos) + rank <= fuel ->
    ag m' m (onward tokens pos) pos.
Proof.
  induction stack as [|s IH]; intros fuel pos rank m' m Hin Hpos Hstack Hfuel.
  { apply rank_of_pair in Hin. lia. }
  destruct fuel as [|f]; [apply rank_of_pair in Hin; lia|].
  assert (Hagreeing : forall rank' g' g p,
            In (rank', (g', g)) (grammar_pairs tokens last_token s f) ->
            (forall q, p <= q -> q < n ->
                       13 * (n - 1 - q) + rank' <= s /\
                       13 * (n - 1 - q) + rank' <= f) ->
            agreeing tokens p g' g).
  { intros rank' g' g p Hg Hp q Hq Hn.
    apply (IH f q rank' g' g Hg Hn); apply Hp; lia. }
  assert (Hhere : forall rank' g' g,
            In (rank', (g', g)) (grammar_pairs tokens last_token s f) ->
            S rank' = rank -> agreeing tokens pos g' g).
  { intros rank' g' g Hg Hr. apply (Hagreeing rank' g' g pos Hg).
    intros q Hq Hn. lia. }
  assert (Hnext : forall rank' g' g,
            In (rank', (g', g)) (grammar_pairs tokens last_token s f) ->
            agreeing tokens (S pos) g' g).
  { intros rank' g' g Hg. apply (Hagreeing rank' g' g (S pos) Hg).
    intros q Hq Hn. apply rank_of_pair in Hg. apply rank_of_pair in Hin. lia. }
  pose proof (Hnext 13 _ _ ltac:(unfold grammar_pairs; cbn [In]; tauto))
    as Ndeclaration.
  pose proof (Hnext 12 _ _ ltac:(unfold grammar_pairs; cbn [In]; tauto))
    as Nstatement.
  pose proof (Hnext 11 _ _ ltac:(unfold grammar_pairs; cbn [In]; tauto))
    as Nexpression.
  pose proof (Hnext 10 _ _ ltac:(unfold grammar_pairs; cbn [In]; tauto))
    as Nassignment.
  pose proof (Hnext 3 _ _ ltac:(unfold grammar_pairs; cbn [In]; tauto))
    as Nunary.
  unfold grammar_pairs in Hin.
  repeat (destruct Hin as [Hin|Hin];
          [apply pair_equal_spec in Hin as [<- Hin];
           apply pair_equal_spec in Hin as [<- <-]|]);
    [..|destruct Hin].
  - pose proof (Hhere 12 _ _ ltac:(unfold grammar_pairs; cbn [In]; tauto) eq_refl)
      as Hstatement.
    change (Host.Parser.declaration tokens (S s))
      with (hbind (Host.Parser.match_ tokens [VAR])
              (fun v =>
               if v then Host.Parser.varDeclaration tokens
                           (Host.Parser.expression tokens s)
               else hbind (Host.Parser.match_ tokens [FUNCTION])
                      (fun fn =>
                       if fn then Host.Parser.functionDeclaration tokens
                                    (Host.Parser.declaration tokens s)
                       else Host.Parser.statement tokens s))).
    change (Parser.declaration tokens last_token (S f))
      with (pbind (Parser.match_ tokens last_token [VAR])
              (fun v =>
               if v then Parser.varDeclaration tokens last_token
                           (Parser.expression tokens last_token f)
               else pbind (Parser.match_ tokens last_token [FUNCTION])
                      (fun fn =>
                       if fn then Parser.functionDeclaration tokens last_token
                                    (Parser.declaration tokens last_token f) f
                       else Parser.statement tokens last_token f))).
    repeat agree_grammar_step.
  - pose proof (Hhere 11 _ _ ltac:(unfold grammar_pairs; cbn [In]; tauto) eq_refl)
      as Hexpression.
    change (Host.Parser.statement tokens (S s))
      with (hbind (Host.Parser.match_ tokens [IF])
              (fun i =>
               if i then Host.Parser.ifStatement tokens
                           (Host.Parser.expression tokens s)
                           (Host.Parser.statement tokens s)
               else hbind (Host.Parser.match_ tokens [WHILE])
                 (fun w =>
                  if w then Host.Parser.whileStatement tokens
                              (Host.Parser.expression tokens s)
                              (Host.Parser.statement tokens s)
                  else hbind (Host.Parser.match_ tokens [FOR])
                    (fun fo =>
                     if fo then Host.Parser.forStatement tokens
                                  (Host.Parser.expression tokens s)
                                  (Host.Parser.statement tokens s)
                     else hbind (Host.Parser.match_ tokens [RETURN])
                       (fun r =>
                        if r then Host.Parser.returnStatement tokens
                                    (Host.Parser.expression tokens s)
                        else hbind (Host.Parser.match_ tokens [LBRACE])
                          (fun b =>
                           if b then Host.Parser.blockStatement tokens
                                       (Host.Parser.declaration tokens s)
                           else Host.Parser.expressionStatement tokens
                                  (Host.Parser.expression tokens s))))))).
    change (Parser.statement tokens last_token (S f))
      with (pbind (Parser.match_ tokens last_token [IF])
              (fun i =>
               if i then Parser.ifStatement tokens last_token
                           (Parser.expression tokens last_token f)
                           (Parser.statement tokens last_token f)
               else pbind (Parser.match_ tokens last_token [WHILE])
                 (fun w =>
                  if w then Parser.whileStatement tokens last_token
                              (Parser.expression tokens last_token f)
                              (Parser.statement tokens last_token f)
                  else pbind (Parser.match_ tokens last_token [FOR])
                    (fun fo =>
                     if fo then Parser.forStatement tokens last_token
                                  (Parser.expression tokens last_token f)
                                  (Parser.statement tokens last_token f)
                     else pbind (Parser.match_ tokens last_token [RETURN])
                       (fun r =>
                        if r then Parser.returnStatement tokens last_token
                                    (Parser.expression tokens last_token f)
                        else pbind (Parser.match_ tokens last_token [LBRACE])
                          (fun b =>
                           if b then Parser.blockStatement tokens last_token
                                       (Parser.declaration tokens last_token f) f
                           else Parser.expressionStatement tokens last_token
                                  (Parser.expression tokens last_token f))))))).
    repeat agree_grammar_step.
  - pose proof (Hhere 10 _ _ ltac:(unfold grammar_pairs; cbn [In]; tauto) eq_refl)
      as Hassignment.
    change (Host.Parser.expression tokens (S s))
      with (Host.Parser.assignment tokens s).
    change (Parser.expression tokens last_token (S f))
      with (Parser.assignment tokens last_token f).
    apply Hassignment; lia.
  - pose proof (Hhere 9 _ _ ltac:(unfold grammar_pairs; cbn [In]; tauto) eq_refl)
      as Hor.
    change (Host.Parser.assignment tokens (S s))
      with (hbind (Host.Parser.or_ tokens s)
              (fun expr =>
               hbind (Host.Parser.match_ tokens [ASSIGN])
                 (fun m =>
                  if m then
                    hbind (Host.Parser.assignment tokens s)
                      (fun value_ =>
                       match expr with
                       | Identifier name =>
                           hret (AssignmentExpression name value_)
                       | _ => hbind (Host.Parser.previous tokens)
                                (fun p => Host.Parser.throw
                                            "Invalid assignment target" p)
                       end)
                  else hret expr))).
    change (Parser.assignment tokens last_token (S f))
      with (pbind (Parser.or_ tokens last_token f)
              (fun expr =>
               pbind (Parser.match_ tokens last_token [ASSIGN])
                 (fun m =>
                  if m then
                    pbind (Parser.assignment tokens last_token f)
                      (fun value_ =>
                       match expr with
                       | Identifier name =>
                           pret (AssignmentExpression name value_)
                       | _ => pbind (Parser.previous tokens last_token)
                                (fun p => Parser.throw
                                            "Invalid assignment target" p)
                       end)
                  else pret expr))).
    repeat agree_grammar_step.
  - pose proof (Hhere 8 _ _ ltac:(unfold grammar_pairs; cbn [In]; tauto) eq_refl)
      as Hand.
    change (Host.Parser.or_ tokens (S s))
      with (Host.Parser.binary tokens [OR] (Host.Parser.and_ tokens s)).
    change (Parser.or_ tokens last_token (S f))
      with (Parser.binary tokens last_token [OR]
              (Parser.and_ tokens last_token f) f).
    repeat agree_grammar_step.
  - pose proof (Hhere 7 _ _ ltac:(unfold grammar_pairs; cbn [In]; tauto) eq_refl)
      as Hequality.
    change (Host.Parser.and_ tokens (S s))
      with (Host.Parser.binary tokens [AND] (Host.Parser.equality tokens s)).
    change (Parser.and_ tokens last_token (S f))
      with (Parser.binary tokens last_token [AND]
              (Parser.equality tokens last_token f) f).
    repeat agree_grammar_step.
  - pose proof (Hhere 6 _ _ ltac:(unfold grammar_pairs; cbn [In]; tauto) eq_refl)
      as Hcomparison.
    change (Host.Parser.equality tokens (S s))
      with (Host.Parser.binary tokens [NOT_EQUAL; EQUAL]
              (Host.Parser.comparison tokens s)).
    change (Parser.equality tokens last_token (S f))
      with (Parser.binary tokens last_token [NOT_EQUAL; EQUAL]
              (Parser.comparison tokens last_token f) f).
    repeat agree_grammar_step.
  - pose proof (Hhere 5 _ _ ltac:(unfold grammar_pairs; cbn [In]; tauto) eq_refl)
      as Hterm.
    change (Host.Parser.comparison tokens (S s))
      with (Host.Parser.binary tokens
              [GREATER_THAN; GREATER_EQUAL; LESS_THAN; LESS_EQUAL]
              (Host.Parser.term tokens s)).
    change (Parser.comparison tokens last_token (S f))
      with (Parser.binary tokens last_token
              [GREATER_THAN; GREATER_EQUAL; LESS_THAN; LESS_EQUAL]
              (Parser.term tokens last_token f) f).
    repeat agree_grammar_step.
  - pose proof (Hhere 4 _ _ ltac:(unfold grammar_pairs; cbn [In]; tauto) eq_refl)
      as Hfactor.
    change (Host.Parser.term tokens (S s))
      with (Host.Parser.binary tokens [MINUS; PLUS]
              (Host.Parser.factor tokens s)).
    change (Parser.term tokens last_token (S f))
      with (Parser.binary tokens last_token [MINUS; PLUS]
              (Parser.factor tokens last_token f) f).
    repeat agree_grammar_step.
  - pose proof (Hhere 3 _ _ ltac:(unfold grammar_pairs; cbn [In]; tauto) eq_refl)
      as Hunary_.
    change (Host.Parser.factor tokens (S s))
      with (Host.Parser.binary tokens [DIVIDE; MULTIPLY; MODULO]
              (Host.Parser.unary tokens s)).
    change (Parser.factor tokens last_token (S f))
      with (Parser.binary tokens last_token [DIVIDE; MULTIPLY; MODULO]
              (Parser.unary tokens last_token f) f).
    repeat agree_grammar_step.
  - pose proof (Hhere 2 _ _ ltac:(unfold grammar_pairs; cbn [In]; tauto) eq_refl)
      as Hcall.
    change (Host.Parser.unary tokens (S s))
      with (hbind (Host.Parser.match_ tokens [NOT; MINUS])
              (fun m =>
               if m then
                 hbind (Host.Parser.previous tokens)
                   (fun p =>
                    hbind (Host.Parser.property value p)
                      (fun operator =>
                       hbind (Host.Parser.unary tokens s)
                         (fun right => hret (UnaryExpression operator right))))
               else Host.Parser.call tokens s)).
    change (Parser.unary tokens last_token (S f))
      with (pbind (Parser.match_ tokens last_token [NOT; MINUS])
              (fun m =>
               if m then
                 pbind (Parser.previous tokens last_token)
                   (fun op =>
                    pbind (Parser.unary tokens last_token f)
                      (fun right => pret (UnaryExpression (value op) right)))
               else Parser.call tokens last_token f)).
    repeat agree_grammar_step.
  - pose proof (Hhere 1 _ _ ltac:(unfold grammar_pairs; cbn [In]; tauto) eq_refl)
      as Hprimary.
    change (Host.Parser.call tokens (S s))
      with (hbind (Host.Parser.primary tokens s)
              (fun expr => Host.Parser.call_loop tokens
                             (Host.Parser.expression tokens s) n expr)).
    change (Parser.call tokens last_token (S f))
      with (pbind (Parser.primary tokens last_token f)
              (fun expr => Parser.call_loop tokens last_token
                             (Parser.expression tokens last_token f) f expr)).
    repeat agree_grammar_step.
  - change (Host.Parser.primary tokens (S s))
      with (hbind (Host.Parser.match_ tokens [TRUE])
        (fun t =>
         if t then hret (Literal (JS.VBool true) boolean)
         else hbind (Host.Parser.match_ tokens [FALSE])
           (fun fa =>
            if fa then hret (Literal (JS.VBool false) boolean)
            else hbind (Host.Parser.match_ tokens [NULL])
              (fun n_ =>
               if n_ then hret (Literal JS.VNull null)
               else hbind (Host.Parser.match_ tokens [NUMBER])
                 (fun nu =>
                  if nu then
                    hbind (Host.Parser.previous tokens)
                      (fun p =>
                       hbind (Host.Parser.property value p)
                         (fun lexeme =>
                          hret (Literal (JS.VNum (JS.parseFloat lexeme)) number)))
                  else hbind (Host.Parser.match_ tokens [STRING])
                    (fun st =>
                     if st then
                       hbind (Host.Parser.previous tokens)
                         (fun p =>
                          hbind (Host.Parser.property value p)
                            (fun text => hret (Literal (JS.VStr text) string_)))
                     else hbind (Host.Parser.match_ tokens [IDENTIFIER])
                       (fun i =>
                        if i then
                          hbind (Host.Parser.previous tokens)
                            (fun p =>
                             hbind (Host.Parser.property value p)
                               (fun name => hret (Identifier name)))
                        else hbind (Host.Parser.match_ tokens [LPAREN])
                          (fun l =>
                           if l then
                             hbind (Host.Parser.expression tokens s)
                               (fun expr =>
                                hbind (Host.Parser.consume tokens RPAREN
                                         "Expected ')' after expression")
                                  (fun _ => hret expr))
                           else hbind (Host.Parser.peek tokens)
                                  (fun tk => Host.Parser.throw
                                               "Expected expression" tk))))))))).
    change (Parser.primary tokens last_token (S f))
      with (pbind (Parser.match_ tokens last_token [TRUE])
        (fun t =>
         if t then pret (Literal (JS.VBool true) boolean)
         else pbind (Parser.match_ tokens last_token [FALSE])
           (fun fa =>
            if fa then pret (Literal (JS.VBool false) boolean)
            else pbind (Parser.match_ tokens last_token [NULL])
              (fun n_ =>
               if n_ then pret (Literal JS.VNull null)
               else pbind (Parser.match_ tokens last_token [NUMBER])
                 (fun nu =>
                  if nu then
                    pbind (Parser.previous tokens last_token)
                      (fun p =>
                       pret (Literal (JS.VNum (JS.parseFloat (value p))) number))
                  else pbind (Parser.match_ tokens last_token [STRING])
                    (fun st =>
                     if st then
                       pbind (Parser.previous tokens last_token)
                         (fun p => pret (Literal (JS.VStr (value p)) string_))
                     else pbind (Parser.match_ tokens last_token [IDENTIFIER])
                       (fun i =>
                        if i then
                          pbind (Parser.previous tokens last_token)
                            (fun p => pret (Identifier (value p)))
                        else pbind (Parser.match_ tokens last_token [LPAREN])
                          (fun l =>
                           if l then
                             pbind (Parser.expression tokens last_token f)
                               (fun expr =>
                                pbind (Parser.consume tokens last_token RPAREN
                                         "Expected ')' after expression")
                                  (fun _ => pret expr))
                           else pbind (Parser.peek tokens last_token)
                                  (fun tk => Parser.throw
                                               "Expected expression" tk))))))))).
    repeat agree_grammar_step.
Qed.

(** *** The loop of [parse] *)

Lemma agree_parse_loop (stack turns : nat) :
  13 * n <= stack ->
  forall pos,
    pos < n -> n - 1 - pos < turns ->
    Host.Parser.parse_loop tokens stack turns pos
    = on_host (Parser.parse_loop tokens last_token turns pos).
Proof.
  intros Hstack.
  induction turns as [|turns IH]; intros pos Hpos Hturns; [lia|].
  cbn [Host.Parser.parse_loop Parser.parse_loop].
  unfold Host.Parser.bind at 1, Parser.bind at 1.
  rewrite (host_isAtEnd_eq tokens last_token pos Hpos), isAtEnd_eq.
  destruct (TokenType_eqb (type (tok pos)) EOF) eqn:Hend; [reflexivity|].
  pose proof (next_in_array tokens last_token Hlast Heof pos Hpos Hend) as Hnext.
  assert (Hd : ag (Host.Parser.declaration tokens stack)
                  (Parser.declaration tokens last_token (Parser.depth tokens))
                  (onward tokens pos) pos).
  { apply (agree_grammar stack (Parser.depth tokens) pos 13);
      [unfold grammar_pairs; cbn [In]; tauto|exact Hpos|lia
      |unfold Parser.depth; lia]. }
  unfold agree in Hd.
  destruct (Host.Parser.declaration tokens stack pos)
    as [stmt' pos'|message' token' at'| | |];
    destruct (Parser.declaration tokens last_token (Parser.depth tokens) pos)
      as [stmt pos''|message token at_| |]; try (destruct Hd; fail).
  - destruct Hd as (<- & <- & Hpos').
    unfold Host.Parser.bind, Parser.bind.
    rewrite (IH pos') by lia.
    destruct (Parser.parse_loop tokens last_token turns pos'); reflexivity.
  - destruct Hd as (-> & -> & -> & Hat).
    destruct (host_synchronize tokens last_token Hlast Heof at_ Hat) as [p ->].
    destruct (synchronize_returns tokens last_token Hlast Heof
                (fun _ => true) (fun _ => true)
                (fun _ _ _ => eq_refl) (fun _ _ _ => eq_refl) at_) as [q ->].
    reflexivity.
Qed.

End TwoReadings.

Section OneAnswer.
Import Lexer AST.
Local Open Scope nat_scope.

(** On an array that ends with [EOF] and a stack that holds thirteen
    calls for each token, the parser of the host answers what the parser
    answers. *)
Lemma parse_on_host_agrees (stack : nat) (tokens : list Token) :
  ends_with_EOF tokens ->
  13 * length tokens <= stack ->
  Host.Parser.parse stack tokens = on_host (Parser.parse tokens).
Proof.
  intros Hends Hstack. unfold Host.Parser.parse, Parser.parse.
  destruct (filter_keeps_EOF tokens Hends) as (t & Hl & Ht).
  set (kept := List.filter (fun t => negb (TokenType_eqb (type t) NEWLINE)) tokens)
    in *.
  assert (Hshorter : length kept <= length tokens)
    by apply List.filter_length_le.
  assert (Hlen : 0 < length kept)
    by (destruct kept; [discriminate|cbn; lia]).
  rewrite last_map_Some, Hl.
  rewrite (agree_parse_loop kept t Hl Ht stack (S (length kept))
             ltac:(lia) 0 Hlen ltac:(lia)).
  destruct (Parser.parse_loop kept t (S (length kept)) 0); reflexivity.
Qed.

End OneAnswer.

(** ** What [parse] answers on the host *)

Section HostAnswers.
Import Lexer AST.
Local Open Scope nat_scope.

(** What [parse] answers on a stack it answers on every deeper stack,
    unless it is the [RangeError]. *)
Lemma parse_on_deeper_stack (stack deeper : nat) (tokens : list Token) :
  stack <= deeper ->
  Host.Parser.parse stack tokens = Host.Parser.RangeError \/
  Host.Parser.parse stack tokens = Host.Parser.parse deeper tokens.
Proof.
  intros Hle. unfold Host.Parser.parse.
  set (kept := List.filter (fun t => negb (TokenType_eqb (type t) NEWLINE)) tokens).
  destruct (deeper_parse_loop kept stack deeper (S (length kept)) Hle 0)
    as [-> | ->]; [left|right]; reflexivity.
Qed.

(** On an array that ends with [EOF], the parser of the host answers
    what the parser answers, or throws the [RangeError] on a stack that
    holds fewer than thirteen calls for each token. *)
Lemma parse_on_host (stack : nat) (tokens : list Token) :
  ends_with_EOF tokens ->
  Host.Parser.parse stack tokens = on_host (Parser.parse tokens) \/
  (Host.Parser.parse stack tokens = Host.Parser.RangeError /\
   stack < 13 * length tokens).
Proof.
  intros Hends.
  destruct (Nat.le_gt_cases (13 * length tokens) stack) as [Hle|Hgt].
  - left. apply parse_on_host_agrees; assumption.
  - destruct (parse_on_deeper_stack stack (13 * length tokens) tokens)
      as [H|H]; [lia|right; split; assumption|].
    left. rewrite H. apply parse_on_host_agrees; [exact Hends|lia].
Qed.

(** The three ways [parse] ends in. *)
Lemma parse_returns_throws_the_same (tokens : list Token) (stack : nat) :
  ends_with_EOF tokens ->
  (exists program current,
     Host.Parser.parse stack tokens = Host.Parser.Ok program current) \/
  (exists message token current,
     Host.Parser.parse stack tokens
     = Host.Parser.ParseError message (Some token) current /\
     In message parse_messages /\ In token tokens) \/
  (Host.Parser.parse stack tokens = Host.Parser.RangeError /\
   stack < 13 * length tokens).
Proof.
  intros Hends.
  destruct (parse_on_host stack tokens Hends) as [->|H];
    [|right; right; exact H].
  pose proof (parse_answers (fun _ => true) (fun _ => true) tokens Hends
                (fun _ _ _ => eq_refl) (fun _ _ _ => eq_refl)) as H.
  destruct (Parser.parse tokens) as [program pos|message token at_| |];
    cbn [on_host]; [left; eauto|right; left|destruct H|destruct H].
  exists message, token, at_. destruct H. auto.
Qed.

Lemma compile_on_deeper_stack (stack deeper : nat)
    (language : Language.LanguageDefinition) (source : string) :
  stack <= deeper ->
  Host.compile stack language source = inl (CompileError Host.stack_exhausted) \/
  Host.compile stack language source = Host.compile deeper language source.
Proof.
  intros Hle. unfold Host.compile.
  destruct (tokenize language source) as [tokens|]; [|right; reflexivity].
  destruct (parse_on_deeper_stack stack deeper tokens Hle) as [-> | ->];
    [left; reflexivity|].
  destruct (Host.Parser.parse deeper tokens)
    as [program pos|message [token|] at_| | |]; try (right; reflexivity).
  destruct (generate_on_deeper_stack stack deeper program Hle) as [-> | ->];
    [left|right]; reflexivity.
Qed.

(** The front half on the host answers what [compile] answers, unless
    the call stack is exhausted. *)
Lemma compile_on_host (stack : nat)
    (language : Language.LanguageDefinition) (source : string) :
  Host.compile stack language source = inl (CompileError Host.stack_exhausted) \/
  Host.compile stack language source = compile language source.
Proof.
  unfold Host.compile, compile.
  destruct (tokenize language source) as [tokens|] eqn:Htokens;
    [|right; reflexivity].
  destruct (tokenize_spelled language source tokens Htokens) as [Hends _].
  destruct (parse_on_host stack tokens Hends) as [->|[-> _]];
    [|left; reflexivity].
  destruct (Parser.parse tokens) as [program pos|message token at_| |];
    cbn [on_host]; try (right; reflexivity).
  destruct (generate_or_exhausted stack program) as [-> | ->];
    [left|right]; reflexivity.
Qed.

(** On every array of tokens that ends with [EOF] and on a call stack of
    every depth, [parse] ends in one of three ways: it returns a program;
    it throws a [ParseError] that holds one of the parser's messages and a
    token of the array; or the recursion exhausts the call stack and the
    host throws the [RangeError], which happens only on a stack that holds
    fewer than thirteen calls for each token. It never runs forever and
    never reads a property of [undefined], although [previous] and [peek]
    read the array without a test of the index. What it answers without
    exhausting the stack, it answers on every deeper stack. *)
Theorem parse_returns_throws_ParseError_or_exhausts_the_stack
    (stack : nat) (tokens : list Token) :
  ends_with_EOF tokens ->
  ((exists program current,
      Host.Parser.parse stack tokens = Host.Parser.Ok program current) \/
   (exists message token current,
      Host.Parser.parse stack tokens
      = Host.Parser.ParseError message (Some token) current /\
      In message parse_messages /\ In token tokens) \/
   (Host.Parser.parse stack tokens = Host.Parser.RangeError /\
    stack < 13 * length tokens)) /\
  (forall deeper,
     stack <= deeper ->
     Host.Parser.parse stack tokens = Host.Parser.RangeError \/
     Host.Parser.parse stack tokens = Host.Parser.parse deeper tokens).
Proof.
  intros Hends. split.
  - exact (parse_returns_throws_the_same tokens stack Hends).
  - intros deeper Hle. exact (parse_on_deeper_stack stack deeper tokens Hle).
Qed.

Lemma parse_on_the_stack_witness :
  ends_with_EOF one_tokens /\
  Host.Parser.parse 12 one_tokens = Host.Parser.RangeError /\
  Host.Parser.parse 13 one_tokens
  = Host.Parser.Ok
      {| statements :=
           [ExpressionStatement (Literal (JS.VNum 1) number)] |} 2 /\
  ((exists program current,
      Host.Parser.parse 13 one_tokens = Host.Parser.Ok program current) \/
   (exists message token current,
      Host.Parser.parse 13 one_tokens
      = Host.Parser.ParseError message (Some token) current /\
      In message parse_messages /\ In token one_tokens) \/
   (Host.Parser.parse 13 one_tokens = Host.Parser.RangeError /\
    13 < 13 * length one_tokens)) /\
  (Host.Parser.parse 13 one_tokens = Host.Parser.RangeError \/
   Host.Parser.parse 13 one_tokens = Host.Parser.parse 100 one_tokens).
Proof.
  assert (H : ends_with_EOF one_tokens) by (eexists; split; reflexivity).
  split; [exact H|]. split; [vm_compute; reflexivity|].
  split; [vm_compute; reflexivity|].
  split.
  - exact (proj1 (parse_returns_throws_ParseError_or_exhausts_the_stack
                    13 one_tokens H)).
  - apply (proj2 (parse_returns_throws_ParseError_or_exhausts_the_stack
                    13 one_tokens H) 100).
    lia.
Defined.

(** Whatever the language, the source and the depth of the call stack,
    the lexer, the parser and the generator end in one of four ways: a
    [ParseError] with one of the parser's messages and a token on a line of
    the source, the error of an undefined name, the [RangeError] of the
    exhausted call stack, or bytecode. The [RangeError] comes from the
    parser on a stack that holds fewer than thirteen calls for each token,
    or from the generator on a stack that does not hold the nesting of the
    tree. What the three stages answer without exhausting the stack, they
    answer on every deeper stack. *)
Theorem front_end_answers_on_every_stack
    (stack : nat) (language : Language.LanguageDefinition) (source : string) :
  ((exists message token,
      Host.compile stack language source = inl (SyntaxError message token) /\
      In message parse_messages /\
      on_a_line (1 + newlines source) token) \/
   (exists name,
      Host.compile stack language source
      = inl (CompileError ("Undefined variable: " +:+ name))) \/
   (exists tokens,
      Lexer.tokenize language source = Some tokens /\
      Host.compile stack language source
      = inl (CompileError Host.stack_exhausted) /\
      (stack < 13 * length tokens \/
       exists program current,
         Host.Parser.parse stack tokens = Host.Parser.Ok program current /\
         stack < nesting program)) \/
   (exists bytecode, Host.compile stack language source = inr bytecode)) /\
  (forall deeper,
     stack <= deeper ->
     Host.compile stack language source
     = inl (CompileError Host.stack_exhausted) \/
     Host.compile stack language source
     = Host.compile deeper language source).
Proof.
  split; [|intros deeper Hle; apply compile_on_deeper_stack; exact Hle].
  unfold Host.compile.
  destruct (tokenize_loop_lines language (String.length source) (start source))
    as (front & eof & Hsome & Heof & _ & Hlines); [cbn; lia|cbn; lia|].
  cbn [start cur_line rest] in Hlines.
  unfold tokenize. rewrite Hsome.
  assert (Hends : ends_with_EOF (front ++ [eof]))
    by (exists eof; split; [apply last_snoc|exact Heof]).
  destruct (parse_returns_throws_the_same (front ++ [eof]) stack Hends)
    as [(program & pos & Hparse)|[(message & token & at_ & Hparse & Hm & Ht)
       |[Hparse Hsmall]]]; rewrite Hparse.
  - pose proof (generate_answers stack program) as Hg.
    destruct (Host.Generator.generate stack program) as [bytecode g|message].
    + right. right. right. exists bytecode. reflexivity.
    + destruct Hg as [[name ->]|[-> Hdeep]].
      * right. left. exists name. reflexivity.
      * right. right. left. exists (front ++ [eof])%list.
        split; [reflexivity|]. split; [reflexivity|].
        right. exists program, pos. split; [exact Hparse|exact Hdeep].
  - left. exists message, token. split; [reflexivity|]. split; [exact Hm|].
    rewrite List.Forall_forall in Hlines. exact (Hlines token Ht).
  - right. right. left. exists (front ++ [eof])%list.
    split; [reflexivity|]. split; [reflexivity|]. left. exact Hsmall.
Qed.

Lemma front_end_witness :
  Host.compile 12 Language.english "1;"
  = inl (CompileError Host.stack_exhausted) /\
  Host.compile 13 Language.english "1;" = compile Language.english "1;" /\
  (Host.compile 13 Language.english "1;"
   = inl (CompileError Host.stack_exhausted) \/
   Host.compile 13 Language.english "1;"
   = Host.compile 100 Language.english "1;").
Proof.
  split; [vm_compute; reflexivity|]. split; [vm_compute; reflexivity|].
  apply (proj2 (front_end_answers_on_every_stack 13 Language.english "1;") 100).
  lia.
Defined.

End HostAnswers.
